(** * The needle neural-network module library (python/needle/nn.py)
      and the models built from it (apps/models.py)

    A shallow embedding of the module and parameter discovery mechanism, of
    the layers of nn.py and of the models of apps/models.py, with the
    properties of its specification and further properties of the code.

    - Part I models the object graph of Modules and Parameters as a store of
      Module objects, so that [train()] and [eval()] mutate shared objects.
    - Part II models tensors.  The arithmetic of tensor elements is an
      interface ([Scalar]); what is proved for every instance holds whatever
      the rounding of the element type is, and the statements that need the
      laws of arithmetic are made for the real numbers.  The tensor engine
      itself (needle.autograd, needle.ops, needle.init) is not among the
      sources; its operations are modelled from the specification.
    - Part III transcribes the layers of nn.py and the models of
      apps/models.py.
    - Parts IV to VII hold the lemmas and theorems of the specification.
    - Parts VIII to XIV hold further properties: of discovery, of the
      remaining layers, of the constructors, of the recurrent stacks and of
      the models. *)

From Stdlib Require Import ZArith QArith Reals Lra Lia List.
From stdpp Require Import base option list gmap strings sorting.
Set Warnings "-register-all".

(** * Part I: the object graph of Modules and Parameters *)

(** Python values that the discovery functions of [nn.py] distinguish by
    [isinstance].  A [Parameter] is identified by its object identity [p];
    a [Module] is a reference [a] into the store of Module objects, so that
    the same Module (or Parameter) can be reached along several paths.
    Dictionaries keep their items in insertion order. *)
Inductive value : Type :=
| VParameter (p : nat)
| VModule (a : nat)
| VDict (items : list (string * value))
| VList (vs : list value)
| VTuple (vs : list value)
| VOther.

(** A Module object.  [Module.__init__] binds [self.training = True] before
    any other attribute, so the flag is the first entry of the instance
    dictionary; [attrs] holds the remaining attributes in declaration
    order. *)
Record object : Type := Object { training : bool; attrs : list (string * value) }.

(** The store of Module objects, addressed by object identity. *)
Abbreviation heap := (gmap nat object).

(** [self.__dict__]: the flag is a plain [bool], which no [isinstance] test of
    the discovery functions matches. *)
Definition dict_of (o : object) : list (string * value) :=
  ("training"%string, VOther) :: attrs o.

(** [_unpack_params] (nn.py 15-31) together with [Module.parameters]
    (nn.py 57-59), which it calls on a Module.  [fuel] bounds the depth of the
    Python call stack; [None] is a traversal that did not finish within it. *)
Fixpoint _unpack_params (fuel : nat) (h : heap) (v : value) : option (list nat) :=
  match fuel with
  | 0 => None
  | S fuel =>
      match v with
      | VParameter p => Some [p]
      | VModule a =>
          (* value.parameters(), that is _unpack_params(value.__dict__) *)
          o ← h !! a; _unpack_params fuel h (VDict (dict_of o))
      | VDict items =>
          mjoin <$> mapM (λ kv, _unpack_params fuel h kv.2) items
      | VList vs | VTuple vs =>
          mjoin <$> mapM (_unpack_params fuel h) vs
      | VOther => Some []
      end
  end.

(** [Module.parameters] (nn.py 57-59). *)
Definition Module_parameters (fuel : nat) (h : heap) (self : nat) : option (list nat) :=
  o ← h !! self; _unpack_params fuel h (VDict (dict_of o)).

(** [_child_modules] (nn.py 34-50). *)
Fixpoint _child_modules (fuel : nat) (h : heap) (v : value) : option (list nat) :=
  match fuel with
  | 0 => None
  | S fuel =>
      match v with
      | VModule a =>
          o ← h !! a;
          modules ← _child_modules fuel h (VDict (dict_of o));
          Some (a :: modules)
      | VDict items =>
          mjoin <$> mapM (λ kv, _child_modules fuel h kv.2) items
      | VList vs | VTuple vs =>
          mjoin <$> mapM (_child_modules fuel h) vs
      | VParameter _ | VOther => Some []
      end
  end.

(** [Module._children] (nn.py 61-62): the traversal starts from the instance
    dictionary, not from the Module. *)
Definition Module__children (fuel : nat) (h : heap) (self : nat) : option (list nat) :=
  o ← h !! self; _child_modules fuel h (VDict (dict_of o)).

(** [m.training = b] on the Module object at [m]. *)
Definition set_training (b : bool) (h : heap) (m : nat) : heap :=
  alter (λ o, {| training := b; attrs := attrs o |}) m h.

(** [Module.eval] (nn.py 64-67). *)
Definition Module_eval (fuel : nat) (h : heap) (self : nat) : option heap :=
  let h := set_training false h self in
  ms ← Module__children fuel h self;
  Some (foldl (set_training false) h ms).

(** [Module.train] (nn.py 69-72). *)
Definition Module_train (fuel : nat) (h : heap) (self : nat) : option heap :=
  let h := set_training true h self in
  ms ← Module__children fuel h self;
  Some (foldl (set_training true) h ms).

(** The training flag of the Module at [a]. *)
Definition flag (h : heap) (a : nat) : option bool := training <$> h !! a.

(** ** Module trees *)

(** The unfolding of the object graph below [v] is a finite tree.  This is
    the case exactly when every Module reference is bound in the store and
    no Module is nested below itself ([tree_below_iff]); sharing, one object
    under several paths, is allowed. *)
Inductive tree_below (h : heap) : value → Prop :=
| tb_parameter p : tree_below h (VParameter p)
| tb_other : tree_below h VOther
| tb_module a o :
    h !! a = Some o → Forall (tree_below h) (dict_of o).*2 → tree_below h (VModule a)
| tb_dict items : Forall (tree_below h) items.*2 → tree_below h (VDict items)
| tb_list vs : Forall (tree_below h) vs → tree_below h (VList vs)
| tb_tuple vs : Forall (tree_below h) vs → tree_below h (VTuple vs).

(** A decision procedure for [tree_below]: the unfolding below [v] is
    exhausted within [n] nested calls of the discovery functions. *)
Fixpoint tree_upto (n : nat) (h : heap) (v : value) : bool :=
  match n with
  | 0 => false
  | S n =>
      match v with
      | VModule a =>
          match h !! a with
          | Some o => tree_upto n h (VDict (dict_of o))
          | None => false
          end
      | VDict items => forallb (tree_upto n h) items.*2
      | VList vs | VTuple vs => forallb (tree_upto n h) vs
      | VParameter _ | VOther => true
      end
  end.

(** [reach h v b]: the Module [b] is [v] itself or is reachable from [v]
    through attributes, nested Modules and containers. *)
Inductive reach (h : heap) : value → nat → Prop :=
| reach_self a : reach h (VModule a) a
| reach_module a o v b :
    h !! a = Some o → v ∈ (dict_of o).*2 → reach h v b → reach h (VModule a) b
| reach_dict items v b : v ∈ items.*2 → reach h v b → reach h (VDict items) b
| reach_list vs v b : v ∈ vs → reach h v b → reach h (VList vs) b
| reach_tuple vs v b : v ∈ vs → reach h v b → reach h (VTuple vs) b.

(** The Modules nested below the Module [a]: those reachable from one of its
    attributes. *)
Definition descendant (h : heap) (a b : nat) : Prop :=
  ∃ o, h !! a = Some o ∧ reach h (VDict (dict_of o)) b.

(** Every Module reference that can be reached from [v] is bound in the
    store. *)
Definition bound (h : heap) (v : value) : Prop :=
  ∀ a, reach h v a → is_Some (h !! a).

(** The attribute graph below [v] is acyclic: no Module that can be reached
    from [v] is nested below itself. *)
Definition acyclic (h : heap) (v : value) : Prop :=
  ∀ a, reach h v a → ¬ descendant h a a.

(** Number of nodes of a value, not following Module references. *)
Fixpoint vsize (v : value) : nat :=
  match v with
  | VDict items => S (foldr (λ kv n, vsize kv.2 + n) 0 items)
  | VList vs | VTuple vs => S (foldr (λ w n, vsize w + n) 0 vs)
  | VParameter _ | VModule _ | VOther => 1
  end.

(** [occurs h v π p]: following the path [π] from [v] ends at the Parameter
    [p].  A step is the position of an item in a dictionary (insertion
    order), of an element in a list or tuple, or of an attribute in a
    Module's instance dictionary (declaration order). *)
Inductive occurs (h : heap) : value → list nat → nat → Prop :=
| occ_parameter p : occurs h (VParameter p) [] p
| occ_module a o i v π p :
    h !! a = Some o → (dict_of o).*2 !! i = Some v → occurs h v π p →
    occurs h (VModule a) (i :: π) p
| occ_dict items i v π p :
    items.*2 !! i = Some v → occurs h v π p → occurs h (VDict items) (i :: π) p
| occ_list vs i v π p :
    vs !! i = Some v → occurs h v π p → occurs h (VList vs) (i :: π) p
| occ_tuple vs i v π p :
    vs !! i = Some v → occurs h v π p → occurs h (VTuple vs) (i :: π) p.

(** Paths in traversal order: earlier attribute or element first, then the
    order inside it. *)
Inductive path_lt : list nat → list nat → Prop :=
| path_lt_nil i π : path_lt [] (i :: π)
| path_lt_head i j π ρ : i < j → path_lt (i :: π) (j :: ρ)
| path_lt_tail i π ρ : path_lt π ρ → path_lt (i :: π) (i :: ρ).

(** [enumerates h v πs ps]: [πs] lists, in traversal order and without
    repetition, every path from [v] to a Parameter, and [ps] lists the
    Parameters these paths end at, path by path. *)
Definition enumerates (h : heap) (v : value) (πs : list (list nat)) (ps : list nat) : Prop :=
  Forall2 (occurs h v) πs ps ∧
  (∀ π p, occurs h v π p → π ∈ πs) ∧
  StronglySorted path_lt πs.

(** ** Example object graphs *)

(** [Residual(Sequential(Linear(..), ReLU()))] as laid out by the
    constructors of nn.py, the four Modules starting in different modes. *)
Definition residual_heap : heap :=
  list_to_map
    [ (0, Object true [("fn"%string, VModule 1)]);
      (1, Object false [("modules"%string, VTuple [VModule 2; VModule 3])]);
      (2, Object true [("in_features"%string, VOther); ("out_features"%string, VOther);
                       ("weight"%string, VParameter 0); ("bias"%string, VParameter 1)]);
      (3, Object false []) ].

(** A Module that holds the same Parameter under an attribute and inside a
    list, and a second Parameter as a dictionary value. *)
Definition tied_heap : heap :=
  list_to_map
    [ (0, Object true [("w"%string, VParameter 7);
                       ("extra"%string, VDict [("k"%string, VParameter 8)]);
                       ("tied"%string, VList [VParameter 7])]) ].

(** [qs] is a run of consecutive entries of [ps]. *)
Definition segment_of (qs ps : list nat) : Prop := ∃ l1 l2, ps = l1 ++ qs ++ l2.

(** A Module that holds itself in a list: [m.loop = [m]]. *)
Definition cyclic_heap : heap :=
  list_to_map [ (0, Object true [("loop"%string, VList [VModule 0])]) ].

(** * Part II: tensors *)

(** ** Scalars *)

(** The arithmetic of tensor elements, as the tensor engine exposes it.
    Statements made for every instance hold whatever the rounding of the
    element type is; [R_scalar] below is the instance of exact real
    arithmetic.  [spow x q] is [x ** q] for a Python numeric literal [q],
    [sof_nat n] the conversion of a Python [int]. *)
Class Scalar (F : Type) : Type := {
  szero : F;
  sone : F;
  sadd : F → F → F;
  ssub : F → F → F;
  smul : F → F → F;
  sdiv : F → F → F;
  sneg : F → F;
  spow : F → Q → F;
  sexp : F → F;
  slog : F → F;
  stanh : F → F;
  smax : F → F → F;
  ssqrt : F → F;
  sof_nat : nat → F;
}.

Declare Scope scalar_scope.
Delimit Scope scalar_scope with scalar.
Infix "+" := sadd : scalar_scope.
Infix "-" := ssub : scalar_scope.
Infix "*" := smul : scalar_scope.
Infix "/" := sdiv : scalar_scope.
Notation "- x" := (sneg x) : scalar_scope.
Infix "**" := spow (at level 30, right associativity) : scalar_scope.

(** [x ** q] on real numbers, for the literals that occur in nn.py (2, 0.5,
    -1) and any other integer or rational literal. *)
Definition Rpow_literal (x : R) (q : Q) : R :=
  if Qeq_bool q (1 # 2) then sqrt x
  else match Qden q with
       | 1%positive => powerRZ x (Qnum q)
       | _ => Rpower x (Q2R q)
       end.

#[export] Instance R_scalar : Scalar R := {|
  szero := 0%R;
  sone := 1%R;
  sadd := Rplus;
  ssub := Rminus;
  smul := Rmult;
  sdiv := Rdiv;
  sneg := Ropp;
  spow := Rpow_literal;
  sexp := exp;
  slog := ln;
  stanh := tanh;
  smax := Rmax;
  ssqrt := sqrt;
  sof_nat := INR;
|}.

(** ** Shapes and row-major indexing *)

(** Number of elements of a tensor of shape [sh]. *)
Fixpoint prod (sh : list nat) : nat :=
  match sh with
  | [] => 1
  | d :: sh => d * prod sh
  end.

(** Offset of the multi-index [idx] in the row-major layout of shape [sh]. *)
Fixpoint ravel (sh idx : list nat) : nat :=
  match sh, idx with
  | _ :: sh, i :: idx => i * prod sh + ravel sh idx
  | _, _ => 0
  end.

(** The multi-index at offset [k]. *)
Fixpoint unravel (sh : list nat) (k : nat) : list nat :=
  match sh with
  | [] => []
  | _ :: sh => k / prod sh :: unravel sh (k `mod` prod sh)
  end.

(** [idx] is a valid multi-index for shape [sh]. *)
Definition in_range (sh idx : list nat) : Prop := Forall2 lt idx sh.

(** Insert [x] before position [a]. *)
Definition insert_at {X} (a : nat) (x : X) (l : list X) : list X :=
  take a l ++ x :: drop a l.

(** Exchange the entries at positions [i] and [j]. *)
Definition swap {X} (i j : nat) (l : list X) : list X :=
  match l !! i, l !! j with
  | Some x, Some y => <[i := y]> (<[j := x]> l)
  | _, _ => l
  end.

(** ** Tensors *)

(** Modelled from the spec: the engine's Tensor (needle.autograd is not among
    the sources): "immutable value with a shape [...] and an optional
    gradient-tracking flag", here with its elements in row-major order. *)
Record Tensor (A : Type) : Type := mkTensor {
  shape : list nat;
  data : list A;
  requires_grad : bool;
}.
Arguments mkTensor {A} _ _ _.
Arguments shape {A} _.
Arguments data {A} _.
Arguments requires_grad {A} _.

(** A tensor holds as many elements as its shape says. *)
Definition wf {A} (t : Tensor A) : Prop := length (data t) = prod (shape t).

Definition rank {A} (t : Tensor A) : nat := length (shape t).

(** Modelled from the spec: "tensor construction", the tensor of shape
    [sh] whose element at [idx] is [f idx]. *)
Definition tabulate {A} (sh : list nat) (f : list nat → A) (rg : bool) : Tensor A :=
  mkTensor sh ((λ k, f (unravel sh k)) <$> seq 0 (prod sh)) rg.

(** Modelled from the spec: the element [t[idx]] of a tensor of class
    indices. *)
Definition label (t : Tensor nat) (idx : list nat) : nat :=
  nth (ravel (shape t) idx) (data t) 0.

Section engine.
Context {F : Type} `{Scalar F}.
Local Open Scope scalar_scope.

(** Modelled from the spec: the element [t[idx]] of a tensor. *)
Definition get (t : Tensor F) (idx : list nat) : F :=
  nth (ravel (shape t) idx) (data t) szero.

(** Modelled from the spec: the sum of a sequence of elements, as the
    reductions of the engine form it; the elements are added from the last
    to the first, starting from zero. *)
Definition ssum (l : list F) : F := foldr sadd szero l.

(** Maximum of a non-empty sequence of elements. *)
Definition smaximum (l : list F) : option F :=
  match l with
  | [] => None
  | x :: l => Some (foldl smax x l)
  end.

(** Modelled from the spec: the "detach from gradient tracking" accessor
    of the engine, [t.data]. *)
Definition detach (t : Tensor F) : Tensor F := mkTensor (shape t) (data t) false.

(** Modelled from the spec: [Parameter(t)], "a tagged tensor marking this
    value is trainable"; it tracks gradients. *)
Definition as_Parameter (t : Tensor F) : Tensor F := mkTensor (shape t) (data t) true.
End engine.

(** The operations of the tensor engine that nn.py consumes.  needle.ops
    and the operators of needle.autograd are not among the sources: each
    operation below is modelled from the list in section 6 of the
    specification.  An operand shape that the engine rejects gives [None];
    the result of an operation tracks gradients when an operand does. *)
Module ops.
Section ops.
Context {F : Type} `{Scalar F}.

(** Modelled from the spec: an elementwise operation of the engine on one
    tensor. *)
Definition ewise1 (f : F → F) (a : Tensor F) : Tensor F :=
  mkTensor (shape a) (f <$> data a) (requires_grad a).

(** Modelled from the spec: an elementwise operation of the engine on two
    tensors of one shape. *)
Definition ewise2 (f : F → F → F) (a b : Tensor F) : option (Tensor F) :=
  if decide (shape a = shape b)
  then Some (mkTensor (shape a) (zip_with f (data a) (data b))
                      (requires_grad a || requires_grad b))
  else None.

(** Modelled from the spec: "elementwise add/sub/mul/div", [a + b]. *)
Definition add := ewise2 sadd.

(** Modelled from the spec: "elementwise add/sub/mul/div", [a - b]. *)
Definition sub := ewise2 ssub.

(** Modelled from the spec: "elementwise add/sub/mul/div", [a * b]. *)
Definition multiply := ewise2 smul.

(** Modelled from the spec: "elementwise add/sub/mul/div", [a / b]. *)
Definition divide := ewise2 sdiv.

(** Modelled from the spec: adding a Python number to every element,
    [a + c] and [c + a]. *)
Definition add_scalar (a : Tensor F) (c : F) := ewise1 (λ x, x + c)%scalar a.

(** Modelled from the spec: multiplying every element by a Python number,
    [a * c] and [c * a]. *)
Definition mul_scalar (a : Tensor F) (c : F) := ewise1 (λ x, x * c)%scalar a.

(** Modelled from the spec: dividing every element by a Python number,
    [a / c]. *)
Definition divide_scalar (a : Tensor F) (c : F) := ewise1 (λ x, x / c)%scalar a.

(** Modelled from the spec: "power", every element raised to a Python
    number, [a ** q]. *)
Definition power_scalar (a : Tensor F) (q : Q) := ewise1 (λ x, x ** q)%scalar a.

(** Modelled from the spec: [-a]. *)
Definition negate := ewise1 sneg.

(** Modelled from the spec: "exp". *)
Definition exp := ewise1 sexp.

(** Modelled from the spec: [ops.tanh]. *)
Definition tanh := ewise1 stanh.

(** Modelled from the spec: [ops.relu], the maximum of each element and
    zero. *)
Definition relu := ewise1 (λ x, smax x szero).

(** Modelled from the spec: "reshape", the same elements in the same
    row-major order under another shape with as many elements. *)
Definition reshape (a : Tensor F) (sh : list nat) : option (Tensor F) :=
  if decide (prod sh = prod (shape a))
  then Some (mkTensor sh (data a) (requires_grad a))
  else None.

(** Modelled from the spec: "broadcast-to-shape"; an axis of size 1 is
    repeated, any other axis keeps its size. *)
Definition broadcastable (sh sh' : list nat) : bool :=
  (length sh =? length sh') &&
  forallb (λ '(d, d'), (d =? d') || (d =? 1)) (zip sh sh').

(** Modelled from the spec: "broadcast-to-shape". *)
Definition broadcast_to (a : Tensor F) (sh : list nat) : option (Tensor F) :=
  if broadcastable (shape a) sh
  then Some (tabulate sh
               (λ idx, get a (zip_with (λ d i, if d =? 1 then 0 else i) (shape a) idx))
               (requires_grad a))
  else None.

(** Modelled from the spec: "transpose-of-two-axes". *)
Definition transpose (a : Tensor F) (axes : nat * nat) : option (Tensor F) :=
  let '(i, j) := axes in
  if decide (i < rank a ∧ j < rank a)
  then Some (tabulate (swap i j (shape a)) (λ idx, get a (swap i j idx))
                      (requires_grad a))
  else None.

(** Modelled from the spec: "sum-reduction" over one axis, which
    disappears from the shape. *)
Definition sum_axis (a : Tensor F) (axis : nat) : option (Tensor F) :=
  d ← shape a !! axis;
  Some (tabulate (delete axis (shape a))
          (λ idx, ssum ((λ k, get a (insert_at axis k idx)) <$> seq 0 d))
          (requires_grad a)).

(** Modelled from the spec: "sum-reduction over a given axis set",
    [a.sum(axes)]; [a.sum()] reduces to a single element.  nn.py reduces
    over one axis at a time, other axis sets are not modelled. *)
Definition summation (a : Tensor F) (axes : option (list nat)) : option (Tensor F) :=
  match axes with
  | None => Some (mkTensor [] [ssum (data a)] (requires_grad a))
  | Some [axis] => sum_axis a axis
  | Some _ => None
  end.

(** Modelled from the spec: "matrix multiply", [a @ b] for two
    matrices. *)
Definition matmul (a b : Tensor F) : option (Tensor F) :=
  match shape a, shape b with
  | [m; k], [k'; n] =>
      if decide (k = k')
      then Some (tabulate [m; n]
                   (λ idx, match idx with
                           | [i; j] =>
                               ssum ((λ l, get a [i; l] * get b [l; j])%scalar
                                       <$> seq 0 k)
                           | _ => szero
                           end)
                   (requires_grad a || requires_grad b))
      else None
  | _, _ => None
  end.

(** Modelled from the spec: "a numerically stable log-sum-exp
    reduction" over one axis: the maximum is subtracted before [exp] and
    added back after [log]. *)
Definition logsumexp (a : Tensor F) (axes : list nat) : option (Tensor F) :=
  match axes with
  | [axis] =>
      d ← shape a !! axis;
      if decide (d = 0) then None
      else Some (tabulate (delete axis (shape a))
                   (λ idx,
                      let z := (λ k, get a (insert_at axis k idx)) <$> seq 0 d in
                      let m := default szero (smaximum z) in
                      slog (ssum ((λ x, sexp (x - m)%scalar) <$> z)) + m)%scalar
                   (requires_grad a))
  | _ => None
  end.

(** Modelled from the spec: "split of a tensor along an axis into one
    tensor per index". *)
Definition split (a : Tensor F) (axis : nat) : option (list (Tensor F)) :=
  d ← shape a !! axis;
  Some ((λ k, tabulate (delete axis (shape a))
                (λ idx, get a (insert_at axis k idx)) (requires_grad a))
          <$> seq 0 d).

(** Modelled from the spec: "stack of a sequence of same-shape tensors
    along a new axis". *)
Definition stack (ts : list (Tensor F)) (axis : nat) : option (Tensor F) :=
  match ts with
  | [] => None
  | t0 :: _ =>
      if decide (Forall (λ t, shape t = shape t0) ts ∧ axis ≤ rank t0)
      then Some (tabulate (insert_at axis (length ts) (shape t0))
                   (λ idx, get (nth (nth axis idx 0) ts t0) (delete axis idx))
                   (existsb requires_grad ts))
      else None
  end.

(** Modelled from the spec: the input of the convolution with [padding]
    zeros added on each side of both spatial axes. *)
Definition padded (a : Tensor F) (padding : nat) (idx : list nat) : F :=
  match shape a, idx with
  | [_; h; w; _], [n; y; x; c] =>
      if decide (padding ≤ y < h + padding ∧ padding ≤ x < w + padding)
      then get a [n; y - padding; x - padding; c] else szero
  | _, _ => szero
  end.

(** Modelled from the spec: "a 2D convolution primitive taking
    channel-last input/kernel, stride, and padding": the input [a] is
    (N, H, W, C_in), the kernel [w] is (K, K, C_in, C_out); the kernel is
    placed at every [stride]-th position of the padded input at which it
    fits, which makes floor((H + 2*padding - K) / stride) + 1 positions
    per axis. *)
Definition conv (a w : Tensor F) (stride padding : nat) : option (Tensor F) :=
  match shape a, shape w with
  | [n; h; w_; c_in], [k; k'; c_in'; c_out] =>
      if decide (k = k' ∧ c_in = c_in' ∧ 0 < stride
                 ∧ k ≤ h + 2 * padding ∧ k ≤ w_ + 2 * padding)
      then Some (tabulate
                   [n; (h + 2 * padding - k) / stride + 1;
                       (w_ + 2 * padding - k) / stride + 1; c_out]
                   (λ idx,
                      match idx with
                      | [b; i; j; co] =>
                          ssum ((λ ki,
                            ssum ((λ kj,
                              ssum ((λ ci,
                                smul (padded a padding
                                        [b; i * stride + ki; j * stride + kj; ci])
                                     (get w [ki; kj; ci; co])) <$> seq 0 c_in))
                              <$> seq 0 k)) <$> seq 0 k)
                      | _ => szero
                      end)
                   (requires_grad a || requires_grad w))
      else None
  | _, _ => None
  end.
End ops.
End ops.

(** The initializers of needle.init (not among the sources) that produce
    fixed values. *)
Module init.
Section init.
Context {F : Type} `{Scalar F}.

(** Modelled from the spec: the initializer "zeros(shape)". *)
Definition zeros (sh : list nat) : Tensor F := tabulate sh (λ _, szero) false.

(** Modelled from the spec: the initializer "ones(shape)". *)
Definition ones (sh : list nat) : Tensor F := tabulate sh (λ _, sone) false.

(** Modelled from the spec: "a one-hot encoding constructor": row [b] of
    the result is row [i[b]] of the [n] by [n] identity matrix; an index
    outside [0, n) is rejected. *)
Definition one_hot (n : nat) (i : Tensor nat) : option (Tensor F) :=
  if decide (Forall (λ c, c < n) (data i))
  then Some (tabulate (shape i ++ [n])
               (λ idx, if decide (last idx = Some (label i (removelast idx)))
                       then sone else szero)
               false)
  else None.
End init.
End init.

(** [denotes t sh f rg]: [t] is the tensor of shape [sh] with element
    [f idx] at every valid multi-index [idx] and gradient flag [rg]. *)
Definition denotes {F} `{Scalar F} (t : Tensor F) (sh : list nat)
    (f : list nat → F) (rg : bool) : Prop :=
  shape t = sh ∧ wf t ∧ requires_grad t = rg ∧
  ∀ idx, in_range sh idx → get t idx = f idx.

(** * Part III: the layers of nn.py *)

(** ** Mutable state and exceptions *)

(** A Python method that may rebind attributes of [self] (or draw from a
    random generator) and may raise: it returns the state it leaves behind
    together with its result, [None] when it raised.  What was rebound before
    an exception stays rebound. *)
Definition Run (St A : Type) : Type := St → option A * St.

#[export] Instance Run_ret {St} : MRet (Run St) := λ A x s, (Some x, s).

#[export] Instance Run_bind {St} : MBind (Run St) := λ A B k m s,
  match m s with
  | (Some x, s') => k x s'
  | (None, s') => (None, s')
  end.

(** The result of an engine operation, or the exception it raised. *)
Definition lift {St A} (o : option A) : Run St A := λ s, (o, s).

(** [assert c] *)
Definition assert {St} (c : Prop) `{Decision c} : Run St unit :=
  λ s, (if decide c then Some () else None, s).

(** Reading [self], and rebinding one of its attributes. *)
Definition self_ {St} : Run St St := λ s, (Some s, s).
Definition rebind {St} (f : St → St) : Run St unit := λ s, (Some (), f s).

(** ** Stateless layers *)

(** [ReLU.forward] (nn.py 132-134) *)
Module ReLU.
Definition forward {F} `{Scalar F} (X : Tensor F) : Tensor F := ops.relu X.
End ReLU.

(** [Tanh.forward] (nn.py 137-139) *)
Module Tanh.
Definition forward {F} `{Scalar F} (X : Tensor F) : Tensor F := ops.tanh X.
End Tanh.

(** [Sigmoid.forward] (nn.py 142-147): [(1 + ops.exp(-X)) ** (-1)] *)
Module Sigmoid.
Definition forward {F} `{Scalar F} (X : Tensor F) : Tensor F :=
  ops.power_scalar (ops.add_scalar (ops.exp (ops.negate X)) sone) (-1).
End Sigmoid.

(** What [Sigmoid.forward] does to one element. *)
Definition sigmoid_elt {F} `{Scalar F} (x : F) : F :=
  spow (sadd (sexp (sneg x)) sone) (-1).

(** ** SoftmaxLoss (nn.py 163-166) *)
Module SoftmaxLoss.
Section SoftmaxLoss.
Context {F : Type} `{Scalar F}.

Definition forward (logits : Tensor F) (y : Tensor nat) : option (Tensor F) :=
  batch ← shape logits !! 0;
  classes ← shape logits !! 1;
  (* one_hot = init.one_hot(n=logits.shape[1], i=y, device=y.device) *)
  one_hot ← init.one_hot classes y;
  (* ops.logsumexp(logits, axes=(1,)) - (logits * one_hot).sum((1,)) *)
  lse ← ops.logsumexp logits [1];
  picked ← ops.multiply logits one_hot;
  true_logit ← ops.summation picked (Some [1]);
  diff ← ops.sub lse true_logit;
  (* (...).sum() / logits.shape[0] *)
  total ← ops.summation diff None;
  Some (ops.divide_scalar total (sof_nat batch)).
End SoftmaxLoss.
End SoftmaxLoss.

(** ** BatchNorm1d (nn.py 170-229) *)
Module BatchNorm1d.
Section BatchNorm1d.
Context {F : Type} `{Scalar F}.

Record t : Type := mk {
  training : bool;
  dim : nat;
  eps : F;
  momentum : F;
  weight : Tensor F;
  bias : Tensor F;
  running_mean : Tensor F;
  running_var : Tensor F;
}.

(** [__init__] (nn.py 171-203) *)
Definition __init__ (dim : nat) (eps momentum : F) : t :=
  {| training := true;
     dim := dim;
     eps := eps;
     momentum := momentum;
     weight := as_Parameter (init.ones [dim]);
     bias := as_Parameter (init.zeros [dim]);
     running_mean := init.zeros [dim];
     running_var := init.ones [dim] |}.

(** [self.running_mean = v] and [self.running_var = v] *)
Definition set_running_mean (v : Tensor F) (self : t) : t :=
  mk (training self) (dim self) (eps self) (momentum self) (weight self) (bias self)
     v (running_var self).

Definition set_running_var (v : Tensor F) (self : t) : t :=
  mk (training self) (dim self) (eps self) (momentum self) (weight self) (bias self)
     (running_mean self) v.

(** [(1 - self.momentum) * running + self.momentum * stat.data] *)
Definition smooth (self : t) (running stat : Tensor F) : option (Tensor F) :=
  ops.add (ops.mul_scalar running (sone - momentum self)%scalar)
          (ops.mul_scalar (detach stat) (momentum self)).

(** [forward] (nn.py 206-229); [X.shape[0]] is [batch], [X.shape[1]] is
    [channels]. *)
Definition forward (X : Tensor F) : Run t (Tensor F) :=
  self ← self_;
  batch ← lift (shape X !! 0);
  channels ← lift (shape X !! 1);
  (* assert self.dim == X.shape[1] *)
  _ ← assert (dim self = channels);
  '(mean, var) ←
    (if training self then
       (* mean = X.sum((0,)) / X.shape[0] *)
       total ← lift (ops.summation X (Some [0]));
       let mean := ops.divide_scalar total (sof_nat batch) in
       (* self.running_mean = (1 - self.momentum) * self.running_mean
                              + self.momentum * mean.data *)
       running ← lift (smooth self (running_mean self) mean);
       _ ← rebind (set_running_mean running);
       (* mean = mean.reshape((1, X.shape[1])).broadcast_to(X.shape) *)
       mean ← lift (ops.reshape mean [1; channels]);
       mean ← lift (ops.broadcast_to mean (shape X));
       (* var = ((X - mean) ** 2).sum((0,)) / X.shape[0] *)
       centred ← lift (ops.sub X mean);
       total ← lift (ops.summation (ops.power_scalar centred 2) (Some [0]));
       let var := ops.divide_scalar total (sof_nat batch) in
       (* self.running_var = (1 - self.momentum) * self.running_var
                             + self.momentum * var.data *)
       running ← lift (smooth self (running_var self) var);
       _ ← rebind (set_running_var running);
       (* var = var.reshape((1, X.shape[1])).broadcast_to(X.shape) *)
       var ← lift (ops.reshape var [1; channels]);
       var ← lift (ops.broadcast_to var (shape X));
       mret (mean, var)
     else
       mean ← lift (ops.reshape (running_mean self) [1; channels]);
       mean ← lift (ops.broadcast_to mean (shape X));
       var ← lift (ops.reshape (running_var self) [1; channels]);
       var ← lift (ops.broadcast_to var (shape X));
       mret (mean, var));
  (* normalized_X = (X - mean) / (var + self.eps) ** 0.5 *)
  centred ← lift (ops.sub X mean);
  normalized_X ← lift (ops.divide centred
                         (ops.power_scalar (ops.add_scalar var (eps self)) (1 # 2)));
  weight ← lift (ops.reshape (weight self) [1; dim self]);
  weight ← lift (ops.broadcast_to weight (shape X));
  bias ← lift (ops.reshape (bias self) [1; dim self]);
  bias ← lift (ops.broadcast_to bias (shape X));
  (* return weight * normalized_X + bias *)
  scaled ← lift (ops.multiply weight normalized_X);
  lift (ops.add scaled bias).

(** The layer as its constructor leaves it, up to the values of its
    tensors: scale, shift and running statistics have shape [(dim,)]. *)
Definition well_formed (self : t) : Prop :=
  (shape (weight self) = [dim self] ∧ wf (weight self)) ∧
  (shape (bias self) = [dim self] ∧ wf (bias self)) ∧
  (shape (running_mean self) = [dim self] ∧ wf (running_mean self)) ∧
  (shape (running_var self) = [dim self] ∧ wf (running_var self)).

(** Several forward passes in a row, the layer passed on from one to the
    next whether or not a pass raised. *)
Definition forward_passes (self : t) (Xs : list (Tensor F)) : t :=
  foldl (λ self X, (forward X self).2) self Xs.

(** Per-channel mean over the batch axis, and biased variance: the sum of
    squared deviations divided by the batch size. *)
Definition batch_mean (X : Tensor F) (batch j : nat) : F :=
  (ssum ((λ i, get X [i; j]) <$> seq 0 batch) / sof_nat batch)%scalar.

Definition batch_var (X : Tensor F) (batch j : nat) : F :=
  (ssum ((λ i, (get X [i; j] - batch_mean X batch j) ** 2) <$> seq 0 batch)
   / sof_nat batch)%scalar.
End BatchNorm1d.
Arguments t F : clear implicits.
End BatchNorm1d.

(** ** BatchNorm2d (nn.py 232-241) *)
Module BatchNorm2d.
Section BatchNorm2d.
Context {F : Type} `{Scalar F}.

(** [forward] (nn.py 236-241); [s] is [x.shape]. *)
Definition forward (x : Tensor F) : Run (BatchNorm1d.t F) (Tensor F) :=
  match shape x with
  | s0 :: s1 :: s2 :: s3 :: _ =>
      (* nchw -> nhcw -> nhwc *)
      x1 ← lift (ops.transpose x (1, 2));
      x2 ← lift (ops.transpose x1 (2, 3));
      _x ← lift (ops.reshape x2 [s0 * s2 * s3; s1]);
      y ← BatchNorm1d.forward _x;
      y ← lift (ops.reshape y [s0; s2; s3; s1]);
      y1 ← lift (ops.transpose y (2, 3));
      lift (ops.transpose y1 (1, 2))
  | _ => lift None
  end.

(** The reading of [forward] that its specification gives, stated on
    elements.  Channel-last layout: element [(n, h, w, c)] of the result is
    element [(n, c, h, w)] of [x]. *)
Definition to_channel_last (x : Tensor F) : Tensor F :=
  match shape x with
  | [n; c; h; w] =>
      tabulate [n; h; w; c]
        (λ idx, match idx with
                | [i; p; q; k] => get x [i; k; p; q]
                | _ => szero
                end)
        (requires_grad x)
  | _ => x
  end.

(** Channel-first layout: element [(n, c, h, w)] of the result is element
    [(n, h, w, c)] of [y]. *)
Definition to_channel_first (y : Tensor F) : Tensor F :=
  match shape y with
  | [n; h; w; c] =>
      tabulate [n; c; h; w]
        (λ idx, match idx with
                | [i; k; p; q] => get y [i; p; q; k]
                | _ => szero
                end)
        (requires_grad y)
  | _ => y
  end.

(** Permute to channel-last, flatten the non-channel axes into one batch
    axis, apply the inherited [BatchNorm1d.forward], reshape back and
    permute back. *)
Definition forward_by_layout (x : Tensor F) : Run (BatchNorm1d.t F) (Tensor F) :=
  match shape x with
  | [n; c; h; w] =>
      flat ← lift (ops.reshape (to_channel_last x) [n * h * w; c]);
      y ← BatchNorm1d.forward flat;
      y ← lift (ops.reshape y [n; h; w; c]);
      mret (to_channel_first y)
  | _ => lift None
  end.
End BatchNorm2d.
End BatchNorm2d.

(** ** Conv (nn.py 304-365) *)
Module Conv.
Section Conv.
Context {F : Type} `{Scalar F}.

Record t : Type := mk {
  training : bool;
  in_channels : nat;
  out_channels : nat;
  kernel_size : nat;
  stride : nat;
  weight : Tensor F;
  bias : option (Tensor F);
}.

(** [forward] (nn.py 350-365) *)
Definition forward (self : t) (X : Tensor F) : option (Tensor F) :=
  (* assert X.shape[-2] == X.shape[-1] *)
  height ← rev (shape X) !! 1;
  width ← rev (shape X) !! 0;
  _ ← guard (height = width);
  (* padding = self.kernel_size // 2 *)
  let padding := kernel_size self / 2 in
  x1 ← ops.transpose X (1, 2);
  x2 ← ops.transpose x1 (2, 3);
  conv ← ops.conv x2 (weight self) (stride self) padding;
  conv ← match bias self with
         | Some bias =>
             b ← ops.reshape bias [1; 1; 1; out_channels self];
             b ← ops.broadcast_to b (shape conv);
             ops.add conv b
         | None => Some conv
         end;
  c1 ← ops.transpose conv (2, 3);
  ops.transpose c1 (1, 2).

(** The layer as its constructor leaves it: the kernel has shape
    [(k, k, in_channels, out_channels)], the bias [(out_channels,)]. *)
Definition well_formed (self : t) : Prop :=
  shape (weight self)
    = [kernel_size self; kernel_size self; in_channels self; out_channels self] ∧
  wf (weight self) ∧
  match bias self with
  | Some b => shape b = [out_channels self] ∧ wf b
  | None => True
  end.
End Conv.
Arguments t F : clear implicits.
End Conv.

(** [ceil(a / b)] for positive [b]. *)
Definition ceil_div (a b : nat) : nat := (a + b - 1) / b.


(** ** Random initializers *)

(** Modelled from the spec: the initializer uniform(low, high, shape) of
    needle.init (not among the sources), "consumed as pure functions
    producing tensors of a requested shape": [rand g sh low high] draws a
    tensor of shape [sh] from the generator state [g] and returns the next
    state. *)
Class Rand (F G : Type) : Type :=
  rand : list nat → F → F → G → Tensor F * G.

Module init_rand.
Definition rand {F G} `{Rand F G} (sh : list nat) (low high : F) : Run G (Tensor F) :=
  λ g, let '(t, g') := rand sh low high g in (Some t, g').
End init_rand.

(** ** RNNCell (nn.py 368-480) *)
Module RNNCell.
Section RNNCell.
Context {F G : Type} `{Scalar F} `{Rand F G}.

Inductive activation_module : Type := ReLU_ | Tanh_.

Record t : Type := mk {
  training : bool;
  hidden_size : nat;
  W_ih : Tensor F;
  W_hh : Tensor F;
  bias_ih : option (Tensor F);
  bias_hh : option (Tensor F);
  activation : activation_module;
}.

Definition __init__ (input_size hidden_size : nat) (bias : bool)
    (nonlinearity : string) : Run G t :=
  (* k = 1 / hidden_size raises ZeroDivisionError *)
  _ ← assert (hidden_size ≠ 0);
  let k := (sone / sof_nat hidden_size)%scalar in
  let low := (- ssqrt k)%scalar in
  let high := ssqrt k in
  W_ih ← init_rand.rand [input_size; hidden_size] low high;
  W_hh ← init_rand.rand [hidden_size; hidden_size] low high;
  '(bias_ih, bias_hh) ←
    (if bias then
       bias_ih ← init_rand.rand [hidden_size] low high;
       bias_hh ← init_rand.rand [hidden_size] low high;
       mret (Some (as_Parameter bias_ih), Some (as_Parameter bias_hh))
     else mret (None, None));
  activation ←
    (if decide (nonlinearity = "relu"%string) then mret ReLU_
     else if decide (nonlinearity = "tanh"%string) then mret Tanh_
     else lift None);
  mret (mk true hidden_size (as_Parameter W_ih) (as_Parameter W_hh)
          bias_ih bias_hh activation).

Definition add_bias (self : t) (batch_size : nat) (bias : option (Tensor F))
    (h_out : Tensor F) : option (Tensor F) :=
  match bias with
  | Some bias =>
      b ← ops.reshape bias [1; hidden_size self];
      b ← ops.broadcast_to b [batch_size; hidden_size self];
      ops.add h_out b
  | None => Some h_out
  end.

Definition forward (self : t) (X : Tensor F) (h : option (Tensor F))
    : option (Tensor F) :=
  match shape X with
  | [batch_size; _] =>
      let h := default (init.zeros [batch_size; hidden_size self]) h in
      xw ← ops.matmul X (W_ih self);
      hw ← ops.matmul h (W_hh self);
      h_out ← ops.add xw hw;
      h_out ← add_bias self batch_size (bias_ih self) h_out;
      h_out ← add_bias self batch_size (bias_hh self) h_out;
      Some (match activation self with
            | ReLU_ => ReLU.forward h_out
            | Tanh_ => Tanh.forward h_out
            end)
  | _ => None
  end.

(** The cell as its constructor leaves it for [input_size] features: the
    weights have shapes [(input_size, hidden_size)] and
    [(hidden_size, hidden_size)], a bias that is present
    [(hidden_size,)]. *)
Definition well_formed (self : t) (input_size : nat) : Prop :=
  (shape (W_ih self) = [input_size; hidden_size self] ∧ wf (W_ih self)) ∧
  (shape (W_hh self) = [hidden_size self; hidden_size self] ∧ wf (W_hh self)) ∧
  (∀ b, bias_ih self = Some b → shape b = [hidden_size self] ∧ wf b) ∧
  (∀ b, bias_hh self = Some b → shape b = [hidden_size self] ∧ wf b).

(** Entry [(b, j)] of [X @ W_ih + h @ W_hh], plus the biases that are
    present. *)
Definition preactivation (self : t) (X h : Tensor F) (input_size : nat)
    (b j : nat) : F :=
  let xw := ssum ((λ l, get X [b; l] * get (W_ih self) [l; j])%scalar
                    <$> seq 0 input_size) in
  let hw := ssum ((λ l, get h [b; l] * get (W_hh self) [l; j])%scalar
                    <$> seq 0 (hidden_size self)) in
  let s := (xw + hw)%scalar in
  let s := match bias_ih self with Some bias => (s + get bias [j])%scalar | None => s end in
  match bias_hh self with Some bias => (s + get bias [j])%scalar | None => s end.

(** What [self.activation] does to one element. *)
Definition activate (self : t) (x : F) : F :=
  match activation self with
  | ReLU_ => smax x szero
  | Tanh_ => stanh x
  end.
End RNNCell.
Arguments t F : clear implicits.
End RNNCell.

(** ** RNN (nn.py 482-564) *)
Module RNN.
Section RNN.
Context {F G : Type} `{Scalar F} `{Rand F G}.

Record t : Type := mk {
  training : bool;
  hidden_size : nat;
  rnn_cells : list (RNNCell.t F);
}.

(** [for _ in range(n): cells.append(make())] *)
Fixpoint append_cells {C} (n : nat) (make : Run G C) (cells : list C) : Run G (list C) :=
  match n with
  | 0 => mret cells
  | S n => cell ← make; append_cells n make (cells ++ [cell])
  end.

Definition __init__ (input_size hidden_size : nat) (num_layers : Z) (bias : bool)
    (nonlinearity : string) : Run G t :=
  first ← RNNCell.__init__ input_size hidden_size bias nonlinearity;
  rnn_cells ← append_cells (Z.to_nat (num_layers - 1))
                (RNNCell.__init__ hidden_size hidden_size bias nonlinearity)
                [first];
  mret (mk true hidden_size rnn_cells).

(** The inner loop: one layer over the sequence positions. *)
Fixpoint over_time (rnn_cell : RNNCell.t F) (Xs : list (Tensor F))
    (h_prev : Tensor F) (hs : list (Tensor F)) : option (list (Tensor F)) :=
  match Xs with
  | [] => Some hs
  | X_t :: Xs =>
      h ← RNNCell.forward rnn_cell X_t (Some h_prev);
      over_time rnn_cell Xs h (hs ++ [h])
  end.

(** The outer loop: the layers, zipped with the slices of [h0]. *)
Fixpoint over_layers (layers : list (RNNCell.t F * Tensor F)) (X_prev : Tensor F)
    (hn_output : list (Tensor F)) : option (Tensor F * list (Tensor F)) :=
  match layers with
  | [] => Some (X_prev, hn_output)
  | (rnn_cell, h_prev) :: layers =>
      Xs ← ops.split X_prev 0;
      hs ← over_time rnn_cell Xs h_prev [];
      X_prev ← ops.stack hs 0;
      h_n ← last hs;
      over_layers layers X_prev (hn_output ++ [h_n])
  end.

Definition forward (self : t) (X : Tensor F) (h0 : option (Tensor F))
    : option (Tensor F * Tensor F) :=
  match shape X with
  | [_; batch_size; _] =>
      let num_layers := length (rnn_cells self) in
      let h0 := default (init.zeros [num_layers; batch_size; hidden_size self]) h0 in
      h0s ← ops.split h0 0;
      '(X_prev, hn_output) ← over_layers (zip (rnn_cells self) h0s) X [];
      h_n ← ops.stack hn_output 0;
      Some (X_prev, h_n)
  | _ => None
  end.
End RNN.
Arguments t F : clear implicits.
End RNN.

(** ** LSTMCell (nn.py 567-690) *)
Module LSTMCell.
Section LSTMCell.
Context {F G : Type} `{Scalar F} `{Rand F G}.

Record t : Type := mk {
  training : bool;
  hidden_size : nat;
  W_ih : Tensor F;
  W_hh : Tensor F;
  bias_ih : option (Tensor F);
  bias_hh : option (Tensor F);
}.

Definition __init__ (input_size hidden_size : nat) (bias : bool) : Run G t :=
  (* k = 1 / hidden_size raises ZeroDivisionError *)
  _ ← assert (hidden_size ≠ 0);
  let k := (sone / sof_nat hidden_size)%scalar in
  let low := (- ssqrt k)%scalar in
  let high := ssqrt k in
  W_ih ← init_rand.rand [input_size; 4 * hidden_size] low high;
  W_hh ← init_rand.rand [hidden_size; 4 * hidden_size] low high;
  '(bias_ih, bias_hh) ←
    (if bias then
       bias_ih ← init_rand.rand [4 * hidden_size] low high;
       bias_hh ← init_rand.rand [4 * hidden_size] low high;
       mret (Some (as_Parameter bias_ih), Some (as_Parameter bias_hh))
     else mret (None, None));
  mret (mk true hidden_size (as_Parameter W_ih) (as_Parameter W_hh) bias_ih bias_hh).

Definition add_bias (self : t) (batch_size : nat) (bias : option (Tensor F))
    (intermediate : Tensor F) : option (Tensor F) :=
  match bias with
  | Some bias =>
      b ← ops.reshape bias [1; 4 * hidden_size self];
      b ← ops.broadcast_to b [batch_size; 4 * hidden_size self];
      ops.add intermediate b
  | None => Some intermediate
  end.

Definition forward (self : t) (X : Tensor F) (h : option (Tensor F * Tensor F))
    : option (Tensor F * Tensor F) :=
  match shape X with
  | [batch_size; _] =>
      let '(h0, c0) :=
        default (init.zeros [batch_size; hidden_size self],
                 init.zeros [batch_size; hidden_size self]) h in
      xw ← ops.matmul X (W_ih self);
      hw ← ops.matmul h0 (W_hh self);
      intermediate ← ops.add xw hw;
      intermediate ← add_bias self batch_size (bias_ih self) intermediate;
      intermediate ← add_bias self batch_size (bias_hh self) intermediate;
      gates ← ops.reshape intermediate [batch_size; 4; hidden_size self];
      gates ← ops.split gates 1;
      match gates with
      | [i; f; g; o] =>
          let '(i, f, g, o) :=
            (Sigmoid.forward i, Sigmoid.forward f, Tanh.forward g, Sigmoid.forward o) in
          fc ← ops.multiply f c0;
          ig ← ops.multiply i g;
          c_out ← ops.add fc ig;
          h_out ← ops.multiply o (Tanh.forward c_out);
          Some (h_out, c_out)
      | _ => None
      end
  | _ => None
  end.

(** The cell as its constructor leaves it for [input_size] features: the
    weights have shapes [(input_size, 4*hidden_size)] and
    [(hidden_size, 4*hidden_size)], a bias that is present
    [(4*hidden_size,)]. *)
Definition well_formed (self : t) (input_size : nat) : Prop :=
  (shape (W_ih self) = [input_size; 4 * hidden_size self] ∧ wf (W_ih self)) ∧
  (shape (W_hh self) = [hidden_size self; 4 * hidden_size self] ∧ wf (W_hh self)) ∧
  (∀ b, bias_ih self = Some b → shape b = [4 * hidden_size self] ∧ wf b) ∧
  (∀ b, bias_hh self = Some b → shape b = [4 * hidden_size self] ∧ wf b).

(** Entry [(b, k)] of the combined gate pre-activation
    [X @ W_ih + h0 @ W_hh], plus the biases that are present. *)
Definition preactivation (self : t) (X h0 : Tensor F) (input_size : nat)
    (b k : nat) : F :=
  let xw := ssum ((λ l, get X [b; l] * get (W_ih self) [l; k])%scalar
                    <$> seq 0 input_size) in
  let hw := ssum ((λ l, get h0 [b; l] * get (W_hh self) [l; k])%scalar
                    <$> seq 0 (hidden_size self)) in
  let s := (xw + hw)%scalar in
  let s := match bias_ih self with Some bias => (s + get bias [k])%scalar | None => s end in
  match bias_hh self with Some bias => (s + get bias [k])%scalar | None => s end.
End LSTMCell.
Arguments t F : clear implicits.
End LSTMCell.

(** The logistic function on real numbers. *)
Definition logistic (x : R) : R := (/ (1 + exp (- x)))%R.

(** ** LSTM (nn.py 693-792) *)
Module LSTM.
Section LSTM.
Context {F G : Type} `{Scalar F} `{Rand F G}.

Record t : Type := mk {
  training : bool;
  hidden_size : nat;
  lstm_cells : list (LSTMCell.t F);
}.

Definition __init__ (input_size hidden_size : nat) (num_layers : Z) (bias : bool)
    : Run G t :=
  first ← LSTMCell.__init__ input_size hidden_size bias;
  lstm_cells ← RNN.append_cells (Z.to_nat (num_layers - 1))
                 (LSTMCell.__init__ hidden_size hidden_size bias)
                 [first];
  mret (mk true hidden_size lstm_cells).

Fixpoint over_time (lstm_cell : LSTMCell.t F) (Xs : list (Tensor F))
    (h_prev c_prev : Tensor F) (hs cs : list (Tensor F))
    : option (list (Tensor F) * list (Tensor F)) :=
  match Xs with
  | [] => Some (hs, cs)
  | X_t :: Xs =>
      '(h, c) ← LSTMCell.forward lstm_cell X_t (Some (h_prev, c_prev));
      over_time lstm_cell Xs h c (hs ++ [h]) (cs ++ [c])
  end.

Fixpoint over_layers (layers : list (LSTMCell.t F * Tensor F * Tensor F))
    (X_prev : Tensor F) (hn_output cn_output : list (Tensor F))
    : option (Tensor F * list (Tensor F) * list (Tensor F)) :=
  match layers with
  | [] => Some (X_prev, hn_output, cn_output)
  | (lstm_cell, h_prev, c_prev) :: layers =>
      Xs ← ops.split X_prev 0;
      '(hs, cs) ← over_time lstm_cell Xs h_prev c_prev [] [];
      X_prev ← ops.stack hs 0;
      h_n ← last hs;
      c_n ← last cs;
      over_layers layers X_prev (hn_output ++ [h_n]) (cn_output ++ [c_n])
  end.

Definition forward (self : t) (X : Tensor F) (h : option (Tensor F * Tensor F))
    : option (Tensor F * (Tensor F * Tensor F)) :=
  match shape X with
  | [_; batch_size; _] =>
      let num_layers := length (lstm_cells self) in
      let '(h0, c0) :=
        default (init.zeros [num_layers; batch_size; hidden_size self],
                 init.zeros [num_layers; batch_size; hidden_size self]) h in
      h0s ← ops.split h0 0;
      c0s ← ops.split c0 0;
      '(X_prev, hn_output, cn_output) ←
        over_layers (zip (zip (lstm_cells self) h0s) c0s) X [] [];
      h_n ← ops.stack hn_output 0;
      c_n ← ops.stack cn_output 0;
      Some (X_prev, (h_n, c_n))
  | _ => None
  end.
End LSTM.
Arguments t F : clear implicits.
End LSTM.

(** ** The invocation contract and the composite Modules *)

(** [Module.__call__] (nn.py 74-75) is the [forward] of the Module's class.
    A Module as its caller sees it: applied to a tensor, it returns a tensor
    or raises, and may rebind attributes of the objects it owns, which are
    part of the state [St]. *)
Definition Callable (St F : Type) : Type := Tensor F → Run St (Tensor F).

(** A method of an object held in an attribute, run on the state of its
    owner: [get] reads the attribute, [set] puts the object back as the
    method left it. *)
Definition on {St Sub A} (get : St → Sub) (set : Sub → St → St) (m : Run Sub A)
    : Run St A :=
  λ s, let '(r, sub) := m (get s) in (r, set sub s).

(** What [BatchNorm1d.forward] never rebinds: everything but the running
    statistics. *)
Definition same_configuration {F} (l l' : BatchNorm1d.t F) : Prop :=
  BatchNorm1d.dim l' = BatchNorm1d.dim l ∧
  BatchNorm1d.training l' = BatchNorm1d.training l ∧
  BatchNorm1d.eps l' = BatchNorm1d.eps l ∧
  BatchNorm1d.momentum l' = BatchNorm1d.momentum l ∧
  BatchNorm1d.weight l' = BatchNorm1d.weight l ∧
  BatchNorm1d.bias l' = BatchNorm1d.bias l.

(** [Identity.forward] (nn.py 78-80) *)
Module Identity.
Definition forward {F} (x : Tensor F) : Tensor F := x.
End Identity.

(** [Sequential.forward] (nn.py 155-160):
    [res = X; for module in self.modules: res = module(res); return res] *)
Module Sequential.
Fixpoint forward {St F} (modules : list (Callable St F)) (X : Tensor F)
    : Run St (Tensor F) :=
  match modules with
  | [] => mret X
  | module :: modules => res ← module X; forward modules res
  end.
End Sequential.

(** [Residual.forward] (nn.py 300-301): [X + self.fn(X)] *)
Module Residual.
Definition forward {St F} `{Scalar F} (fn : Callable St F) (X : Tensor F)
    : Run St (Tensor F) :=
  y ← fn X; lift (ops.add X y).
End Residual.

(** [Flatten.forward] (nn.py 127-129):
    [X.reshape((X.shape[0], np.prod(X.shape[1:])))].  [X.shape[0]] raises on
    a tensor without axes.  On a tensor with one axis [np.prod] of the empty
    tuple is the float 1.0, read here as the size 1; the statements about
    [Flatten] are made for tensors with at least two axes. *)
Module Flatten.
Definition forward {F} `{Scalar F} (X : Tensor F) : option (Tensor F) :=
  match shape X with
  | [] => None
  | s0 :: rest => ops.reshape X [s0; prod rest]
  end.
End Flatten.

(** ** Further initializers *)

(** Modelled from the spec: the initializers "kaiming-uniform(fan_in,
    fan_out, shape)", "standard-normal(shape)" and "bernoulli-mask(shape,
    keep_probability)" of needle.init (not among the sources).  As [rand],
    they draw from a generator state; they may reject their arguments.
    Without a shape, kaiming-uniform is "sized (fan_in, fan_out)". *)
Class Initializers (F G : Type) : Type := {
  kaiming_uniform : nat → nat → option (list nat) → Run G (Tensor F);
  randn : list nat → Run G (Tensor F);
  randb : list nat → F → Run G (Tensor F);
}.

(** The initializer [m] returns, from every generator state, a tensor of
    shape [sh]. *)
Definition draws {F G} (m : Run G (Tensor F)) (sh : list nat) : Prop :=
  ∀ g, ∃ t g', m g = (Some t, g') ∧ shape t = sh ∧ wf t.

(** The initializers return tensors of the requested shape, kaiming-uniform
    when it is asked for a fan-in that is not zero. *)
Definition lawful_initializers {F G} `{Scalar F} `{Rand F G} `{Initializers F G}
    : Prop :=
  (∀ sh low high g, shape (rand sh low high g).1 = sh ∧ wf (rand sh low high g).1) ∧
  (∀ fan_in fan_out, fan_in ≠ 0 →
     draws (kaiming_uniform fan_in fan_out None) [fan_in; fan_out]) ∧
  (∀ fan_in fan_out sh, fan_in ≠ 0 →
     draws (kaiming_uniform fan_in fan_out (Some sh)) sh).

(** ** Linear (nn.py 83-124) *)
Module Linear.
Section Linear.
Context {F G : Type} `{Scalar F} `{Initializers F G}.

Record t : Type := mk {
  training : bool;
  in_features : nat;
  out_features : nat;
  weight : Tensor F;
  bias : option (Tensor F);
}.

(** [__init__] (nn.py 84-115) *)
Definition __init__ (in_features out_features : nat) (bias : bool) : Run G t :=
  weight_init_data ← kaiming_uniform in_features out_features None;
  bias ←
    (if bias then
       (* init.kaiming_uniform(fan_in=self.out_features, fan_out=1)
            .reshape((1, self.out_features)) *)
       bias_init_data ← kaiming_uniform out_features 1 None;
       bias_init_data ← lift (ops.reshape bias_init_data [1; out_features]);
       mret (Some (as_Parameter bias_init_data))
     else mret None);
  mret (mk true in_features out_features (as_Parameter weight_init_data) bias).

(** [forward] (nn.py 119-124).  Modelled from the spec: [if self.bias:]
    asks the engine for the truth value of a tensor; the bias is added
    "if present". *)
Definition forward (self : t) (X : Tensor F) : option (Tensor F) :=
  (* mul = X @ self.weight *)
  mul ← ops.matmul X (weight self);
  match bias self with
  | Some bias =>
      (* mul += self.bias.broadcast_to(mul.shape) *)
      b ← ops.broadcast_to bias (shape mul);
      ops.add mul b
  | None => Some mul
  end.

(** The layer as its constructor leaves it: the weight has shape
    [(in_features, out_features)], a bias [(1, out_features)]. *)
Definition well_formed (self : t) : Prop :=
  (shape (weight self) = [in_features self; out_features self] ∧ wf (weight self)) ∧
  (∀ b, bias self = Some b → shape b = [1; out_features self] ∧ wf b).
End Linear.
Arguments t F : clear implicits.
End Linear.

(** ** LayerNorm1d (nn.py 244-279) *)
Module LayerNorm1d.
Section LayerNorm1d.
Context {F : Type} `{Scalar F}.

Record t : Type := mk {
  training : bool;
  dim : nat;
  eps : F;
  weight : Tensor F;
  bias : Tensor F;
}.

(** [__init__] (nn.py 245-262) *)
Definition __init__ (dim : nat) (eps : F) : t :=
  {| training := true;
     dim := dim;
     eps := eps;
     weight := as_Parameter (init.ones [dim]);
     bias := as_Parameter (init.zeros [dim]) |}.

(** [forward] (nn.py 265-279); [X.shape[0]] is [rows], [X.shape[1]] is
    [features]. *)
Definition forward (self : t) (X : Tensor F) : option (Tensor F) :=
  rows ← shape X !! 0;
  features ← shape X !! 1;
  (* assert self.dim == X.shape[1] *)
  _ ← guard (dim self = features);
  (* mean = X.sum((1,)) / X.shape[1] *)
  total ← ops.summation X (Some [1]);
  let mean := ops.divide_scalar total (sof_nat features) in
  (* mean = mean.reshape((X.shape[0], 1)).broadcast_to(X.shape) *)
  mean ← ops.reshape mean [rows; 1];
  mean ← ops.broadcast_to mean (shape X);
  (* var = ((X - mean) ** 2).sum((1,)) / X.shape[1] *)
  centred ← ops.sub X mean;
  total ← ops.summation (ops.power_scalar centred 2) (Some [1]);
  let var := ops.divide_scalar total (sof_nat features) in
  (* var = var.reshape((X.shape[0], 1)).broadcast_to(X.shape) *)
  var ← ops.reshape var [rows; 1];
  var ← ops.broadcast_to var (shape X);
  (* normalized_X = (X - mean) / (var + self.eps) ** 0.5 *)
  centred ← ops.sub X mean;
  normalized_X ← ops.divide centred
                   (ops.power_scalar (ops.add_scalar var (eps self)) (1 # 2));
  weight ← ops.reshape (weight self) [1; dim self];
  weight ← ops.broadcast_to weight (shape X);
  bias ← ops.reshape (bias self) [1; dim self];
  bias ← ops.broadcast_to bias (shape X);
  (* return weight * normalized_X + bias *)
  scaled ← ops.multiply weight normalized_X;
  ops.add scaled bias.

(** Scale and shift have shape [(dim,)]. *)
Definition well_formed (self : t) : Prop :=
  (shape (weight self) = [dim self] ∧ wf (weight self)) ∧
  (shape (bias self) = [dim self] ∧ wf (bias self)).

(** Mean of row [i] over the feature axis, and its biased variance. *)
Definition row_mean (X : Tensor F) (features i : nat) : F :=
  (ssum ((λ j, get X [i; j]) <$> seq 0 features) / sof_nat features)%scalar.

Definition row_var (X : Tensor F) (features i : nat) : F :=
  (ssum ((λ j, (get X [i; j] - row_mean X features i) ** 2) <$> seq 0 features)
   / sof_nat features)%scalar.
End LayerNorm1d.
Arguments t F : clear implicits.
End LayerNorm1d.

(** ** Dropout (nn.py 282-292) *)
Module Dropout.
Section Dropout.
Context {F G : Type} `{Scalar F} `{Initializers F G}.

Record t : Type := mk {
  training : bool;
  p : F;
}.

(** [forward] (nn.py 287-292) *)
Definition forward (self : t) (X : Tensor F) : Run G (Tensor F) :=
  if negb (training self) then mret X
  else
    (* dropout_probs = init.randb of X.shape, with p=1-self.p *)
    dropout_probs ← randb (shape X) (sone - p self)%scalar;
    (* return X * dropout_probs / (1 - self.p) *)
    kept ← lift (ops.multiply X dropout_probs);
    mret (ops.divide_scalar kept (sone - p self)%scalar).
End Dropout.
Arguments t F : clear implicits.
End Dropout.

(** ** Embedding (nn.py 794-837) *)

(** Modelled from the spec: "reshape", on a tensor of indices. *)
Definition reshape_indices (a : Tensor nat) (sh : list nat) : option (Tensor nat) :=
  if decide (prod sh = prod (shape a))
  then Some (mkTensor sh (data a) (requires_grad a))
  else None.

Module Embedding.
Section Embedding.
Context {F G : Type} `{Scalar F} `{Initializers F G}.

Record t : Type := mk {
  training : bool;
  num_embeddings : nat;
  embedding_dim : nat;
  weight : Tensor F;
}.

(** [__init__] (nn.py 795-815) *)
Definition __init__ (num_embeddings embedding_dim : nat) : Run G t :=
  weight ← randn [num_embeddings; embedding_dim];
  mret (mk true num_embeddings embedding_dim (as_Parameter weight)).

(** [forward] (nn.py 817-837); [X] holds word indices. *)
Definition forward (self : t) (X : Tensor nat) : option (Tensor F) :=
  match shape X with
  | [seq_len; bs] =>
      (* one_hot = init.one_hot(n=self.num_embeddings,
                                i=X.reshape((seq_len * bs,)), ...) *)
      i ← reshape_indices X [seq_len * bs];
      one_hot ← init.one_hot (num_embeddings self) i;
      (* res = one_hot @ self.weight *)
      res ← ops.matmul one_hot (weight self);
      ops.reshape res [seq_len; bs; embedding_dim self]
  | _ => None
  end.

(** The weight has shape [(num_embeddings, embedding_dim)]. *)
Definition well_formed (self : t) : Prop :=
  shape (weight self) = [num_embeddings self; embedding_dim self] ∧ wf (weight self).
End Embedding.
Arguments t F : clear implicits.
End Embedding.

(** ** The constructor of Conv (nn.py 312-347) *)

(** An argument that is an [int] or a tuple of [int]s. *)
Inductive int_or_tuple : Type :=
| an_int (n : nat)
| a_tuple (ns : list nat).

(** [if isinstance(v, tuple): v = v[0]] *)
Definition first_if_tuple (v : int_or_tuple) : option nat :=
  match v with
  | an_int n => Some n
  | a_tuple ns => ns !! 0
  end.

Section Conv_init.
Context {F G : Type} `{Scalar F} `{Rand F G} `{Initializers F G}.

(** [Conv.__init__] (nn.py 312-347) *)
Definition Conv__init__ (in_channels out_channels : nat)
    (kernel_size stride : int_or_tuple) (bias : bool) : Run G (Conv.t F) :=
  kernel_size ← lift (first_if_tuple kernel_size);
  stride ← lift (first_if_tuple stride);
  weight ← kaiming_uniform (in_channels * kernel_size ^ 2)
             (out_channels * kernel_size ^ 2)
             (Some [kernel_size; kernel_size; in_channels; out_channels]);
  bias ←
    (if bias then
       (* factor = 1 / (self.in_channels * self.kernel_size ** 2) ** 0.5
          raises ZeroDivisionError when the product is 0 *)
       _ ← assert (in_channels * kernel_size ^ 2 ≠ 0);
       let factor :=
         (sone / sof_nat (in_channels * kernel_size ^ 2) ** (1 # 2))%scalar in
       bias ← init_rand.rand [out_channels] (- factor)%scalar factor;
       mret (Some (as_Parameter bias))
     else mret None);
  mret (Conv.mk true in_channels out_channels kernel_size stride
          (as_Parameter weight) bias).
End Conv_init.

(** ** Stacks of recurrent cells *)

(** The cells of a stack fit each other: the first takes [input_size]
    features, every later one the [hidden_size] features of the cell
    below, and all have [hidden_size] hidden units (nn.py 509-529 and
    720-738). *)
Fixpoint rnn_cells_fit {F} (input_size hidden_size : nat)
    (cells : list (RNNCell.t F)) : Prop :=
  match cells with
  | [] => True
  | cell :: cells =>
      RNNCell.well_formed cell input_size ∧
      RNNCell.hidden_size cell = hidden_size ∧
      rnn_cells_fit hidden_size hidden_size cells
  end.

Fixpoint lstm_cells_fit {F} (input_size hidden_size : nat)
    (cells : list (LSTMCell.t F)) : Prop :=
  match cells with
  | [] => True
  | cell :: cells =>
      LSTMCell.well_formed cell input_size ∧
      LSTMCell.hidden_size cell = hidden_size ∧
      lstm_cells_fit hidden_size hidden_size cells
  end.

(** [t] has shape [sh] and holds as many elements. *)
Definition shaped {A} (sh : list nat) (t : Tensor A) : Prop := shape t = sh ∧ wf t.

(** * The models of apps/models.py *)

(** ** ConvBN (models.py 11-44) *)
Module ConvBN.
Section ConvBN.
Context {F G : Type} `{Scalar F} `{Rand F G} `{Initializers F G}.

(** The values of the defaults [eps=1e-5] and [momentum=0.1] of
    [nn.BatchNorm2d] in the element type. *)
Context (eps momentum : F).

Record t : Type := mk {
  training : bool;
  conv : Conv.t F;
  batch_norm : BatchNorm1d.t F;
}.

(** [self.batch_norm = v] *)
Definition set_batch_norm (v : BatchNorm1d.t F) (self : t) : t :=
  mk (training self) (conv self) v.

(** [__init__] (models.py 12-39) *)
Definition __init__ (in_channels out_channels : nat)
    (kernel_size stride : int_or_tuple) (bias : bool) : Run G t :=
  conv ← Conv__init__ in_channels out_channels kernel_size stride bias;
  mret (mk true conv (BatchNorm1d.__init__ out_channels eps momentum)).

(** [forward] (models.py 41-44) *)
Definition forward (X : Tensor F) : Run t (Tensor F) :=
  self ← self_;
  (* res = self.conv(X) *)
  res ← lift (Conv.forward (conv self) X);
  (* res = self.batch_norm(res) *)
  res ← on batch_norm set_batch_norm (BatchNorm2d.forward res);
  (* return self.relu(res) *)
  mret (ReLU.forward res).

(** A ConvBN as [ConvBN(in_channels, out_channels, kernel_size, stride)]
    leaves it, up to the values of its tensors. *)
Definition fits (cfg : nat * nat * nat * nat) (self : t) : Prop :=
  let '(in_channels, out_channels, kernel_size, stride) := cfg in
  Conv.well_formed (conv self) ∧
  Conv.in_channels (conv self) = in_channels ∧
  Conv.out_channels (conv self) = out_channels ∧
  Conv.kernel_size (conv self) = kernel_size ∧
  Conv.stride (conv self) = stride ∧
  BatchNorm1d.well_formed (batch_norm self) ∧
  BatchNorm1d.dim (batch_norm self) = out_channels.
End ConvBN.
Arguments t F : clear implicits.
End ConvBN.

(** ** ResNet9 (models.py 47-80) *)
Module ResNet9.
Section ResNet9.
Context {F G : Type} `{Scalar F} `{Rand F G} `{Initializers F G}.
Context (eps momentum : F).

(** The ConvBN blocks and the Linear layers, in the order in which the
    constructor creates them. *)
Record t : Type := mk {
  training : bool;
  conv_bns : list (ConvBN.t F);
  linears : list (Linear.t F);
}.

Definition set_conv_bns (v : list (ConvBN.t F)) (self : t) : t :=
  mk (training self) v (linears self).

(** The arguments (in_channels, out_channels, kernel_size, stride) of the
    eight ConvBN blocks, and (in_features, out_features) of the two Linear
    layers (models.py 51-74). *)
Definition conv_bn_args : list (nat * nat * nat * nat) :=
  [ (3, 16, 7, 4); (16, 32, 3, 2);
    (32, 32, 3, 1); (32, 32, 3, 1);
    (32, 64, 3, 2); (64, 128, 3, 2);
    (128, 128, 3, 1); (128, 128, 3, 1) ].

Definition linear_args : list (nat * nat) := [ (128, 128); (128, 10) ].

(** [__init__] (models.py 48-75): the arguments of each constructor call
    are evaluated from left to right, so the layers are created in the
    order of the two lists. *)
Definition __init__ : Run G t :=
  conv_bns ← mapM (λ '(in_channels, out_channels, kernel_size, stride),
                     ConvBN.__init__ eps momentum in_channels out_channels
                       (an_int kernel_size) (an_int stride) true)
                  conv_bn_args;
  linears ← mapM (λ '(in_features, out_features),
                    Linear.__init__ in_features out_features true)
                 linear_args;
  mret (mk true conv_bns linears).

(** The [i]-th ConvBN block, called. *)
Definition conv_bn (i : nat) : Callable t F :=
  λ X self,
    match conv_bns self !! i with
    | Some block =>
        let '(res, block) := ConvBN.forward X block in
        (res, set_conv_bns (<[i := block]> (conv_bns self)) self)
    | None => (None, self)
    end.

(** The [i]-th Linear layer, called. *)
Definition linear (i : nat) : Callable t F :=
  λ X, self ← self_;
       layer ← lift (linears self !! i);
       lift (Linear.forward layer X).

(** [self.convs] (models.py 50-67) *)
Definition convs : list (Callable t F) :=
  [ conv_bn 0;
    conv_bn 1;
    Residual.forward (Sequential.forward [conv_bn 2; conv_bn 3]);
    conv_bn 4;
    conv_bn 5;
    Residual.forward (Sequential.forward [conv_bn 6; conv_bn 7]) ].

(** [self.classification_layer] (models.py 71-75) *)
Definition classification_layer : list (Callable t F) :=
  [ linear 0; (λ X, mret (ReLU.forward X)); linear 1 ].

(** [forward] (models.py 77-80) *)
Definition forward (X : Tensor F) : Run t (Tensor F) :=
  res ← Sequential.forward convs X;
  res ← lift (Flatten.forward res);
  Sequential.forward classification_layer res.

(** The model as its constructor leaves it, up to the values of its
    tensors. *)
Definition well_formed (self : t) : Prop :=
  Forall2 ConvBN.fits conv_bn_args (conv_bns self) ∧
  Forall2 (λ '(in_features, out_features) layer,
             Linear.well_formed layer ∧
             Linear.in_features layer = in_features ∧
             Linear.out_features layer = out_features ∧
             is_Some (Linear.bias layer))
          linear_args (linears self).
End ResNet9.
Arguments t F : clear implicits.
End ResNet9.

(** ** LanguageModel (models.py 83-144) *)
Module LanguageModel.
Section LanguageModel.
Context {F G : Type} `{Scalar F} `{Rand F G} `{Initializers F G}.

(** [self.seq2seq] is an [nn.RNN] or an [nn.LSTM]. *)
Inductive seq2seq_module : Type :=
| RNN_ (m : RNN.t F)
| LSTM_ (m : LSTM.t F).

(** The hidden state a sequence model takes and returns: a tensor for an
    RNN, a tuple of two tensors for an LSTM. *)
Definition state (m : seq2seq_module) : Type :=
  match m with
  | RNN_ _ => Tensor F
  | LSTM_ _ => (Tensor F * Tensor F)%type
  end.

Record t : Type := mk {
  training : bool;
  embedding_layer : Embedding.t F;
  seq2seq : seq2seq_module;
  linear_layer : Linear.t F;
}.

(** [__init__] (models.py 84-125); [num_layers] is passed on, [bias] and
    [nonlinearity] keep the defaults of [nn.RNN] and [nn.LSTM]. *)
Definition __init__ (embedding_size output_size hidden_size : nat) (num_layers : Z)
    (seq_model : string) : Run G t :=
  embedding_layer ← Embedding.__init__ output_size embedding_size;
  seq2seq ←
    (if decide (seq_model = "rnn"%string)
     then m ← RNN.__init__ embedding_size hidden_size num_layers true "tanh";
          mret (RNN_ m)
     else if decide (seq_model = "lstm"%string)
     then m ← LSTM.__init__ embedding_size hidden_size num_layers true;
          mret (LSTM_ m)
     else (* raise NotImplementedError() *) lift None);
  linear_layer ← Linear.__init__ hidden_size output_size true;
  mret (mk true embedding_layer seq2seq linear_layer).

(** [self.seq2seq(embeddings, h)] *)
Definition call_seq2seq (m : seq2seq_module)
    : Tensor F → option (state m) → option (Tensor F * state m) :=
  match m with
  | RNN_ rnn => RNN.forward rnn
  | LSTM_ lstm => LSTM.forward lstm
  end.

(** [forward] (models.py 128-144); [X] holds word indices. *)
Definition forward (self : t) (X : Tensor nat) (h : option (state (seq2seq self)))
    : option (Tensor F * state (seq2seq self)) :=
  embeddings ← Embedding.forward (embedding_layer self) X;
  '(hidden, last) ← call_seq2seq (seq2seq self) embeddings h;
  match shape hidden with
  | [seq_len; bs; hidden_size] =>
      flat ← ops.reshape hidden [seq_len * bs; hidden_size];
      out ← Linear.forward (linear_layer self) flat;
      Some (out, last)
  | _ => None
  end.

(** Every tensor of a hidden state has shape [sh]. *)
Definition state_shaped (m : seq2seq_module) (sh : list nat) : state m → Prop :=
  match m with
  | RNN_ _ => λ h, shaped sh h
  | LSTM_ _ => λ h, shaped sh h.1 ∧ shaped sh h.2
  end.

Definition num_layers (m : seq2seq_module) : nat :=
  match m with
  | RNN_ rnn => length (RNN.rnn_cells rnn)
  | LSTM_ lstm => length (LSTM.lstm_cells lstm)
  end.

(** The layers fit each other: embeddings of [embedding_size] features
    go into a sequence model with [hidden_size] hidden units and at least
    one layer, whose output goes into the linear layer. *)
Definition well_formed (self : t) (embedding_size output_size hidden_size : nat)
    : Prop :=
  Embedding.well_formed (embedding_layer self) ∧
  Embedding.num_embeddings (embedding_layer self) = output_size ∧
  Embedding.embedding_dim (embedding_layer self) = embedding_size ∧
  match seq2seq self with
  | RNN_ rnn =>
      RNN.hidden_size rnn = hidden_size ∧ RNN.rnn_cells rnn ≠ [] ∧
      rnn_cells_fit embedding_size hidden_size (RNN.rnn_cells rnn)
  | LSTM_ lstm =>
      LSTM.hidden_size lstm = hidden_size ∧ LSTM.lstm_cells lstm ≠ [] ∧
      lstm_cells_fit embedding_size hidden_size (LSTM.lstm_cells lstm)
  end ∧
  Linear.well_formed (linear_layer self) ∧
  Linear.in_features (linear_layer self) = hidden_size ∧
  Linear.out_features (linear_layer self) = output_size.
End LanguageModel.
Arguments t F : clear implicits.
Arguments seq2seq_module F : clear implicits.
End LanguageModel.


(** ** Example layers and inputs *)

(** A batch of two examples with two channels. *)
Definition example_batch : Tensor R := mkTensor [2; 2] [1%R; 2%R; 3%R; 4%R] false.

(** [BatchNorm1d(2, eps=1e-5, momentum=0.1)], freshly constructed, and the
    same layer after [eval()]. *)
Definition example_bn : BatchNorm1d.t R :=
  BatchNorm1d.__init__ 2 (1 / 100000)%R (1 / 10)%R.

Definition example_bn_eval : BatchNorm1d.t R :=
  BatchNorm1d.mk false 2 (1 / 100000)%R (1 / 10)%R
    (as_Parameter (init.ones [2])) (as_Parameter (init.zeros [2]))
    (init.zeros [2]) (init.ones [2]).

(** One image with two channels, one row and two columns. *)
Definition example_image : Tensor R :=
  mkTensor [1; 2; 1; 2] [1%R; 2%R; 3%R; 4%R] false.

(** An LSTM cell with one input feature and one hidden unit, without the
    second bias. *)
Definition example_lstm_cell : LSTMCell.t R :=
  LSTMCell.mk true 1
    (mkTensor [1; 4] [1%R; 2%R; 3%R; 4%R] true)
    (mkTensor [1; 4] [4%R; 3%R; 2%R; 1%R] true)
    (Some (mkTensor [4] [0%R; 1%R; 0%R; 1%R] true))
    None.

Definition example_step : Tensor R := mkTensor [1; 1] [2%R] false.

(** Two rows of constant logits over three classes, and their labels. *)
Definition example_logits : Tensor R :=
  mkTensor [2; 3] [0%R; 0%R; 0%R; 1%R; 1%R; 1%R] false.

Definition example_labels : Tensor nat := mkTensor [2] [0; 2] false.

(** [Conv(1, 1, kernel_size=3, stride=2, bias=False)] with a zero kernel,
    and a 5 by 5 input. *)
Definition example_conv : Conv.t R :=
  Conv.mk true 1 1 3 2 (as_Parameter (init.zeros [3; 3; 1; 1])) None.

Definition example_conv_input : Tensor R := init.zeros [1; 1; 5; 5].

(** [Conv(1, 1, kernel_size=3, stride=1)] with a kernel and a bias of ones,
    a 5 by 5 input of ones and a 5 by 4 input. *)
Definition example_conv_same : Conv.t R :=
  Conv.mk true 1 1 3 1 (as_Parameter (init.ones [3; 3; 1; 1]))
    (Some (as_Parameter (init.ones [1]))).

Definition example_square_input : Tensor R := init.ones [1; 1; 5; 5].

Definition example_wide_input : Tensor R := init.ones [1; 1; 5; 4].

(** A generator that fills every tensor with the lower bound and counts the
    draws. *)
Definition example_rand : Rand R nat :=
  λ sh low high g, (tabulate sh (λ _, low) false, S g).


(** ** Further example layers and inputs *)

(** [Linear(2, 3)] with a zero weight and a zero bias. *)
Definition example_linear : Linear.t R :=
  Linear.mk true 2 3 (as_Parameter (init.zeros [2; 3]))
    (Some (as_Parameter (init.zeros [1; 3]))).

(** [LayerNorm1d(2, eps=1e-5)], freshly constructed. *)
Definition example_layer_norm : LayerNorm1d.t R :=
  LayerNorm1d.__init__ 2 (1 / 100000)%R.

(** [Dropout(p=0.5)] in training mode. *)
Definition example_dropout : Dropout.t R := Dropout.mk true (1 / 2)%R.

(** Initializers that return zeros (ones for the dropout mask) and count
    the draws. *)
Definition example_initializers : Initializers R nat := {|
  kaiming_uniform fan_in fan_out sh :=
    λ g, (Some (init.zeros (default [fan_in; fan_out] sh)), S g);
  randn sh := λ g, (Some (init.zeros sh), S g);
  randb sh p := λ g, (Some (init.ones sh), S g);
|}.

(** [Embedding(3, 2)] with the rows (1, 2), (3, 4), (5, 6), and one sequence
    step for a batch of two words. *)
Definition example_embedding : Embedding.t R :=
  Embedding.mk true 3 2
    (mkTensor [3; 2] [1%R; 2%R; 3%R; 4%R; 5%R; 6%R] true).

Definition example_words : Tensor nat := mkTensor [1; 2] [0; 2] false.

(** An RNN cell with one input feature and one hidden unit, with the first
    bias only, and the stacks made of it and of the example LSTM cell. *)
Definition example_rnn_cell : RNNCell.t R :=
  RNNCell.mk true 1 (mkTensor [1; 1] [1%R] true) (mkTensor [1; 1] [2%R] true)
    (Some (mkTensor [1] [3%R] true)) None RNNCell.Tanh_.

Definition example_rnn : RNN.t R := RNN.mk true 1 [example_rnn_cell; example_rnn_cell].

Definition example_lstm : LSTM.t R :=
  LSTM.mk true 1 [example_lstm_cell; example_lstm_cell].

(** Two time steps for a batch of one example with one feature; an empty
    sequence; a state for one layer. *)
Definition example_sequence : Tensor R := mkTensor [2; 1; 1] [1%R; 2%R] false.

Definition example_empty_sequence : Tensor R := mkTensor [0; 1; 1] [] false.

Definition example_state : Tensor R := mkTensor [1; 1; 1] [5%R] false.

(** [ConvBN(in_channels, out_channels, kernel_size, stride)] with zero
    kernel and bias, and the ResNet9 made of such blocks. *)
Definition example_conv_bn (in_channels out_channels kernel_size stride : nat)
    : ConvBN.t R :=
  ConvBN.mk true
    (Conv.mk true in_channels out_channels kernel_size stride
       (as_Parameter (init.zeros [kernel_size; kernel_size; in_channels; out_channels]))
       (Some (as_Parameter (init.zeros [out_channels]))))
    (BatchNorm1d.__init__ out_channels (1 / 100000)%R (1 / 10)%R).

Definition example_resnet : ResNet9.t R :=
  ResNet9.mk true
    ((λ '(in_channels, out_channels, kernel_size, stride),
        example_conv_bn in_channels out_channels kernel_size stride)
       <$> ResNet9.conv_bn_args)
    ((λ '(in_features, out_features),
        Linear.mk true in_features out_features
          (as_Parameter (init.zeros [in_features; out_features]))
          (Some (as_Parameter (init.zeros [1; out_features]))))
       <$> ResNet9.linear_args).

(** One CIFAR-10 image, channel-first, and an image of twice the size. *)
Definition example_cifar_image : Tensor R := init.zeros [1; 3; 32; 32].

Definition example_large_image : Tensor R := init.zeros [1; 3; 64; 64].

(** A language model over three words with embeddings of size 2 and one
    RNN layer with one hidden unit. *)
Definition example_language_model : LanguageModel.t R :=
  LanguageModel.mk true example_embedding
    (LanguageModel.RNN_
       (RNN.mk true 1
          [RNNCell.mk true 1 (as_Parameter (init.zeros [2; 1]))
             (as_Parameter (init.zeros [1; 1])) None None RNNCell.Tanh_]))
    (Linear.mk true 1 3 (as_Parameter (init.zeros [1; 3]))
       (Some (as_Parameter (init.zeros [1; 3])))).

(** * Part IV: discovery and mode propagation on Module trees *)

Section traversal.
Context (h : heap).

Lemma forallb_Forall_true {A} (f : A → bool) (l : list A) :
  forallb f l = true ↔ Forall (λ x, f x = true) l.
Proof. rewrite forallb_forall, Forall_forall. by setoid_rewrite list_elem_of_In. Qed.

Lemma tree_upto_mono n m v : n ≤ m → tree_upto n h v = true → tree_upto m h v = true.
Proof.
  revert m v. induction n as [|n IH]; intros m v Hle; [done|].
  destruct m as [|m]; [lia|]. assert (n ≤ m) as Hnm by lia.
  destruct v as [p|a|items|vs|vs|]; simpl; try done.
  - destruct (h !! a); [|done]. by apply IH.
  - rewrite !forallb_Forall_true. intros Hf. eapply Forall_impl; [done|].
    intros v. by apply IH.
  - rewrite !forallb_Forall_true. intros Hf. eapply Forall_impl; [done|].
    intros v. by apply IH.
  - rewrite !forallb_Forall_true. intros Hf. eapply Forall_impl; [done|].
    intros v. by apply IH.
Qed.

Lemma Forall_tree_upto (vs : list value) :
  Forall (λ v, ∃ n, tree_upto n h v = true) vs →
  ∃ n, forallb (tree_upto n h) vs = true.
Proof.
  induction 1 as [|v vs [n Hn] _ [m Hm]]; [by exists 0|].
  exists (n `max` m). simpl. apply andb_true_iff. split.
  - eapply tree_upto_mono; [|done]. lia.
  - rewrite forallb_Forall_true in *. eapply Forall_impl; [done|].
    intros w. apply tree_upto_mono. lia.
Qed.

(** A tree is exhausted at some depth. *)
Lemma tree_below_upto v : tree_below h v → ∃ n, tree_upto n h v = true.
Proof.
  revert v. fix IH 2.
  assert (∀ vs, Forall (tree_below h) vs → ∃ n, forallb (tree_upto n h) vs = true) as IHs.
  { intros vs Hvs. apply Forall_tree_upto.
    induction Hvs as [|v vs Hv _ IHvs]; constructor; [by apply IH|done]. }
  intros v [p| |a o Ho Hf|items Hf|vs Hf|vs Hf].
  - by exists 1.
  - by exists 1.
  - destruct (IHs _ Hf) as [n Hn]. exists (S (S n)). simpl. by rewrite Ho.
  - destruct (IHs _ Hf) as [n Hn]. by exists (S n).
  - destruct (IHs _ Hf) as [n Hn]. by exists (S n).
  - destruct (IHs _ Hf) as [n Hn]. by exists (S n).
Qed.

Lemma tree_upto_below n v : tree_upto n h v = true → tree_below h v.
Proof.
  revert v. induction n as [|n IH]; intros v; [done|].
  destruct v as [p|a|items|vs|vs|]; simpl.
  - constructor.
  - destruct (h !! a) as [o|] eqn:Ho; [|done]. intros Hn.
    apply IH in Hn. inversion Hn; subst. by econstructor.
  - rewrite forallb_Forall_true. intros Hf. constructor.
    eapply Forall_impl; [done|]. apply IH.
  - rewrite forallb_Forall_true. intros Hf. constructor.
    eapply Forall_impl; [done|]. apply IH.
  - rewrite forallb_Forall_true. intros Hf. constructor.
    eapply Forall_impl; [done|]. apply IH.
  - constructor.
Qed.
End traversal.


Section children.
Context (h : heap).

Lemma mapM_Some_impl {A B} (f g : A → option B) (l : list A) (k : list B) :
  (∀ x y, x ∈ l → f x = Some y → g x = Some y) →
  mapM f l = Some k → mapM g l = Some k.
Proof.
  rewrite !mapM_Some. intros Hfg Hl.
  induction Hl as [|x y l k Hxy _ IH]; constructor.
  - apply Hfg; [left|done].
  - apply IH. intros x' y' Hx'. apply Hfg. by right.
Qed.

Lemma _child_modules_mono n m v r :
  n ≤ m → _child_modules n h v = Some r → _child_modules m h v = Some r.
Proof.
  revert m v r. induction n as [|n IH]; intros m v r Hle; [done|].
  destruct m as [|m]; [lia|]. assert (n ≤ m) as Hnm by lia.
  destruct v as [p|a|items|vs|vs|]; simpl; try done.
  - destruct (h !! a) as [o|]; simpl; [|done].
    destruct (_child_modules n h (VDict (dict_of o))) as [ms|] eqn:Hms; simpl; [|done].
    intros [= <-]. by rewrite (IH m _ ms Hnm Hms).
  - destruct (mapM _ items) as [k|] eqn:Hk; simpl; [|done]. intros [= <-].
    erewrite mapM_Some_impl; [done| |done]. intros kv y _. by apply IH.
  - destruct (mapM _ vs) as [k|] eqn:Hk; simpl; [|done]. intros [= <-].
    erewrite mapM_Some_impl; [done| |done]. intros kv y _. by apply IH.
  - destruct (mapM _ vs) as [k|] eqn:Hk; simpl; [|done]. intros [= <-].
    erewrite mapM_Some_impl; [done| |done]. intros kv y _. by apply IH.
Qed.

Lemma _child_modules_total n v :
  tree_upto n h v = true → is_Some (_child_modules n h v).
Proof.
  revert v. induction n as [|n IH]; intros v; [done|].
  destruct v as [p|a|items|vs|vs|]; simpl; try done.
  - destruct (h !! a) as [o|]; simpl; [|done]. intros Hn.
    destruct (IH _ Hn) as [ms ->]. by eexists.
  - rewrite forallb_Forall_true, Forall_fmap. intros Hf.
    apply fmap_is_Some, mapM_is_Some. eapply Forall_impl; [done|].
    intros kv. apply IH.
  - rewrite forallb_Forall_true. intros Hf.
    apply fmap_is_Some, mapM_is_Some. eapply Forall_impl; [done|]. apply IH.
  - rewrite forallb_Forall_true. intros Hf.
    apply fmap_is_Some, mapM_is_Some. eapply Forall_impl; [done|]. apply IH.
Qed.

Lemma elem_of_mapM_join {A} (f : A → option (list nat)) (l : list A)
    (k : list (list nat)) (b : nat) :
  mapM f l = Some k →
  b ∈ mjoin k ↔ ∃ x r, x ∈ l ∧ f x = Some r ∧ b ∈ r.
Proof.
  rewrite mapM_Some. intros Hl. rewrite list_elem_of_join. split.
  - intros (r & Hb & Hr).
    apply list_elem_of_lookup in Hr as [i Hi].
    destruct (Forall2_lookup_r _ _ _ _ _ Hl Hi) as (x & Hx & Hfx).
    exists x, r. split_and!; [|done..]. by eapply list_elem_of_lookup_2.
  - intros (x & r & Hx & Hfx & Hb).
    apply list_elem_of_lookup in Hx as [i Hi].
    destruct (Forall2_lookup_l _ _ _ _ _ Hl Hi) as (r' & Hr' & Hfx').
    exists r. split; [done|]. rewrite Hfx in Hfx'. injection Hfx' as ->.
    by eapply list_elem_of_lookup_2.
Qed.

(** The result of [_child_modules] lists exactly the reachable Modules. *)
Lemma _child_modules_reach n v ms b :
  _child_modules n h v = Some ms → b ∈ ms ↔ reach h v b.
Proof.
  revert v ms b. induction n as [|n IH]; intros v ms b; [done|].
  destruct v as [p|a|items|vs|vs|]; simpl.
  - intros [= <-]. split; [by intros ?%elem_of_nil|inversion 1].
  - destruct (h !! a) as [o|] eqn:Ho; simpl; [|done].
    destruct (_child_modules n h (VDict (dict_of o))) as [ms'|] eqn:Hms; simpl; [|done].
    intros [= <-]. rewrite elem_of_cons, (IH _ _ b Hms). split.
    + intros [->|Hr]; [constructor|].
      inversion Hr; subst. by eapply reach_module.
    + inversion 1 as [|? o' v' ? Ho' Hv' Hr'| | |]; subst; [by left|right].
      rewrite Ho in Ho'. injection Ho' as <-. by eapply reach_dict.
  - destruct (mapM _ items) as [k|] eqn:Hk; simpl; [|done]. intros [= <-].
    rewrite (elem_of_mapM_join _ _ _ _ Hk). split.
    + intros (kv & r & Hkv & Hr & Hb). apply (IH _ _ b) in Hr.
      eapply reach_dict; [|by apply Hr]. by apply list_elem_of_fmap_2.
    + inversion 1 as [| |? v' ? Hv' Hr'| |]; subst.
      apply list_elem_of_fmap in Hv' as (kv & -> & Hkv).
      apply mapM_Some in Hk.
      apply list_elem_of_lookup in Hkv as [i Hi].
      destruct (Forall2_lookup_l _ _ _ _ _ Hk Hi) as (r & Hr & Hfx).
      exists kv, r. split_and!; [by eapply list_elem_of_lookup_2|done|].
      by apply (IH _ _ b Hfx).
  - destruct (mapM _ vs) as [k|] eqn:Hk; simpl; [|done]. intros [= <-].
    rewrite (elem_of_mapM_join _ _ _ _ Hk). split.
    + intros (v & r & Hv & Hr & Hb). apply (IH _ _ b) in Hr.
      eapply reach_list; [done|by apply Hr].
    + inversion 1 as [| | |? v' ? Hv' Hr'|]; subst.
      apply mapM_Some in Hk.
      apply list_elem_of_lookup in Hv' as [i Hi].
      destruct (Forall2_lookup_l _ _ _ _ _ Hk Hi) as (r & Hr & Hfx).
      exists v', r. split_and!; [by eapply list_elem_of_lookup_2|done|].
      by apply (IH _ _ b Hfx).
  - destruct (mapM _ vs) as [k|] eqn:Hk; simpl; [|done]. intros [= <-].
    rewrite (elem_of_mapM_join _ _ _ _ Hk). split.
    + intros (v & r & Hv & Hr & Hb). apply (IH _ _ b) in Hr.
      eapply reach_tuple; [done|by apply Hr].
    + inversion 1 as [| | | |? v' ? Hv' Hr']; subst.
      apply mapM_Some in Hk.
      apply list_elem_of_lookup in Hv' as [i Hi].
      destruct (Forall2_lookup_l _ _ _ _ _ Hk Hi) as (r & Hr & Hfx).
      exists v', r. split_and!; [by eapply list_elem_of_lookup_2|done|].
      by apply (IH _ _ b Hfx).
  - intros [= <-]. split; [by intros ?%elem_of_nil|inversion 1].
Qed.
End children.


Section modes.
Implicit Types (h : heap) (b : bool) (a m : nat).

Lemma lookup_set_training b h m a :
  set_training b h m !! a =
    if decide (m = a) then (λ o, Object b (attrs o)) <$> h !! a else h !! a.
Proof.
  unfold set_training. rewrite lookup_alter. by destruct (decide (m = a)) as [->|].
Qed.

Lemma lookup_foldl_set_training b ms h a :
  foldl (set_training b) h ms !! a =
    if decide (a ∈ ms) then (λ o, Object b (attrs o)) <$> h !! a else h !! a.
Proof.
  revert h. induction ms as [|m ms IH]; intros h; cbn [foldl].
  - case_decide; [set_solver|done].
  - rewrite IH, lookup_set_training.
    destruct (decide (m = a)) as [->|Hne].
    + destruct (decide (a ∈ a :: ms)) as [_|Hn]; [|exfalso; apply Hn; left].
      destruct (decide (a ∈ ms)); [|done]. by destruct (h !! a).
    + destruct (decide (a ∈ ms)) as [Hin|Hin];
        destruct (decide (a ∈ m :: ms)) as [Hin'|Hin']; try done.
      * exfalso. apply Hin'. by right.
      * exfalso. apply elem_of_cons in Hin' as [->|?]; done.
Qed.

(** The discovery functions read attributes only, never the flags. *)
Lemma _child_modules_attrs h h' n v :
  (∀ a, attrs <$> h' !! a = attrs <$> h !! a) →
  _child_modules n h' v = _child_modules n h v.
Proof.
  intros Hh. revert v. induction n as [|n IH]; intros v; [done|].
  destruct v as [p|a|items|vs|vs|]; simpl; try done.
  - specialize (Hh a).
    destruct (h' !! a) as [o'|], (h !! a) as [o|]; simplify_eq/=; [|done].
    unfold dict_of. rewrite Hh. by rewrite IH.
  - f_equal. apply mapM_ext. intros kv. apply IH.
  - f_equal. apply mapM_ext. intros kv. apply IH.
  - f_equal. apply mapM_ext. intros kv. apply IH.
Qed.

Lemma attrs_foldl_set_training b ms h a :
  attrs <$> foldl (set_training b) h ms !! a = attrs <$> h !! a.
Proof.
  rewrite lookup_foldl_set_training.
  destruct (decide (a ∈ ms)); [|done]. by destruct (h !! a).
Qed.

Lemma Module__children_attrs h h' n self :
  (∀ a, attrs <$> h' !! a = attrs <$> h !! a) →
  Module__children n h' self = Module__children n h self.
Proof.
  intros Hh. unfold Module__children. pose proof (Hh self) as Hself.
  destruct (h' !! self) as [o'|], (h !! self) as [o|]; simplify_eq/=; [|done].
  unfold dict_of. rewrite Hself. by apply _child_modules_attrs.
Qed.

Lemma Module_eval_unfold fuel h self ms :
  Module__children fuel h self = Some ms →
  Module_eval fuel h self = Some (foldl (set_training false) h (self :: ms)).
Proof.
  intros Hms. unfold Module_eval.
  rewrite (Module__children_attrs h); [by rewrite Hms|].
  intros a. apply (attrs_foldl_set_training false [self]).
Qed.

Lemma Module_train_unfold fuel h self ms :
  Module__children fuel h self = Some ms →
  Module_train fuel h self = Some (foldl (set_training true) h (self :: ms)).
Proof.
  intros Hms. unfold Module_train.
  rewrite (Module__children_attrs h); [by rewrite Hms|].
  intros a. apply (attrs_foldl_set_training true [self]).
Qed.

(** Setting the flags of the same Modules twice, possibly to different
    values, is the same as setting them once to the last value. *)
Lemma foldl_set_training_twice b b' ms h :
  foldl (set_training b') (foldl (set_training b) h ms) ms
  = foldl (set_training b') h ms.
Proof.
  apply map_eq. intros a. rewrite !lookup_foldl_set_training.
  destruct (decide (a ∈ ms)); [|done]. by destruct (h !! a).
Qed.

Lemma flag_foldl_set_training b ms h a :
  a ∈ ms → is_Some (h !! a) → flag (foldl (set_training b) h ms) a = Some b.
Proof.
  intros Hin [o Ho]. unfold flag. rewrite lookup_foldl_set_training.
  rewrite decide_True by done. by rewrite Ho.
Qed.

Lemma reach_bound h v a : tree_below h v → reach h v a → is_Some (h !! a).
Proof.
  intros Ht Hr.
  induction Hr as [a|a o v b Ho Hv Hr IH|items v b Hv Hr IH
                   |vs v b Hv Hr IH|vs v b Hv Hr IH];
    inversion Ht as [| |? o' Ho' Hf|? Hf|? Hf|? Hf]; subst.
  - by eexists.
  - rewrite Ho in Ho'. injection Ho' as <-.
    rewrite Forall_forall in Hf. by apply IH, Hf.
  - rewrite Forall_forall in Hf. by apply IH, Hf.
  - rewrite Forall_forall in Hf. by apply IH, Hf.
  - rewrite Forall_forall in Hf. by apply IH, Hf.
Qed.

Lemma Module__children_total h self :
  tree_below h (VModule self) →
  ∃ n0 ms, ∀ fuel, n0 ≤ fuel → Module__children fuel h self = Some ms.
Proof.
  intros [[|n] Hn]%tree_below_upto; [done|]. simpl in Hn.
  destruct (h !! self) as [o|] eqn:Ho; [|done].
  destruct (_child_modules_total _ _ _ Hn) as [ms Hms].
  exists n, ms. intros fuel Hfuel. unfold Module__children. rewrite Ho. simpl.
  by eapply _child_modules_mono.
Qed.

Lemma Module__children_reach h fuel self ms (b : nat) :
  Module__children fuel h self = Some ms →
  b ∈ self :: ms ↔ reach h (VModule self) b.
Proof.
  unfold Module__children. destruct (h !! self) as [o|] eqn:Ho; [simpl|done].
  intros Hms. rewrite elem_of_cons, (_child_modules_reach _ _ _ _ b Hms). split.
  - intros [->|Hr]; [constructor|]. inversion Hr; subst. by eapply reach_module.
  - inversion 1 as [|? o' v' ? Ho' Hv' Hr'| | |]; subst; [by left|right].
    rewrite Ho in Ho'. injection Ho' as <-. by eapply reach_dict.
Qed.
End modes.


Section no_self.
Context (h : heap).

Lemma _child_modules_agree n m v r s :
  _child_modules n h v = Some r → _child_modules m h v = Some s → r = s.
Proof.
  intros Hr Hs.
  apply (_child_modules_mono h n (n `max` m)) in Hr; [|lia].
  apply (_child_modules_mono h m (n `max` m)) in Hs; [|lia]. congruence.
Qed.

Lemma length_join_elem (r : list nat) (k : list (list nat)) :
  r ∈ k → length r ≤ length (mjoin k).
Proof.
  induction 1 as [r k|r r' k _ IH]; simpl; rewrite length_app; lia.
Qed.

(** Every listed Module was visited by a nested call, whose own result is
    part of the list. *)
Lemma _child_modules_subcall n v ms (a : nat) :
  _child_modules n h v = Some ms → a ∈ ms →
  ∃ n' ms', _child_modules n' h (VModule a) = Some ms' ∧ length ms' ≤ length ms.
Proof.
  revert v ms. induction n as [|n IH]; intros v ms; [done|].
  assert (∀ {A} (f : A → value) (l : list A) k,
    mapM (λ x, _child_modules n h (f x)) l = Some k → a ∈ mjoin k →
    ∃ n' ms', _child_modules n' h (VModule a) = Some ms'
              ∧ length ms' ≤ length (mjoin k)) as Hcontainer.
  { intros A f l k Hk (x & r & Hx & Hr & Ha)%(elem_of_mapM_join _ _ _ _ Hk).
    destruct (IH _ _ Hr Ha) as (n' & ms' & Hms' & Hlen).
    exists n', ms'. split; [done|]. etrans; [done|]. apply length_join_elem.
    apply mapM_Some in Hk. apply list_elem_of_lookup in Hx as [i Hi].
    destruct (Forall2_lookup_l _ _ _ _ _ Hk Hi) as (r' & Hr' & Hfx).
    rewrite Hr in Hfx. injection Hfx as <-. by eapply list_elem_of_lookup_2. }
  destruct v as [p|b|items|vs|vs|].
  - simpl. by intros [= <-] ?%elem_of_nil.
  - intros Hb Ha. pose proof Hb as Hb'. simpl in Hb.
    destruct (h !! b) as [o|] eqn:Ho; simpl in Hb; [|done].
    destruct (_child_modules n h (VDict (dict_of o))) as [ms'|] eqn:Hms;
      simpl in Hb; [|done].
    injection Hb as <-. apply elem_of_cons in Ha as [->|Ha].
    + by exists (S n), (b :: ms').
    + destruct (IH _ _ Hms Ha) as (n' & ms'' & Hms'' & Hlen).
      exists n', ms''. split; [done|]. simpl. lia.
  - simpl. destruct (mapM _ items) as [k|] eqn:Hk; simpl; [|done].
    intros [= <-]. by apply (Hcontainer _ snd items).
  - simpl. destruct (mapM _ vs) as [k|] eqn:Hk; simpl; [|done].
    intros [= <-]. by apply (Hcontainer _ (λ v, v) vs).
  - simpl. destruct (mapM _ vs) as [k|] eqn:Hk; simpl; [|done].
    intros [= <-]. by apply (Hcontainer _ (λ v, v) vs).
  - simpl. by intros [= <-] ?%elem_of_nil.
Qed.

Lemma Module__children_not_self fuel self ms :
  Module__children fuel h self = Some ms → self ∉ ms.
Proof.
  unfold Module__children. destruct (h !! self) as [o|] eqn:Ho; [simpl|done].
  intros Hms Hin.
  destruct (_child_modules_subcall _ _ _ _ Hms Hin) as ([|n'] & ms' & Hms' & Hlen);
    [done|].
  simpl in Hms'. rewrite Ho in Hms'. simpl in Hms'.
  destruct (_child_modules n' h (VDict (dict_of o))) as [ms''|] eqn:Hms'';
    simpl in Hms'; [|done].
  injection Hms' as <-. rewrite (_child_modules_agree _ _ _ _ _ Hms'' Hms) in Hlen.
  simpl in Hlen. lia.
Qed.
End no_self.


Section acyclicity.
Context (h : heap).

Lemma reach_trans v a b : reach h v a → reach h (VModule a) b → reach h v b.
Proof.
  intros Hva Hab.
  induction Hva as [a|a' o v b' Ho Hv Hr IH|items v b' Hv Hr IH
                    |vs v b' Hv Hr IH|vs v b' Hv Hr IH].
  - done.
  - eapply reach_module; eauto.
  - eapply reach_dict; eauto.
  - eapply reach_list; eauto.
  - eapply reach_tuple; eauto.
Qed.

Lemma tree_below_reach v a : tree_below h v → reach h v a → tree_below h (VModule a).
Proof.
  intros Ht Hr.
  induction Hr as [a|a o v b Ho Hv Hr IH|items v b Hv Hr IH
                   |vs v b Hv Hr IH|vs v b Hv Hr IH]; [done|..];
    inversion Ht as [| |? o' Ho' Hf|? Hf|? Hf|? Hf]; subst.
  - rewrite Ho in Ho'. injection Ho' as <-.
    rewrite Forall_forall in Hf. by apply IH, Hf.
  - rewrite Forall_forall in Hf. by apply IH, Hf.
  - rewrite Forall_forall in Hf. by apply IH, Hf.
  - rewrite Forall_forall in Hf. by apply IH, Hf.
Qed.

Lemma tree_below_acyclic v : tree_below h v → acyclic h v.
Proof.
  intros Ht a Ha (o & Ho & Hself).
  pose proof (tree_below_reach _ _ Ht Ha) as Hta.
  destruct (Module__children_total _ _ Hta) as (n & ms & Hms).
  specialize (Hms n (le_n _)).
  apply (Module__children_not_self _ _ _ _ Hms).
  unfold Module__children in Hms. rewrite Ho in Hms. simpl in Hms.
  by apply (_child_modules_reach _ _ _ _ a Hms).
Qed.

Lemma vsize_elem (w : value) (vs : list value) :
  w ∈ vs → vsize w ≤ foldr (λ w n, vsize w + n) 0 vs.
Proof. induction 1; simpl; lia. Qed.

Lemma vsize_item (w : value) (items : list (string * value)) :
  w ∈ items.*2 → vsize w ≤ foldr (λ kv n, vsize kv.2 + n) 0 items.
Proof.
  induction items as [|kv items IH]; simpl; [by intros ?%elem_of_nil|].
  intros [->|Hin]%elem_of_cons; [lia|]. specialize (IH Hin). lia.
Qed.

(** The traversal can pass through each Module of the store at most once
    on a path, so on an acyclic graph it ends. *)
Lemma acyclic_tree_below_seen (n : nat) :
  ∀ (seen : gset nat) (v : value),
    size (dom h ∖ seen) ≤ n →
    bound h v → acyclic h v → (∀ a, reach h v a → a ∉ seen) →
    tree_below h v.
Proof.
  induction n as [n IHn] using lt_wf_ind. intros seen v.
  remember (vsize v) as m eqn:Hm. revert v Hm.
  induction m as [m IHm] using lt_wf_ind.
  intros v -> Hsize Hbound Hacyclic Hseen.
  destruct v as [p|a|items|vs|vs|].
  - constructor.
  - destruct (Hbound a (reach_self _ _)) as [o Ho].
    apply tb_module with o; [done|]. apply Forall_forall. intros w Hw.
    assert (a ∉ seen) as Hfresh by apply Hseen, reach_self.
    assert (dom h ∖ ({[a]} ∪ seen) ⊂ dom h ∖ seen) as Hless.
    { split.
      - intros x [Hx Hnx]%elem_of_difference. apply elem_of_difference.
        split; [done|]. intros Hxs. apply Hnx, elem_of_union. by right.
      - intros Hsub. assert (a ∈ dom h ∖ seen) as Hin.
        { apply elem_of_difference. split; [|done]. by apply elem_of_dom. }
        apply Hsub, elem_of_difference in Hin as [_ Hna].
        apply Hna, elem_of_union. left. by apply elem_of_singleton. }
    apply subset_size in Hless.
    apply (IHn (size (dom h ∖ ({[a]} ∪ seen))) ltac:(lia) ({[a]} ∪ seen));
      [done|..].
    + intros b Hb. apply Hbound. by eapply reach_module.
    + intros b Hb. apply Hacyclic. by eapply reach_module.
    + intros b Hb [Hba%elem_of_singleton|Hin]%elem_of_union.
      * subst b. apply (Hacyclic a (reach_self _ _)). exists o.
        split; [done|]. by eapply reach_dict.
      * apply (Hseen b); [|done]. by eapply reach_module.
  - constructor. apply Forall_forall. intros w Hw.
    pose proof (vsize_item _ _ Hw) as Hlt.
    apply (IHm (vsize w) ltac:(simpl; lia) w eq_refl Hsize).
    + intros b Hb. apply Hbound. by eapply reach_dict.
    + intros b Hb. apply Hacyclic. by eapply reach_dict.
    + intros b Hb. apply Hseen. by eapply reach_dict.
  - constructor. apply Forall_forall. intros w Hw.
    pose proof (vsize_elem _ _ Hw) as Hlt.
    apply (IHm (vsize w) ltac:(simpl; lia) w eq_refl Hsize).
    + intros b Hb. apply Hbound. by eapply reach_list.
    + intros b Hb. apply Hacyclic. by eapply reach_list.
    + intros b Hb. apply Hseen. by eapply reach_list.
  - constructor. apply Forall_forall. intros w Hw.
    pose proof (vsize_elem _ _ Hw) as Hlt.
    apply (IHm (vsize w) ltac:(simpl; lia) w eq_refl Hsize).
    + intros b Hb. apply Hbound. by eapply reach_tuple.
    + intros b Hb. apply Hacyclic. by eapply reach_tuple.
    + intros b Hb. apply Hseen. by eapply reach_tuple.
  - constructor.
Qed.

(** A Module tree is an attribute graph without dangling references and
    without cycles. *)
Lemma tree_below_iff v : tree_below h v ↔ bound h v ∧ acyclic h v.
Proof.
  split.
  - intros Ht. split; [|by apply tree_below_acyclic].
    intros a Ha. by eapply reach_bound.
  - intros [Hbound Hacyclic].
    apply (acyclic_tree_below_seen (size (dom h ∖ (∅ : gset nat))) ∅); [done..|].
    intros a _. apply not_elem_of_empty.
Qed.
End acyclicity.


Section parameters.
Context (h : heap).

Lemma _unpack_params_mono n m v r :
  n ≤ m → _unpack_params n h v = Some r → _unpack_params m h v = Some r.
Proof.
  revert m v r. induction n as [|n IH]; intros m v r Hle; [done|].
  destruct m as [|m]; [lia|]. assert (n ≤ m) as Hnm by lia.
  destruct v as [p|a|items|vs|vs|]; simpl; try done.
  - destruct (h !! a) as [o|]; simpl; [|done]. by apply IH.
  - destruct (mapM _ items) as [k|] eqn:Hk; simpl; [|done]. intros [= <-].
    erewrite mapM_Some_impl; [done| |done]. intros kv y _. by apply IH.
  - destruct (mapM _ vs) as [k|] eqn:Hk; simpl; [|done]. intros [= <-].
    erewrite mapM_Some_impl; [done| |done]. intros kv y _. by apply IH.
  - destruct (mapM _ vs) as [k|] eqn:Hk; simpl; [|done]. intros [= <-].
    erewrite mapM_Some_impl; [done| |done]. intros kv y _. by apply IH.
Qed.

Lemma _unpack_params_total n v :
  tree_upto n h v = true → is_Some (_unpack_params n h v).
Proof.
  revert v. induction n as [|n IH]; intros v; [done|].
  destruct v as [p|a|items|vs|vs|]; simpl; try done.
  - destruct (h !! a) as [o|]; simpl; [|done]. apply IH.
  - rewrite forallb_Forall_true, Forall_fmap. intros Hf.
    apply fmap_is_Some, mapM_is_Some. eapply Forall_impl; [done|].
    intros kv. apply IH.
  - rewrite forallb_Forall_true. intros Hf.
    apply fmap_is_Some, mapM_is_Some. eapply Forall_impl; [done|]. apply IH.
  - rewrite forallb_Forall_true. intros Hf.
    apply fmap_is_Some, mapM_is_Some. eapply Forall_impl; [done|]. apply IH.
Qed.

Lemma path_lt_irrefl π : ¬ path_lt π π.
Proof. induction π as [|i π IH]; inversion 1; subst; [lia|done]. Qed.

Lemma StronglySorted_path_lt_NoDup πs : StronglySorted path_lt πs → NoDup πs.
Proof.
  induction 1 as [|π πs _ IH Hall]; constructor; [|done].
  intros Hin. rewrite Forall_forall in Hall. by eapply path_lt_irrefl, Hall.
Qed.

(** The paths into the elements of a container, the [i]-th element being
    entered by the step [k + i]. *)
Lemma enumerates_elements (vs : list value) (rs : list (list nat)) (k : nat) :
  Forall2 (λ v r, ∃ πs, enumerates h v πs r) vs rs →
  ∃ πs,
    Forall2 (λ π p, ∃ i v π', π = (k + i) :: π' ∧ vs !! i = Some v ∧ occurs h v π' p)
            πs (mjoin rs) ∧
    (∀ i v π' p, vs !! i = Some v → occurs h v π' p → (k + i) :: π' ∈ πs) ∧
    StronglySorted path_lt πs.
Proof.
  intros Hall. revert k.
  induction Hall as [|v r vs rs (πv & Hocc & Hcomplete & Hsorted) _ IH]; intros k.
  { exists []. split_and!; [constructor|by intros []|constructor]. }
  destruct (IH (S k)) as (πrest & Hocc' & Hcomplete' & Hsorted').
  exists (((k ::.) <$> πv) ++ πrest). split_and!.
  - simpl. apply Forall2_app.
    + apply Forall2_fmap_l. eapply Forall2_impl; [done|].
      intros π p Hπ. exists 0, v, π. by rewrite Nat.add_0_r.
    + eapply Forall2_impl; [done|].
      intros π p (i & w & π' & -> & Hi & Hw). exists (S i), w, π'.
      split_and!; [f_equal; lia|done..].
  - intros [|i] w π' p Hi Hw; apply elem_of_app.
    + left. simpl in Hi. injection Hi as <-. rewrite Nat.add_0_r.
      apply list_elem_of_fmap_2. by eapply Hcomplete.
    + right. replace (k + S i) with (S k + i) by lia. by eapply Hcomplete'.
  - apply StronglySorted_app_2.
    + intros π1 π2 (π & -> & _)%list_elem_of_fmap Hπ2.
      apply list_elem_of_lookup in Hπ2 as [j Hj].
      destruct (Forall2_lookup_l _ _ _ _ _ Hocc' Hj)
        as (p & _ & i & w & π' & -> & _).
      apply path_lt_head. lia.
    + clear -Hsorted. induction Hsorted as [|π πs _ IHs Hall]; simpl; constructor;
        [done|]. apply Forall_fmap. eapply Forall_impl; [done|].
      intros ρ. apply path_lt_tail.
    + done.
Qed.

Lemma enumerates_container (outer : value) (vs : list value) (rs : list (list nat)) :
  (∀ i v π p, vs !! i = Some v → occurs h v π p → occurs h outer (i :: π) p) →
  (∀ π p, occurs h outer π p →
          ∃ i v π', π = i :: π' ∧ vs !! i = Some v ∧ occurs h v π' p) →
  Forall2 (λ v r, ∃ πs, enumerates h v πs r) vs rs →
  ∃ πs, enumerates h outer πs (mjoin rs).
Proof.
  intros Hin Hout Hall.
  destruct (enumerates_elements vs rs 0 Hall) as (πs & Hocc & Hcomplete & Hsorted).
  exists πs. unfold enumerates. split_and!; [| |done].
  - eapply Forall2_impl; [done|].
    intros π p (i & v & π' & -> & Hi & Hv). by eapply Hin.
  - intros π p (i & v & π' & -> & Hi & Hv)%Hout. by eapply (Hcomplete i).
Qed.

(** [_unpack_params] returns one entry per path to a Parameter, in
    traversal order. *)
Lemma _unpack_params_enumerates n v ps :
  _unpack_params n h v = Some ps → ∃ πs, enumerates h v πs ps.
Proof.
  revert v ps. induction n as [|n IH]; intros v ps; [done|].
  destruct v as [p|a|items|vs|vs|]; simpl.
  - intros [= <-]. exists [[]]. unfold enumerates. split_and!.
    + repeat constructor.
    + inversion 1. by left.
    + repeat constructor.
  - destruct (h !! a) as [o|] eqn:Ho; simpl; [|done].
    intros (πs & Hocc & Hcomplete & Hsorted)%IH. exists πs.
    unfold enumerates. split_and!; [| |done].
    + eapply Forall2_impl; [done|]. intros π p. inversion 1; subst.
      by eapply occ_module.
    + intros π p. inversion 1 as [|? o' i v π' ? Ho' Hi Hv| | |]; subst.
      rewrite Ho in Ho'. injection Ho' as <-. eapply Hcomplete. by econstructor.
  - destruct (mapM _ items) as [k|] eqn:Hk; simpl; [|done]. intros [= <-].
    apply (enumerates_container _ items.*2).
    + intros. by econstructor.
    + inversion 1; subst. by eauto 10.
    + apply Forall2_fmap_l. apply mapM_Some in Hk.
      eapply Forall2_impl; [done|]. intros kv r. apply IH.
  - destruct (mapM _ vs) as [k|] eqn:Hk; simpl; [|done]. intros [= <-].
    apply (enumerates_container _ vs).
    + intros. by econstructor.
    + inversion 1; subst. by eauto 10.
    + apply mapM_Some in Hk. eapply Forall2_impl; [done|]. intros w r. apply IH.
  - destruct (mapM _ vs) as [k|] eqn:Hk; simpl; [|done]. intros [= <-].
    apply (enumerates_container _ vs).
    + intros. by econstructor.
    + inversion 1; subst. by eauto 10.
    + apply mapM_Some in Hk. eapply Forall2_impl; [done|]. intros w r. apply IH.
  - intros [= <-]. exists []. unfold enumerates.
    split_and!; [constructor|inversion 1|constructor].
Qed.
End parameters.


(** C3.  On a Module tree (an acyclic attribute graph), whatever the flags of its nodes are, `eval()`
    returns and leaves the training flag of the root and of every reachable
    Module false, `train()` returns and leaves them all true; no attribute
    and no other Module is touched; either call is idempotent, and calling
    one after the other gives the result of the last call alone. *)
Theorem mode_propagation (h : heap) (self : nat) :
  bound h (VModule self) → acyclic h (VModule self) →
  ∃ n0, ∀ fuel, n0 ≤ fuel →
    ∃ h_eval h_train,
      Module_eval fuel h self = Some h_eval ∧
      Module_train fuel h self = Some h_train ∧
      (∀ a, reach h (VModule self) a →
            flag h_eval a = Some false ∧ flag h_train a = Some true) ∧
      (∀ a, attrs <$> h_eval !! a = attrs <$> h !! a ∧
            attrs <$> h_train !! a = attrs <$> h !! a) ∧
      (∀ a, ¬ reach h (VModule self) a →
            h_eval !! a = h !! a ∧ h_train !! a = h !! a) ∧
      Module_eval fuel h_eval self = Some h_eval ∧
      Module_train fuel h_train self = Some h_train ∧
      Module_train fuel h_eval self = Some h_train ∧
      Module_eval fuel h_train self = Some h_eval.
Proof.
  intros Hbound Hacyclic.
  assert (tree_below h (VModule self)) as Htree by by apply tree_below_iff.
  destruct (Module__children_total _ _ Htree) as (n0 & ms & Hms).
  exists n0. intros fuel Hfuel. specialize (Hms fuel Hfuel).
  exists (foldl (set_training false) h (self :: ms)),
         (foldl (set_training true) h (self :: ms)).
  assert (∀ b, Module__children fuel (foldl (set_training b) h (self :: ms)) self
               = Some ms) as Hms'.
  { intros b. rewrite <-Hms. apply Module__children_attrs.
    intros a. apply attrs_foldl_set_training. }
  split_and!.
  - by apply Module_eval_unfold.
  - by apply Module_train_unfold.
  - intros a Ha. pose proof (Hbound a Ha) as Hbound_a.
    apply (Module__children_reach _ _ _ _ _ Hms) in Ha.
    split; by apply flag_foldl_set_training.
  - intros a. split; apply attrs_foldl_set_training.
  - intros a Ha. rewrite <-(Module__children_reach _ _ _ _ _ Hms) in Ha.
    rewrite !lookup_foldl_set_training. by rewrite !decide_False by done.
  - rewrite (Module_eval_unfold _ _ _ _ (Hms' false)).
    by rewrite foldl_set_training_twice.
  - rewrite (Module_train_unfold _ _ _ _ (Hms' true)).
    by rewrite foldl_set_training_twice.
  - rewrite (Module_train_unfold _ _ _ _ (Hms' false)).
    by rewrite foldl_set_training_twice.
  - rewrite (Module_eval_unfold _ _ _ _ (Hms' true)).
    by rewrite foldl_set_training_twice.
Qed.

(** C4.  On a Module tree (an acyclic attribute graph) `parameters()` returns, and its result has exactly
    one entry for every path that leads from the Module to a Parameter
    through attributes, nested Modules, dictionaries (in insertion order),
    lists and tuples; the entries come in the order of the paths (earlier
    attribute or element first, then the order inside it).  Nothing is
    de-duplicated: a Parameter at the end of several paths has one entry per
    path, so the length of the result is the number of such paths. *)
Theorem parameters_enumerates_paths (h : heap) (self : nat) :
  bound h (VModule self) → acyclic h (VModule self) →
  ∃ n0 ps πs,
    (∀ fuel, n0 ≤ fuel → Module_parameters fuel h self = Some ps) ∧
    Forall2 (occurs h (VModule self)) πs ps ∧
    (∀ π p, occurs h (VModule self) π p → π ∈ πs) ∧
    StronglySorted path_lt πs ∧
    NoDup πs ∧
    length ps = length πs.
Proof.
  intros Hbound Hacyclic.
  assert (tree_below h (VModule self)) as Htree by by apply tree_below_iff.
  apply tree_below_upto in Htree as [[|n] Hn]; [done|]. simpl in Hn.
  destruct (h !! self) as [o|] eqn:Ho; [|done].
  destruct (_unpack_params_total _ _ _ Hn) as [ps Hps].
  assert (_unpack_params (S n) h (VModule self) = Some ps) as Hself.
  { simpl. by rewrite Ho. }
  destruct (_unpack_params_enumerates _ _ _ _ Hself) as (πs & Hocc & Hcomplete & Hsorted).
  exists n, ps, πs. split_and!; [|done..| |].
  - intros fuel Hfuel. unfold Module_parameters. rewrite Ho. simpl.
    by eapply _unpack_params_mono.
  - by apply StronglySorted_path_lt_NoDup.
  - symmetry. by eapply Forall2_length.
Qed.

Example tied_parameters : Module_parameters 3 tied_heap 0 = Some [7; 8; 7].
Proof. reflexivity. Qed.

Example residual_children : Module__children 8 residual_heap 0 = Some [1; 2; 3].
Proof. reflexivity. Qed.

Example residual_eval :
  (λ h, flag h <$> [0; 1; 2; 3]) <$> Module_eval 8 residual_heap 0
  = Some (replicate 4 (Some false)).
Proof. reflexivity. Qed.

Lemma mode_propagation_witness :
  ∃ n0, ∀ fuel, n0 ≤ fuel →
    ∃ h_eval h_train,
      Module_eval fuel residual_heap 0 = Some h_eval ∧
      Module_train fuel residual_heap 0 = Some h_train ∧
      (∀ a, reach residual_heap (VModule 0) a →
            flag h_eval a = Some false ∧ flag h_train a = Some true) ∧
      (∀ a, attrs <$> h_eval !! a = attrs <$> residual_heap !! a ∧
            attrs <$> h_train !! a = attrs <$> residual_heap !! a) ∧
      (∀ a, ¬ reach residual_heap (VModule 0) a →
            h_eval !! a = residual_heap !! a ∧ h_train !! a = residual_heap !! a) ∧
      Module_eval fuel h_eval 0 = Some h_eval ∧
      Module_train fuel h_train 0 = Some h_train ∧
      Module_train fuel h_eval 0 = Some h_train ∧
      Module_eval fuel h_train 0 = Some h_eval.
Proof.
  apply (mode_propagation residual_heap 0);
    apply (tree_below_iff residual_heap), (tree_upto_below _ 8); reflexivity.
Defined.

Lemma parameters_enumerates_paths_witness :
  ∃ n0 ps πs,
    (∀ fuel, n0 ≤ fuel → Module_parameters fuel tied_heap 0 = Some ps) ∧
    Forall2 (occurs tied_heap (VModule 0)) πs ps ∧
    (∀ π p, occurs tied_heap (VModule 0) π p → π ∈ πs) ∧
    StronglySorted path_lt πs ∧
    NoDup πs ∧
    length ps = length πs.
Proof.
  apply (parameters_enumerates_paths tied_heap 0);
    apply (tree_below_iff tied_heap), (tree_upto_below _ 4); reflexivity.
Defined.

(** C5, as stated, fails: the Module itself is not an entry of its own
    `_children()`; the first entry is its first nested Module. *)
Lemma children_first_entry_counterexample :
  ∃ ms, Module__children 8 residual_heap 0 = Some ms ∧ head ms ≠ Some 0 ∧ 0 ∉ ms.
Proof.
  exists [1; 2; 3]. split_and!; [reflexivity|discriminate|].
  rewrite !elem_of_cons, elem_of_nil. intros [?|[?|[?|[]]]]; discriminate.
Qed.

(** C5, amended.  On a Module tree (an acyclic attribute graph) `_children()` returns, and its result
    holds exactly the Modules nested below the Module (reachable from its
    attributes); the Module itself is not among them.  It is
    `_child_modules` applied to the Module, not to its instance dictionary,
    that puts the Module first, followed by the same list. *)
Theorem children_are_descendants (h : heap) (self : nat) :
  bound h (VModule self) → acyclic h (VModule self) →
  ∃ n0 ms,
    (∀ fuel, n0 ≤ fuel →
       Module__children fuel h self = Some ms ∧
       _child_modules (S fuel) h (VModule self) = Some (self :: ms)) ∧
    (∀ b, b ∈ ms ↔ descendant h self b) ∧
    self ∉ ms.
Proof.
  intros Hbound Hacyclic.
  assert (tree_below h (VModule self)) as Htree by by apply tree_below_iff.
  destruct (Module__children_total _ _ Htree) as (n0 & ms & Hms).
  exists n0, ms. pose proof (Hms n0 (le_n _)) as Hms0. split_and!.
  - intros fuel Hfuel. specialize (Hms fuel Hfuel). split; [done|].
    unfold Module__children in Hms. simpl.
    destruct (h !! self) as [o|]; simpl in *; [|done]. by rewrite Hms.
  - intros b. unfold Module__children, descendant in *.
    destruct (h !! self) as [o|]; simpl in *; [|done].
    rewrite (_child_modules_reach _ _ _ _ b Hms0). split; [by eauto|].
    by intros (o' & [= <-] & Hr).
  - by eapply Module__children_not_self.
Qed.

Lemma children_are_descendants_witness :
  ∃ n0 ms,
    (∀ fuel, n0 ≤ fuel →
       Module__children fuel residual_heap 0 = Some ms ∧
       _child_modules (S fuel) residual_heap (VModule 0) = Some (0 :: ms)) ∧
    (∀ b, b ∈ ms ↔ descendant residual_heap 0 b) ∧
    0 ∉ ms.
Proof.
  apply (children_are_descendants residual_heap 0);
    apply (tree_below_iff residual_heap), (tree_upto_below _ 8); reflexivity.
Defined.

(** * Part V: the tensor operations, element by element *)

Section indexing.
Lemma in_range_ravel_lt sh idx : in_range sh idx → ravel sh idx < prod sh.
Proof.
  unfold in_range. intros Hr. induction Hr as [|i d idx sh Hi _ IH]; simpl; [lia|].
  nia.
Qed.

Lemma unravel_ravel sh idx : in_range sh idx → unravel sh (ravel sh idx) = idx.
Proof.
  unfold in_range. intros Hr. induction Hr as [|i d idx sh Hi Hr IH]; simpl; [done|].
  pose proof (in_range_ravel_lt _ _ Hr) as Hlt.
  rewrite Nat.div_add_l, Nat.div_small, Nat.add_0_r by lia.
  rewrite Nat.add_comm, Nat.Div0.mod_add, Nat.mod_small by lia.
  by rewrite IH.
Qed.

Lemma unravel_in_range sh k : k < prod sh → in_range sh (unravel sh k).
Proof.
  unfold in_range. revert k. induction sh as [|d sh IH]; intros k Hk; simpl in *.
  - constructor.
  - assert (prod sh ≠ 0) by (intros E; rewrite E in Hk; lia).
    constructor.
    + apply Nat.Div0.div_lt_upper_bound. lia.
    + apply IH. by apply Nat.mod_upper_bound.
Qed.

Lemma ravel_unravel sh k : k < prod sh → ravel sh (unravel sh k) = k.
Proof.
  revert k. induction sh as [|d sh IH]; intros k Hk; simpl in *; [lia|].
  assert (prod sh ≠ 0) by (intros E; rewrite E in Hk; lia).
  rewrite IH by by apply Nat.mod_upper_bound.
  rewrite (Nat.div_mod_eq k (prod sh)) at 3. lia.
Qed.

Lemma in_range_length sh idx : in_range sh idx → length idx = length sh.
Proof. apply Forall2_length. Qed.

Lemma in_range_1 d idx : in_range [d] idx ↔ ∃ i, idx = [i] ∧ i < d.
Proof.
  unfold in_range. split.
  - intros (i & idx' & Hi & ->%Forall2_nil_inv_r & ->)%Forall2_cons_inv_r. eauto.
  - intros (i & -> & Hi). by repeat constructor.
Qed.

Lemma in_range_2 d1 d2 idx :
  in_range [d1; d2] idx ↔ ∃ i j, idx = [i; j] ∧ i < d1 ∧ j < d2.
Proof.
  unfold in_range. split.
  - intros (i & idx' & Hi & (j & -> & Hj)%in_range_1 & ->)%Forall2_cons_inv_r.
    eauto 10.
  - intros (i & j & -> & Hi & Hj). by repeat constructor.
Qed.

Lemma in_range_3 d1 d2 d3 idx :
  in_range [d1; d2; d3] idx ↔ ∃ i j k, idx = [i; j; k] ∧ i < d1 ∧ j < d2 ∧ k < d3.
Proof.
  unfold in_range. split.
  - intros (i & idx' & Hi & (j & k & -> & Hj & Hk)%in_range_2 & ->)%Forall2_cons_inv_r.
    eauto 10.
  - intros (i & j & k & -> & Hi & Hj & Hk). by repeat constructor.
Qed.

Lemma in_range_4 d1 d2 d3 d4 idx :
  in_range [d1; d2; d3; d4] idx ↔
  ∃ i j k l, idx = [i; j; k; l] ∧ i < d1 ∧ j < d2 ∧ k < d3 ∧ l < d4.
Proof.
  unfold in_range. split.
  - intros (i & idx' & Hi & (j & k & l & -> & Hj & Hk & Hl)%in_range_3 & ->)
             %Forall2_cons_inv_r.
    eauto 12.
  - intros (i & j & k & l & -> & Hi & Hj & Hk & Hl). by repeat constructor.
Qed.
End indexing.


Section denotation.
Context {F : Type} `{Scalar F}.
Implicit Types (t a b c : Tensor F) (sh : list nat) (f g : list nat → F).

Lemma wf_tabulate sh f rg : wf (tabulate sh f rg).
Proof. unfold wf, tabulate. simpl. by rewrite length_fmap, length_seq. Qed.

Lemma get_tabulate sh f rg idx :
  in_range sh idx → get (tabulate sh f rg) idx = f idx.
Proof.
  intros Hr. unfold get, tabulate. simpl.
  pose proof (in_range_ravel_lt _ _ Hr) as Hlt.
  apply nth_lookup_Some with (d := szero).
  rewrite list_lookup_fmap, lookup_seq_lt by done. simpl.
  by rewrite unravel_ravel.
Qed.

Lemma tabulate_ext sh f g rg :
  (∀ idx, in_range sh idx → f idx = g idx) → tabulate sh f rg = tabulate sh g rg.
Proof.
  intros Hfg. unfold tabulate. f_equal.
  apply list_fmap_ext. intros i k [-> Hk]%lookup_seq.
  apply Hfg, unravel_in_range. lia.
Qed.

Lemma denotes_tabulate sh f rg : denotes (tabulate sh f rg) sh f rg.
Proof.
  split_and!; [done|apply wf_tabulate|done|]. intros idx. apply get_tabulate.
Qed.

Lemma denotes_get t : wf t → denotes t (shape t) (get t) (requires_grad t).
Proof. by intros Hwf. Qed.

Lemma denotes_ext t sh f g rg :
  denotes t sh f rg → (∀ idx, in_range sh idx → f idx = g idx) → denotes t sh g rg.
Proof.
  intros (Hsh & Hwf & Hrg & Hget) Hfg. split_and!; [done..|].
  intros idx Hidx. by rewrite Hget, Hfg.
Qed.

(** Two tensors with the same shape, flag and elements are equal. *)
Lemma denotes_inj t t' sh f rg : denotes t sh f rg → denotes t' sh f rg → t = t'.
Proof.
  intros (Hsh & Hwf & Hrg & Hget) (Hsh' & Hwf' & Hrg' & Hget').
  destruct t as [s d r], t' as [s' d' r']. unfold wf, get in *. simpl in *.
  subst sh s' rg r'. f_equal. apply list_eq_same_length with (prod s); [done..|].
  intros i x y Hi Hx Hy.
  pose proof (Hget _ (unravel_in_range _ _ Hi)) as Hx'.
  pose proof (Hget' _ (unravel_in_range _ _ Hi)) as Hy'.
  rewrite ravel_unravel in Hx', Hy' by done.
  apply (nth_lookup_Some _ _ szero) in Hx, Hy. congruence.
Qed.

Lemma denotes_ewise1 (h : F → F) a sh f rg :
  denotes a sh f rg → denotes (ops.ewise1 h a) sh (λ idx, h (f idx)) rg.
Proof.
  intros (Hsh & Hwf & Hrg & Hget). unfold ops.ewise1, wf in *.
  split_and!; unfold wf; cbn [shape data requires_grad];
    [done|by rewrite length_fmap|done|].
  intros idx Hidx. rewrite <-Hget by done. unfold get. cbn [shape data].
  pose proof (in_range_ravel_lt _ _ Hidx) as Hlt. rewrite <-Hsh, <-Hwf in Hlt.
  apply nth_lookup_Some with (d := szero). rewrite list_lookup_fmap.
  apply lookup_lt_is_Some_2 in Hlt as [x Hx]. rewrite Hx. simpl.
  by rewrite (nth_lookup_Some _ _ szero _ Hx).
Qed.

Lemma denotes_ewise2 (h : F → F → F) a b sh f g rga rgb :
  denotes a sh f rga → denotes b sh g rgb →
  ∃ c, ops.ewise2 h a b = Some c ∧ denotes c sh (λ idx, h (f idx) (g idx)) (rga || rgb).
Proof.
  intros (Hsh & Hwf & Hrg & Hget) (Hsh' & Hwf' & Hrg' & Hget').
  unfold ops.ewise2, wf in *. rewrite decide_True by congruence.
  eexists. split; [done|].
  split_and!; unfold wf; cbn [shape data requires_grad]; [done| |congruence|].
  - rewrite length_zip_with. rewrite Hwf, Hwf', Hsh, Hsh'. lia.
  - intros idx Hidx. rewrite <-Hget, <-Hget' by done. unfold get. cbn [shape data].
    pose proof (in_range_ravel_lt _ _ Hidx) as Hlt. rewrite Hsh, Hsh'.
    assert (ravel sh idx < length (data a)) as Ha by (rewrite Hwf, Hsh; lia).
    assert (ravel sh idx < length (data b)) as Hb by (rewrite Hwf', Hsh'; lia).
    apply lookup_lt_is_Some_2 in Ha as [x Hx], Hb as [y Hy].
    apply nth_lookup_Some with (d := szero). rewrite lookup_zip_with, Hx, Hy. simpl.
    by rewrite (nth_lookup_Some _ _ szero _ Hx), (nth_lookup_Some _ _ szero _ Hy).
Qed.

(** Reshaping keeps the element at each row-major offset. *)
Lemma denotes_reshape a sh f rg sh' g :
  denotes a sh f rg → prod sh' = prod sh →
  (∀ idx', in_range sh' idx' →
     ∃ idx, in_range sh idx ∧ ravel sh idx = ravel sh' idx' ∧ g idx' = f idx) →
  ∃ c, ops.reshape a sh' = Some c ∧ denotes c sh' g rg.
Proof.
  intros (Hsh & Hwf & Hrg & Hget) Hprod Hg. unfold ops.reshape, wf in *.
  rewrite decide_True by congruence. eexists. split; [done|].
  split_and!; unfold wf; simpl; [done|congruence|done|].
  intros idx' (idx & Hidx & Hravel & ->)%Hg. rewrite <-Hget by done.
  unfold get. simpl. by rewrite Hsh, Hravel.
Qed.

Lemma denotes_sum_axis_0 a d sh f rg :
  denotes a (d :: sh) f rg →
  ∃ c, ops.summation a (Some [0]) = Some c ∧
       denotes c sh (λ idx, ssum ((λ k, f (k :: idx)) <$> seq 0 d)) rg.
Proof.
  intros (Hsh & Hwf & Hrg & Hget). unfold ops.summation, ops.sum_axis.
  rewrite Hsh. simpl. eexists. split; [done|]. rewrite Hrg.
  eapply denotes_ext; [apply denotes_tabulate|].
  intros idx Hidx. simpl. f_equal. apply list_fmap_ext.
  intros i k [-> Hk]%lookup_seq. apply Hget. by constructor.
Qed.

Lemma denotes_sum_axis_1 a d1 d2 f rg :
  denotes a [d1; d2] f rg →
  ∃ c, ops.summation a (Some [1]) = Some c ∧
       denotes c [d1]
         (λ idx, ssum ((λ k, f [nth 0 idx 0; k]) <$> seq 0 d2)) rg.
Proof.
  intros (Hsh & Hwf & Hrg & Hget). unfold ops.summation, ops.sum_axis.
  rewrite Hsh. simpl. eexists. split; [done|]. rewrite Hrg.
  eapply denotes_ext; [apply denotes_tabulate|].
  intros idx (i & -> & Hi)%in_range_1. simpl. f_equal. apply list_fmap_ext.
  intros j k [-> Hk]%lookup_seq. apply Hget. apply in_range_2. eauto.
Qed.

Lemma denotes_sum_all a sh f rg :
  denotes a sh f rg →
  ∃ c, ops.summation a None = Some c ∧
       denotes c [] (λ _, ssum ((λ k, f (unravel sh k)) <$> seq 0 (prod sh))) rg.
Proof.
  intros (Hsh & Hwf & Hrg & Hget). unfold ops.summation.
  eexists. split; [done|]. split_and!; simpl; [done..|].
  intros idx ->%Forall2_nil_inv_r. unfold get. simpl. f_equal.
  unfold wf in Hwf. apply list_eq_same_length with (prod sh);
    [by rewrite length_fmap, length_seq|by rewrite <-Hsh|].
  intros i x y Hi Hx Hy.
  rewrite list_lookup_fmap, lookup_seq_lt in Hy by done. injection Hy as <-.
  rewrite <-Hget by by apply unravel_in_range.
  unfold get. rewrite Hsh, ravel_unravel by done.
  symmetry. by apply nth_lookup_Some.
Qed.

(** A vector as a row repeated over the batch axis:
    [v.reshape((1, d)).broadcast_to((batch, d))]. *)
Lemma denotes_row_broadcast a d f rg batch :
  denotes a [d] f rg →
  ∃ r c, ops.reshape a [1; d] = Some r ∧ ops.broadcast_to r [batch; d] = Some c ∧
         denotes c [batch; d] (λ idx, f [nth 1 idx 0]) rg.
Proof.
  intros Ha.
  destruct (denotes_reshape a [d] f rg [1; d] (λ idx, f [nth 1 idx 0]) Ha)
    as (r & Hr & Hsh & Hwf & Hrg & Hget).
  { simpl. lia. }
  { intros idx (i & j & -> & Hi & Hj)%in_range_2. exists [j].
    split_and!; [by apply in_range_1; eauto|simpl; lia|done]. }
  exists r. unfold ops.broadcast_to. rewrite Hsh.
  assert (ops.broadcastable [1; d] [batch; d] = true) as ->.
  { unfold ops.broadcastable. cbn [length zip zip_with forallb].
    by rewrite !Nat.eqb_refl, !orb_true_r. }
  eexists. split_and!; [done..|].
  rewrite Hrg. eapply denotes_ext; [apply denotes_tabulate|].
  intros idx (i & j & -> & Hi & Hj)%in_range_2. simpl.
  rewrite Hget; [|apply in_range_2; exists 0, (if d =? 1 then 0 else j)].
  - simpl. destruct (d =? 1) eqn:Hd; [|done]. apply Nat.eqb_eq in Hd.
    do 2 f_equal. lia.
  - split_and!; [done|lia|destruct (d =? 1); lia].
Qed.

Lemma denotes_matmul a b m k n f g rga rgb :
  denotes a [m; k] f rga → denotes b [k; n] g rgb →
  ∃ c, ops.matmul a b = Some c ∧
       denotes c [m; n]
         (λ idx, ssum ((λ l, f [nth 0 idx 0; l] * g [l; nth 1 idx 0])%scalar
                         <$> seq 0 k))
         (rga || rgb).
Proof.
  intros (Hsh & Hwf & Hrg & Hget) (Hsh' & Hwf' & Hrg' & Hget').
  unfold ops.matmul. rewrite Hsh, Hsh', decide_True by done.
  eexists. split; [done|]. rewrite Hrg, Hrg'.
  eapply denotes_ext; [apply denotes_tabulate|].
  intros idx (i & j & -> & Hi & Hj)%in_range_2. simpl. f_equal.
  apply list_fmap_ext. intros ? l [-> Hl]%lookup_seq.
  rewrite Hget, Hget'; [done|apply in_range_2; eauto 10..].
Qed.

(** Splitting a three-axis tensor along its middle axis. *)
Lemma denotes_split_1 a d1 d2 d3 f rg :
  denotes a [d1; d2; d3] f rg →
  ∃ cs, ops.split a 1 = Some cs ∧ length cs = d2 ∧
        ∀ k c, cs !! k = Some c →
               denotes c [d1; d3] (λ idx, f [nth 0 idx 0; k; nth 1 idx 0]) rg.
Proof.
  intros (Hsh & Hwf & Hrg & Hget). unfold ops.split. rewrite Hsh. simpl.
  eexists. split; [done|]. split; [by rewrite length_fmap, length_seq|].
  intros k c Hc. rewrite list_lookup_fmap in Hc.
  destruct (seq 0 d2 !! k) as [k'|] eqn:Hk; [|done].
  apply lookup_seq in Hk as [-> Hk]. injection Hc as <-. rewrite Hrg.
  eapply denotes_ext; [apply denotes_tabulate|].
  intros idx (i & j & -> & Hi & Hj)%in_range_2. simpl.
  apply Hget. apply in_range_3. eauto 10.
Qed.
End denotation.


(** * Part VI: the layers *)

Section run.
Context {St : Type}.

Lemma run_bind_lift_Some {A B} (o : option A) (x : A) (k : A → Run St B) s :
  o = Some x → (lift o ≫= k) s = k x s.
Proof. by intros ->. Qed.

Lemma run_bind_lift_None {A B} (o : option A) (k : A → Run St B) s :
  o = None → (lift o ≫= k) s = (None, s).
Proof. by intros ->. Qed.

Lemma run_bind_self {B} (k : St → Run St B) s : (self_ ≫= k) s = k s s.
Proof. done. Qed.

Lemma run_bind_rebind {B} (f : St → St) (k : () → Run St B) s :
  (rebind f ≫= k) s = k () (f s).
Proof. done. Qed.

Lemma run_bind_ret {A B} (x : A) (k : A → Run St B) s : (mret x ≫= k) s = k x s.
Proof. done. Qed.

Lemma run_bind_assert_True {B} (c : Prop) `{Decision c} (k : () → Run St B) s :
  c → (assert c ≫= k) s = k () s.
Proof.
  intros Hc. unfold assert, mbind, Run_bind. by rewrite decide_True.
Qed.

Lemma run_bind_assert_False {B} (c : Prop) `{Decision c} (k : () → Run St B) s :
  ¬ c → (assert c ≫= k) s = (None, s).
Proof.
  intros Hc. unfold assert, mbind, Run_bind. by rewrite decide_False.
Qed.

Lemma run_bind_assoc {A B C} (m : Run St A) (k1 : A → Run St B)
    (k2 : B → Run St C) s :
  ((m ≫= k1) ≫= k2) s = (m ≫= λ x, k1 x ≫= k2) s.
Proof. unfold mbind, Run_bind. by destruct (m s) as [[x|] s']. Qed.

Lemma run_bind_ext {A B} (m : Run St A) (k1 k2 : A → Run St B) s :
  (∀ x s', k1 x s' = k2 x s') → (m ≫= k1) s = (m ≫= k2) s.
Proof. intros Hk. unfold mbind, Run_bind. by destruct (m s) as [[x|] s']. Qed.
End run.

(** One step of a method body: the engine operation at its head returned
    as [H] says. *)
Ltac run_with H :=
  rewrite ?run_bind_assoc; erewrite run_bind_lift_Some by exact H; cbv beta.

Section batch_norm.
Context {F : Type} `{Scalar F}.
Implicit Types (l : BatchNorm1d.t F) (X : Tensor F).
Import BatchNorm1d.

Lemma denotes_detach (t : Tensor F) sh f rg :
  denotes t sh f rg → denotes (detach t) sh f false.
Proof. by intros (? & ? & ? & ?). Qed.

Lemma denotes_smooth l (running stat : Tensor F) sh fr fs rgr rgs :
  denotes running sh fr rgr → denotes stat sh fs rgs →
  ∃ c, smooth l running stat = Some c ∧
       denotes c sh (λ idx, fr idx * (sone - momentum l) + fs idx * momentum l)%scalar rgr.
Proof.
  intros Hr Hs. unfold smooth.
  destruct (denotes_ewise2 sadd
              (ops.mul_scalar running (sone - momentum l)%scalar)
              (ops.mul_scalar (detach stat) (momentum l)) sh
              (λ idx, fr idx * (sone - momentum l))%scalar
              (λ idx, fs idx * momentum l)%scalar rgr false)
    as (c & Hc & Dc).
  - by apply (denotes_ewise1 (λ x, x * (sone - momentum l))%scalar).
  - apply (denotes_ewise1 (λ x, x * momentum l)%scalar). by eapply denotes_detach.
  - exists c. split; [done|]. by rewrite orb_false_r in Dc.
Qed.

(** The part of [forward] shared by both modes: normalisation by the
    chosen statistics, then the affine map. *)
Lemma forward_affine l X batch (mean var : Tensor F) fm fv rgm rgv (s : t F) :
  well_formed l → wf X → shape X = [batch; dim l] →
  denotes mean [batch; dim l] fm rgm → denotes var [batch; dim l] fv rgv →
  ∃ Y rg,
    (centred ← lift (ops.sub X mean);
     normalized_X ← lift (ops.divide centred
                            (ops.power_scalar (ops.add_scalar var (eps l)) (1 # 2)));
     weight ← lift (ops.reshape (weight l) [1; dim l]);
     weight ← lift (ops.broadcast_to weight [batch; dim l]);
     bias ← lift (ops.reshape (bias l) [1; dim l]);
     bias ← lift (ops.broadcast_to bias [batch; dim l]);
     scaled ← lift (ops.multiply weight normalized_X);
     lift (ops.add scaled bias)) s = (Some Y, s) ∧
    denotes Y [batch; dim l]
      (λ idx, get (weight l) [nth 1 idx 0]
              * ((get X idx - fm idx) / (fv idx + eps l) ** (1 # 2))
              + get (bias l) [nth 1 idx 0])%scalar rg.
Proof.
  intros ((Hw & Hwwf) & (Hb & Hbwf) & _) HX HshX Dmean Dvar.
  pose proof (denotes_get X HX) as DX. rewrite HshX in DX.
  destruct (denotes_ewise2 ssub _ _ _ _ _ _ _ DX Dmean) as (centred & Hc & Dc).
  run_with Hc.
  pose proof (denotes_ewise1 (λ x, x ** (1 # 2))%scalar _ _ _ _
                (denotes_ewise1 (λ x, x + eps l)%scalar _ _ _ _ Dvar)) as Dden.
  destruct (denotes_ewise2 sdiv _ _ _ _ _ _ _ Dc Dden) as (normalized & Hn & Dn).
  run_with Hn.
  pose proof (denotes_get _ Hwwf) as Dw. rewrite Hw in Dw.
  destruct (denotes_row_broadcast _ _ _ _ batch Dw) as (w1 & w2 & Hw1 & Hw2 & Dw2).
  run_with Hw1. run_with Hw2.
  pose proof (denotes_get _ Hbwf) as Db. rewrite Hb in Db.
  destruct (denotes_row_broadcast _ _ _ _ batch Db) as (b1 & b2 & Hb1 & Hb2 & Db2).
  run_with Hb1. run_with Hb2.
  destruct (denotes_ewise2 smul _ _ _ _ _ _ _ Dw2 Dn) as (scaled & Hs & Ds).
  run_with Hs.
  destruct (denotes_ewise2 sadd _ _ _ _ _ _ _ Ds Db2) as (Y & HY & DY).
  exists Y. eexists. split; [unfold lift; f_equal; exact HY|]. exact DY.
Qed.

Lemma forward_training l X batch :
  well_formed l → training l = true → wf X → shape X = [batch; dim l] →
  ∃ Y rm rv rg,
    forward X l = (Some Y, set_running_var rv (set_running_mean rm l)) ∧
    denotes Y [batch; dim l]
      (λ idx, let j := nth 1 idx 0 in
              get (weight l) [j]
              * ((get X idx - batch_mean X batch j)
                 / (batch_var X batch j + eps l) ** (1 # 2))
              + get (bias l) [j])%scalar rg ∧
    denotes rm [dim l]
      (λ idx, get (running_mean l) idx * (sone - momentum l)
              + batch_mean X batch (nth 0 idx 0) * momentum l)%scalar
      (requires_grad (running_mean l)) ∧
    denotes rv [dim l]
      (λ idx, get (running_var l) idx * (sone - momentum l)
              + batch_var X batch (nth 0 idx 0) * momentum l)%scalar
      (requires_grad (running_var l)).
Proof.
  intros Hl Htr HX HshX.
  pose proof Hl as ((Hw & Hwwf) & (Hb & Hbwf) & (Hrm & Hrmwf) & (Hrv & Hrvwf)).
  pose proof (denotes_get X HX) as DX. rewrite HshX in DX.
  unfold forward. rewrite run_bind_self, HshX.
  do 2 (erewrite run_bind_lift_Some by reflexivity).
  rewrite run_bind_assert_True by done. rewrite Htr. cbv beta iota.
  (* mean = X.sum((0,)) / X.shape[0] *)
  destruct (denotes_sum_axis_0 _ _ _ _ _ DX) as (total & Htotal & Dtotal).
  run_with Htotal.
  assert (denotes (ops.divide_scalar total (sof_nat batch)) [dim l]
            (λ idx, batch_mean X batch (nth 0 idx 0)) (requires_grad X)) as Dmean.
  { eapply denotes_ext;
      [apply (denotes_ewise1 (λ x, x / sof_nat batch)%scalar), Dtotal|].
    by intros idx (j & -> & Hj)%in_range_1. }
  (* self.running_mean = ... *)
  pose proof (denotes_get _ Hrmwf) as Drm. rewrite Hrm in Drm.
  destruct (denotes_smooth l _ _ _ _ _ _ _ Drm Dmean) as (rm & Hrm' & Drm').
  run_with Hrm'. rewrite run_bind_assoc, run_bind_rebind.
  destruct (denotes_row_broadcast _ _ _ _ batch Dmean) as (m1 & m2 & Hm1 & Hm2 & Dm2).
  run_with Hm1. run_with Hm2.
  (* var = ((X - mean) ** 2).sum((0,)) / X.shape[0] *)
  destruct (denotes_ewise2 ssub _ _ _ _ _ _ _ DX Dm2) as (centred & Hc & Dc).
  run_with Hc.
  pose proof (denotes_ewise1 (λ x, x ** 2)%scalar _ _ _ _ Dc) as Dsq.
  destruct (denotes_sum_axis_0 _ _ _ _ _ Dsq) as (total2 & Htotal2 & Dtotal2).
  run_with Htotal2.
  assert (denotes (ops.divide_scalar total2 (sof_nat batch)) [dim l]
            (λ idx, batch_var X batch (nth 0 idx 0))
            (requires_grad X || requires_grad X)) as Dvar.
  { eapply denotes_ext;
      [apply (denotes_ewise1 (λ x, x / sof_nat batch)%scalar), Dtotal2|].
    by intros idx (j & -> & Hj)%in_range_1. }
  (* self.running_var = ... *)
  pose proof (denotes_get _ Hrvwf) as Drv. rewrite Hrv in Drv.
  destruct (denotes_smooth l _ _ _ _ _ _ _ Drv Dvar) as (rv & Hrv' & Drv').
  run_with Hrv'. rewrite run_bind_assoc, run_bind_rebind.
  destruct (denotes_row_broadcast _ _ _ _ batch Dvar) as (v1 & v2 & Hv1 & Hv2 & Dv2).
  run_with Hv1. run_with Hv2.
  rewrite run_bind_ret. cbv beta iota.
  destruct (forward_affine l X batch m2 v2 _ _ _ _
              (set_running_var rv (set_running_mean rm l)) Hl HX HshX Dm2 Dv2)
    as (Y & rg & HY & DY).
  exists Y, rm, rv, rg. split_and!; [exact HY|exact DY|exact Drm'|exact Drv'].
Qed.

Lemma forward_eval l X batch :
  well_formed l → training l = false → wf X → shape X = [batch; dim l] →
  ∃ Y rg,
    forward X l = (Some Y, l) ∧
    denotes Y [batch; dim l]
      (λ idx, let j := nth 1 idx 0 in
              get (weight l) [j]
              * ((get X idx - get (running_mean l) [j])
                 / (get (running_var l) [j] + eps l) ** (1 # 2))
              + get (bias l) [j])%scalar rg.
Proof.
  intros Hl Htr HX HshX.
  pose proof Hl as ((Hw & Hwwf) & (Hb & Hbwf) & (Hrm & Hrmwf) & (Hrv & Hrvwf)).
  unfold forward. rewrite run_bind_self, HshX.
  do 2 (erewrite run_bind_lift_Some by reflexivity).
  rewrite run_bind_assert_True by done. rewrite Htr. cbv beta iota.
  pose proof (denotes_get _ Hrmwf) as Drm. rewrite Hrm in Drm.
  destruct (denotes_row_broadcast _ _ _ _ batch Drm) as (m1 & m2 & Hm1 & Hm2 & Dm2).
  run_with Hm1. run_with Hm2.
  pose proof (denotes_get _ Hrvwf) as Drv. rewrite Hrv in Drv.
  destruct (denotes_row_broadcast _ _ _ _ batch Drv) as (v1 & v2 & Hv1 & Hv2 & Dv2).
  run_with Hv1. run_with Hv2.
  rewrite run_bind_ret. cbv beta iota.
  destruct (forward_affine l X batch m2 v2 _ _ _ _ l Hl HX HshX Dm2 Dv2)
    as (Y & rg & HY & DY).
  exists Y, rg. split; [exact HY|exact DY].
Qed.

(** Without the training flag, [forward] rebinds nothing, whether it
    returns or raises. *)
Lemma forward_eval_state l X : training l = false → (forward X l).2 = l.
Proof.
  intros Htr. unfold forward. rewrite run_bind_self.
  unfold mbind, Run_bind, lift, assert, mret, Run_ret. rewrite Htr.
  repeat match goal with
         | |- context [match ?o with Some _ => _ | None => _ end] => destruct o
         | |- context [decide ?c] => destruct (decide c)
         | |- context [let '(_, _) := ?p in _] => destruct p
         end; done.
Qed.
End batch_norm.


(** C1.  In training mode, on a batch [X] of shape (batch, dim),
    `BatchNorm1d.forward` returns the batch normalised channel by channel
    with the batch mean and the biased batch variance (sum of squared
    deviations divided by the batch size), scaled and shifted; it rebinds
    each running statistic to running * (1 - momentum) + batch_stat *
    momentum and nothing else.  The batch statistic enters detached: the new
    running statistics track gradients exactly when the old ones did,
    whatever [X] tracks. *)
Theorem BatchNorm1d_training_forward {F} `{Scalar F}
    (l : BatchNorm1d.t F) (X : Tensor F) (batch : nat) :
  BatchNorm1d.well_formed l →
  BatchNorm1d.training l = true →
  wf X →
  shape X = [batch; BatchNorm1d.dim l] →
  ∃ Y l',
    BatchNorm1d.forward X l = (Some Y, l') ∧
    shape Y = [batch; BatchNorm1d.dim l] ∧ wf Y ∧
    (∀ i j, i < batch → j < BatchNorm1d.dim l →
       get Y [i; j]
       = (get (BatchNorm1d.weight l) [j]
          * ((get X [i; j] - BatchNorm1d.batch_mean X batch j)
             / (BatchNorm1d.batch_var X batch j + BatchNorm1d.eps l) ** (1 # 2))
          + get (BatchNorm1d.bias l) [j])%scalar) ∧
    BatchNorm1d.well_formed l' ∧
    (∀ j, j < BatchNorm1d.dim l →
       get (BatchNorm1d.running_mean l') [j]
       = (get (BatchNorm1d.running_mean l) [j] * (sone - BatchNorm1d.momentum l)
          + BatchNorm1d.batch_mean X batch j * BatchNorm1d.momentum l)%scalar ∧
       get (BatchNorm1d.running_var l') [j]
       = (get (BatchNorm1d.running_var l) [j] * (sone - BatchNorm1d.momentum l)
          + BatchNorm1d.batch_var X batch j * BatchNorm1d.momentum l)%scalar) ∧
    requires_grad (BatchNorm1d.running_mean l')
      = requires_grad (BatchNorm1d.running_mean l) ∧
    requires_grad (BatchNorm1d.running_var l')
      = requires_grad (BatchNorm1d.running_var l) ∧
    BatchNorm1d.set_running_var (BatchNorm1d.running_var l')
      (BatchNorm1d.set_running_mean (BatchNorm1d.running_mean l') l) = l'.
Proof.
  intros Hl Htr HX HshX.
  destruct (forward_training l X batch Hl Htr HX HshX)
    as (Y & rm & rv & rg & HY & (HshY & HwfY & _ & HgetY)
        & (Hshm & Hwfm & Hrgm & Hgetm) & (Hshv & Hwfv & Hrgv & Hgetv)).
  exists Y, (BatchNorm1d.set_running_var rv (BatchNorm1d.set_running_mean rm l)).
  split_and!; try done.
  - intros i j Hi Hj. apply (HgetY [i; j]). apply in_range_2. eauto.
  - destruct Hl as ((? & ?) & (? & ?) & _ & _). unfold BatchNorm1d.well_formed.
    simpl. by split_and!.
  - intros j Hj. split; [apply (Hgetm [j])|apply (Hgetv [j])];
      apply in_range_1; eauto.
Qed.

(** C2.  Without the training flag, `BatchNorm1d.forward` on a batch of
    shape (batch, dim) returns the batch normalised with the stored running
    mean and variance and leaves the layer as it was; any number of forward
    passes, on any inputs, leaves the layer as it was.  With the training
    flag, the new running statistics depend on the input, the momentum and
    the old running statistics only: two layers that agree on these get the
    same new running statistics from the same input. *)
Theorem BatchNorm1d_eval_forward {F} `{Scalar F}
    (l l1 l2 : BatchNorm1d.t F) (X : Tensor F) (batch : nat)
    (Xs : list (Tensor F)) :
  (BatchNorm1d.well_formed l → BatchNorm1d.training l = false →
   wf X → shape X = [batch; BatchNorm1d.dim l] →
   ∃ Y,
     BatchNorm1d.forward X l = (Some Y, l) ∧
     shape Y = [batch; BatchNorm1d.dim l] ∧ wf Y ∧
     ∀ i j, i < batch → j < BatchNorm1d.dim l →
       get Y [i; j]
       = (get (BatchNorm1d.weight l) [j]
          * ((get X [i; j] - get (BatchNorm1d.running_mean l) [j])
             / (get (BatchNorm1d.running_var l) [j] + BatchNorm1d.eps l) ** (1 # 2))
          + get (BatchNorm1d.bias l) [j])%scalar) ∧
  (BatchNorm1d.training l = false → BatchNorm1d.forward_passes l Xs = l) ∧
  (BatchNorm1d.well_formed l1 → BatchNorm1d.well_formed l2 →
   BatchNorm1d.training l1 = true → BatchNorm1d.training l2 = true →
   BatchNorm1d.dim l2 = BatchNorm1d.dim l1 →
   BatchNorm1d.momentum l2 = BatchNorm1d.momentum l1 →
   BatchNorm1d.running_mean l2 = BatchNorm1d.running_mean l1 →
   BatchNorm1d.running_var l2 = BatchNorm1d.running_var l1 →
   wf X → shape X = [batch; BatchNorm1d.dim l1] →
   ∃ Y1 Y2 l1' l2',
     BatchNorm1d.forward X l1 = (Some Y1, l1') ∧
     BatchNorm1d.forward X l2 = (Some Y2, l2') ∧
     BatchNorm1d.running_mean l2' = BatchNorm1d.running_mean l1' ∧
     BatchNorm1d.running_var l2' = BatchNorm1d.running_var l1').
Proof.
  split_and!.
  - intros Hl Htr HX HshX.
    destruct (forward_eval l X batch Hl Htr HX HshX)
      as (Y & rg & HY & (HshY & HwfY & _ & HgetY)).
    exists Y. split_and!; try done.
    intros i j Hi Hj. apply (HgetY [i; j]). apply in_range_2. eauto.
  - intros Htr. unfold BatchNorm1d.forward_passes.
    induction Xs as [|X' Xs' IH]; [done|]. simpl.
    by rewrite forward_eval_state.
  - intros Hl Hl2 Htr Htr2 Hdim Hmom Hrm Hrv HX HshX.
    destruct (forward_training l1 X batch Hl Htr HX HshX)
      as (Y & rm & rv & rg & HY & _ & Dm & Dv).
    rewrite <-Hdim in HshX.
    destruct (forward_training l2 X batch Hl2 Htr2 HX HshX)
      as (Y2 & rm2 & rv2 & rg2 & HY2 & _ & Dm2 & Dv2).
    rewrite Hdim, Hmom, Hrm in Dm2. rewrite Hdim, Hmom, Hrv in Dv2.
    eexists Y, Y2, _, _. split_and!; [exact HY|exact HY2|..]; simpl.
    + eapply denotes_inj; [exact Dm2|exact Dm].
    + eapply denotes_inj; [exact Dv2|exact Dv].
Qed.


Section layout.
Context {F : Type} `{Scalar F}.
Implicit Types (x y : Tensor F).

Lemma transpose_Some x i j :
  i < rank x → j < rank x →
  ops.transpose x (i, j)
  = Some (tabulate (swap i j (shape x)) (λ idx, get x (swap i j idx))
                   (requires_grad x)).
Proof. intros Hi Hj. unfold ops.transpose. by rewrite decide_True. Qed.

Lemma reshape_shape x sh y : ops.reshape x sh = Some y → shape y = sh.
Proof. unfold ops.reshape. case_decide; [|done]. by intros [= <-]. Qed.

Lemma get_reshape x sh y idx idx' :
  ops.reshape x sh = Some y → ravel sh idx' = ravel (shape x) idx →
  get y idx' = get x idx.
Proof.
  unfold ops.reshape. case_decide; [|done]. intros [= <-] Hravel.
  unfold get. simpl. by rewrite Hravel.
Qed.

(** nchw -> nhcw -> nhwc *)
Lemma transposes_to_channel_last x n c h w :
  shape x = [n; c; h; w] →
  ∃ x1, ops.transpose x (1, 2) = Some x1 ∧
        ops.transpose x1 (2, 3) = Some (BatchNorm2d.to_channel_last x).
Proof.
  intros Hsh.
  assert (ops.transpose x (1, 2)
          = Some (tabulate [n; h; c; w] (λ idx, get x (swap 1 2 idx))
                           (requires_grad x))) as Hx1.
  { rewrite transpose_Some by (unfold rank; rewrite Hsh; simpl; lia).
    by rewrite Hsh. }
  eexists. split; [exact Hx1|].
  rewrite transpose_Some by (unfold rank; simpl; lia).
  unfold BatchNorm2d.to_channel_last. rewrite Hsh. cbn [shape requires_grad tabulate].
  f_equal. apply tabulate_ext.
  intros idx (i & p & q & k & -> & Hi & Hp & Hq & Hk)%in_range_4.
  rewrite get_tabulate; [done|]. apply in_range_4. exists i, p, k, q. done.
Qed.

(** nhwc -> nhcw -> nchw *)
Lemma transposes_to_channel_first y n h w c :
  shape y = [n; h; w; c] →
  ∃ y1, ops.transpose y (2, 3) = Some y1 ∧
        ops.transpose y1 (1, 2) = Some (BatchNorm2d.to_channel_first y).
Proof.
  intros Hsh.
  assert (ops.transpose y (2, 3)
          = Some (tabulate [n; h; c; w] (λ idx, get y (swap 2 3 idx))
                           (requires_grad y))) as Hy1.
  { rewrite transpose_Some by (unfold rank; rewrite Hsh; simpl; lia).
    by rewrite Hsh. }
  eexists. split; [exact Hy1|].
  rewrite transpose_Some by (unfold rank; simpl; lia).
  unfold BatchNorm2d.to_channel_first. rewrite Hsh. cbn [shape requires_grad tabulate].
  f_equal. apply tabulate_ext.
  intros idx (i & k & p & q & -> & Hi & Hk & Hp & Hq)%in_range_4.
  rewrite get_tabulate; [done|]. apply in_range_4. exists i, p, k, q. done.
Qed.
End layout.

(** C6.  On an input of shape (N, C, H, W), `BatchNorm2d.forward` is, result
    and layer alike, the inherited `BatchNorm1d.forward` applied to the
    channel-last view flattened to (N*H*W, C), reshaped back to (N, H, W, C)
    and permuted back to channel-first.  Row (n*H + h)*W + w of the
    flattened view holds, at column c, the element (n, c, h, w) of the
    input. *)
Theorem BatchNorm2d_forward_by_layout {F} `{Scalar F}
    (l : BatchNorm1d.t F) (x : Tensor F) (n c h w : nat) :
  shape x = [n; c; h; w] →
  BatchNorm2d.forward x l = BatchNorm2d.forward_by_layout x l ∧
  ∃ flat,
    ops.reshape (BatchNorm2d.to_channel_last x) [n * h * w; c] = Some flat ∧
    ∀ i k p q, i < n → k < c → p < h → q < w →
      get flat [(i * h + p) * w + q; k] = get x [i; k; p; q].
Proof.
  intros Hsh. split.
  - unfold BatchNorm2d.forward, BatchNorm2d.forward_by_layout. rewrite Hsh.
    destruct (transposes_to_channel_last x n c h w Hsh) as (x1 & Hx1 & Hx2).
    run_with Hx1. run_with Hx2.
    apply run_bind_ext. intros flat s. apply run_bind_ext. intros y s'.
    destruct (ops.reshape y [n; h; w; c]) as [y4|] eqn:Hy4.
    + pose proof (reshape_shape _ _ _ Hy4) as Hsh4.
      destruct (transposes_to_channel_first y4 n h w c Hsh4) as (y1 & Hy1 & Hy2).
      rewrite !(run_bind_lift_Some _ y4) by done.
      run_with Hy1. unfold lift. by rewrite Hy2.
    + by rewrite !run_bind_lift_None.
  - assert (shape (BatchNorm2d.to_channel_last x) = [n; h; w; c]) as Hshl.
    { unfold BatchNorm2d.to_channel_last. by rewrite Hsh. }
    unfold ops.reshape at 1. rewrite Hshl, decide_True by (simpl; lia).
    eexists. split; [done|]. intros i k p q Hi Hk Hp Hq.
    unfold get at 1. cbn [shape data].
    transitivity (get (BatchNorm2d.to_channel_last x) [i; p; q; k]).
    + unfold get. rewrite Hshl. f_equal. simpl. lia.
    + unfold BatchNorm2d.to_channel_last. rewrite Hsh.
      rewrite get_tabulate; [done|]. apply in_range_4. exists i, p, q, k. done.
Qed.


Lemma option_bind_Some {A B} (o : option A) (x : A) (k : A → option B) :
  o = Some x → o ≫= k = k x.
Proof. by intros ->. Qed.

(** One step of a function body in the option monad. *)
Ltac opt_with H := erewrite option_bind_Some by exact H; cbv beta.

Section lstm_cell.
Context {F : Type} `{Scalar F}.
Implicit Types (cell : LSTMCell.t F) (X : Tensor F).
Import LSTMCell.

Lemma denotes_Sigmoid X sh f rg :
  denotes X sh f rg →
  denotes (Sigmoid.forward X) sh (λ idx, sigmoid_elt (f idx)) rg.
Proof.
  intros D. unfold Sigmoid.forward, ops.power_scalar, ops.add_scalar, ops.exp,
    ops.negate.
  apply (denotes_ewise1 (λ x, spow x (-1)) _ _ (λ idx, sadd (sexp (sneg (f idx))) sone)).
  apply (denotes_ewise1 (λ x, sadd x sone) _ _ (λ idx, sexp (sneg (f idx)))).
  apply (denotes_ewise1 sexp _ _ (λ idx, sneg (f idx))).
  by apply denotes_ewise1.
Qed.

Lemma denotes_add_bias cell batch (bias : option (Tensor F)) (a : Tensor F) f rg :
  (∀ b, bias = Some b → shape b = [4 * hidden_size cell] ∧ wf b) →
  denotes a [batch; 4 * hidden_size cell] f rg →
  ∃ c rg',
    add_bias cell batch bias a = Some c ∧
    denotes c [batch; 4 * hidden_size cell]
      (λ idx, match bias with
              | Some b => (f idx + get b [nth 1 idx 0])%scalar
              | None => f idx
              end) rg'.
Proof.
  intros Hbias Da. unfold add_bias. destruct bias as [b|]; [|by eauto].
  destruct (Hbias b eq_refl) as [Hsh Hwf].
  pose proof (denotes_get _ Hwf) as Db. rewrite Hsh in Db.
  destruct (denotes_row_broadcast _ _ _ _ batch Db) as (b1 & b2 & Hb1 & Hb2 & Db2).
  opt_with Hb1. opt_with Hb2.
  destruct (denotes_ewise2 sadd _ _ _ _ _ _ _ Da Db2) as (c & Hc & Dc).
  by eauto.
Qed.

Lemma forward_gates cell X (h0 c0 : Tensor F) batch input_size :
  well_formed cell input_size →
  shape X = [batch; input_size] → wf X →
  shape h0 = [batch; hidden_size cell] → wf h0 →
  shape c0 = [batch; hidden_size cell] → wf c0 →
  ∃ h' c' rgh rgc,
    forward cell X (Some (h0, c0)) = Some (h', c') ∧
    denotes c' [batch; hidden_size cell]
      (λ idx, let b := nth 0 idx 0 in
              let j := nth 1 idx 0 in
              let pre := preactivation cell X h0 input_size b in
              sigmoid_elt (pre (1 * hidden_size cell + j)%nat) * get c0 idx
              + sigmoid_elt (pre (0 * hidden_size cell + j)%nat)
                * stanh (pre (2 * hidden_size cell + j)%nat))%scalar rgc ∧
    denotes h' [batch; hidden_size cell]
      (λ idx, let b := nth 0 idx 0 in
              let j := nth 1 idx 0 in
              let pre := preactivation cell X h0 input_size b in
              sigmoid_elt (pre (3 * hidden_size cell + j)%nat) * stanh (get c' idx))%scalar
      rgh.
Proof.
  intros ((Hih & Hihwf) & (Hhh & Hhhwf) & Hbi & Hbh) HshX HX Hshh Hh Hshc Hc.
  pose proof (denotes_get _ HX) as DX. rewrite HshX in DX.
  pose proof (denotes_get _ Hh) as Dh. rewrite Hshh in Dh.
  pose proof (denotes_get _ Hc) as Dc. rewrite Hshc in Dc.
  pose proof (denotes_get _ Hihwf) as Dih. rewrite Hih in Dih.
  pose proof (denotes_get _ Hhhwf) as Dhh. rewrite Hhh in Dhh.
  unfold forward. rewrite HshX. cbn [from_option]. unfold Datatypes.id.
  cbv beta iota.
  destruct (denotes_matmul _ _ _ _ _ _ _ _ _ DX Dih) as (xw & Hxw & Dxw).
  opt_with Hxw.
  destruct (denotes_matmul _ _ _ _ _ _ _ _ _ Dh Dhh) as (hw & Hhw & Dhw).
  opt_with Hhw.
  destruct (denotes_ewise2 sadd _ _ _ _ _ _ _ Dxw Dhw) as (s0 & Hs0 & Ds0).
  opt_with Hs0.
  destruct (denotes_add_bias cell batch _ _ _ _ Hbi Ds0) as (s1 & rg1 & Hs1 & Ds1).
  opt_with Hs1.
  destruct (denotes_add_bias cell batch _ _ _ _ Hbh Ds1) as (s2 & rg2 & Hs2 & Ds2).
  opt_with Hs2.
  (* the pre-activation, entry by entry *)
  assert (denotes s2 [batch; 4 * hidden_size cell]
            (λ idx, preactivation cell X h0 input_size (nth 0 idx 0) (nth 1 idx 0))
            rg2) as Dpre.
  { eapply denotes_ext; [exact Ds2|].
    intros idx (b & k & -> & Hb & Hk)%in_range_2. unfold preactivation.
    by destruct (bias_ih cell), (bias_hh cell). }
  clear Ds0 Ds1 Ds2.
  (* intermediate.reshape((batch_size, 4, hidden_size)) *)
  destruct (denotes_reshape _ _ _ _ [batch; 4; hidden_size cell]
              (λ idx, preactivation cell X h0 input_size (nth 0 idx 0)
                        (nth 1 idx 0 * hidden_size cell + nth 2 idx 0)) Dpre)
    as (gates & Hgates & Dgates).
  { simpl. lia. }
  { intros idx (b & k & j & -> & Hb & Hk & Hj)%in_range_3.
    exists [b; k * hidden_size cell + j]. split_and!; [|simpl; lia|done].
    apply in_range_2. eexists _, _. split_and!; [done..|]. nia. }
  opt_with Hgates.
  destruct (denotes_split_1 _ _ _ _ _ _ Dgates) as (cs & Hcs & Hlen & Dcs).
  opt_with Hcs.
  destruct cs as [|i [|f [|g [|o [|]]]]]; try discriminate Hlen.
  pose proof (denotes_Sigmoid _ _ _ _ (Dcs 0 i eq_refl)) as Di.
  pose proof (denotes_Sigmoid _ _ _ _ (Dcs 1 f eq_refl)) as Df.
  pose proof (denotes_ewise1 stanh _ _ _ _ (Dcs 2 g eq_refl)) as Dg.
  pose proof (denotes_Sigmoid _ _ _ _ (Dcs 3 o eq_refl)) as Do.
  cbv beta iota zeta.
  destruct (denotes_ewise2 smul _ _ _ _ _ _ _ Df Dc) as (fc & Hfc & Dfc).
  opt_with Hfc.
  destruct (denotes_ewise2 smul _ _ _ _ _ _ _ Di Dg) as (ig & Hig & Dig).
  opt_with Hig.
  destruct (denotes_ewise2 sadd _ _ _ _ _ _ _ Dfc Dig) as (c_out & Hcout & Dcout).
  opt_with Hcout.
  pose proof (denotes_ewise1 stanh _ _ _ _ (denotes_get _ (proj1 (proj2 Dcout)))) as Dt.
  rewrite (proj1 Dcout) in Dt.
  destruct (denotes_ewise2 smul _ _ _ _ _ _ _ Do Dt) as (h_out & Hhout & Dhout).
  opt_with Hhout.
  eexists h_out, c_out, _, _. split_and!; [done|exact Dcout|exact Dhout].
Qed.
End lstm_cell.

Lemma sigmoid_elt_logistic (x : R) : sigmoid_elt x = logistic x.
Proof.
  unfold sigmoid_elt, logistic. cbn [spow sadd sexp sneg sone R_scalar].
  unfold Rpow_literal. simpl. f_equal. lra.
Qed.

(** C7.  On an input of shape (batch, input_size) and a state (h0, c0) of
    shape (batch, hidden_size) each, `LSTMCell.forward` returns (h', c'),
    both of shape (batch, hidden_size).  With pre(k) the entry of column k
    of the combined pre-activation X @ W_ih + h0 @ W_hh plus the biases that
    are present (width 4*hidden_size), the four contiguous chunks of width
    hidden_size are, in this order, the input gate i, the forget gate f, the
    candidate g and the output gate o; i, f and o go through the logistic
    function and g through tanh; c' = f*c0 + i*g and h' = o*tanh(c'). *)
Theorem LSTMCell_forward_gates (cell : LSTMCell.t R) (X h0 c0 : Tensor R)
    (batch input_size : nat) :
  LSTMCell.well_formed cell input_size →
  shape X = [batch; input_size] → wf X →
  shape h0 = [batch; LSTMCell.hidden_size cell] → wf h0 →
  shape c0 = [batch; LSTMCell.hidden_size cell] → wf c0 →
  ∃ h' c',
    LSTMCell.forward cell X (Some (h0, c0)) = Some (h', c') ∧
    (shape h' = [batch; LSTMCell.hidden_size cell] ∧ wf h') ∧
    (shape c' = [batch; LSTMCell.hidden_size cell] ∧ wf c') ∧
    ∀ b j, b < batch → j < LSTMCell.hidden_size cell →
      let hidden := LSTMCell.hidden_size cell in
      let pre := LSTMCell.preactivation cell X h0 input_size b in
      let i := logistic (pre j) in
      let f := logistic (pre (hidden + j)) in
      let g := Rtrigo_def.tanh (pre (2 * hidden + j)) in
      let o := logistic (pre (3 * hidden + j)) in
      get c' [b; j] = (f * get c0 [b; j] + i * g)%R ∧
      get h' [b; j] = (o * Rtrigo_def.tanh (get c' [b; j]))%R.
Proof.
  intros Hcell HshX HX Hshh Hh Hshc Hc.
  destruct (forward_gates cell X h0 c0 batch input_size Hcell HshX HX Hshh Hh Hshc Hc)
    as (h' & c' & rgh & rgc & Hfw & (Hshc' & Hwfc' & _ & Hgetc) & (Hshh' & Hwfh' & _ & Hgeth)).
  exists h', c'. split_and!; [done..|].
  intros b j Hb Hj hidden pre i f g o.
  assert (in_range [batch; LSTMCell.hidden_size cell] [b; j]) as Hidx.
  { apply in_range_2. eauto. }
  split.
  - rewrite (Hgetc _ Hidx). cbn [nth]. rewrite !sigmoid_elt_logistic.
    subst i f g o pre hidden. cbn [sadd smul stanh R_scalar].
    by rewrite Nat.mul_0_l, Nat.mul_1_l, Nat.add_0_l.
  - rewrite (Hgeth _ Hidx). cbn [nth]. rewrite !sigmoid_elt_logistic.
    subst i f g o pre hidden. by cbn [sadd smul stanh R_scalar].
Qed.


Section real_sums.
Local Open Scope R_scope.
Implicit Types (f g : nat → R) (l : list nat).

Lemma ssum_cons (x : R) (xs : list R) : ssum (x :: xs) = x + ssum xs.
Proof. done. Qed.

Lemma ssum_const (c : R) l : ssum ((λ _, c) <$> l) = INR (length l) * c.
Proof.
  induction l as [|k l IH]; [simpl; lra|].
  rewrite fmap_cons, ssum_cons, IH. cbn [length]. rewrite S_INR. lra.
Qed.

Lemma ssum_scale (c : R) f l : ssum ((λ k, c * f k) <$> l) = c * ssum (f <$> l).
Proof.
  induction l as [|k l IH]; [simpl; lra|].
  rewrite !fmap_cons, !ssum_cons, IH. lra.
Qed.

Lemma ssum_exp_pos f l : l ≠ [] → 0 < ssum ((λ k, exp (f k)) <$> l).
Proof.
  intros Hl. destruct l as [|k l]; [done|]. clear Hl. revert k.
  induction l as [|k' l IH]; intros k; rewrite fmap_cons, ssum_cons.
  - simpl. pose proof (exp_pos (f k)). lra.
  - pose proof (exp_pos (f k)). pose proof (IH k'). lra.
Qed.

(** Multiplying by a one-hot row and summing selects one entry. *)
Lemma ssum_select f (c : nat) l :
  NoDup l →
  ssum ((λ k, f k * (if decide (Some k = Some c) then 1 else 0)) <$> l)
  = if decide (c ∈ l) then f c else 0.
Proof.
  induction 1 as [|k l Hk _ IH]; [done|].
  rewrite fmap_cons, ssum_cons, IH.
  destruct (decide (Some k = Some c)) as [[= ->]|Hne].
  - rewrite decide_False by done. rewrite decide_True by left. lra.
  - destruct (decide (c ∈ l)) as [Hin|Hin].
    + rewrite decide_True by by right. lra.
    + rewrite decide_False; [lra|]. intros [->|?]%elem_of_cons; done.
Qed.

(** The shifted form of log-sum-exp is log-sum-exp. *)
Lemma logsumexp_shift f (m : R) l :
  l ≠ [] →
  ln (ssum ((λ k, exp (f k - m)) <$> l)) + m = ln (ssum ((λ k, exp (f k)) <$> l)).
Proof.
  intros Hl.
  rewrite (list_fmap_ext (λ k, exp (f k - m)) (λ k, exp (- m) * exp (f k)) l);
    [|intros; unfold Rminus; rewrite exp_plus; lra].
  rewrite ssum_scale, ln_mult, ln_exp; [lra|apply exp_pos|by apply ssum_exp_pos].
Qed.
End real_sums.


(** C8.  On logits of shape (batch, C) and labels in [0, C),
    `SoftmaxLoss.forward` returns the sum over the batch of log-sum-exp of
    the row minus the logit of the labelled class (selected by the one-hot
    product), divided by the batch size.  When every row is constant and
    the batch is not empty, the result is log(C). *)
Theorem SoftmaxLoss_forward_mean (logits : Tensor R) (y : Tensor nat)
    (batch classes : nat) :
  shape logits = [batch; classes] → wf logits →
  shape y = [batch] → wf y →
  Forall (λ c, c < classes) (data y) →
  classes ≠ 0 →
  ∃ loss,
    SoftmaxLoss.forward logits y = Some loss ∧
    shape loss = [] ∧ wf loss ∧
    get loss []
    = (ssum ((λ b, ln (ssum ((λ k, exp (get logits [b; k])) <$> seq 0 classes))
                   - get logits [b; label y [b]]) <$> seq 0 batch)
       / INR batch)%R ∧
    (batch ≠ 0 →
     (∀ b, b < batch → ∃ v, ∀ k, k < classes → get logits [b; k] = v) →
     get loss [] = ln (INR classes)).
Proof.
  intros Hsh Hwf Hshy Hwfy Hlabels Hclasses.
  pose proof (denotes_get _ Hwf) as Dl. rewrite Hsh in Dl.
  assert (∀ b, b < batch → label y [b] < classes) as Hlabel.
  { intros b Hb. unfold label. rewrite Hshy. cbn [ravel prod].
    rewrite Forall_forall in Hlabels. apply Hlabels.
    apply list_elem_of_In, nth_In. unfold wf in Hwfy. rewrite Hwfy, Hshy. simpl. lia. }
  unfold SoftmaxLoss.forward. rewrite Hsh.
  do 2 (erewrite option_bind_Some by reflexivity).
  (* one_hot = init.one_hot(n=logits.shape[1], i=y) *)
  assert (∃ one_hot, init.one_hot classes y = Some one_hot ∧
            denotes one_hot [batch; classes]
              (λ idx, if decide (Some (nth 1 idx 0) = Some (label y [nth 0 idx 0]))
                      then 1%R else 0%R) false) as (one_hot & Hone & Done).
  { unfold init.one_hot. rewrite decide_True by done. eexists. split; [done|].
    rewrite Hshy. eapply denotes_ext; [apply denotes_tabulate|].
    by intros idx (b & k & -> & Hb & Hk)%in_range_2. }
  opt_with Hone.
  (* ops.logsumexp(logits, axes=(1,)) *)
  assert (∃ lse, ops.logsumexp logits [1] = Some lse ∧
            denotes lse [batch]
              (λ idx, ln (ssum ((λ k, exp (get logits [nth 0 idx 0; k]))
                                  <$> seq 0 classes)))
              (requires_grad logits)) as (lse & Hlse & Dlse).
  { unfold ops.logsumexp. rewrite Hsh. cbn [lookup list_lookup mbind option_bind].
    rewrite decide_False by done. eexists. split; [done|].
    eapply denotes_ext; [apply denotes_tabulate|].
    intros idx (b & -> & Hb)%in_range_1. cbn [insert_at take drop app nth].
    cbv zeta. cbn [sadd ssub slog sexp R_scalar]. rewrite <-list_fmap_compose.
    apply (logsumexp_shift (λ k, get logits [b; k])).
    intros Hnil%(f_equal length). rewrite length_seq in Hnil. done. }
  opt_with Hlse.
  destruct (denotes_ewise2 smul _ _ _ _ _ _ _ Dl Done) as (picked & Hpicked & Dpicked).
  opt_with Hpicked.
  destruct (denotes_sum_axis_1 _ _ _ _ _ Dpicked) as (true_logit & Htrue & Dtrue).
  opt_with Htrue.
  assert (denotes true_logit [batch] (λ idx, get logits [nth 0 idx 0; label y idx])
            (requires_grad logits || false)) as Dtrue'.
  { eapply denotes_ext; [exact Dtrue|].
    intros idx (b & -> & Hb)%in_range_1. cbn [nth smul R_scalar].
    rewrite (ssum_select (λ k, get logits [b; k]) (label y [b])) by apply NoDup_seq.
    rewrite decide_True; [done|]. apply elem_of_seq. specialize (Hlabel b Hb). lia. }
  destruct (denotes_ewise2 ssub _ _ _ _ _ _ _ Dlse Dtrue') as (diff & Hdiff & Ddiff).
  opt_with Hdiff.
  destruct (denotes_sum_all _ _ _ _ Ddiff) as (total & Htotal & Dtotal).
  opt_with Htotal.
  pose proof (denotes_ewise1 (λ x, x / sof_nat batch)%scalar _ _ _ _ Dtotal)
    as (Hshl & Hwfl & _ & Hgetl).
  eexists. split; [done|]. split; [done|]. split; [done|].
  assert (get (ops.divide_scalar total (sof_nat batch)) []
          = (ssum ((λ b, ln (ssum ((λ k, exp (get logits [b; k])) <$> seq 0 classes))
                         - get logits [b; label y [b]]) <$> seq 0 batch)
             / INR batch)%R) as Hloss.
  { etrans; [apply (Hgetl []); constructor|].
    cbn [sdiv ssub sof_nat R_scalar prod unravel]. rewrite Nat.mul_1_r. do 2 f_equal.
    apply list_fmap_ext. intros i b _. by rewrite Nat.div_1_r. }
  split; [exact Hloss|].
  intros Hbatch Hrows. rewrite Hloss.
  rewrite (list_fmap_ext _ (λ _, ln (INR classes)) (seq 0 batch)).
  - rewrite ssum_const, length_seq. field. by apply not_0_INR.
  - intros b ? [-> Hb]%lookup_seq. cbn [Nat.add].
    destruct (Hrows b Hb) as [v Hv].
    rewrite (Hv (label y [b])) by by apply Hlabel.
    rewrite (list_fmap_ext _ (λ _, Rtrigo_def.exp v) (seq 0 classes)).
    + rewrite ssum_const, length_seq, ln_mult, ln_exp;
        [lra|apply lt_0_INR; lia|apply exp_pos].
    + intros k ? [-> Hk]%lookup_seq. cbn [Nat.add]. by rewrite Hv.
Qed.


Section conv.
Context {F : Type} `{Scalar F}.
Implicit Types (self : Conv.t F) (X : Tensor F).

Lemma ceil_div_same_padding (size k s : nat) :
  Nat.Odd k → 0 < s → 0 < size →
  k ≤ size + 2 * (k / 2) ∧ (size + 2 * (k / 2) - k) / s + 1 = ceil_div size s.
Proof.
  intros [p ->] Hs Hsize.
  replace ((2 * p + 1) / 2) with p
    by (apply (Nat.div_unique _ 2 p 1); lia).
  split; [lia|]. unfold ceil_div.
  replace (size + 2 * p - (2 * p + 1)) with (size - 1) by lia.
  replace (size + s - 1) with (size - 1 + 1 * s) by lia.
  rewrite Nat.div_add by lia. done.
Qed.

Lemma ceil_div_1 (size : nat) : ceil_div size 1 = size.
Proof. unfold ceil_div. rewrite Nat.div_1_r. lia. Qed.

Lemma conv_same_padding (a w : Tensor F) (n size c_in c_out k s : nat) :
  shape a = [n; size; size; c_in] → shape w = [k; k; c_in; c_out] →
  Nat.Odd k → 0 < s → 0 < size →
  ∃ c, ops.conv a w s (k / 2) = Some c ∧
       shape c = [n; ceil_div size s; ceil_div size s; c_out] ∧ wf c.
Proof.
  intros Ha Hw Hk Hs Hsize.
  destruct (ceil_div_same_padding size k s Hk Hs Hsize) as [Hle Hceil].
  unfold ops.conv. rewrite Ha, Hw, decide_True by done.
  eexists. split; [done|]. cbn [shape tabulate]. rewrite Hceil.
  split; [done|]. rewrite <-Hceil. apply wf_tabulate.
Qed.

Lemma Conv_forward_shape self X (n size : nat) :
  Conv.well_formed self →
  shape X = [n; Conv.in_channels self; size; size] →
  Nat.Odd (Conv.kernel_size self) → 0 < Conv.stride self → 0 < size →
  ∃ x_nhwc conv Y,
    x_nhwc = BatchNorm2d.to_channel_last X ∧
    ops.conv x_nhwc (Conv.weight self) (Conv.stride self) (Conv.kernel_size self / 2)
      = Some conv ∧
    shape conv = [n; ceil_div size (Conv.stride self);
                  ceil_div size (Conv.stride self); Conv.out_channels self] ∧
    Conv.forward self X = Some Y ∧
    shape Y = [n; Conv.out_channels self; ceil_div size (Conv.stride self);
               ceil_div size (Conv.stride self)].
Proof.
  intros (Hw & Hwwf & Hb) HshX Hk Hs Hsize.
  destruct (transposes_to_channel_last X _ _ _ _ HshX) as (x1 & Hx1 & Hx2).
  assert (shape (BatchNorm2d.to_channel_last X)
          = [n; size; size; Conv.in_channels self]) as Hshl.
  { unfold BatchNorm2d.to_channel_last. by rewrite HshX. }
  destruct (conv_same_padding _ _ _ _ _ _ _ _ Hshl Hw Hk Hs Hsize)
    as (conv & Hconv & Hshc & Hwfc).
  set (o := ceil_div size (Conv.stride self)) in *.
  assert (∃ conv', match Conv.bias self with
                   | Some bias =>
                       b ← ops.reshape bias [1; 1; 1; Conv.out_channels self];
                       b ← ops.broadcast_to b (shape conv);
                       ops.add conv b
                   | None => Some conv
                   end = Some conv' ∧ shape conv' = shape conv)
    as (conv' & Hconv' & Hshc').
  { destruct (Conv.bias self) as [bias|]; [|by eauto].
    destruct Hb as [Hshb Hwfb]. unfold ops.reshape.
    rewrite Hshb, decide_True by (simpl; lia). cbn [mbind option_bind].
    unfold ops.broadcast_to. cbn [shape]. rewrite Hshc.
    assert (ops.broadcastable [1; 1; 1; Conv.out_channels self]
              [n; o; o; Conv.out_channels self] = true) as ->.
    { unfold ops.broadcastable. cbn [length zip zip_with forallb].
      by rewrite !Nat.eqb_refl, !orb_true_r. }
    cbn [mbind option_bind]. unfold ops.add, ops.ewise2.
    cbn [shape tabulate]. rewrite Hshc, decide_True by done. by eauto. }
  rewrite Hshc in Hshc'.
  destruct (transposes_to_channel_first conv' _ _ _ _ Hshc') as (c1 & Hc1 & Hc2).
  exists (BatchNorm2d.to_channel_last X), conv, (BatchNorm2d.to_channel_first conv').
  split_and!; [done..| |].
  - unfold Conv.forward. rewrite HshX. cbn [rev app lookup list_lookup].
    do 2 (erewrite option_bind_Some by reflexivity).
    rewrite option_guard_True by done.
    opt_with Hx1. opt_with Hx2. opt_with Hconv. opt_with Hconv'. opt_with Hc1.
    exact Hc2.
  - unfold BatchNorm2d.to_channel_first. by rewrite Hshc'.
Qed.
(** A bias of shape (C,) as [(1, 1, 1, C)], repeated over the batch and
    the two spatial axes. *)
Lemma denotes_channel_broadcast (a : Tensor F) c f rg (n h w : nat) :
  denotes a [c] f rg →
  ∃ r b, ops.reshape a [1; 1; 1; c] = Some r ∧
         ops.broadcast_to r [n; h; w; c] = Some b ∧
         denotes b [n; h; w; c] (λ idx, f [nth 3 idx 0]) rg.
Proof.
  intros Ha.
  destruct (denotes_reshape a [c] f rg [1; 1; 1; c] (λ idx, f [nth 3 idx 0]) Ha)
    as (r & Hr & Hsh & Hwf & Hrg & Hget).
  { simpl. lia. }
  { intros idx (i & j & k & l & -> & Hi & Hj & Hk & Hl)%in_range_4. exists [l].
    split_and!; [by apply in_range_1; eauto|simpl; lia|done]. }
  exists r. unfold ops.broadcast_to. rewrite Hsh.
  assert (ops.broadcastable [1; 1; 1; c] [n; h; w; c] = true) as ->.
  { unfold ops.broadcastable. cbn [length zip zip_with forallb].
    by rewrite !Nat.eqb_refl, !orb_true_r. }
  eexists. split_and!; [done..|].
  rewrite Hrg. eapply denotes_ext; [apply denotes_tabulate|].
  intros idx (i & j & k & l & -> & Hi & Hj & Hk & Hl)%in_range_4.
  cbn [zip_with Nat.eqb nth].
  rewrite Hget; [|apply in_range_4; exists 0, 0, 0, (if c =? 1 then 0 else l)].
  - cbn [nth]. destruct (c =? 1) eqn:Hc; [|done]. apply Nat.eqb_eq in Hc.
    by assert (l = 0) as -> by lia.
  - split_and!; [done|lia..|destruct (c =? 1); lia].
Qed.

(** The elements of the convolution of a channel-first input [X], given
    to [ops.conv] in channel-last layout: the kernel meets the input with
    [p] zeros on each side of both spatial axes. *)
Lemma conv_elements X (w : Tensor F) (n size c_in c_out k s p : nat) :
  shape X = [n; c_in; size; size] → shape w = [k; k; c_in; c_out] →
  0 < s → k ≤ size + 2 * p →
  ∃ c, ops.conv (BatchNorm2d.to_channel_last X) w s p = Some c ∧
       denotes c [n; (size + 2 * p - k) / s + 1; (size + 2 * p - k) / s + 1; c_out]
         (λ idx,
            ssum ((λ ki,
              ssum ((λ kj,
                ssum ((λ ci,
                  smul (if decide (p ≤ nth 1 idx 0 * s + ki < size + p
                                   ∧ p ≤ nth 2 idx 0 * s + kj < size + p)
                        then get X [nth 0 idx 0; ci; nth 1 idx 0 * s + ki - p;
                                    nth 2 idx 0 * s + kj - p]
                        else szero)
                       (get w [ki; kj; ci; nth 3 idx 0])) <$> seq 0 c_in))
                <$> seq 0 k)) <$> seq 0 k))
         (requires_grad X || requires_grad w).
Proof.
  intros HshX Hw Hs Hk.
  assert (shape (BatchNorm2d.to_channel_last X) = [n; size; size; c_in]) as Hshl.
  { unfold BatchNorm2d.to_channel_last. by rewrite HshX. }
  assert (requires_grad (BatchNorm2d.to_channel_last X) = requires_grad X) as Hrg.
  { unfold BatchNorm2d.to_channel_last. by rewrite HshX. }
  unfold ops.conv. rewrite Hshl, Hw, decide_True by done.
  eexists. split; [done|]. rewrite Hrg.
  eapply denotes_ext; [apply denotes_tabulate|].
  intros idx (b & i & j & co & -> & Hb & Hi & Hj & Hco)%in_range_4. cbn [nth].
  f_equal. apply list_fmap_ext. intros ? ki _.
  f_equal. apply list_fmap_ext. intros ? kj _.
  f_equal. apply list_fmap_ext. intros ? ci [-> Hci]%lookup_seq. cbn [Nat.add].
  f_equal. unfold ops.padded. rewrite Hshl.
  case_decide as Hin; [|done].
  unfold BatchNorm2d.to_channel_last. rewrite HshX.
  rewrite get_tabulate; [done|].
  apply in_range_4. eexists _, _, _, _. split; [done|]. lia.
Qed.

(** [Conv.forward] on a square input, element by element. *)
Lemma Conv_forward_elements self X (n size : nat) :
  Conv.well_formed self →
  shape X = [n; Conv.in_channels self; size; size] →
  Nat.Odd (Conv.kernel_size self) → 0 < Conv.stride self → 0 < size →
  ∃ Y rg,
    Conv.forward self X = Some Y ∧
    denotes Y [n; Conv.out_channels self; ceil_div size (Conv.stride self);
               ceil_div size (Conv.stride self)]
      (λ idx,
         let p := Conv.kernel_size self / 2 in
         let s := Conv.stride self in
         let acc :=
           ssum ((λ ki,
             ssum ((λ kj,
               ssum ((λ ci,
                 smul (if decide (p ≤ nth 2 idx 0 * s + ki < size + p
                                  ∧ p ≤ nth 3 idx 0 * s + kj < size + p)
                       then get X [nth 0 idx 0; ci; nth 2 idx 0 * s + ki - p;
                                   nth 3 idx 0 * s + kj - p]
                       else szero)
                      (get (Conv.weight self) [ki; kj; ci; nth 1 idx 0]))
                 <$> seq 0 (Conv.in_channels self)))
               <$> seq 0 (Conv.kernel_size self)))
             <$> seq 0 (Conv.kernel_size self)) in
         match Conv.bias self with
         | Some bias => sadd acc (get bias [nth 1 idx 0])
         | None => acc
         end) rg.
Proof.
  intros (Hw & Hwwf & Hb) HshX Hk Hs Hsize.
  destruct (ceil_div_same_padding size _ _ Hk Hs Hsize) as [Hle Hceil].
  destruct (transposes_to_channel_last X _ _ _ _ HshX) as (x1 & Hx1 & Hx2).
  destruct (conv_elements X (Conv.weight self) n size _ _ _ (Conv.stride self)
              (Conv.kernel_size self / 2) HshX Hw Hs Hle) as (conv & Hconv & Dconv).
  rewrite Hceil in Dconv.
  set (o := ceil_div size (Conv.stride self)) in *.
  set (fconv := λ idx : list nat, ssum _) in Dconv.
  assert (∃ conv' rg,
            match Conv.bias self with
            | Some bias =>
                b ← ops.reshape bias [1; 1; 1; Conv.out_channels self];
                b ← ops.broadcast_to b (shape conv);
                ops.add conv b
            | None => Some conv
            end = Some conv' ∧
            denotes conv' [n; o; o; Conv.out_channels self]
              (λ idx, match Conv.bias self with
                      | Some bias => sadd (fconv idx) (get bias [nth 3 idx 0])
                      | None => fconv idx
                      end) rg) as (conv' & rg & Hconv' & Dconv').
  { destruct (Conv.bias self) as [bias|]; [|by eauto].
    destruct Hb as [Hshb Hwfb].
    pose proof (denotes_get _ Hwfb) as Db. rewrite Hshb in Db.
    destruct (denotes_channel_broadcast _ _ _ _ n o o Db) as (r & b & Hr & Hbb & Dbb).
    rewrite Hr. cbn [mbind option_bind]. rewrite (proj1 Dconv), Hbb.
    cbn [mbind option_bind].
    destruct (denotes_ewise2 sadd _ _ _ _ _ _ _ Dconv Dbb) as (c & Hc & Dc).
    by eauto. }
  destruct Dconv' as (Hshc' & Hwfc' & Hrgc' & Hgetc').
  destruct (transposes_to_channel_first conv' _ _ _ _ Hshc') as (c1 & Hc1 & Hc2).
  exists (BatchNorm2d.to_channel_first conv'), rg. split.
  - unfold Conv.forward. rewrite HshX. cbn [rev app lookup list_lookup].
    do 2 (erewrite option_bind_Some by reflexivity).
    rewrite option_guard_True by done.
    opt_with Hx1. opt_with Hx2. opt_with Hconv. opt_with Hconv'. opt_with Hc1.
    exact Hc2.
  - unfold BatchNorm2d.to_channel_first. rewrite Hshc', Hrgc'.
    eapply denotes_ext; [apply denotes_tabulate|].
    intros idx (b & co & i & j & -> & Hb' & Hco & Hi & Hj)%in_range_4.
    rewrite Hgetc' by (apply in_range_4; eauto 10). cbn [nth].
    by destruct (Conv.bias self).
Qed.

(** The assertion [X.shape[-2] == X.shape[-1]]. *)
Lemma Conv_forward_not_square self X (n c h w : nat) :
  shape X = [n; c; h; w] → h ≠ w → Conv.forward self X = None.
Proof.
  intros HshX Hhw. unfold Conv.forward. rewrite HshX.
  cbn [rev app lookup list_lookup].
  do 2 (erewrite option_bind_Some by reflexivity).
  by rewrite option_guard_False.
Qed.
End conv.

(** C9.  `Conv.forward` asserts that the two spatial sizes of a
    channel-first input are equal: on an input of shape (N, C, H, W) with
    H different from W it raises.  On a square input it pads by
    `kernel_size // 2`: for an odd kernel size (3, 5, 7 among them) and any
    stride s >= 1 (1, 2, 4 among them) it returns a channel-first tensor of
    spatial size ceil(size / s) in both dimensions, which is the input's
    size when the stride is 1, and the element (b, co, i, j) of the result
    is the sum, over the kernel positions (ki, kj) and the input channels
    ci, of weight[ki, kj, ci, co] times the input at row i*s + ki - p and
    column j*s + kj - p, p = kernel_size // 2, read as 0 outside the input,
    plus bias[co] when the layer has a bias. *)
Theorem Conv_forward_same_padding {F} `{Scalar F}
    (self : Conv.t F) (X : Tensor F) (n h w : nat) :
  Conv.well_formed self →
  shape X = [n; Conv.in_channels self; h; w] →
  Nat.Odd (Conv.kernel_size self) →
  0 < Conv.stride self →
  0 < h →
  (h ≠ w → Conv.forward self X = None) ∧
  (h = w →
   ∃ Y,
     Conv.forward self X = Some Y ∧
     shape Y = [n; Conv.out_channels self; ceil_div h (Conv.stride self);
                ceil_div h (Conv.stride self)] ∧
     wf Y ∧
     (Conv.stride self = 1 → shape Y = [n; Conv.out_channels self; h; h]) ∧
     let p := Conv.kernel_size self / 2 in
     let s := Conv.stride self in
     ∀ b co i j,
       b < n → co < Conv.out_channels self →
       i < ceil_div h s → j < ceil_div h s →
       get Y [b; co; i; j]
       = let acc :=
           ssum ((λ ki,
             ssum ((λ kj,
               ssum ((λ ci,
                 smul (if decide (p ≤ i * s + ki < h + p ∧ p ≤ j * s + kj < h + p)
                       then get X [b; ci; i * s + ki - p; j * s + kj - p]
                       else szero)
                      (get (Conv.weight self) [ki; kj; ci; co]))
                 <$> seq 0 (Conv.in_channels self)))
               <$> seq 0 (Conv.kernel_size self)))
             <$> seq 0 (Conv.kernel_size self)) in
         match Conv.bias self with
         | Some bias => sadd acc (get bias [co])
         | None => acc
         end).
Proof.
  intros Hself HshX Hk Hs Hsize. split.
  - intros Hhw. by eapply Conv_forward_not_square.
  - intros <-.
    destruct (Conv_forward_elements self X n h Hself HshX Hk Hs Hsize)
      as (Y & rg & HY & HshY & HwfY & _ & HgetY).
    exists Y. split_and!; [done..| |].
    + intros Hs1. rewrite HshY, Hs1. by rewrite ceil_div_1.
    + intros p s b co i j Hb Hco Hi Hj.
      rewrite HgetY by (apply in_range_4; eauto 10). done.
Qed.


Section constructors.
Context {F G : Type} `{Scalar F} `{Rand F G}.

Lemma RNNCell_init_total input_size hidden_size bias nonlinearity g :
  hidden_size ≠ 0 →
  nonlinearity = "relu"%string ∨ nonlinearity = "tanh"%string →
  ∃ cell g', RNNCell.__init__ input_size hidden_size bias nonlinearity g
             = (Some cell, g').
Proof.
  intros Hh Hnl.
  unfold RNNCell.__init__, mbind, Run_bind, init_rand.rand, mret, Run_ret, assert, lift.
  rewrite decide_True by done.
  repeat match goal with
         | |- context [rand ?sh ?lo ?hi ?g0] => destruct (rand sh lo hi g0)
         end.
  destruct bias;
    repeat match goal with
           | |- context [rand ?sh ?lo ?hi ?g0] => destruct (rand sh lo hi g0)
           end;
    destruct Hnl as [-> | ->]; cbn [decide]; by eauto.
Qed.

Lemma LSTMCell_init_total input_size hidden_size bias g :
  hidden_size ≠ 0 →
  ∃ cell g', LSTMCell.__init__ input_size hidden_size bias g = (Some cell, g').
Proof.
  intros Hh.
  unfold LSTMCell.__init__, mbind, Run_bind, init_rand.rand, mret, Run_ret, assert.
  rewrite decide_True by done.
  repeat match goal with
         | |- context [rand ?sh ?lo ?hi ?g0] => destruct (rand sh lo hi g0)
         end.
  destruct bias;
    repeat match goal with
           | |- context [rand ?sh ?lo ?hi ?g0] => destruct (rand sh lo hi g0)
           end;
    by eauto.
Qed.

(** [n] iterations of the loop append [n] cells. *)
Lemma append_cells_total {C} (n : nat) (make : Run G C) (cells : list C) g :
  (∀ g, ∃ cell g', make g = (Some cell, g')) →
  ∃ new g', RNN.append_cells n make cells g = (Some (cells ++ new), g') ∧
            length new = n.
Proof.
  intros Hmake. revert cells g. induction n as [|n IH]; intros cells g.
  - exists [], g. by rewrite app_nil_r.
  - destruct (Hmake g) as (cell & g1 & Hcell).
    destruct (IH (cells ++ [cell]) g1) as (new & g' & Hnew & Hlen).
    exists (cell :: new), g'. split; [|simpl; lia].
    cbn [RNN.append_cells]. unfold mbind, Run_bind. rewrite Hcell, Hnew.
    by rewrite <-app_assoc.
Qed.

Lemma RNN_init_total input_size hidden_size num_layers bias nonlinearity g :
  hidden_size ≠ 0 →
  nonlinearity = "relu"%string ∨ nonlinearity = "tanh"%string →
  ∃ rnn g', RNN.__init__ input_size hidden_size num_layers bias nonlinearity g
            = (Some rnn, g') ∧
            RNN.hidden_size rnn = hidden_size ∧
            length (RNN.rnn_cells rnn) = Z.to_nat (Z.max num_layers 1).
Proof.
  intros Hh Hnl. unfold RNN.__init__.
  destruct (RNNCell_init_total input_size hidden_size bias nonlinearity g Hh Hnl)
    as (first & g1 & Hfirst).
  destruct (append_cells_total (Z.to_nat (num_layers - 1))
              (RNNCell.__init__ hidden_size hidden_size bias nonlinearity)
              [first] g1) as (new & g' & Hnew & Hlen).
  { intros g0. by apply RNNCell_init_total. }
  eexists _, g'. split.
  - unfold mbind, Run_bind, mret, Run_ret. by rewrite Hfirst, Hnew.
  - split; [done|]. cbn [RNN.rnn_cells]. rewrite length_app, Hlen. simpl. lia.
Qed.

Lemma LSTM_init_total input_size hidden_size num_layers bias g :
  hidden_size ≠ 0 →
  ∃ lstm g', LSTM.__init__ input_size hidden_size num_layers bias g
             = (Some lstm, g') ∧
             LSTM.hidden_size lstm = hidden_size ∧
             length (LSTM.lstm_cells lstm) = Z.to_nat (Z.max num_layers 1).
Proof.
  intros Hh. unfold LSTM.__init__.
  destruct (LSTMCell_init_total input_size hidden_size bias g Hh)
    as (first & g1 & Hfirst).
  destruct (append_cells_total (Z.to_nat (num_layers - 1))
              (LSTMCell.__init__ hidden_size hidden_size bias)
              [first] g1) as (new & g' & Hnew & Hlen).
  { intros g0. by apply LSTMCell_init_total. }
  eexists _, g'. split.
  - unfold mbind, Run_bind, mret, Run_ret. by rewrite Hfirst, Hnew.
  - split; [done|]. cbn [LSTM.lstm_cells]. rewrite length_app, Hlen. simpl. lia.
Qed.
End constructors.


(** * Part VII: the theorems at concrete inputs *)

Lemma example_bn_well_formed : BatchNorm1d.well_formed example_bn.
Proof. repeat split. Qed.

Lemma example_bn_eval_well_formed : BatchNorm1d.well_formed example_bn_eval.
Proof. repeat split. Qed.

Lemma BatchNorm1d_training_forward_witness :
  ∃ Y l',
    BatchNorm1d.forward example_batch example_bn = (Some Y, l') ∧
    shape Y = [2; BatchNorm1d.dim example_bn] ∧ wf Y ∧
    (∀ i j, i < 2 → j < BatchNorm1d.dim example_bn →
       get Y [i; j]
       = (get (BatchNorm1d.weight example_bn) [j]
          * ((get example_batch [i; j] - BatchNorm1d.batch_mean example_batch 2 j)
             / (BatchNorm1d.batch_var example_batch 2 j + BatchNorm1d.eps example_bn)
               ** (1 # 2))
          + get (BatchNorm1d.bias example_bn) [j])%scalar) ∧
    BatchNorm1d.well_formed l' ∧
    (∀ j, j < BatchNorm1d.dim example_bn →
       get (BatchNorm1d.running_mean l') [j]
       = (get (BatchNorm1d.running_mean example_bn) [j]
          * (sone - BatchNorm1d.momentum example_bn)
          + BatchNorm1d.batch_mean example_batch 2 j
            * BatchNorm1d.momentum example_bn)%scalar ∧
       get (BatchNorm1d.running_var l') [j]
       = (get (BatchNorm1d.running_var example_bn) [j]
          * (sone - BatchNorm1d.momentum example_bn)
          + BatchNorm1d.batch_var example_batch 2 j
            * BatchNorm1d.momentum example_bn)%scalar) ∧
    requires_grad (BatchNorm1d.running_mean l')
      = requires_grad (BatchNorm1d.running_mean example_bn) ∧
    requires_grad (BatchNorm1d.running_var l')
      = requires_grad (BatchNorm1d.running_var example_bn) ∧
    BatchNorm1d.set_running_var (BatchNorm1d.running_var l')
      (BatchNorm1d.set_running_mean (BatchNorm1d.running_mean l') example_bn) = l'.
Proof.
  apply (BatchNorm1d_training_forward example_bn example_batch 2).
  - exact example_bn_well_formed.
  - reflexivity.
  - reflexivity.
  - reflexivity.
Defined.

Lemma BatchNorm1d_eval_forward_witness :
  (∃ Y,
     BatchNorm1d.forward example_batch example_bn_eval = (Some Y, example_bn_eval) ∧
     shape Y = [2; BatchNorm1d.dim example_bn_eval] ∧ wf Y ∧
     ∀ i j, i < 2 → j < BatchNorm1d.dim example_bn_eval →
       get Y [i; j]
       = (get (BatchNorm1d.weight example_bn_eval) [j]
          * ((get example_batch [i; j]
              - get (BatchNorm1d.running_mean example_bn_eval) [j])
             / (get (BatchNorm1d.running_var example_bn_eval) [j]
                + BatchNorm1d.eps example_bn_eval) ** (1 # 2))
          + get (BatchNorm1d.bias example_bn_eval) [j])%scalar) ∧
  BatchNorm1d.forward_passes example_bn_eval [example_batch; example_image; example_batch]
  = example_bn_eval ∧
  (∃ Y1 Y2 l1' l2',
     BatchNorm1d.forward example_batch example_bn = (Some Y1, l1') ∧
     BatchNorm1d.forward example_batch example_bn = (Some Y2, l2') ∧
     BatchNorm1d.running_mean l2' = BatchNorm1d.running_mean l1' ∧
     BatchNorm1d.running_var l2' = BatchNorm1d.running_var l1').
Proof.
  destruct (BatchNorm1d_eval_forward example_bn_eval example_bn example_bn
              example_batch 2 [example_batch; example_image; example_batch])
    as (Heval & Hpasses & Htrain).
  split; [|split].
  - apply Heval; [exact example_bn_eval_well_formed|reflexivity..].
  - apply Hpasses. reflexivity.
  - apply Htrain; [exact example_bn_well_formed|exact example_bn_well_formed
                  |reflexivity..].
Defined.

Lemma BatchNorm2d_forward_by_layout_witness :
  BatchNorm2d.forward example_image example_bn
  = BatchNorm2d.forward_by_layout example_image example_bn ∧
  ∃ flat,
    ops.reshape (BatchNorm2d.to_channel_last example_image) [1 * 1 * 2; 2] = Some flat ∧
    ∀ i k p q, i < 1 → k < 2 → p < 1 → q < 2 →
      get flat [(i * 1 + p) * 2 + q; k] = get example_image [i; k; p; q].
Proof.
  apply (BatchNorm2d_forward_by_layout example_bn example_image 1 2 1 2).
  reflexivity.
Defined.

Lemma example_lstm_cell_well_formed : LSTMCell.well_formed example_lstm_cell 1.
Proof.
  unfold LSTMCell.well_formed. split_and!; try reflexivity.
  - intros b [= <-]. split; reflexivity.
  - intros b [=].
Qed.

Lemma LSTMCell_forward_gates_witness :
  ∃ h' c',
    LSTMCell.forward example_lstm_cell example_step (Some (example_step, example_step))
    = Some (h', c') ∧
    (shape h' = [1; LSTMCell.hidden_size example_lstm_cell] ∧ wf h') ∧
    (shape c' = [1; LSTMCell.hidden_size example_lstm_cell] ∧ wf c') ∧
    ∀ b j, b < 1 → j < LSTMCell.hidden_size example_lstm_cell →
      let hidden := LSTMCell.hidden_size example_lstm_cell in
      let pre := LSTMCell.preactivation example_lstm_cell example_step example_step 1 b in
      let i := logistic (pre j) in
      let f := logistic (pre (hidden + j)) in
      let g := Rtrigo_def.tanh (pre (2 * hidden + j)) in
      let o := logistic (pre (3 * hidden + j)) in
      get c' [b; j] = (f * get example_step [b; j] + i * g)%R ∧
      get h' [b; j] = (o * Rtrigo_def.tanh (get c' [b; j]))%R.
Proof.
  apply (LSTMCell_forward_gates example_lstm_cell example_step example_step
           example_step 1 1).
  - exact example_lstm_cell_well_formed.
  - reflexivity.
  - reflexivity.
  - reflexivity.
  - reflexivity.
  - reflexivity.
  - reflexivity.
Defined.

Lemma SoftmaxLoss_forward_mean_witness :
  ∃ loss,
    SoftmaxLoss.forward example_logits example_labels = Some loss ∧
    shape loss = [] ∧ wf loss ∧
    get loss []
    = (ssum ((λ b, ln (ssum ((λ k, exp (get example_logits [b; k])) <$> seq 0 3))
                   - get example_logits [b; label example_labels [b]]) <$> seq 0 2)
       / INR 2)%R ∧
    (2 ≠ 0 →
     (∀ b, b < 2 → ∃ v, ∀ k, k < 3 → get example_logits [b; k] = v) →
     get loss [] = ln (INR 3)).
Proof.
  apply (SoftmaxLoss_forward_mean example_logits example_labels 2 3).
  - reflexivity.
  - reflexivity.
  - reflexivity.
  - reflexivity.
  - repeat constructor.
  - lia.
Defined.

Lemma example_conv_well_formed : Conv.well_formed example_conv.
Proof. repeat split. Qed.

Lemma example_conv_same_well_formed : Conv.well_formed example_conv_same.
Proof. repeat split. Qed.

Lemma Conv_forward_same_padding_witness :
  Conv.forward example_conv_same example_wide_input = None ∧
  ∃ Y,
    Conv.forward example_conv_same example_square_input = Some Y ∧
    shape Y = [1; Conv.out_channels example_conv_same;
               ceil_div 5 (Conv.stride example_conv_same);
               ceil_div 5 (Conv.stride example_conv_same)] ∧
    wf Y ∧
    (Conv.stride example_conv_same = 1 →
     shape Y = [1; Conv.out_channels example_conv_same; 5; 5]) ∧
    let p := Conv.kernel_size example_conv_same / 2 in
    let s := Conv.stride example_conv_same in
    ∀ b co i j,
      b < 1 → co < Conv.out_channels example_conv_same →
      i < ceil_div 5 s → j < ceil_div 5 s →
      get Y [b; co; i; j]
      = let acc :=
          ssum ((λ ki,
            ssum ((λ kj,
              ssum ((λ ci,
                smul (if decide (p ≤ i * s + ki < 5 + p ∧ p ≤ j * s + kj < 5 + p)
                      then get example_square_input
                             [b; ci; i * s + ki - p; j * s + kj - p]
                      else szero)
                     (get (Conv.weight example_conv_same) [ki; kj; ci; co]))
                <$> seq 0 (Conv.in_channels example_conv_same)))
              <$> seq 0 (Conv.kernel_size example_conv_same)))
            <$> seq 0 (Conv.kernel_size example_conv_same)) in
        match Conv.bias example_conv_same with
        | Some bias => sadd acc (get bias [co])
        | None => acc
        end.
Proof.
  split.
  - apply (Conv_forward_same_padding example_conv_same example_wide_input 1 5 4).
    + exact example_conv_same_well_formed.
    + reflexivity.
    + exists 1. reflexivity.
    + simpl. lia.
    + lia.
    + lia.
  - apply (Conv_forward_same_padding example_conv_same example_square_input 1 5 5).
    + exact example_conv_same_well_formed.
    + reflexivity.
    + exists 1. reflexivity.
    + simpl. lia.
    + lia.
    + reflexivity.
Defined.

(** With an even kernel size the padding [kernel_size // 2] is one too much
    on one side: a 2 by 2 kernel at stride 1 turns 4 by 4 into 5 by 5. *)
Example Conv_even_kernel_grows :
  shape <$> Conv.forward
              (Conv.mk true 1 1 2 1 (as_Parameter (init.zeros [2; 2; 1; 1])) None)
              (init.zeros [1; 1; 4; 4] : Tensor R)
  = Some [1; 1; 5; 5].
Proof. reflexivity. Qed.

(** The two transpositions of [BatchNorm2d.forward] on the example image:
    the channels of each pixel become adjacent. *)
Example transposes_example :
  data <$> (x1 ← ops.transpose example_image (1, 2); ops.transpose x1 (2, 3))
  = Some [1%R; 3%R; 2%R; 4%R].
Proof. reflexivity. Qed.

(** The running mean of the fresh layer after one training pass on the
    example batch, whose channel means are 2 and 3. *)
Example running_mean_example :
  data (BatchNorm1d.running_mean (BatchNorm1d.forward example_batch example_bn).2)
  = [(1 / 5)%R; (3 / 10)%R].
Proof.
  lazy -[Rplus Rmult Rminus Rdiv Rinv Ropp IZR INR].
  change (INR 2) with (1 + 1)%R. repeat f_equal; lra.
Qed.

(** * Part VIII: further properties of discovery and mode propagation *)

Section discovery_returns.
Context (h : heap).

(** A traversal that returned has exhausted the graph below its
    argument. *)
Lemma _child_modules_tree n v ms :
  _child_modules n h v = Some ms → tree_upto n h v = true.
Proof.
  revert v ms. induction n as [|n IH]; intros v ms; [done|].
  destruct v as [p|a|items|vs|vs|]; simpl; try done.
  - destruct (h !! a) as [o|]; simpl; [|done].
    destruct (_child_modules n h (VDict (dict_of o))) as [ms'|] eqn:Hms; [|done].
    intros _. by eapply IH.
  - destruct (mapM _ items) as [k|] eqn:Hk; simpl; [|done]. intros _.
    rewrite forallb_Forall_true, Forall_fmap.
    assert (is_Some (mapM (λ kv, _child_modules n h kv.2) items)) as Hs by by eexists.
    apply mapM_is_Some in Hs. eapply Forall_impl; [done|].
    intros kv [r Hr]. by eapply IH.
  - destruct (mapM _ vs) as [k|] eqn:Hk; simpl; [|done]. intros _.
    rewrite forallb_Forall_true.
    assert (is_Some (mapM (_child_modules n h) vs)) as Hs by by eexists.
    apply mapM_is_Some in Hs. eapply Forall_impl; [done|].
    intros w [r Hr]. by eapply IH.
  - destruct (mapM _ vs) as [k|] eqn:Hk; simpl; [|done]. intros _.
    rewrite forallb_Forall_true.
    assert (is_Some (mapM (_child_modules n h) vs)) as Hs by by eexists.
    apply mapM_is_Some in Hs. eapply Forall_impl; [done|].
    intros w [r Hr]. by eapply IH.
Qed.

Lemma _unpack_params_tree n v ps :
  _unpack_params n h v = Some ps → tree_upto n h v = true.
Proof.
  revert v ps. induction n as [|n IH]; intros v ps; [done|].
  destruct v as [p|a|items|vs|vs|]; simpl; try done.
  - destruct (h !! a) as [o|]; simpl; [|done]. apply IH.
  - destruct (mapM _ items) as [k|] eqn:Hk; simpl; [|done]. intros _.
    rewrite forallb_Forall_true, Forall_fmap.
    assert (is_Some (mapM (λ kv, _unpack_params n h kv.2) items)) as Hs by by eexists.
    apply mapM_is_Some in Hs. eapply Forall_impl; [done|].
    intros kv [r Hr]. by eapply IH.
  - destruct (mapM _ vs) as [k|] eqn:Hk; simpl; [|done]. intros _.
    rewrite forallb_Forall_true.
    assert (is_Some (mapM (_unpack_params n h) vs)) as Hs by by eexists.
    apply mapM_is_Some in Hs. eapply Forall_impl; [done|].
    intros w [r Hr]. by eapply IH.
  - destruct (mapM _ vs) as [k|] eqn:Hk; simpl; [|done]. intros _.
    rewrite forallb_Forall_true.
    assert (is_Some (mapM (_unpack_params n h) vs)) as Hs by by eexists.
    apply mapM_is_Some in Hs. eapply Forall_impl; [done|].
    intros w [r Hr]. by eapply IH.
Qed.

Lemma Module__children_tree fuel self ms :
  Module__children fuel h self = Some ms → tree_below h (VModule self).
Proof.
  unfold Module__children. destruct (h !! self) as [o|] eqn:Ho; [simpl|done].
  intros Hms. apply _child_modules_tree in Hms. apply (tree_upto_below h (S fuel)). simpl.
  by rewrite Ho.
Qed.

Lemma Module_parameters_tree fuel self ps :
  Module_parameters fuel h self = Some ps → tree_below h (VModule self).
Proof.
  unfold Module_parameters. destruct (h !! self) as [o|] eqn:Ho; [simpl|done].
  intros Hps. apply _unpack_params_tree in Hps. apply (tree_upto_below h (S fuel)). simpl.
  by rewrite Ho.
Qed.

Lemma Module_parameters_total self :
  tree_below h (VModule self) →
  ∃ n0 ps, ∀ fuel, n0 ≤ fuel → Module_parameters fuel h self = Some ps.
Proof.
  intros [[|n] Hn]%tree_below_upto; [done|]. simpl in Hn.
  destruct (h !! self) as [o|] eqn:Ho; [|done].
  destruct (_unpack_params_total _ _ _ Hn) as [ps Hps].
  exists n, ps. intros fuel Hfuel. unfold Module_parameters. rewrite Ho. simpl.
  by eapply _unpack_params_mono.
Qed.

Lemma _unpack_params_agree n m v r s :
  _unpack_params n h v = Some r → _unpack_params m h v = Some s → r = s.
Proof.
  intros Hr Hs.
  apply (_unpack_params_mono h n (n `max` m)) in Hr; [|lia].
  apply (_unpack_params_mono h m (n `max` m)) in Hs; [|lia]. congruence.
Qed.
End discovery_returns.

Section segments.
Context (h : heap).

Lemma segment_of_refl ps : segment_of ps ps.
Proof. exists [], []. by rewrite app_nil_r. Qed.

Lemma segment_of_trans qs rs ps :
  segment_of qs rs → segment_of rs ps → segment_of qs ps.
Proof.
  intros (l1 & l2 & ->) (l3 & l4 & ->). exists (l3 ++ l1), (l2 ++ l4).
  by rewrite <-!app_assoc.
Qed.

Lemma segment_of_join (r : list nat) (k : list (list nat)) :
  r ∈ k → segment_of r (mjoin k).
Proof.
  induction 1 as [r k|r r' k _ (l1 & l2 & IH)]; simpl.
  - exists [], (mjoin k). done.
  - exists (r' ++ l1), l2. rewrite IH. by rewrite <-app_assoc.
Qed.

Lemma segment_of_mapM {A} (f : A → option (list nat)) (l : list A)
    (k : list (list nat)) (x : A) (r : list nat) :
  mapM f l = Some k → x ∈ l → f x = Some r → segment_of r (mjoin k).
Proof.
  intros Hk Hx Hr. apply segment_of_join.
  apply mapM_Some in Hk. apply list_elem_of_lookup in Hx as [i Hi].
  destruct (Forall2_lookup_l _ _ _ _ _ Hk Hi) as (r' & Hr' & Hfx).
  rewrite Hr in Hfx. injection Hfx as <-. by eapply list_elem_of_lookup_2.
Qed.

Lemma mapM_elem_Some {A B} (f : A → option B) (l : list A) (k : list B) (x : A) :
  mapM f l = Some k → x ∈ l → ∃ r, f x = Some r.
Proof.
  intros Hk Hx. apply mapM_Some in Hk. apply list_elem_of_lookup in Hx as [i Hi].
  destruct (Forall2_lookup_l _ _ _ _ _ Hk Hi) as (r & _ & Hfx). by eexists.
Qed.

(** The parameters of a Module that the traversal passes through are
    listed together, in their own order. *)
Lemma _unpack_params_segment (b m : nat) (qs : list nat) :
  _unpack_params m h (VModule b) = Some qs →
  ∀ n v ps, _unpack_params n h v = Some ps → reach h v b → segment_of qs ps.
Proof.
  intros Hqs. induction n as [|n IH]; intros v ps Hps Hr; [done|].
  destruct v as [p|a|items|vs|vs|]; simpl in Hps.
  - inversion Hr.
  - destruct (h !! a) as [o|] eqn:Ho; simpl in Hps; [|done].
    inversion Hr as [|? o' v' ? Ho' Hv' Hr'| | |]; subst.
    + assert (_unpack_params (S n) h (VModule b) = Some ps) as Hps'.
      { simpl. by rewrite Ho. }
      rewrite (_unpack_params_agree h _ _ _ _ _ Hps' Hqs). apply segment_of_refl.
    + rewrite Ho in Ho'. injection Ho' as <-.
      apply (IH _ _ Hps). by eapply reach_dict.
  - destruct (mapM _ items) as [k|] eqn:Hk; simpl in Hps; [|done].
    injection Hps as <-. inversion Hr as [| |? v' ? Hv' Hr'| |]; subst.
    apply list_elem_of_fmap in Hv' as (kv & -> & Hkv).
    destruct (mapM_elem_Some _ _ _ _ Hk Hkv) as [r Hr''].
    eapply segment_of_trans; [by eapply IH|].
    by eapply (segment_of_mapM _ _ _ kv).
  - destruct (mapM _ vs) as [k|] eqn:Hk; simpl in Hps; [|done].
    injection Hps as <-. inversion Hr as [| | |? v' ? Hv' Hr'|]; subst.
    destruct (mapM_elem_Some _ _ _ _ Hk Hv') as [r Hr''].
    eapply segment_of_trans; [by eapply IH|].
    by eapply (segment_of_mapM _ _ _ v').
  - destruct (mapM _ vs) as [k|] eqn:Hk; simpl in Hps; [|done].
    injection Hps as <-. inversion Hr as [| | | |? v' ? Hv' Hr']; subst.
    destruct (mapM_elem_Some _ _ _ _ Hk Hv') as [r Hr''].
    eapply segment_of_trans; [by eapply IH|].
    by eapply (segment_of_mapM _ _ _ v').
  - inversion Hr.
Qed.

(** The Modules below a Module that the traversal passes through are
    listed together, right after that Module. *)
Lemma _child_modules_segment (b m : nat) (ms' : list nat) :
  _child_modules m h (VModule b) = Some ms' →
  ∀ n v ms, _child_modules n h v = Some ms → reach h v b → segment_of ms' ms.
Proof.
  intros Hms'. induction n as [|n IH]; intros v ms Hms Hr; [done|].
  destruct v as [p|a|items|vs|vs|]; simpl in Hms.
  - inversion Hr.
  - destruct (h !! a) as [o|] eqn:Ho; simpl in Hms; [|done].
    destruct (_child_modules n h (VDict (dict_of o))) as [ms0|] eqn:Hms0;
      simpl in Hms; [|done].
    injection Hms as <-.
    inversion Hr as [|? o' v' ? Ho' Hv' Hr'| | |]; subst.
    + assert (_child_modules (S n) h (VModule b) = Some (b :: ms0)) as Hb.
      { simpl. rewrite Ho. simpl. by rewrite Hms0. }
      rewrite (_child_modules_agree h _ _ _ _ _ Hb Hms'). apply segment_of_refl.
    + rewrite Ho in Ho'. injection Ho' as <-.
      eapply segment_of_trans.
      * apply (IH _ _ Hms0). by eapply reach_dict.
      * exists [a], []. by rewrite app_nil_r.
  - destruct (mapM _ items) as [k|] eqn:Hk; simpl in Hms; [|done].
    injection Hms as <-. inversion Hr as [| |? v' ? Hv' Hr'| |]; subst.
    apply list_elem_of_fmap in Hv' as (kv & -> & Hkv).
    destruct (mapM_elem_Some _ _ _ _ Hk Hkv) as [r Hr''].
    eapply segment_of_trans; [by eapply IH|].
    by eapply (segment_of_mapM _ _ _ kv).
  - destruct (mapM _ vs) as [k|] eqn:Hk; simpl in Hms; [|done].
    injection Hms as <-. inversion Hr as [| | |? v' ? Hv' Hr'|]; subst.
    destruct (mapM_elem_Some _ _ _ _ Hk Hv') as [r Hr''].
    eapply segment_of_trans; [by eapply IH|].
    by eapply (segment_of_mapM _ _ _ v').
  - destruct (mapM _ vs) as [k|] eqn:Hk; simpl in Hms; [|done].
    injection Hms as <-. inversion Hr as [| | | |? v' ? Hv' Hr']; subst.
    destruct (mapM_elem_Some _ _ _ _ Hk Hv') as [r Hr''].
    eapply segment_of_trans; [by eapply IH|].
    by eapply (segment_of_mapM _ _ _ v').
  - inversion Hr.
Qed.
End segments.

Section modes_and_discovery.
Implicit Types (h : heap).

Lemma _unpack_params_attrs h h' n v :
  (∀ a, attrs <$> h' !! a = attrs <$> h !! a) →
  _unpack_params n h' v = _unpack_params n h v.
Proof.
  intros Hh. revert v. induction n as [|n IH]; intros v; [done|].
  destruct v as [p|a|items|vs|vs|]; simpl; try done.
  - specialize (Hh a).
    destruct (h' !! a) as [o'|], (h !! a) as [o|]; simplify_eq/=; [|done].
    unfold dict_of. rewrite Hh. by rewrite IH.
  - f_equal. apply mapM_ext. intros kv. apply IH.
  - f_equal. apply mapM_ext. intros kv. apply IH.
  - f_equal. apply mapM_ext. intros kv. apply IH.
Qed.

Lemma Module_parameters_attrs h h' n self :
  (∀ a, attrs <$> h' !! a = attrs <$> h !! a) →
  Module_parameters n h' self = Module_parameters n h self.
Proof.
  intros Hh. unfold Module_parameters. pose proof (Hh self) as Hself.
  destruct (h' !! self) as [o'|], (h !! self) as [o|]; simplify_eq/=; [|done].
  unfold dict_of. rewrite Hself. by apply _unpack_params_attrs.
Qed.

Lemma Module_eval_Some fuel h self h' :
  Module_eval fuel h self = Some h' →
  ∃ ms, Module__children fuel h self = Some ms ∧
        h' = foldl (set_training false) h (self :: ms).
Proof.
  intros Heval.
  destruct (Module__children fuel h self) as [ms|] eqn:Hms.
  - exists ms. split; [done|].
    rewrite (Module_eval_unfold _ _ _ _ Hms) in Heval. congruence.
  - unfold Module_eval in Heval. rewrite (Module__children_attrs h) in Heval.
    + by rewrite Hms in Heval.
    + intros a. apply (attrs_foldl_set_training false [self]).
Qed.

Lemma Module_train_Some fuel h self h' :
  Module_train fuel h self = Some h' →
  ∃ ms, Module__children fuel h self = Some ms ∧
        h' = foldl (set_training true) h (self :: ms).
Proof.
  intros Htrain.
  destruct (Module__children fuel h self) as [ms|] eqn:Hms.
  - exists ms. split; [done|].
    rewrite (Module_train_unfold _ _ _ _ Hms) in Htrain. congruence.
  - unfold Module_train in Htrain. rewrite (Module__children_attrs h) in Htrain.
    + by rewrite Hms in Htrain.
    + intros a. apply (attrs_foldl_set_training true [self]).
Qed.
End modes_and_discovery.

(** X1.  `_children()` returns, at some recursion depth, exactly on the
    attribute graphs that are finite and acyclic below the Module; `eval()`
    and `train()` return on exactly the same graphs.  On a graph with a
    cycle none of them returns, whatever the depth allowed. *)
Theorem children_return_iff_acyclic (h : heap) (self : nat) :
  ((∃ fuel ms, Module__children fuel h self = Some ms)
   ↔ bound h (VModule self) ∧ acyclic h (VModule self)) ∧
  ((∃ fuel h', Module_eval fuel h self = Some h')
   ↔ bound h (VModule self) ∧ acyclic h (VModule self)) ∧
  ((∃ fuel h', Module_train fuel h self = Some h')
   ↔ bound h (VModule self) ∧ acyclic h (VModule self)).
Proof.
  assert ((∃ fuel ms, Module__children fuel h self = Some ms)
          ↔ bound h (VModule self) ∧ acyclic h (VModule self)) as Hchildren.
  { rewrite <-tree_below_iff. split.
    - intros (fuel & ms & Hms). by eapply Module__children_tree.
    - intros (n0 & ms & Hms)%Module__children_total. exists n0, ms. by apply Hms. }
  split; [done|]. rewrite <-Hchildren. split; split.
  - intros (fuel & h' & (ms & Hms & _)%Module_eval_Some). by eauto.
  - intros (fuel & ms & Hms). eexists fuel, _. by apply Module_eval_unfold.
  - intros (fuel & h' & (ms & Hms & _)%Module_train_Some). by eauto.
  - intros (fuel & ms & Hms). eexists fuel, _. by apply Module_train_unfold.
Qed.

(** X2.  `parameters()` returns, at some recursion depth, exactly on the
    attribute graphs that are finite and acyclic below the Module. *)
Theorem parameters_return_iff_acyclic (h : heap) (self : nat) :
  (∃ fuel ps, Module_parameters fuel h self = Some ps)
  ↔ bound h (VModule self) ∧ acyclic h (VModule self).
Proof.
  rewrite <-tree_below_iff. split.
  - intros (fuel & ps & Hps). by eapply Module_parameters_tree.
  - intros (n0 & ps & Hps)%Module_parameters_total. exists n0, ps. by apply Hps.
Qed.

(** On the Module that holds itself, no recursion depth is enough. *)
Example cyclic_children_never_return fuel :
  Module__children fuel cyclic_heap 0 = None ∧ Module_parameters fuel cyclic_heap 0 = None.
Proof.
  assert (descendant cyclic_heap 0 0) as Hcycle.
  { eexists. split; [reflexivity|].
    eapply reach_dict; [by right; left|].
    eapply reach_list; [by left|]. constructor. }
  split.
  - destruct (Module__children fuel cyclic_heap 0) as [ms|] eqn:Hms; [|done].
    apply Module__children_tree, tree_below_iff in Hms as [_ Hacyclic].
    destruct (Hacyclic 0 (reach_self _ _) Hcycle).
  - destruct (Module_parameters fuel cyclic_heap 0) as [ps|] eqn:Hps; [|done].
    apply Module_parameters_tree, tree_below_iff in Hps as [_ Hacyclic].
    destruct (Hacyclic 0 (reach_self _ _) Hcycle).
Qed.

(** X3.  `eval()` and `train()` change no result of discovery: in the store
    they leave behind, `parameters()` and `_children()` of every Module
    return what they returned before, at every recursion depth. *)
Theorem mode_change_keeps_discovery (h h' : heap) (self fuel : nat) :
  Module_eval fuel h self = Some h' ∨ Module_train fuel h self = Some h' →
  ∀ n a,
    Module_parameters n h' a = Module_parameters n h a ∧
    Module__children n h' a = Module__children n h a.
Proof.
  intros Hmode n a.
  assert (∀ b, attrs <$> h' !! b = attrs <$> h !! b) as Hattrs.
  { destruct Hmode as [(ms & _ & ->)%Module_eval_Some|(ms & _ & ->)%Module_train_Some];
      intros b; apply attrs_foldl_set_training. }
  split; [by apply Module_parameters_attrs|by apply Module__children_attrs].
Qed.

Lemma mode_change_keeps_discovery_witness :
  Module_parameters 8 (foldl (set_training false) residual_heap [0; 1; 2; 3]) 0
  = Module_parameters 8 residual_heap 0 ∧
  Module__children 8 (foldl (set_training false) residual_heap [0; 1; 2; 3]) 0
  = Module__children 8 residual_heap 0.
Proof.
  apply (mode_change_keeps_discovery residual_heap _ 0 8). left. reflexivity.
Defined.

(** X4.  The parameters of a nested Module are listed together inside the
    parameters of the Module that holds it: `b.parameters()` is a run of
    consecutive entries of `m.parameters()`, in the same order, for every
    Module b below m. *)
Theorem nested_parameters_are_a_segment (h : heap) (self b n m : nat)
    (ps qs : list nat) :
  descendant h self b →
  Module_parameters n h self = Some ps →
  Module_parameters m h b = Some qs →
  ∃ before after, ps = before ++ qs ++ after.
Proof.
  intros (o & Ho & Hr) Hps Hqs. unfold Module_parameters in Hps. rewrite Ho in Hps.
  simpl in Hps.
  apply (_unpack_params_segment h b (S m) qs) with n (VDict (dict_of o)); [|done..].
  unfold Module_parameters in Hqs. simpl.
  by destruct (h !! b) as [ob|].
Qed.

Lemma nested_parameters_are_a_segment_witness :
  ∃ before after, [0; 1] = before ++ [0; 1] ++ after.
Proof.
  apply (nested_parameters_are_a_segment residual_heap 0 2 8 8).
  - eexists. split; [reflexivity|].
    eapply reach_dict; [by right; left|].
    eapply reach_module; [reflexivity|by right; left|].
    eapply reach_tuple; [by left|]. constructor.
  - reflexivity.
  - reflexivity.
Defined.

(** X5.  `_children()` lists the Modules in pre-order: every Module b below
    m is followed at once by all of `b._children()`, so that b and the
    Modules below it form a run of consecutive entries of
    `m._children()`. *)
Theorem children_are_listed_in_preorder (h : heap) (self b n m : nat)
    (ms ms' : list nat) :
  descendant h self b →
  Module__children n h self = Some ms →
  Module__children m h b = Some ms' →
  ∃ before after, ms = before ++ (b :: ms') ++ after.
Proof.
  intros (o & Ho & Hr) Hms Hms'. unfold Module__children in Hms. rewrite Ho in Hms.
  simpl in Hms.
  apply (_child_modules_segment h b (S m) (b :: ms')) with n (VDict (dict_of o));
    [|done..].
  unfold Module__children in Hms'. simpl.
  destruct (h !! b) as [ob|]; simpl in *; [|done]. by rewrite Hms'.
Qed.

Lemma children_are_listed_in_preorder_witness :
  ∃ before after, [1; 2; 3] = before ++ (1 :: [2; 3]) ++ after.
Proof.
  apply (children_are_listed_in_preorder residual_heap 0 1 8 8).
  - eexists. split; [reflexivity|].
    eapply reach_dict; [by right; left|]. constructor.
  - reflexivity.
  - reflexivity.
Defined.

(** * Part IX: the remaining layers *)

Section simple_layers.
Context {F : Type} `{Scalar F}.
Implicit Types (X Y : Tensor F).

Lemma reshape_Some X sh :
  prod sh = prod (shape X) →
  ops.reshape X sh = Some (mkTensor sh (data X) (requires_grad X)).
Proof. intros Hp. unfold ops.reshape. by rewrite decide_True. Qed.

Lemma reshape_wf X sh Y : wf X → ops.reshape X sh = Some Y → wf Y.
Proof.
  unfold ops.reshape, wf. case_decide; [|done]. intros HX [= <-]. simpl. congruence.
Qed.

(** A row of shape (1, d) repeated over the batch axis. *)
Lemma denotes_broadcast_row (a : Tensor F) d f rg batch :
  denotes a [1; d] f rg →
  ∃ c, ops.broadcast_to a [batch; d] = Some c ∧
       denotes c [batch; d] (λ idx, f [0; nth 1 idx 0]) rg.
Proof.
  intros (Hsh & Hwf & Hrg & Hget). unfold ops.broadcast_to. rewrite Hsh.
  assert (ops.broadcastable [1; d] [batch; d] = true) as ->.
  { unfold ops.broadcastable. cbn [length zip zip_with forallb].
    by rewrite !Nat.eqb_refl, !orb_true_r. }
  eexists. split; [done|]. rewrite Hrg.
  eapply denotes_ext; [apply denotes_tabulate|].
  intros idx (i & j & -> & Hi & Hj)%in_range_2. simpl.
  rewrite Hget; [|apply in_range_2; exists 0, (if d =? 1 then 0 else j)].
  - simpl. destruct (d =? 1) eqn:Hd; [|done]. apply Nat.eqb_eq in Hd.
    by assert (j = 0) as -> by lia.
  - split_and!; [done|lia|destruct (d =? 1); lia].
Qed.

(** A vector as a column repeated over the feature axis:
    [v.reshape((d, 1)).broadcast_to((d, n))]. *)
Lemma denotes_column_broadcast (a : Tensor F) d f rg n :
  denotes a [d] f rg →
  ∃ r c, ops.reshape a [d; 1] = Some r ∧ ops.broadcast_to r [d; n] = Some c ∧
         denotes c [d; n] (λ idx, f [nth 0 idx 0]) rg.
Proof.
  intros Ha.
  destruct (denotes_reshape a [d] f rg [d; 1] (λ idx, f [nth 0 idx 0]) Ha)
    as (r & Hr & Hsh & Hwf & Hrg & Hget).
  { simpl. lia. }
  { intros idx (i & j & -> & Hi & Hj)%in_range_2. exists [i].
    split_and!; [by apply in_range_1; eauto|simpl; lia|done]. }
  exists r. unfold ops.broadcast_to. rewrite Hsh.
  assert (ops.broadcastable [d; 1] [d; n] = true) as ->.
  { unfold ops.broadcastable. cbn [length zip zip_with forallb].
    by rewrite !Nat.eqb_refl, !orb_true_r. }
  eexists. split_and!; [done..|].
  rewrite Hrg. eapply denotes_ext; [apply denotes_tabulate|].
  intros idx (i & j & -> & Hi & Hj)%in_range_2. simpl.
  rewrite Hget; [|apply in_range_2; exists (if d =? 1 then 0 else i), 0].
  - simpl. destruct (d =? 1) eqn:Hd; [|done]. apply Nat.eqb_eq in Hd.
    by assert (i = 0) as -> by lia.
  - split_and!; [done|destruct (d =? 1); lia|lia].
Qed.
End simple_layers.

(** X6.  On a tensor with at least two axes `Flatten.forward` returns: the
    result has shape (N, product of the other sizes) and holds the elements
    of the input in the same row-major order, element (i, idx...) of the
    input at column offset-of-idx of row i; flattening the result again
    changes nothing. *)
Theorem Flatten_forward_keeps_elements {F} `{Scalar F}
    (X : Tensor F) (n : nat) (rest : list nat) :
  shape X = n :: rest → rest ≠ [] → wf X →
  ∃ Y, Flatten.forward X = Some Y ∧
       shape Y = [n; prod rest] ∧ wf Y ∧
       data Y = data X ∧ requires_grad Y = requires_grad X ∧
       (∀ i idx, i < n → in_range rest idx →
          get Y [i; ravel rest idx] = get X (i :: idx)) ∧
       Flatten.forward Y = Some Y.
Proof.
  intros Hsh _ Hwf. unfold Flatten.forward at 1. rewrite Hsh.
  assert (prod [n; prod rest] = prod (shape X)) as Hprod.
  { rewrite Hsh. simpl. lia. }
  rewrite (reshape_Some X _ Hprod). eexists. split; [done|].
  split_and!; [done| |done..| |].
  - unfold wf in *. simpl. rewrite Hwf, Hsh. simpl. lia.
  - intros i idx Hi Hidx. unfold get. cbn [shape data]. rewrite Hsh.
    f_equal. simpl. lia.
  - unfold Flatten.forward. cbn [shape]. rewrite reshape_Some by (simpl; lia).
    cbn [data requires_grad prod]. by rewrite Nat.mul_1_r.
Qed.

Lemma Flatten_forward_keeps_elements_witness :
  ∃ Y, Flatten.forward example_image = Some Y ∧
       shape Y = [1; prod [2; 1; 2]] ∧ wf Y ∧
       data Y = data example_image ∧ requires_grad Y = requires_grad example_image ∧
       (∀ i idx, i < 1 → in_range [2; 1; 2] idx →
          get Y [i; ravel [2; 1; 2] idx] = get example_image (i :: idx)) ∧
       Flatten.forward Y = Some Y.
Proof.
  apply (Flatten_forward_keeps_elements example_image 1 [2; 1; 2]);
    [reflexivity|discriminate|reflexivity].
Defined.

(** X7.  `Sequential.forward` composes: a Sequential over the modules
    ms1 followed by ms2 computes what Sequential(ms2) computes on the result
    of Sequential(ms1), in the state that the first part left behind; an
    empty Sequential returns its input; once a module raises, no later
    module is called and the state stays as the raising module left it. *)
Theorem Sequential_forward_composes {St F : Type}
    (ms1 ms2 : list (Callable St F)) (X : Tensor F) (s : St) :
  Sequential.forward (ms1 ++ ms2) X s
  = (Y ← Sequential.forward ms1 X; Sequential.forward ms2 Y) s ∧
  Sequential.forward [] X s = (Some X, s) ∧
  (∀ m s', m X s = (None, s') → Sequential.forward (m :: ms2) X s = (None, s')).
Proof.
  split_and!.
  - revert X s. induction ms1 as [|m ms1 IH]; intros X s; [done|].
    cbn [app Sequential.forward]. rewrite run_bind_assoc.
    apply run_bind_ext. intros Y s'. apply IH.
  - done.
  - intros m s' Hm. cbn [Sequential.forward]. unfold mbind, Run_bind. by rewrite Hm.
Qed.

Section linear.
Context {F G : Type} `{Scalar F} `{Initializers F G}.
Implicit Types (l : Linear.t F) (X : Tensor F).

Lemma Linear_forward_denotes l X batch :
  Linear.well_formed l →
  shape X = [batch; Linear.in_features l] → wf X →
  ∃ Y rg,
    Linear.forward l X = Some Y ∧
    denotes Y [batch; Linear.out_features l]
      (λ idx,
         let xw := ssum ((λ k, get X [nth 0 idx 0; k]
                               * get (Linear.weight l) [k; nth 1 idx 0])%scalar
                           <$> seq 0 (Linear.in_features l)) in
         match Linear.bias l with
         | Some b => (xw + get b [0; nth 1 idx 0])%scalar
         | None => xw
         end) rg.
Proof.
  intros ((Hw & Hwwf) & Hb) HshX HX.
  pose proof (denotes_get _ HX) as DX. rewrite HshX in DX.
  pose proof (denotes_get _ Hwwf) as DW. rewrite Hw in DW.
  destruct (denotes_matmul _ _ _ _ _ _ _ _ _ DX DW) as (mul & Hmul & Dmul).
  unfold Linear.forward. opt_with Hmul.
  destruct (Linear.bias l) as [b|]; [|by eauto].
  destruct (Hb b eq_refl) as [Hshb Hwfb].
  pose proof (denotes_get _ Hwfb) as Db. rewrite Hshb in Db.
  destruct (denotes_broadcast_row _ _ _ _ batch Db) as (b' & Hb' & Db').
  rewrite (proj1 Dmul). opt_with Hb'.
  destruct (denotes_ewise2 sadd _ _ _ _ _ _ _ Dmul Db') as (Y & HY & DY).
  by eauto.
Qed.
End linear.

(** X8.  On an input of shape (batch, k), `Linear.forward` returns exactly
    when k is the layer's in_features.  The result then has shape
    (batch, out_features); its entry (i, j) is the sum over l of
    X[i, l] * weight[l, j], plus bias[0, j] when the layer has a bias. *)
Theorem Linear_forward_affine {F} `{Scalar F}
    (l : Linear.t F) (X : Tensor F) (batch k : nat) :
  Linear.well_formed l →
  shape X = [batch; k] → wf X →
  (k ≠ Linear.in_features l → Linear.forward l X = None) ∧
  (k = Linear.in_features l →
   ∃ Y, Linear.forward l X = Some Y ∧
        shape Y = [batch; Linear.out_features l] ∧ wf Y ∧
        ∀ i j, i < batch → j < Linear.out_features l →
          get Y [i; j]
          = let xw := ssum ((λ k, get X [i; k] * get (Linear.weight l) [k; j])%scalar
                              <$> seq 0 (Linear.in_features l)) in
            match Linear.bias l with
            | Some b => (xw + get b [0; j])%scalar
            | None => xw
            end).
Proof.
  intros Hl HshX HX. split.
  - intros Hk. unfold Linear.forward, ops.matmul.
    destruct Hl as ((Hw & _) & _). rewrite HshX, Hw. by rewrite decide_False.
  - intros ->.
    destruct (Linear_forward_denotes l X batch Hl HshX HX)
      as (Y & rg & HY & HshY & HwfY & _ & HgetY).
    exists Y. split_and!; [done..|]. intros i j Hi Hj.
    rewrite HgetY; [done|]. apply in_range_2. eauto.
Qed.

Section layer_norm.
Context {F : Type} `{Scalar F}.
Implicit Types (l : LayerNorm1d.t F) (X : Tensor F).
Import LayerNorm1d.

Lemma LayerNorm1d_forward_denotes l X rows :
  well_formed l → shape X = [rows; dim l] → wf X →
  ∃ Y rg,
    forward l X = Some Y ∧
    denotes Y [rows; dim l]
      (λ idx, let i := nth 0 idx 0 in
              let j := nth 1 idx 0 in
              get (weight l) [j]
              * ((get X idx - row_mean X (dim l) i)
                 / (row_var X (dim l) i + eps l) ** (1 # 2))
              + get (bias l) [j])%scalar rg.
Proof.
  intros ((Hw & Hwwf) & (Hb & Hbwf)) HshX HX.
  pose proof (denotes_get X HX) as DX. rewrite HshX in DX.
  unfold forward. rewrite HshX.
  do 2 (erewrite option_bind_Some by reflexivity).
  rewrite option_guard_True by done. cbn [mbind option_bind].
  (* mean = X.sum((1,)) / X.shape[1] *)
  destruct (denotes_sum_axis_1 _ _ _ _ _ DX) as (total & Htotal & Dtotal).
  opt_with Htotal.
  assert (denotes (ops.divide_scalar total (sof_nat (dim l))) [rows]
            (λ idx, row_mean X (dim l) (nth 0 idx 0)) (requires_grad X)) as Dmean.
  { eapply denotes_ext;
      [apply (denotes_ewise1 (λ x, x / sof_nat (dim l))%scalar), Dtotal|].
    by intros idx (i & -> & Hi)%in_range_1. }
  destruct (denotes_column_broadcast _ _ _ _ (dim l) Dmean)
    as (m1 & m2 & Hm1 & Hm2 & Dm2).
  opt_with Hm1. opt_with Hm2.
  (* var = ((X - mean) ** 2).sum((1,)) / X.shape[1] *)
  destruct (denotes_ewise2 ssub _ _ _ _ _ _ _ DX Dm2) as (centred & Hc & Dc).
  opt_with Hc.
  pose proof (denotes_ewise1 (λ x, x ** 2)%scalar _ _ _ _ Dc) as Dsq.
  destruct (denotes_sum_axis_1 _ _ _ _ _ Dsq) as (total2 & Htotal2 & Dtotal2).
  opt_with Htotal2.
  assert (denotes (ops.divide_scalar total2 (sof_nat (dim l))) [rows]
            (λ idx, row_var X (dim l) (nth 0 idx 0))
            (requires_grad X || requires_grad X)) as Dvar.
  { eapply denotes_ext;
      [apply (denotes_ewise1 (λ x, x / sof_nat (dim l))%scalar), Dtotal2|].
    by intros idx (i & -> & Hi)%in_range_1. }
  destruct (denotes_column_broadcast _ _ _ _ (dim l) Dvar)
    as (v1 & v2 & Hv1 & Hv2 & Dv2).
  opt_with Hv1. opt_with Hv2.
  (* normalized_X = (X - mean) / (var + self.eps) ** 0.5 *)
  opt_with Hc.
  pose proof (denotes_ewise1 (λ x, x ** (1 # 2))%scalar _ _ _ _
                (denotes_ewise1 (λ x, x + eps l)%scalar _ _ _ _ Dv2)) as Dden.
  destruct (denotes_ewise2 sdiv _ _ _ _ _ _ _ Dc Dden) as (normalized & Hn & Dn).
  opt_with Hn.
  pose proof (denotes_get _ Hwwf) as Dw. rewrite Hw in Dw.
  destruct (denotes_row_broadcast _ _ _ _ rows Dw) as (w1 & w2 & Hw1 & Hw2 & Dw2).
  opt_with Hw1. opt_with Hw2.
  pose proof (denotes_get _ Hbwf) as Db. rewrite Hb in Db.
  destruct (denotes_row_broadcast _ _ _ _ rows Db) as (b1 & b2 & Hb1 & Hb2 & Db2).
  opt_with Hb1. opt_with Hb2.
  destruct (denotes_ewise2 smul _ _ _ _ _ _ _ Dw2 Dn) as (scaled & Hs & Ds).
  opt_with Hs.
  destruct (denotes_ewise2 sadd _ _ _ _ _ _ _ Ds Db2) as (Y & HY & DY).
  exists Y. eexists. split; [exact HY|]. exact DY.
Qed.
End layer_norm.

(** X9.  On an input of shape (rows, dim), `LayerNorm1d.forward` returns a
    tensor of the same shape: each row is normalised with its own mean and
    its own biased variance over the feature axis, then scaled and shifted
    feature by feature; no other row enters the result of a row. *)
Theorem LayerNorm1d_forward_rows {F} `{Scalar F}
    (l : LayerNorm1d.t F) (X : Tensor F) (rows : nat) :
  LayerNorm1d.well_formed l →
  shape X = [rows; LayerNorm1d.dim l] → wf X →
  ∃ Y, LayerNorm1d.forward l X = Some Y ∧
       shape Y = [rows; LayerNorm1d.dim l] ∧ wf Y ∧
       ∀ i j, i < rows → j < LayerNorm1d.dim l →
         get Y [i; j]
         = (get (LayerNorm1d.weight l) [j]
            * ((get X [i; j] - LayerNorm1d.row_mean X (LayerNorm1d.dim l) i)
               / (LayerNorm1d.row_var X (LayerNorm1d.dim l) i + LayerNorm1d.eps l)
                 ** (1 # 2))
            + get (LayerNorm1d.bias l) [j])%scalar.
Proof.
  intros Hl HshX HX.
  destruct (LayerNorm1d_forward_denotes l X rows Hl HshX HX)
    as (Y & rg & HY & HshY & HwfY & _ & HgetY).
  exists Y. split_and!; [done..|]. intros i j Hi Hj.
  rewrite HgetY; [done|]. apply in_range_2. eauto.
Qed.

Section real_rows.
Local Open Scope R_scope.

Lemma Rpow_literal_half (x : R) : Rpow_literal x (1 # 2) = sqrt x.
Proof. reflexivity. Qed.

Lemma Rpow_literal_2 (x : R) : Rpow_literal x 2 = x * x.
Proof. transitivity (x * (x * 1)); [reflexivity|ring]. Qed.

Lemma ssum_nonneg (l : list R) : Forall (λ x, 0 <= x) l → 0 <= ssum l.
Proof.
  induction 1 as [|x l Hx _ IH]; [simpl; lra|]. rewrite ssum_cons. lra.
Qed.

(** The biased variance of a row is not negative. *)
Lemma row_var_nonneg (X : Tensor R) (dim i : nat) :
  dim ≠ 0%nat → 0 <= LayerNorm1d.row_var X dim i.
Proof.
  intros Hdim. unfold LayerNorm1d.row_var. cbn [sdiv sof_nat R_scalar].
  apply Rmult_le_pos.
  - apply ssum_nonneg, Forall_fmap, Forall_forall. intros j _.
    unfold compose. cbn [spow ssub R_scalar]. rewrite Rpow_literal_2.
    apply Rle_0_sqr.
  - left. apply Rinv_0_lt_compat, lt_0_INR. lia.
Qed.

Lemma ssum_centred (f : nat → R) (m c : R) (l : list nat) :
  ssum ((λ k, (f k - m) * c) <$> l) = (ssum (f <$> l) - INR (length l) * m) * c.
Proof.
  induction l as [|k l IH]; [simpl; lra|].
  rewrite !fmap_cons, !ssum_cons, IH. cbn [length]. rewrite S_INR. ring.
Qed.
End real_rows.

(** X10.  Over the real numbers, a freshly constructed `LayerNorm1d(dim)`
    with dim > 0 and eps > 0 returns rows that are centred: whatever the
    input, the quantity var + eps under the square root of every row is
    positive, and the entries of every row of the result sum to 0. *)
Theorem LayerNorm1d_fresh_rows_are_centred (dim rows : nat) (eps : R) (X : Tensor R) :
  dim ≠ 0 → (0 < eps)%R → shape X = [rows; dim] → wf X →
  ∃ Y, LayerNorm1d.forward (LayerNorm1d.__init__ dim eps) X = Some Y ∧
       ∀ i, i < rows →
         (0 < LayerNorm1d.row_var X dim i + eps)%R ∧
         (0 < sqrt (LayerNorm1d.row_var X dim i + eps))%R ∧
         ssum ((λ j, get Y [i; j]) <$> seq 0 dim) = 0%R.
Proof.
  intros Hdim Heps HshX HX.
  assert (LayerNorm1d.well_formed (LayerNorm1d.__init__ dim eps)) as Hl.
  { split; (split; [done|apply wf_tabulate]). }
  destruct (LayerNorm1d_forward_denotes _ X rows Hl HshX HX)
    as (Y & rg & HY & HshY & HwfY & _ & HgetY).
  exists Y. split; [done|]. intros i Hi. cbn [LayerNorm1d.dim LayerNorm1d.__init__] in *.
  pose proof (row_var_nonneg X dim i Hdim) as Hvar.
  split; [lra|]. split; [apply sqrt_lt_R0; lra|].
  set (m := LayerNorm1d.row_mean X dim i).
  set (c := (/ sqrt (LayerNorm1d.row_var X dim i + eps))%R).
  rewrite (list_fmap_ext _ (λ j, (get X [i; j] - m) * c)%R (seq 0 dim)).
  - rewrite ssum_centred, length_seq. subst m. unfold LayerNorm1d.row_mean.
    cbn [sdiv sof_nat R_scalar]. field. by apply not_0_INR.
  - intros j ? [-> Hj]%lookup_seq. cbn [Nat.add].
    rewrite HgetY by (apply in_range_2; eauto). cbn [nth].
    cbn [LayerNorm1d.weight LayerNorm1d.bias LayerNorm1d.eps LayerNorm1d.__init__].
    unfold as_Parameter, init.ones, init.zeros.
    change (get {| shape := shape (tabulate [dim] (λ _, sone) false);
                   data := data (tabulate [dim] (λ _, sone) false);
                   requires_grad := true |} [j])
      with (get (tabulate [dim] (λ _, sone) false) [j]).
    change (get {| shape := shape (tabulate [dim] (λ _, szero) false);
                   data := data (tabulate [dim] (λ _, szero) false);
                   requires_grad := true |} [j])
      with (get (tabulate [dim] (λ _, szero) false) [j]).
    rewrite !get_tabulate by (apply in_range_1; eauto).
    cbn [sadd ssub smul sdiv spow sone szero R_scalar].
    rewrite Rpow_literal_half. subst m c. unfold Rdiv. lra.
Qed.

Section dropout.
Context {G : Type} `{Initializers R G}.
Local Open Scope R_scope.

Lemma Dropout_forward_training (self : Dropout.t R) (X mask : Tensor R) (g g' : G) :
  wf X → Dropout.training self = true →
  randb (shape X) (sone - Dropout.p self)%scalar g = (Some mask, g') →
  shape mask = shape X → wf mask →
  ∃ Y, Dropout.forward self X g = (Some Y, g') ∧
       denotes Y (shape X)
         (λ idx, get X idx * get mask idx / (1 - Dropout.p self))
         (requires_grad X || requires_grad mask).
Proof.
  intros HX Htr Hmask Hsh Hwf. unfold Dropout.forward. rewrite Htr. cbn [negb].
  unfold mbind at 1, Run_bind at 1. rewrite Hmask.
  pose proof (denotes_get _ HX) as DX.
  pose proof (denotes_get _ Hwf) as Dm. rewrite Hsh in Dm.
  destruct (denotes_ewise2 smul _ _ _ _ _ _ _ DX Dm) as (kept & Hkept & Dkept).
  erewrite run_bind_lift_Some by exact Hkept.
  eexists. split; [done|].
  exact (denotes_ewise1 (λ x, x / (sone - Dropout.p self))%scalar _ _ _ _ Dkept).
Qed.
End dropout.

(** X11.  `Dropout.forward` in evaluation mode returns its input, whatever
    p is, and draws nothing from the generator.  In training mode it draws
    one mask of the input's shape and returns input * mask / (1 - p), entry
    by entry; over the real numbers, with p = 0 and a mask of ones (keep
    probability 1), the entries of the result are those of the input. *)
Theorem Dropout_forward_modes {G : Type} `{Initializers R G}
    (self : Dropout.t R) (X : Tensor R) (g : G) :
  wf X →
  (Dropout.training self = false → Dropout.forward self X g = (Some X, g)) ∧
  (Dropout.training self = true →
   ∀ mask g',
     randb (shape X) (sone - Dropout.p self)%scalar g = (Some mask, g') →
     shape mask = shape X → wf mask →
     ∃ Y, Dropout.forward self X g = (Some Y, g') ∧
          shape Y = shape X ∧ wf Y ∧
          (∀ idx, in_range (shape X) idx →
             get Y idx = (get X idx * get mask idx / (1 - Dropout.p self))%R) ∧
          (Dropout.p self = 0%R →
           (∀ idx, in_range (shape X) idx → get mask idx = 1%R) →
           ∀ idx, in_range (shape X) idx → get Y idx = get X idx)).
Proof.
  intros HX. split.
  - intros Htr. unfold Dropout.forward. by rewrite Htr.
  - intros Htr mask g' Hmask Hsh Hwf.
    destruct (Dropout_forward_training self X mask g g' HX Htr Hmask Hsh Hwf)
      as (Y & HY & HshY & HwfY & _ & HgetY).
    exists Y. split_and!; [done..|].
    intros Hp Hones idx Hidx. rewrite HgetY, Hones, Hp by done. lra.
Qed.

Section embedding.
Context {G : Type} `{Initializers R G}.

(** Multiplying a one-hot row into a matrix selects a row of the
    matrix. *)
Lemma ssum_select_row (f : nat → R) (r c n : nat) :
  c < n →
  ssum ((λ l, (if decide (last [r; l] = Some c) then 1 else 0) * f l)%R <$> seq 0 n)
  = f c.
Proof.
  intros Hc.
  rewrite (list_fmap_ext _ (λ k, f k * (if decide (Some k = Some c) then 1 else 0))%R
             (seq 0 n)).
  - rewrite (ssum_select f c) by apply NoDup_seq.
    rewrite decide_True; [done|]. apply elem_of_seq. lia.
  - intros ? l _. cbn [last]. destruct (decide (Some l = Some c)); lra.
Qed.

Lemma label_reshape_indices (X i : Tensor nat) (seq_len bs s b : nat) :
  shape X = [seq_len; bs] →
  reshape_indices X [seq_len * bs] = Some i →
  label i [s * bs + b] = label X [s; b].
Proof.
  intros HshX. unfold reshape_indices. case_decide; [|done]. intros [= <-].
  unfold label. cbn [shape data]. rewrite HshX. f_equal. simpl. lia.
Qed.

Lemma Embedding_forward_denotes (self : Embedding.t R) (X : Tensor nat)
    (seq_len bs : nat) :
  Embedding.well_formed self →
  shape X = [seq_len; bs] → wf X →
  Forall (λ i, i < Embedding.num_embeddings self) (data X) →
  ∃ Y rg,
    Embedding.forward self X = Some Y ∧
    denotes Y [seq_len; bs; Embedding.embedding_dim self]
      (λ idx, get (Embedding.weight self)
                [label X [nth 0 idx 0; nth 1 idx 0]; nth 2 idx 0]) rg.
Proof.
  intros (Hw & Hwwf) HshX HX Hlabels.
  set (n := Embedding.num_embeddings self) in *.
  set (d := Embedding.embedding_dim self) in *.
  pose proof (denotes_get _ Hwwf) as DW. rewrite Hw in DW.
  unfold Embedding.forward. rewrite HshX.
  assert (reshape_indices X [seq_len * bs]
          = Some (mkTensor [seq_len * bs] (data X) (requires_grad X))) as Hi.
  { unfold reshape_indices. rewrite decide_True; [done|]. rewrite HshX. simpl. lia. }
  opt_with Hi. set (i := mkTensor [seq_len * bs] (data X) (requires_grad X)) in *.
  assert (∀ s b, s < seq_len → b < bs → label X [s; b] < n) as Hlabel.
  { intros s b Hs Hb. unfold label. rewrite HshX. cbn [ravel prod].
    rewrite Forall_forall in Hlabels. apply Hlabels.
    apply list_elem_of_In, nth_In. unfold wf in HX. rewrite HX, HshX. simpl. nia. }
  assert (∃ one_hot, init.one_hot n i = Some one_hot ∧
            denotes one_hot [seq_len * bs; n]
              (λ idx, if decide (last idx = Some (label i (removelast idx)))
                      then 1%R else 0%R) false) as (one_hot & Hone & Done).
  { unfold init.one_hot. rewrite decide_True by done. eexists. split; [done|].
    apply denotes_tabulate. }
  fold n. opt_with Hone.
  destruct (denotes_matmul _ _ _ _ _ _ _ _ _ Done DW) as (res & Hres & Dres).
  opt_with Hres. fold d.
  destruct (denotes_reshape _ _ _ _ [seq_len; bs; d]
              (λ idx, get (Embedding.weight self)
                        [label X [nth 0 idx 0; nth 1 idx 0]; nth 2 idx 0]) Dres)
    as (Y & HY & DY).
  { simpl. lia. }
  { intros idx (s & b & j & -> & Hs & Hb & Hj)%in_range_3.
    exists [s * bs + b; j]. split_and!.
    - apply in_range_2. eexists _, _. split_and!; [done| |done]. nia.
    - simpl. lia.
    - cbn [nth removelast]. cbn [smul R_scalar].
      rewrite (ssum_select_row (λ l, get (Embedding.weight self) [l; j])).
      + by rewrite (label_reshape_indices X i seq_len bs s b HshX Hi).
      + rewrite (label_reshape_indices X i seq_len bs s b HshX Hi). by apply Hlabel. }
  by eauto.
Qed.
End embedding.

(** X12.  Over the real numbers, `Embedding.forward` is a table lookup: on
    word indices X of shape (seq_len, bs), all below num_embeddings, it
    returns a tensor of shape (seq_len, bs, embedding_dim) whose entry
    (s, b, j) is weight[X[s, b], j], the product with the one-hot rows
    selecting the rows of the weight. *)
Theorem Embedding_forward_lookup (self : Embedding.t R) (X : Tensor nat)
    (seq_len bs : nat) :
  Embedding.well_formed self →
  shape X = [seq_len; bs] → wf X →
  Forall (λ i, i < Embedding.num_embeddings self) (data X) →
  ∃ Y, Embedding.forward self X = Some Y ∧
       shape Y = [seq_len; bs; Embedding.embedding_dim self] ∧ wf Y ∧
       ∀ s b j, s < seq_len → b < bs → j < Embedding.embedding_dim self →
         get Y [s; b; j] = get (Embedding.weight self) [label X [s; b]; j].
Proof.
  intros Hself HshX HX Hlabels.
  destruct (Embedding_forward_denotes self X seq_len bs Hself HshX HX Hlabels)
    as (Y & rg & HY & HshY & HwfY & _ & HgetY).
  exists Y. split_and!; [done..|]. intros s b j Hs Hb Hj.
  rewrite HgetY; [done|]. apply in_range_3. eauto 10.
Qed.

Section activations.
Local Open Scope R_scope.

Lemma logistic_range (x : R) : 0 < logistic x < 1.
Proof.
  unfold logistic. pose proof (exp_pos (- x)) as Hexp.
  pose proof (Rinv_0_lt_compat (1 + exp (- x)) ltac:(lra)) as Hpos.
  assert ((1 + exp (- x)) * / (1 + exp (- x)) = 1) as Hinv by (apply Rinv_r; lra).
  split; [done|nra].
Qed.

Lemma logistic_opp (x : R) : logistic (- x) = 1 - logistic x.
Proof.
  unfold logistic. rewrite Ropp_involutive.
  pose proof (exp_pos x) as Hx. pose proof (exp_pos (- x)) as Hnx.
  assert (exp x * exp (- x) = 1) as Hinv.
  { rewrite <-exp_plus. replace (x + - x) with 0 by lra. apply exp_0. }
  apply (Rmult_eq_reg_l ((1 + exp x) * (1 + exp (- x)))); [|nra].
  field_simplify; [|lra..]. nra.
Qed.
End activations.

(** X13.  Over the real numbers, `Sigmoid.forward`, computed as
    (1 + exp(-X)) ** (-1), keeps the shape and applies the logistic
    function entry by entry: every entry of the result lies strictly
    between 0 and 1, and the results on x and -x add up to 1. *)
Theorem Sigmoid_forward_logistic (X : Tensor R) :
  wf X →
  shape (Sigmoid.forward X) = shape X ∧ wf (Sigmoid.forward X) ∧
  ∀ idx, in_range (shape X) idx →
    get (Sigmoid.forward X) idx = logistic (get X idx) ∧
    (0 < get (Sigmoid.forward X) idx < 1)%R ∧
    get (Sigmoid.forward (ops.negate X)) idx = (1 - get (Sigmoid.forward X) idx)%R.
Proof.
  intros HX.
  pose proof (denotes_Sigmoid _ _ _ _ (denotes_get _ HX)) as (Hsh & Hwf & _ & Hget).
  pose proof (denotes_Sigmoid _ _ _ _
                (denotes_ewise1 sneg _ _ _ _ (denotes_get _ HX))) as (_ & _ & _ & Hget').
  split_and!; [done..|]. intros idx Hidx.
  rewrite Hget, sigmoid_elt_logistic by done.
  split; [done|]. split; [apply logistic_range|].
  unfold ops.negate in Hget'. rewrite Hget', sigmoid_elt_logistic by done.
  apply logistic_opp.
Qed.

Lemma Sigmoid_forward_logistic_witness :
  shape (Sigmoid.forward example_batch) = shape example_batch ∧
  wf (Sigmoid.forward example_batch) ∧
  ∀ idx, in_range (shape example_batch) idx →
    get (Sigmoid.forward example_batch) idx = logistic (get example_batch idx) ∧
    (0 < get (Sigmoid.forward example_batch) idx < 1)%R ∧
    get (Sigmoid.forward (ops.negate example_batch)) idx
    = (1 - get (Sigmoid.forward example_batch) idx)%R.
Proof. apply (Sigmoid_forward_logistic example_batch). reflexivity. Defined.

Section rnn_cell.
Context {F : Type} `{Scalar F}.
Implicit Types (cell : RNNCell.t F) (X : Tensor F).
Import RNNCell.

Lemma denotes_RNNCell_add_bias cell batch (bias : option (Tensor F)) (a : Tensor F) f rg :
  (∀ b, bias = Some b → shape b = [hidden_size cell] ∧ wf b) →
  denotes a [batch; hidden_size cell] f rg →
  ∃ c rg',
    add_bias cell batch bias a = Some c ∧
    denotes c [batch; hidden_size cell]
      (λ idx, match bias with
              | Some b => (f idx + get b [nth 1 idx 0])%scalar
              | None => f idx
              end) rg'.
Proof.
  intros Hbias Da. unfold add_bias. destruct bias as [b|]; [|by eauto].
  destruct (Hbias b eq_refl) as [Hsh Hwf].
  pose proof (denotes_get _ Hwf) as Db. rewrite Hsh in Db.
  destruct (denotes_row_broadcast _ _ _ _ batch Db) as (b1 & b2 & Hb1 & Hb2 & Db2).
  opt_with Hb1. opt_with Hb2.
  destruct (denotes_ewise2 sadd _ _ _ _ _ _ _ Da Db2) as (c & Hc & Dc).
  by eauto.
Qed.

Lemma RNNCell_forward_denotes cell X (h : Tensor F) batch input_size :
  well_formed cell input_size →
  shape X = [batch; input_size] → wf X →
  shape h = [batch; hidden_size cell] → wf h →
  ∃ h' rg,
    forward cell X (Some h) = Some h' ∧
    denotes h' [batch; hidden_size cell]
      (λ idx, activate cell
                (preactivation cell X h input_size (nth 0 idx 0) (nth 1 idx 0))) rg.
Proof.
  intros ((Hih & Hihwf) & (Hhh & Hhhwf) & Hbi & Hbh) HshX HX Hshh Hh.
  pose proof (denotes_get _ HX) as DX. rewrite HshX in DX.
  pose proof (denotes_get _ Hh) as Dh. rewrite Hshh in Dh.
  pose proof (denotes_get _ Hihwf) as Dih. rewrite Hih in Dih.
  pose proof (denotes_get _ Hhhwf) as Dhh. rewrite Hhh in Dhh.
  unfold forward. rewrite HshX. cbn [from_option]. unfold Datatypes.id.
  cbv beta iota.
  destruct (denotes_matmul _ _ _ _ _ _ _ _ _ DX Dih) as (xw & Hxw & Dxw).
  opt_with Hxw.
  destruct (denotes_matmul _ _ _ _ _ _ _ _ _ Dh Dhh) as (hw & Hhw & Dhw).
  opt_with Hhw.
  destruct (denotes_ewise2 sadd _ _ _ _ _ _ _ Dxw Dhw) as (s0 & Hs0 & Ds0).
  opt_with Hs0.
  destruct (denotes_RNNCell_add_bias cell batch _ _ _ _ Hbi Ds0)
    as (s1 & rg1 & Hs1 & Ds1).
  opt_with Hs1.
  destruct (denotes_RNNCell_add_bias cell batch _ _ _ _ Hbh Ds1)
    as (s2 & rg2 & Hs2 & Ds2).
  opt_with Hs2.
  assert (denotes s2 [batch; hidden_size cell]
            (λ idx, preactivation cell X h input_size (nth 0 idx 0) (nth 1 idx 0))
            rg2) as Dpre.
  { eapply denotes_ext; [exact Ds2|].
    intros idx (b & k & -> & Hb & Hk)%in_range_2. unfold preactivation.
    by destruct (bias_ih cell), (bias_hh cell). }
  eexists _, rg2. split; [done|]. unfold activate.
  destruct (activation cell).
  - apply (denotes_ewise1 (λ x, smax x szero) _ _ _ _ Dpre).
  - apply (denotes_ewise1 stanh _ _ _ _ Dpre).
Qed.
End rnn_cell.

(** X14.  On an input of shape (bs, input_size) and a hidden state of
    shape (bs, hidden_size), `RNNCell.forward` returns h' of shape
    (bs, hidden_size) with
    h'[b, j] = activation((X @ W_ih)[b, j] + (h @ W_hh)[b, j] + bias_ih[j]
    + bias_hh[j]), each bias added only when present, the activation being
    tanh or max(., 0) as chosen at construction; without a state the cell
    computes what it computes from the all-zero state. *)
Theorem RNNCell_forward_formula {F} `{Scalar F}
    (cell : RNNCell.t F) (X h : Tensor F) (batch input_size : nat) :
  RNNCell.well_formed cell input_size →
  shape X = [batch; input_size] → wf X →
  shape h = [batch; RNNCell.hidden_size cell] → wf h →
  (∃ h', RNNCell.forward cell X (Some h) = Some h' ∧
         shape h' = [batch; RNNCell.hidden_size cell] ∧ wf h' ∧
         ∀ b j, b < batch → j < RNNCell.hidden_size cell →
           get h' [b; j]
           = RNNCell.activate cell (RNNCell.preactivation cell X h input_size b j)) ∧
  (∃ h', RNNCell.forward cell X None = Some h' ∧
         shape h' = [batch; RNNCell.hidden_size cell] ∧ wf h' ∧
         ∀ b j, b < batch → j < RNNCell.hidden_size cell →
           get h' [b; j]
           = RNNCell.activate cell
               (RNNCell.preactivation cell X
                  (init.zeros [batch; RNNCell.hidden_size cell]) input_size b j)).
Proof.
  intros Hcell HshX HX Hshh Hh. split.
  - destruct (RNNCell_forward_denotes cell X h batch input_size Hcell HshX HX Hshh Hh)
      as (h' & rg & Hfw & Hsh' & Hwf' & _ & Hget').
    exists h'. split_and!; [done..|]. intros b j Hb Hj.
    rewrite Hget'; [done|]. apply in_range_2. eauto.
  - destruct (RNNCell_forward_denotes cell X
                (init.zeros [batch; RNNCell.hidden_size cell]) batch input_size
                Hcell HshX HX eq_refl (wf_tabulate _ _ _))
      as (h' & rg & Hfw & Hsh' & Hwf' & _ & Hget').
    exists h'. split_and!; [|done..|].
    + rewrite <-Hfw. unfold RNNCell.forward. by rewrite HshX.
    + intros b j Hb Hj. rewrite Hget'; [done|]. apply in_range_2. eauto.
Qed.

(** * Part X: invariants of the stateful layers *)

Section run_returns.
Context {St : Type}.

Lemma run_bind_returns {A B} (m : Run St A) (k : A → Run St B) s x s' :
  m s = (Some x, s') → (m ≫= k) s = k x s'.
Proof. intros Hm. unfold mbind, Run_bind. by rewrite Hm. Qed.

Lemma run_bind_raises {A B} (m : Run St A) (k : A → Run St B) s s' :
  m s = (None, s') → (m ≫= k) s = (None, s').
Proof. intros Hm. unfold mbind, Run_bind. by rewrite Hm. Qed.
End run_returns.

Section batch_norm_invariant.
Context {F : Type} `{Scalar F}.
Implicit Types (l : BatchNorm1d.t F) (X : Tensor F).
Import BatchNorm1d.

Lemma same_configuration_refl l : same_configuration l l.
Proof. done. Qed.

Lemma same_configuration_trans l l' l'' :
  same_configuration l l' → same_configuration l' l'' → same_configuration l l''.
Proof.
  unfold same_configuration. intros (?&?&?&?&?&?) (?&?&?&?&?&?).
  split_and!; congruence.
Qed.

Lemma BatchNorm1d_forward_ok l X batch :
  well_formed l → wf X → shape X = [batch; dim l] →
  ∃ Y l', forward X l = (Some Y, l') ∧
          shape Y = [batch; dim l] ∧ wf Y ∧
          well_formed l' ∧ same_configuration l l'.
Proof.
  intros Hl HX HshX. destruct (training l) eqn:Htr.
  - destruct (forward_training l X batch Hl Htr HX HshX)
      as (Y & rm & rv & rg & HY & (HshY & HwfY & _) & (Hshm & Hwfm & _) & (Hshv & Hwfv & _)).
    eexists Y, _. split; [exact HY|]. split_and!; [done..| |].
    + destruct Hl as ((? & ?) & (? & ?) & _ & _). unfold well_formed. simpl.
      by split_and!.
    + unfold same_configuration. simpl. by split_and!.
  - destruct (forward_eval l X batch Hl Htr HX HshX) as (Y & rg & HY & (HshY & HwfY & _)).
    exists Y, l. by split_and!.
Qed.

Lemma BatchNorm1d_forward_passes_ok l (Xs : list (Tensor F)) :
  well_formed l →
  Forall (λ X, wf X ∧ ∃ batch, shape X = [batch; dim l]) Xs →
  well_formed (forward_passes l Xs) ∧ same_configuration l (forward_passes l Xs).
Proof.
  intros Hl HXs. revert l Hl HXs. induction Xs as [|X Xs IH]; intros l Hl HXs.
  - split; [done|apply same_configuration_refl].
  - apply Forall_cons in HXs as [(HX & batch & HshX) HXs].
    destruct (BatchNorm1d_forward_ok l X batch Hl HX HshX)
      as (Y & l' & HY & _ & _ & Hl' & Hsame).
    unfold forward_passes. cbn [foldl]. rewrite HY. cbn [snd].
    destruct (IH l' Hl') as [Hwf' Hsame'].
    + eapply Forall_impl; [done|]. intros X' (HX' & batch' & HshX').
      split; [done|]. exists batch'. by rewrite (proj1 Hsame).
    + split; [done|]. by eapply same_configuration_trans.
Qed.

Lemma BatchNorm2d_forward_ok l (x : Tensor F) n h w :
  well_formed l → wf x → shape x = [n; dim l; h; w] →
  ∃ y l', BatchNorm2d.forward x l = (Some y, l') ∧
          shape y = [n; dim l; h; w] ∧ wf y ∧
          well_formed l' ∧ same_configuration l l'.
Proof.
  intros Hl Hx Hsh. unfold BatchNorm2d.forward. rewrite Hsh.
  destruct (transposes_to_channel_last x _ _ _ _ Hsh) as (x1 & Hx1 & Hx2).
  run_with Hx1. run_with Hx2.
  assert (shape (BatchNorm2d.to_channel_last x) = [n; h; w; dim l]) as Hshl.
  { unfold BatchNorm2d.to_channel_last. by rewrite Hsh. }
  assert (wf (BatchNorm2d.to_channel_last x)) as Hwfl.
  { unfold BatchNorm2d.to_channel_last. rewrite Hsh. apply wf_tabulate. }
  assert (prod [n * h * w; dim l] = prod (shape (BatchNorm2d.to_channel_last x)))
    as Hprod by (rewrite Hshl; simpl; lia).
  pose proof (reshape_Some _ _ Hprod) as Hflat.
  run_with Hflat.
  set (flat := mkTensor [n * h * w; dim l] _ _) in *.
  destruct (BatchNorm1d_forward_ok l flat (n * h * w) Hl) as
    (Y & l' & HY & HshY & HwfY & Hl' & Hsame); [|done|].
  { eapply reshape_wf; [exact Hwfl|exact Hflat]. }
  rewrite ?run_bind_assoc. erewrite run_bind_returns by exact HY.
  assert (prod [n; h; w; dim l] = prod (shape Y)) as Hprod'
    by (rewrite HshY; simpl; lia).
  pose proof (reshape_Some _ _ Hprod') as Hy4.
  run_with Hy4.
  set (y4 := mkTensor [n; h; w; dim l] _ _) in *.
  destruct (transposes_to_channel_first y4 n h w (dim l) eq_refl) as (y1 & Hy1 & Hy2).
  run_with Hy1. unfold lift. rewrite Hy2.
  eexists _, l'. split; [done|].
  unfold BatchNorm2d.to_channel_first. cbn [shape y4].
  split_and!; [done|apply wf_tabulate|done..].
Qed.
End batch_norm_invariant.

(** X15.  `BatchNorm1d.forward` keeps the layer usable: after any number
    of forward passes on batches of shape (batch, dim), in training or in
    evaluation mode, the running statistics still have shape (dim,), the
    scale, the shift, eps, momentum, dim and the mode are what they were,
    and the next pass on such a batch returns a tensor of the batch's
    shape. *)
Theorem BatchNorm1d_forward_keeps_invariant {F} `{Scalar F}
    (l : BatchNorm1d.t F) (Xs : list (Tensor F)) (X : Tensor F) (batch : nat) :
  BatchNorm1d.well_formed l →
  Forall (λ X, wf X ∧ ∃ batch, shape X = [batch; BatchNorm1d.dim l]) Xs →
  wf X → shape X = [batch; BatchNorm1d.dim l] →
  BatchNorm1d.well_formed (BatchNorm1d.forward_passes l Xs) ∧
  same_configuration l (BatchNorm1d.forward_passes l Xs) ∧
  ∃ Y l', BatchNorm1d.forward X (BatchNorm1d.forward_passes l Xs) = (Some Y, l') ∧
          shape Y = [batch; BatchNorm1d.dim l] ∧ wf Y.
Proof.
  intros Hl HXs HX HshX.
  destruct (BatchNorm1d_forward_passes_ok l Xs Hl HXs) as [Hl' Hsame].
  split_and!; [done..|].
  rewrite <-(proj1 Hsame) in HshX.
  destruct (BatchNorm1d_forward_ok _ X batch Hl' HX HshX) as (Y & l' & HY & HshY & HwfY & _).
  exists Y, l'. split_and!; [done| |done]. by rewrite HshY, (proj1 Hsame).
Qed.

Section conv_returns.
Context {F : Type} `{Scalar F}.
Implicit Types (self : Conv.t F) (X Y : Tensor F).

Lemma transpose_inv X i j Y :
  ops.transpose X (i, j) = Some Y →
  i < rank X ∧ j < rank X ∧
  Y = tabulate (swap i j (shape X)) (λ idx, get X (swap i j idx)) (requires_grad X).
Proof.
  unfold ops.transpose. case_decide as Hij; [|done]. intros [= <-].
  by destruct Hij.
Qed.

Lemma Conv_forward_inv self X Y :
  Conv.well_formed self → Conv.forward self X = Some Y →
  ∃ n size,
    shape X = [n; Conv.in_channels self; size; size] ∧
    0 < Conv.stride self ∧
    Conv.kernel_size self ≤ size + 2 * (Conv.kernel_size self / 2) ∧
    let out := (size + 2 * (Conv.kernel_size self / 2) - Conv.kernel_size self)
               / Conv.stride self + 1 in
    shape Y = [n; Conv.out_channels self; out; out] ∧ wf Y.
Proof.
  intros (Hw & Hwwf & Hb). unfold Conv.forward.
  destruct (rev (shape X) !! 1) as [height|] eqn:Hheight; [|done].
  destruct (rev (shape X) !! 0) as [width|] eqn:Hwidth; [|done].
  cbn [mbind option_bind]. case_guard as Hsquare; [|done]. subst width.
  cbn [mbind option_bind].
  destruct (ops.transpose X (1, 2)) as [x1|] eqn:Hx1; [|done].
  apply transpose_inv in Hx1 as (_ & Hrank3 & ->). cbn [mbind option_bind].
  destruct (ops.transpose _ (2, 3)) as [x2|] eqn:Hx2; [|done].
  apply transpose_inv in Hx2 as (_ & Hrank4 & ->). cbn [mbind option_bind].
  unfold rank in *. cbn [shape tabulate] in *.
  destruct (shape X) as [|n [|c [|h [|w [|extra rest]]]]] eqn:HshX;
    cbn in Hrank3, Hrank4; try lia.
  - (* four axes *)
    cbn in Hheight, Hwidth. injection Hheight as ->. injection Hwidth as Hhw.
    subst w. rename height into h.
    unfold ops.conv at 1. cbn [shape tabulate swap lookup list_lookup insert list_insert].
    rewrite Hw. case_decide as Hconv; [|done].
    destruct Hconv as (_ & <- & Hstride & Hk & _). cbn [mbind option_bind].
    set (o := (h + 2 * (Conv.kernel_size self / 2) - Conv.kernel_size self)
              / Conv.stride self + 1).
    set (conv := tabulate [n; o; o; Conv.out_channels self] _ _).
    assert (∀ conv', match Conv.bias self with
                     | Some bias =>
                         b ← ops.reshape bias [1; 1; 1; Conv.out_channels self];
                         b ← ops.broadcast_to b (shape conv);
                         ops.add conv b
                     | None => Some conv
                     end = Some conv' → shape conv' = shape conv) as Hbias.
    { intros conv'. destruct (Conv.bias self) as [bias|]; [|by intros [= <-]].
      destruct (ops.reshape bias _) as [b1|]; [|done]. cbn [mbind option_bind].
      destruct (ops.broadcast_to b1 _) as [b2|]; [|done]. cbn [mbind option_bind].
      unfold ops.add, ops.ewise2. case_decide; [|done]. by intros [= <-]. }
    destruct (match Conv.bias self with Some _ => _ | None => _ end) as [conv'|];
      [|done].
    specialize (Hbias conv' eq_refl). cbn [mbind option_bind].
    cbn [shape conv tabulate] in Hbias.
    destruct (transposes_to_channel_first conv' _ _ _ _ Hbias) as (c1 & Hc1 & Hc2).
    rewrite Hc1. cbn [mbind option_bind]. rewrite Hc2. intros [= <-].
    exists n, h. split_and!; [done..| |].
    + unfold BatchNorm2d.to_channel_first. by rewrite Hbias.
    + unfold BatchNorm2d.to_channel_first. rewrite Hbias. apply wf_tabulate.
  - (* more than four axes: the convolution rejects its input *)
    unfold ops.conv at 1. cbn [shape tabulate swap lookup list_lookup insert list_insert].
    done.
Qed.
End conv_returns.

(** X16.  `Conv.forward` returns only on an input with four axes whose
    channel axis has the layer's in_channels and whose two spatial axes have
    the same size; on any other input it raises.  When it returns, the
    result is channel-first with out_channels channels and spatial size
    floor((size + 2*(k // 2) - k) / stride) + 1 in both dimensions. *)
Theorem Conv_forward_returns_only_on_square {F} `{Scalar F}
    (self : Conv.t F) (X Y : Tensor F) :
  Conv.well_formed self →
  Conv.forward self X = Some Y →
  ∃ n size,
    shape X = [n; Conv.in_channels self; size; size] ∧
    0 < Conv.stride self ∧
    shape Y = [n; Conv.out_channels self;
               (size + 2 * (Conv.kernel_size self / 2) - Conv.kernel_size self)
               / Conv.stride self + 1;
               (size + 2 * (Conv.kernel_size self / 2) - Conv.kernel_size self)
               / Conv.stride self + 1] ∧
    wf Y.
Proof.
  intros Hself HY.
  destruct (Conv_forward_inv self X Y Hself HY) as (n & size & HshX & Hs & _ & HshY & HwfY).
  by exists n, size.
Qed.

(** * Part XI: the constructor of Conv and the models of apps/models.py *)

Section conv_init.
Context {F G : Type} `{Scalar F} `{Rand F G} `{Initializers F G}.

Lemma init_rand_returns (sh : list nat) (low high : F) (g : G) :
  ∃ t g', init_rand.rand sh low high g = (Some t, g') ∧ t = (rand sh low high g).1.
Proof. unfold init_rand.rand. destruct (rand sh low high g) as [t g']. by eauto. Qed.

Lemma Conv_init_returns (in_channels out_channels k s : nat) (bias : bool) (g : G) :
  draws (kaiming_uniform (in_channels * k ^ 2) (out_channels * k ^ 2)
           (Some [k; k; in_channels; out_channels]))
        [k; k; in_channels; out_channels] →
  (∀ sh low high g, shape (rand sh low high g).1 = sh ∧ wf (rand sh low high g).1) →
  bias = false ∨ in_channels * k ^ 2 ≠ 0 →
  ∃ conv g',
    Conv__init__ in_channels out_channels (an_int k) (an_int s) bias g = (Some conv, g') ∧
    Conv.well_formed conv ∧
    Conv.in_channels conv = in_channels ∧ Conv.out_channels conv = out_channels ∧
    Conv.kernel_size conv = k ∧ Conv.stride conv = s ∧
    (is_Some (Conv.bias conv) ↔ bias = true).
Proof.
  intros Hkaiming Hrand Hbias. unfold Conv__init__. cbn [first_if_tuple].
  do 2 (erewrite run_bind_lift_Some by reflexivity).
  destruct (Hkaiming g) as (w & g1 & Hw & Hshw & Hwfw).
  erewrite run_bind_returns by exact Hw.
  destruct bias.
  - destruct Hbias as [|Hfan]; [done|].
    rewrite run_bind_assoc, run_bind_assert_True by done.
    destruct (init_rand_returns [out_channels]
                (- (sone / sof_nat (in_channels * k ^ 2) ** (1 # 2)))%scalar
                (sone / sof_nat (in_channels * k ^ 2) ** (1 # 2))%scalar g1)
      as (b & g2 & Hb & ->).
    rewrite run_bind_assoc. erewrite run_bind_returns by exact Hb.
    rewrite run_bind_ret. eexists _, g2. split; [done|].
    destruct (Hrand [out_channels]
                (- (sone / sof_nat (in_channels * k ^ 2) ** (1 # 2)))%scalar
                (sone / sof_nat (in_channels * k ^ 2) ** (1 # 2))%scalar g1)
      as [Hshb Hwfb].
    split_and!; [|done..|by split].
    unfold Conv.well_formed. cbn. by split_and!.
  - rewrite run_bind_ret. eexists _, g1. split; [done|].
    split_and!; [|done..|].
    + unfold Conv.well_formed. cbn. by split_and!.
    + cbn. split; [by intros [? ?]|done].
Qed.
End conv_init.

(** X17.  The constructor of `Conv` takes the first entry of a tuple given
    as kernel_size or stride and ignores the rest, so a non-square kernel
    size gives the square kernel of its first entry; an empty tuple raises.
    With a bias and in_channels * kernel_size**2 = 0 it raises (division by
    zero) after the weight was drawn.  Otherwise, with initializers that
    return tensors of the requested shape, it returns a layer whose weight
    has shape (k, k, in_channels, out_channels) and whose bias, present
    exactly when asked for, has shape (out_channels,). *)
Theorem Conv_init_takes_first_of_tuple {F G : Type} `{Scalar F} `{Rand F G}
    `{Initializers F G}
    (in_channels out_channels k s : nat) (ks ss : list nat) (bias : bool) (g : G) :
  Conv__init__ in_channels out_channels (a_tuple (k :: ks)) (a_tuple (s :: ss)) bias g
  = Conv__init__ in_channels out_channels (an_int k) (an_int s) bias g ∧
  Conv__init__ in_channels out_channels (a_tuple []) (an_int s) bias g = (None, g) ∧
  (in_channels * k ^ 2 = 0 →
   ∀ w g',
     kaiming_uniform (in_channels * k ^ 2) (out_channels * k ^ 2)
       (Some [k; k; in_channels; out_channels]) g = (Some w, g') →
     Conv__init__ in_channels out_channels (an_int k) (an_int s) true g = (None, g')) ∧
  (draws (kaiming_uniform (in_channels * k ^ 2) (out_channels * k ^ 2)
            (Some [k; k; in_channels; out_channels]))
         [k; k; in_channels; out_channels] →
   (∀ sh low high g, shape (rand sh low high g).1 = sh ∧ wf (rand sh low high g).1) →
   bias = false ∨ in_channels * k ^ 2 ≠ 0 →
   ∃ conv g',
     Conv__init__ in_channels out_channels (an_int k) (an_int s) bias g = (Some conv, g') ∧
     Conv.well_formed conv ∧
     Conv.in_channels conv = in_channels ∧ Conv.out_channels conv = out_channels ∧
     Conv.kernel_size conv = k ∧ Conv.stride conv = s ∧
     (is_Some (Conv.bias conv) ↔ bias = true)).
Proof.
  split_and!.
  - done.
  - done.
  - intros Hfan w g' Hw. unfold Conv__init__. cbn [first_if_tuple].
    do 2 (erewrite run_bind_lift_Some by reflexivity).
    erewrite run_bind_returns by exact Hw.
    by rewrite run_bind_assoc, run_bind_assert_False by (by intros ?).
  - apply Conv_init_returns.
Qed.

Section conv_bn.
Context {F : Type} `{Scalar F}.
Implicit Types (self : ConvBN.t F) (X Y : Tensor F).

Lemma Conv_forward_wf (conv : Conv.t F) X Y :
  Conv.well_formed conv → Conv.forward conv X = Some Y → wf Y.
Proof.
  intros Hconv HY.
  by destruct (Conv_forward_inv conv X Y Hconv HY) as (? & ? & _ & _ & _ & _ & ?).
Qed.

Lemma denotes_ReLU X sh f rg :
  denotes X sh f rg → denotes (ReLU.forward X) sh (λ idx, smax (f idx) szero) rg.
Proof. apply (denotes_ewise1 (λ x, smax x szero)). Qed.

Lemma ConvBN_forward_ok self X (in_channels out_channels k s n size : nat) :
  ConvBN.fits (in_channels, out_channels, k, s) self →
  Nat.Odd k → 0 < s → 0 < size →
  shape X = [n; in_channels; size; size] →
  ∃ Y self',
    ConvBN.forward X self = (Some Y, self') ∧
    shape Y = [n; out_channels; ceil_div size s; ceil_div size s] ∧ wf Y ∧
    ConvBN.fits (in_channels, out_channels, k, s) self' ∧
    ConvBN.conv self' = ConvBN.conv self ∧
    ConvBN.training self' = ConvBN.training self ∧
    same_configuration (ConvBN.batch_norm self) (ConvBN.batch_norm self').
Proof.
  intros (Hconv & <- & <- & <- & <- & Hbn & Hdim) Hk Hs Hsize HshX.
  destruct (Conv_forward_shape (ConvBN.conv self) X n size Hconv HshX Hk Hs Hsize)
    as (_ & _ & res & _ & _ & _ & Hres & Hshres).
  pose proof (Conv_forward_wf _ _ _ Hconv Hres) as Hwfres.
  unfold ConvBN.forward. rewrite run_bind_self. run_with Hres.
  rewrite <-Hdim in Hshres.
  destruct (BatchNorm2d_forward_ok (ConvBN.batch_norm self) res _ _ _ Hbn Hwfres Hshres)
    as (y & bn' & Hy & Hshy & Hwfy & Hbn' & Hsame).
  erewrite run_bind_returns; [|unfold on; by rewrite Hy].
  eexists _, _. split; [done|].
  pose proof (denotes_ReLU _ _ _ _ (denotes_get _ Hwfy)) as (HshY & HwfY & _).
  rewrite Hdim in Hshy. split_and!; [by rewrite HshY, Hshy|done| |done..].
  unfold ConvBN.fits. cbn [ConvBN.conv ConvBN.batch_norm ConvBN.set_batch_norm].
  split_and!; [done..|]. by rewrite (proj1 Hsame).
Qed.
End conv_bn.

(** X18.  `ConvBN.forward` on a channel-first input of shape
    (N, in_channels, size, size), for an odd kernel size and a stride
    s >= 1, returns a tensor of shape (N, out_channels, ceil(size/s),
    ceil(size/s)); the block it leaves behind differs from the block before
    at most in the running statistics of its batch normalisation, and
    accepts the next input in the same way. *)
Theorem ConvBN_forward_shape {F} `{Scalar F}
    (self : ConvBN.t F) (X : Tensor F) (in_channels out_channels k s n size : nat) :
  ConvBN.fits (in_channels, out_channels, k, s) self →
  Nat.Odd k → 0 < s → 0 < size →
  shape X = [n; in_channels; size; size] →
  ∃ Y self',
    ConvBN.forward X self = (Some Y, self') ∧
    shape Y = [n; out_channels; ceil_div size s; ceil_div size s] ∧ wf Y ∧
    ConvBN.fits (in_channels, out_channels, k, s) self' ∧
    ConvBN.conv self' = ConvBN.conv self ∧
    ConvBN.training self' = ConvBN.training self ∧
    same_configuration (ConvBN.batch_norm self) (ConvBN.batch_norm self').
Proof. apply ConvBN_forward_ok. Qed.

Section res_net.
Context {F : Type} `{Scalar F}.
Implicit Types (self : ResNet9.t F) (X Y : Tensor F).
Import ResNet9.

Lemma ceil_div_bounds (a b m : nat) :
  0 < b → 0 < a → a ≤ b * m → 0 < ceil_div a b ∧ ceil_div a b ≤ m.
Proof.
  intros Hb Ha Hle. unfold ceil_div. split.
  - apply Nat.div_str_pos. lia.
  - assert ((a + b - 1) / b < S m); [|lia].
    apply Nat.Div0.div_lt_upper_bound. lia.
Qed.

Lemma ceil_div_large (a b m : nat) : 0 < b → b * m < a → m < ceil_div a b.
Proof.
  intros Hb Hlt. unfold ceil_div.
  apply (Nat.div_le_lower_bound (a + b - 1) b (S m)); lia.
Qed.

Lemma conv_bn_args_odd :
  Forall (λ '(_, _, k, s), Nat.Odd k ∧ 0 < s) conv_bn_args.
Proof.
  unfold conv_bn_args.
  repeat constructor; first [by exists 3|by exists 1|lia].
Qed.

(** Calling the [i]-th block keeps the model well-formed. *)
Lemma conv_bn_ok (i in_channels out_channels k s n size : nat) X self :
  conv_bn_args !! i = Some (in_channels, out_channels, k, s) →
  well_formed self → 0 < size →
  shape X = [n; in_channels; size; size] →
  ∃ Y self',
    conv_bn i X self = (Some Y, self') ∧
    shape Y = [n; out_channels; ceil_div size s; ceil_div size s] ∧ wf Y ∧
    well_formed self' ∧ linears self' = linears self.
Proof.
  intros Hi [Hblocks Hlinears] Hsize HshX.
  destruct (Forall2_lookup_l _ _ _ _ _ Hblocks Hi) as (block & Hblock & Hfits).
  pose proof conv_bn_args_odd as Hodd. rewrite Forall_lookup in Hodd.
  destruct (Hodd _ _ Hi) as [Hk Hs].
  destruct (ConvBN_forward_ok block X _ _ _ _ n size Hfits Hk Hs Hsize HshX)
    as (Y & block' & HY & HshY & HwfY & Hfits' & _).
  unfold conv_bn. rewrite Hblock, HY. eexists Y, _. split; [done|].
  split_and!; [done..| |done].
  split; [|done]. cbn [conv_bns set_conv_bns].
  rewrite <-(list_insert_id conv_bn_args i _ Hi). by apply Forall2_insert.
Qed.

(** Two blocks that keep the size, under a Residual. *)
Lemma residual_ok (i j channels k k' n size : nat) X self :
  conv_bn_args !! i = Some (channels, channels, k, 1) →
  conv_bn_args !! j = Some (channels, channels, k', 1) →
  well_formed self → 0 < size →
  shape X = [n; channels; size; size] → wf X →
  ∃ Y self',
    Residual.forward (Sequential.forward [conv_bn i; conv_bn j]) X self
    = (Some Y, self') ∧
    shape Y = [n; channels; size; size] ∧ wf Y ∧
    well_formed self' ∧ linears self' = linears self.
Proof.
  intros Hi Hj Hself Hsize HshX HX.
  destruct (conv_bn_ok i _ _ _ _ n size X self Hi Hself Hsize HshX)
    as (Y1 & self1 & HY1 & HshY1 & HwfY1 & Hself1 & Hlin1).
  rewrite ceil_div_1 in HshY1.
  destruct (conv_bn_ok j _ _ _ _ n size Y1 self1 Hj Hself1 Hsize HshY1)
    as (Y2 & self2 & HY2 & HshY2 & HwfY2 & Hself2 & Hlin2).
  rewrite ceil_div_1 in HshY2.
  unfold Residual.forward. cbn [Sequential.forward].
  rewrite ?run_bind_assoc. erewrite run_bind_returns by exact HY1.
  rewrite ?run_bind_assoc. erewrite run_bind_returns by exact HY2.
  rewrite run_bind_ret.
  pose proof (denotes_get _ HX) as DX. rewrite HshX in DX.
  pose proof (denotes_get _ HwfY2) as DY. rewrite HshY2 in DY.
  destruct (denotes_ewise2 sadd _ _ _ _ _ _ _ DX DY) as (Y & HY & HshY & HwfY & _).
  exists Y, self2. unfold lift. split; [by rewrite <-HY|].
  split_and!; [done..|congruence].
Qed.

(** [self.convs], for an input of spatial size [size]. *)
Lemma convs_ok (n size : nat) X self :
  well_formed self → 0 < size →
  shape X = [n; 3; size; size] →
  ∃ Y self',
    Sequential.forward convs X self = (Some Y, self') ∧
    (let out := ceil_div (ceil_div (ceil_div (ceil_div size 4) 2) 2) 2 in
     shape Y = [n; 128; out; out]) ∧
    wf Y ∧ well_formed self' ∧ linears self' = linears self.
Proof.
  intros Hself Hsize HshX. unfold convs. cbn [Sequential.forward].
  destruct (conv_bn_ok 0 _ _ _ _ n size X self eq_refl Hself Hsize HshX)
    as (Y0 & self0 & HY0 & HshY0 & HwfY0 & Hself0 & Hlin0).
  erewrite run_bind_returns by exact HY0.
  assert (0 < ceil_div size 4) as Hsize0.
  { unfold ceil_div. apply Nat.div_str_pos. lia. }
  destruct (conv_bn_ok 1 _ _ _ _ n _ Y0 self0 eq_refl Hself0 Hsize0 HshY0)
    as (Y1 & self1 & HY1 & HshY1 & HwfY1 & Hself1 & Hlin1).
  erewrite run_bind_returns by exact HY1.
  assert (0 < ceil_div (ceil_div size 4) 2) as Hsize1.
  { unfold ceil_div at 1. apply Nat.div_str_pos. lia. }
  destruct (residual_ok 2 3 _ _ _ n _ Y1 self1 eq_refl eq_refl Hself1 Hsize1 HshY1 HwfY1)
    as (Y2 & self2 & HY2 & HshY2 & HwfY2 & Hself2 & Hlin2).
  erewrite run_bind_returns by exact HY2.
  destruct (conv_bn_ok 4 _ _ _ _ n _ Y2 self2 eq_refl Hself2 Hsize1 HshY2)
    as (Y4 & self4 & HY4 & HshY4 & HwfY4 & Hself4 & Hlin4).
  erewrite run_bind_returns by exact HY4.
  assert (0 < ceil_div (ceil_div (ceil_div size 4) 2) 2) as Hsize4.
  { unfold ceil_div at 1. apply Nat.div_str_pos. lia. }
  destruct (conv_bn_ok 5 _ _ _ _ n _ Y4 self4 eq_refl Hself4 Hsize4 HshY4)
    as (Y5 & self5 & HY5 & HshY5 & HwfY5 & Hself5 & Hlin5).
  erewrite run_bind_returns by exact HY5.
  assert (0 < ceil_div (ceil_div (ceil_div (ceil_div size 4) 2) 2) 2) as Hsize5.
  { unfold ceil_div at 1. apply Nat.div_str_pos. lia. }
  destruct (residual_ok 6 7 _ _ _ n _ Y5 self5 eq_refl eq_refl Hself5 Hsize5 HshY5 HwfY5)
    as (Y6 & self6 & HY6 & HshY6 & HwfY6 & Hself6 & Hlin6).
  erewrite run_bind_returns by exact HY6.
  exists Y6, self6. split; [done|]. split_and!; [done..|congruence].
Qed.

Lemma Linear_forward_rejects (l : Linear.t F) X batch k :
  Linear.well_formed l → shape X = [batch; k] → k ≠ Linear.in_features l →
  Linear.forward l X = None.
Proof.
  intros ((Hw & _) & _) HshX Hk. unfold Linear.forward, ops.matmul.
  rewrite HshX, Hw. by rewrite decide_False.
Qed.

Lemma linear_call (i : nat) X self (layer : Linear.t F) :
  linears self !! i = Some layer →
  linear i X self = (Linear.forward layer X, self).
Proof.
  intros Hi. unfold linear. rewrite run_bind_self.
  by erewrite run_bind_lift_Some by exact Hi.
Qed.

Lemma ResNet9_forward_ok (n size : nat) X self :
  well_formed self → 0 < size →
  shape X = [n; 3; size; size] →
  (size ≤ 32 →
   ∃ Y self',
     forward X self = (Some Y, self') ∧ shape Y = [n; 10] ∧ wf Y ∧
     well_formed self' ∧ linears self' = linears self) ∧
  (32 < size →
   ∃ res self' flat fc,
     Sequential.forward convs X self = (Some res, self') ∧
     (let out := ceil_div (ceil_div (ceil_div (ceil_div size 4) 2) 2) 2 in
      1 < out ∧ shape res = [n; 128; out; out] ∧
      shape flat = [n; 128 * (out * out)]) ∧
     Flatten.forward res = Some flat ∧
     linears self' !! 0 = Some fc ∧ Linear.in_features fc = 128 ∧
     Linear.forward fc flat = None ∧
     forward X self = (None, self') ∧
     well_formed self' ∧ linears self' = linears self).
Proof.
  intros Hself Hsize HshX.
  destruct (convs_ok n size X self Hself Hsize HshX)
    as (Y & self' & HY & HshY & HwfY & Hself' & Hlin).
  cbv zeta in HshY.
  set (out := ceil_div (ceil_div (ceil_div (ceil_div size 4) 2) 2) 2) in *.
  pose proof Hself' as [_ Hlinears]. unfold linear_args in Hlinears.
  apply Forall2_cons_inv_l in Hlinears
    as (fc0 & rest & (Hfc0 & Hin0 & Hout0 & [b0 Hb0]) & Hrest & Hlins).
  apply Forall2_cons_inv_l in Hrest
    as (fc1 & rest' & (Hfc1 & Hin1 & Hout1 & [b1 Hb1]) & Hrest' & ->).
  apply Forall2_nil_inv_l in Hrest' as ->.
  unfold forward. erewrite run_bind_returns by exact HY.
  assert (Flatten.forward Y
          = Some (mkTensor [n; 128 * (out * (out * 1))] (data Y) (requires_grad Y)))
    as Hflat.
  { unfold Flatten.forward. rewrite HshY. apply reshape_Some. rewrite HshY.
    simpl. lia. }
  run_with Hflat. set (flat := mkTensor _ _ _) in *.
  assert (wf flat) as Hwfflat.
  { unfold wf in *. subst flat. cbn [shape data]. rewrite HwfY, HshY. simpl. lia. }
  unfold classification_layer. cbn [Sequential.forward].
  split.
  - intros Hle.
    assert (out = 1) as Hout.
    { subst out.
      destruct (ceil_div_bounds size 4 8) as [? ?]; [lia..|].
      destruct (ceil_div_bounds (ceil_div size 4) 2 4) as [? ?]; [lia..|].
      destruct (ceil_div_bounds (ceil_div (ceil_div size 4) 2) 2 2) as [? ?]; [lia..|].
      destruct (ceil_div_bounds (ceil_div (ceil_div (ceil_div size 4) 2) 2) 2 1)
        as [? ?]; lia. }
    assert (shape flat = [n; Linear.in_features fc0]) as Hshflat.
    { subst flat. cbn [shape]. rewrite Hout, Hin0. done. }
    destruct (Linear_forward_denotes fc0 flat n Hfc0 Hshflat Hwfflat)
      as (Z0 & rg0 & HZ0 & DZ0).
    erewrite run_bind_returns; [|by rewrite (linear_call 0 _ _ fc0), HZ0 by by rewrite Hlins].
    rewrite run_bind_ret.
    pose proof (denotes_ReLU _ _ _ _ DZ0) as (HshR & HwfR & _).
    rewrite Hout0, <-Hin1 in HshR.
    destruct (Linear_forward_denotes fc1 _ n Hfc1 HshR HwfR)
      as (Z1 & rg1 & HZ1 & HshZ1 & HwfZ1 & _).
    erewrite run_bind_returns; [|by rewrite (linear_call 1 _ _ fc1), HZ1 by by rewrite Hlins].
    exists Z1, self'.
    split_and!; [done|by rewrite HshZ1, Hout1|done..].
  - intros Hgt.
    assert (1 < out) as Hout.
    { subst out.
      pose proof (ceil_div_large size 4 8 ltac:(lia) ltac:(lia)).
      pose proof (ceil_div_large (ceil_div size 4) 2 4 ltac:(lia) ltac:(lia)).
      pose proof (ceil_div_large (ceil_div (ceil_div size 4) 2) 2 2
                    ltac:(lia) ltac:(lia)).
      apply (ceil_div_large _ 2 1); lia. }
    assert (Linear.forward fc0 flat = None) as Hraise.
    { apply (Linear_forward_rejects fc0 flat n (128 * (out * (out * 1))) Hfc0 eq_refl).
      rewrite Hin0. nia. }
    exists Y, self', flat, fc0. split; [done|]. split.
    { cbv zeta. split; [done|]. split; [done|].
      subst flat. cbn [shape]. by rewrite Nat.mul_1_r. }
    split; [done|]. split; [by rewrite Hlins|]. split; [done|]. split; [done|].
    split; [|done].
    apply run_bind_raises. rewrite (linear_call 0 _ _ fc0) by by rewrite Hlins.
    by rewrite Hraise.
Qed.
End res_net.

(** X19.  `ResNet9.forward` on a batch of N three-channel square images of
    size 1 to 32 returns logits of shape (N, 10): the eight ConvBN blocks
    (strides 4, 2, 1, 1, 2, 2, 1, 1; the two Residual additions between
    equal shapes) bring the spatial size down to 1, Flatten gives (N, 128),
    and the two Linear layers apply.  The model it leaves behind is
    well-formed again, with the same Linear layers.  On larger images it
    raises at the first Linear layer, after all ConvBN blocks have run:
    `self.convs` returns a tensor of shape (N, 128, m, m) with m > 1,
    Flatten returns (N, 128 * m * m), the first Linear layer, which takes
    128 features, raises on it, and the model is left as `self.convs` left
    it. *)
Theorem ResNet9_forward_logits {F} `{Scalar F}
    (self : ResNet9.t F) (X : Tensor F) (n size : nat) :
  ResNet9.well_formed self →
  0 < size →
  shape X = [n; 3; size; size] →
  (size ≤ 32 →
   ∃ Y self',
     ResNet9.forward X self = (Some Y, self') ∧ shape Y = [n; 10] ∧ wf Y ∧
     ResNet9.well_formed self' ∧ ResNet9.linears self' = ResNet9.linears self) ∧
  (32 < size →
   ∃ res self' flat fc,
     Sequential.forward ResNet9.convs X self = (Some res, self') ∧
     (let m := ceil_div (ceil_div (ceil_div (ceil_div size 4) 2) 2) 2 in
      1 < m ∧ shape res = [n; 128; m; m] ∧ shape flat = [n; 128 * (m * m)]) ∧
     Flatten.forward res = Some flat ∧
     ResNet9.linears self' !! 0 = Some fc ∧ Linear.in_features fc = 128 ∧
     Linear.forward fc flat = None ∧
     ResNet9.forward X self = (None, self') ∧
     ResNet9.well_formed self' ∧ ResNet9.linears self' = ResNet9.linears self).
Proof. apply ResNet9_forward_ok. Qed.

Section constructors_of_models.
Context {F G : Type} `{Scalar F} `{Rand F G} `{Initializers F G}.

Lemma Linear_init_returns (in_features out_features : nat) (bias : bool) (g : G) :
  draws (kaiming_uniform in_features out_features None) [in_features; out_features] →
  (bias = true → draws (kaiming_uniform out_features 1 None) [out_features; 1]) →
  ∃ l g',
    Linear.__init__ in_features out_features bias g = (Some l, g') ∧
    Linear.well_formed l ∧
    Linear.in_features l = in_features ∧ Linear.out_features l = out_features ∧
    (is_Some (Linear.bias l) ↔ bias = true).
Proof.
  intros Hweight Hbias. unfold Linear.__init__.
  destruct (Hweight g) as (w & g1 & Hw & Hshw & Hwfw).
  erewrite run_bind_returns by exact Hw.
  destruct bias.
  - destruct (Hbias eq_refl g1) as (b & g2 & Hb & Hshb & Hwfb).
    rewrite ?run_bind_assoc. erewrite run_bind_returns by exact Hb.
    assert (prod [1; out_features] = prod (shape b)) as Hprod
      by (rewrite Hshb; simpl; lia).
    rewrite ?run_bind_assoc.
    erewrite run_bind_lift_Some by exact (reshape_Some b _ Hprod).
    rewrite !run_bind_ret. eexists _, g2. split; [done|].
    split_and!; [|done..|by split].
    split; [by split|]. cbn. intros ? [= <-]. split; [done|].
    unfold wf in *. cbn. rewrite Hwfb, Hshb. simpl. lia.
  - rewrite !run_bind_ret. eexists _, g1. split; [done|].
    split_and!; [|done..|].
    + split; [by split|]. by intros ? [=].
    + cbn. split; [by intros [? ?]|done].
Qed.

Lemma ConvBN_init_returns (eps momentum : F) (in_channels out_channels k s : nat)
    (g : G) :
  lawful_initializers → in_channels * k ^ 2 ≠ 0 →
  ∃ block g',
    ConvBN.__init__ eps momentum in_channels out_channels (an_int k) (an_int s) true g
    = (Some block, g') ∧
    ConvBN.fits (in_channels, out_channels, k, s) block.
Proof.
  intros (Hrand & _ & Hkaiming) Hfan. unfold ConvBN.__init__.
  destruct (Conv_init_returns in_channels out_channels k s true g)
    as (conv & g' & Hconv & Hwf & Hin & Hout & Hk & Hs & _);
    [by apply Hkaiming|done|by right|].
  erewrite run_bind_returns by exact Hconv.
  eexists _, g'. split; [done|].
  unfold ConvBN.fits. cbn [ConvBN.conv ConvBN.batch_norm].
  split_and!; [done..| |done].
  repeat split; apply wf_tabulate.
Qed.

Lemma mapM_returns {A B} (P : A → B → Prop) (f : A → Run G B) (l : list A) :
  Forall (λ x, ∀ g, ∃ y g', f x g = (Some y, g') ∧ P x y) l →
  ∀ g, ∃ ys g', mapM f l g = (Some ys, g') ∧ Forall2 P l ys.
Proof.
  induction 1 as [|x l Hx _ IH]; intros g.
  - by exists [], g.
  - destruct (Hx g) as (y & g1 & Hy & HP).
    destruct (IH g1) as (ys & g2 & Hys & HPs).
    exists (y :: ys), g2. split; [|by constructor].
    cbn [mapM]. erewrite run_bind_returns by exact Hy.
    erewrite run_bind_returns by exact Hys. done.
Qed.

Lemma ResNet9_init_returns (eps momentum : F) (g : G) :
  lawful_initializers →
  ∃ model g',
    ResNet9.__init__ eps momentum g = (Some model, g') ∧
    ResNet9.well_formed model.
Proof.
  intros Hlaw. unfold ResNet9.__init__.
  destruct (mapM_returns ConvBN.fits
              (λ '(in_channels, out_channels, kernel_size, stride),
                 ConvBN.__init__ eps momentum in_channels out_channels
                   (an_int kernel_size) (an_int stride) true)
              ResNet9.conv_bn_args) with (g := g) as (blocks & g1 & Hblocks & Hfits).
  { unfold ResNet9.conv_bn_args.
    repeat constructor; intros g0; by apply ConvBN_init_returns. }
  erewrite run_bind_returns by exact Hblocks.
  destruct (mapM_returns
              (λ '(in_features, out_features) layer,
                 Linear.well_formed layer ∧
                 Linear.in_features layer = in_features ∧
                 Linear.out_features layer = out_features ∧
                 is_Some (Linear.bias layer))
              (λ '(in_features, out_features),
                 Linear.__init__ in_features out_features true)
              ResNet9.linear_args) with (g := g1) as (lins & g2 & Hlins & Hwf).
  { destruct Hlaw as (_ & Hkaiming & _). unfold ResNet9.linear_args.
    repeat constructor; intros g0.
    - destruct (Linear_init_returns 128 128 true g0)
        as (l & g' & Hl & Hwfl & Hin & Hout & Hb);
        [by apply Hkaiming|by intros _; apply Hkaiming|].
      exists l, g'. split_and!; [done..|by apply Hb].
    - destruct (Linear_init_returns 128 10 true g0)
        as (l & g' & Hl & Hwfl & Hin & Hout & Hb);
        [by apply Hkaiming|by intros _; apply Hkaiming|].
      exists l, g'. split_and!; [done..|by apply Hb]. }
  erewrite run_bind_returns by exact Hlins.
  eexists _, g2. split; [done|]. by split.
Qed.
End constructors_of_models.

(** X20.  With initializers that return tensors of the requested shape,
    `Linear(in_features, out_features, bias)` returns a layer whose weight
    has shape (in_features, out_features) and whose bias, present exactly
    when asked for, is the (out_features, 1) draw reshaped to the row
    (1, out_features); the reshape never fails.  The layer accepts every
    input of shape (batch, in_features) and returns a tensor of shape
    (batch, out_features). *)
Theorem Linear_init_then_forward {F G : Type} `{Scalar F} `{Initializers F G}
    (in_features out_features batch : nat) (bias : bool) (X : Tensor F) (g : G) :
  draws (kaiming_uniform in_features out_features None) [in_features; out_features] →
  (bias = true → draws (kaiming_uniform out_features 1 None) [out_features; 1]) →
  shape X = [batch; in_features] → wf X →
  ∃ l g' Y,
    Linear.__init__ in_features out_features bias g = (Some l, g') ∧
    (shape (Linear.weight l) = [in_features; out_features] ∧ wf (Linear.weight l)) ∧
    (∀ b, Linear.bias l = Some b → shape b = [1; out_features] ∧ wf b) ∧
    (is_Some (Linear.bias l) ↔ bias = true) ∧
    Linear.forward l X = Some Y ∧
    shape Y = [batch; out_features] ∧ wf Y.
Proof.
  intros Hweight Hbias HshX HX.
  destruct (Linear_init_returns in_features out_features bias g Hweight Hbias)
    as (l & g' & Hl & Hwf & Hin & Hout & Hb).
  rewrite <-Hin in HshX.
  destruct (Linear_forward_denotes l X batch Hwf HshX HX)
    as (Y & rg & HY & HshY & HwfY & _).
  exists l, g', Y. destruct Hwf as [[Hshw Hwfw] Hbs].
  rewrite Hin, Hout in Hshw. rewrite Hout in HshY.
  split_and!; [done..| |done|done|done|done].
  intros b Hbl. rewrite <-Hout. by apply Hbs.
Qed.

(** X21.  With initializers that return tensors of the requested shape,
    `ResNet9()` returns: it creates the eight ConvBN blocks and the two
    Linear layers in the order of the source, each with the shapes its
    arguments ask for, and the model maps a batch of N three-channel square
    images of size 1 to 32 to logits of shape (N, 10). *)
Theorem ResNet9_init_then_forward {F G : Type} `{Scalar F} `{Rand F G}
    `{Initializers F G}
    (eps momentum : F) (g : G) (X : Tensor F) (n size : nat) :
  lawful_initializers →
  0 < size → size ≤ 32 →
  shape X = [n; 3; size; size] →
  ∃ model g' Y model',
    ResNet9.__init__ eps momentum g = (Some model, g') ∧
    ResNet9.well_formed model ∧
    ResNet9.forward X model = (Some Y, model') ∧
    shape Y = [n; 10] ∧ wf Y ∧
    ResNet9.well_formed model'.
Proof.
  intros Hlaw Hsize Hle HshX.
  destruct (ResNet9_init_returns eps momentum g Hlaw) as (model & g' & Hmodel & Hwf).
  destruct (ResNet9_forward_ok n size X model Hwf Hsize HshX) as [Hok _].
  destruct (Hok Hle) as (Y & model' & HY & HshY & HwfY & Hwf' & _).
  by exists model, g', Y, model'.
Qed.

(** * Part XII: the recurrent stacks *)

Section slices.
Context {F : Type} `{Scalar F}.
Implicit Types (a c : Tensor F) (sh : list nat).

(** The [k]-th slice of [a] along its first axis. *)
Lemma split_0_Some a d sh :
  shape a = d :: sh →
  ops.split a 0
  = Some ((λ k, tabulate sh (λ idx, get a (k :: idx)) (requires_grad a)) <$> seq 0 d).
Proof. intros Hsh. unfold ops.split. by rewrite Hsh. Qed.

Lemma denotes_split_0 a d sh f rg :
  denotes a (d :: sh) f rg →
  ∃ cs, ops.split a 0 = Some cs ∧ length cs = d ∧
        ∀ k c, cs !! k = Some c → denotes c sh (λ idx, f (k :: idx)) rg.
Proof.
  intros (Hsh & Hwf & Hrg & Hget). rewrite (split_0_Some a d sh Hsh).
  eexists. split; [done|]. split; [by rewrite length_fmap, length_seq|].
  intros k c Hc. rewrite list_lookup_fmap in Hc.
  destruct (seq 0 d !! k) as [k'|] eqn:Hk; [|done].
  apply lookup_seq in Hk as [-> Hk]. injection Hc as <-. rewrite Hrg.
  eapply denotes_ext; [apply denotes_tabulate|].
  intros idx Hidx. simpl. apply Hget. by constructor.
Qed.

Lemma stack_0_Some (t0 : Tensor F) (ts : list (Tensor F)) sh :
  Forall (λ t, shape t = sh) (t0 :: ts) →
  ops.stack (t0 :: ts) 0
  = Some (tabulate (S (length ts) :: sh)
            (λ idx, get (nth (nth 0 idx 0) (t0 :: ts) t0) (delete 0 idx))
            (existsb requires_grad (t0 :: ts))).
Proof.
  intros Hall. unfold ops.stack. rewrite decide_True.
  - apply Forall_cons in Hall as [-> _]. done.
  - split; [|lia]. apply Forall_cons in Hall as [Ht0 Hts].
    constructor; [done|]. eapply Forall_impl; [done|]. intros t. congruence.
Qed.

Lemma denotes_stack_0 (ts : list (Tensor F)) sh :
  ts ≠ [] → Forall (λ t, shape t = sh ∧ wf t) ts →
  ∃ c, ops.stack ts 0 = Some c ∧ shape c = length ts :: sh ∧ wf c ∧
       ∀ k t idx, ts !! k = Some t → in_range sh idx → get c (k :: idx) = get t idx.
Proof.
  intros Hne Hall. destruct ts as [|t0 ts]; [done|].
  rewrite (stack_0_Some t0 ts sh).
  - eexists. split; [done|]. split_and!; [done|apply wf_tabulate|].
    intros k t idx Hk Hidx. rewrite get_tabulate.
    + change (nth 0 (k :: idx) 0) with k. change (delete 0 (k :: idx)) with idx.
      by rewrite (nth_lookup_Some _ _ _ _ Hk).
    + constructor; [|done]. apply lookup_lt_Some in Hk. simpl in *. lia.
  - eapply Forall_impl; [done|]. by intros t [? ?].
Qed.

Lemma zip_take_l {A B} (l : list A) (k : list B) :
  zip l k = zip (take (length k) l) k.
Proof.
  revert k. induction l as [|x l IH]; intros [|y k]; simpl; [done..|].
  by rewrite <-IH.
Qed.
End slices.

(** X22.  `RNN.forward` and `LSTM.forward` pair the cells with the slices
    of the initial state by `zip`: given an initial state with k slices
    along its first axis, they run the first k cells only and ignore the
    others, without raising; the result is that of the module made of the
    first k cells. *)
Theorem recurrent_forward_runs_zipped_layers {F} `{Scalar F}
    (rnn : RNN.t F) (lstm : LSTM.t F) (X h0 c0 : Tensor F) (k : nat) (rest : list nat) :
  shape h0 = k :: rest →
  RNN.forward rnn X (Some h0)
  = RNN.forward (RNN.mk (RNN.training rnn) (RNN.hidden_size rnn)
                   (take k (RNN.rnn_cells rnn))) X (Some h0) ∧
  LSTM.forward lstm X (Some (h0, c0))
  = LSTM.forward (LSTM.mk (LSTM.training lstm) (LSTM.hidden_size lstm)
                    (take k (LSTM.lstm_cells lstm))) X (Some (h0, c0)).
Proof.
  intros Hsh. pose proof (split_0_Some h0 k rest Hsh) as Hh0s.
  split.
  - unfold RNN.forward. destruct (shape X) as [|? [|batch_size [|? [|]]]]; try done.
    cbn [from_option RNN.rnn_cells RNN.hidden_size]. unfold Datatypes.id.
    rewrite Hh0s. cbn [mbind option_bind].
    rewrite (zip_take_l (RNN.rnn_cells rnn)). by rewrite length_fmap, length_seq.
  - unfold LSTM.forward. destruct (shape X) as [|? [|batch_size [|? [|]]]]; try done.
    cbn [from_option LSTM.lstm_cells LSTM.hidden_size]. unfold Datatypes.id.
    rewrite Hh0s. cbn [mbind option_bind].
    destruct (ops.split c0 0) as [c0s|]; [|done]. cbn [mbind option_bind].
    rewrite (zip_take_l (LSTM.lstm_cells lstm)). by rewrite length_fmap, length_seq.
Qed.

(** X23.  On a sequence of length 0, `RNN.forward` and `LSTM.forward` of a
    module with at least one cell raise when no initial state is given:
    the first layer produces no hidden state, and there is nothing to stack
    and no last state to return. *)
Theorem recurrent_forward_rejects_empty_sequence {F} `{Scalar F}
    (rnn : RNN.t F) (lstm : LSTM.t F) (X : Tensor F) (bs features : nat) :
  shape X = [0; bs; features] →
  (RNN.rnn_cells rnn ≠ [] → RNN.forward rnn X None = None) ∧
  (LSTM.lstm_cells lstm ≠ [] → LSTM.forward lstm X None = None).
Proof.
  intros HshX. pose proof (split_0_Some X 0 _ HshX) as HXs. split.
  - intros Hcells. unfold RNN.forward. rewrite HshX.
    cbn [from_option]. unfold init.zeros.
    rewrite (split_0_Some _ (length (RNN.rnn_cells rnn)) [bs; RNN.hidden_size rnn])
      by done.
    cbn [mbind option_bind].
    destruct (RNN.rnn_cells rnn) as [|cell cells]; [done|].
    cbn [length seq fmap list_fmap zip zip_with RNN.over_layers].
    rewrite HXs. by cbn.
  - intros Hcells. unfold LSTM.forward. rewrite HshX.
    cbn [from_option]. unfold init.zeros.
    rewrite (split_0_Some _ (length (LSTM.lstm_cells lstm)) [bs; LSTM.hidden_size lstm])
      by done.
    cbn [mbind option_bind].
    destruct (LSTM.lstm_cells lstm) as [|cell cells]; [done|].
    cbn [length seq fmap list_fmap zip zip_with LSTM.over_layers].
    rewrite HXs. by cbn.
Qed.

(** X24.  With one layer and a sequence of length 1, `RNN.forward` is one
    invocation of the cell on the first slice of the input and the first
    slice of the initial state; the output and the final state are both the
    result stacked along a new first axis.  `LSTM.forward` likewise is one
    invocation of its cell, the output and the final hidden state being the
    stacked h', the final cell state the stacked c'. *)
Theorem recurrent_forward_single_step {F} `{Scalar F}
    (rnn_cell : RNNCell.t F) (lstm_cell : LSTMCell.t F) (X h0 c0 : Tensor F)
    (training : bool) (hidden_size bs features : nat) (sh sh' : list nat) :
  shape X = [1; bs; features] → shape h0 = 1 :: sh → shape c0 = 1 :: sh' →
  let slice (a : Tensor F) (sh : list nat) :=
    tabulate sh (λ idx, get a (0 :: idx)) (requires_grad a) in
  RNN.forward (RNN.mk training hidden_size [rnn_cell]) X (Some h0)
  = (h ← RNNCell.forward rnn_cell (slice X [bs; features]) (Some (slice h0 sh));
     out ← ops.stack [h] 0;
     Some (out, out)) ∧
  LSTM.forward (LSTM.mk training hidden_size [lstm_cell]) X (Some (h0, c0))
  = ('(h, c) ← LSTMCell.forward lstm_cell (slice X [bs; features])
                  (Some (slice h0 sh, slice c0 sh'));
     out ← ops.stack [h] 0;
     c_n ← ops.stack [c] 0;
     Some (out, (out, c_n))).
Proof.
  intros HshX Hshh Hshc slice.
  pose proof (split_0_Some X 1 _ HshX) as HXs.
  pose proof (split_0_Some h0 1 _ Hshh) as Hhs.
  pose proof (split_0_Some c0 1 _ Hshc) as Hcs.
  cbn [seq fmap list_fmap] in HXs, Hhs, Hcs. split.
  - unfold RNN.forward. rewrite HshX. cbn [from_option]. unfold Datatypes.id.
    rewrite Hhs. cbn [mbind option_bind RNN.rnn_cells zip zip_with RNN.over_layers].
    rewrite HXs. cbn [mbind option_bind RNN.over_time]. fold (slice X [bs; features]).
    fold (slice h0 sh).
    destruct (RNNCell.forward rnn_cell _ _) as [h|]; [|done].
    cbn [mbind option_bind app].
    destruct (ops.stack [h] 0) as [out|] eqn:Hout; [|done].
    cbn [mbind option_bind last app RNN.over_layers]. by rewrite Hout.
  - unfold LSTM.forward. rewrite HshX. cbn [from_option]. unfold Datatypes.id.
    rewrite Hhs, Hcs.
    cbn [mbind option_bind LSTM.lstm_cells zip zip_with LSTM.over_layers].
    rewrite HXs. cbn [mbind option_bind LSTM.over_time]. fold (slice X [bs; features]).
    fold (slice h0 sh). fold (slice c0 sh').
    destruct (LSTMCell.forward lstm_cell _ _) as [[h c]|]; [|done].
    cbn [mbind option_bind app].
    destruct (ops.stack [h] 0) as [out|] eqn:Hout; [|done].
    cbn [mbind option_bind last app LSTM.over_layers]. rewrite Hout.
    cbn [mbind option_bind]. by destruct (ops.stack [c] 0).
Qed.

Section rnn_stack.
Context {F : Type} `{Scalar F}.
Implicit Types (cell : RNNCell.t F) (X : Tensor F).

Lemma shaped_denotes (t : Tensor F) sh :
  shaped sh t → denotes t sh (get t) (requires_grad t).
Proof. intros [<- Hwf]. by apply denotes_get. Qed.

Lemma split_0_shaped (a : Tensor F) d sh :
  shaped (d :: sh) a →
  ∃ cs, ops.split a 0 = Some cs ∧ length cs = d ∧ Forall (shaped sh) cs ∧
        ∀ k c idx, cs !! k = Some c → in_range sh idx → get c idx = get a (k :: idx).
Proof.
  intros Ha. destruct (denotes_split_0 _ _ _ _ _ (shaped_denotes _ _ Ha))
    as (cs & Hcs & Hlen & Dcs).
  exists cs. split_and!; [done..| |].
  - apply Forall_lookup. intros k c Hc. by destruct (Dcs k c Hc) as (? & ? & _).
  - intros k c idx Hc Hidx. destruct (Dcs k c Hc) as (_ & _ & _ & Hget). by apply Hget.
Qed.

Lemma stack_0_shaped (ts : list (Tensor F)) sh :
  ts ≠ [] → Forall (shaped sh) ts →
  ∃ c, ops.stack ts 0 = Some c ∧ shaped (length ts :: sh) c ∧
       ∀ k t idx, ts !! k = Some t → in_range sh idx → get c (k :: idx) = get t idx.
Proof.
  intros Hne Hall. destruct (denotes_stack_0 ts sh Hne Hall) as (c & Hc & Hsh & Hwf & Hget).
  exists c. by split_and!.
Qed.

Lemma RNNCell_forward_shaped cell X (h : Tensor F) bs input_size :
  RNNCell.well_formed cell input_size →
  shaped [bs; input_size] X → shaped [bs; RNNCell.hidden_size cell] h →
  ∃ h', RNNCell.forward cell X (Some h) = Some h' ∧
        shaped [bs; RNNCell.hidden_size cell] h'.
Proof.
  intros Hcell [HshX HX] [Hshh Hh].
  destruct (RNNCell_forward_denotes cell X h bs input_size Hcell HshX HX Hshh Hh)
    as (h' & rg & Hh' & Hsh' & Hwf' & _).
  exists h'. by split_and!.
Qed.

Lemma RNN_over_time_ok cell (Xs : list (Tensor F)) bs input_size :
  RNNCell.well_formed cell input_size →
  Forall (shaped [bs; input_size]) Xs →
  ∀ h_prev hs,
    shaped [bs; RNNCell.hidden_size cell] h_prev →
    ∃ new, RNN.over_time cell Xs h_prev hs = Some (hs ++ new) ∧
           length new = length Xs ∧
           Forall (shaped [bs; RNNCell.hidden_size cell]) new.
Proof.
  intros Hcell. induction 1 as [|X Xs HX _ IH]; intros h_prev hs Hh.
  - exists []. by rewrite app_nil_r.
  - destruct (RNNCell_forward_shaped cell X h_prev bs input_size Hcell HX Hh)
      as (h & Hfw & Hshh).
    destruct (IH h (hs ++ [h]) Hshh) as (new & Hnew & Hlen & Hall).
    exists (h :: new). cbn [RNN.over_time]. opt_with Hfw.
    rewrite Hnew, <-app_assoc. split_and!; [done|simpl; lia|by constructor].
Qed.

Lemma RNN_over_layers_ok (layers : list (RNNCell.t F * Tensor F)) seq_len bs hidden_size :
  0 < seq_len →
  ∀ input_size X_prev hn_output,
    rnn_cells_fit input_size hidden_size layers.*1 →
    Forall (shaped [bs; hidden_size]) layers.*2 →
    shaped [seq_len; bs; input_size] X_prev →
    ∃ out new,
      RNN.over_layers layers X_prev hn_output = Some (out, hn_output ++ new) ∧
      length new = length layers ∧
      Forall (shaped [bs; hidden_size]) new ∧
      shaped [seq_len; bs; match layers with [] => input_size | _ => hidden_size end]
             out ∧
      (∀ h_last idx, last new = Some h_last → in_range [bs; hidden_size] idx →
         get out ((seq_len - 1) :: idx) = get h_last idx).
Proof.
  intros Hlen. induction layers as [|[cell h_prev] layers IH];
    intros input_size X_prev hn_output Hfit Hstates HX.
  - exists X_prev, []. rewrite app_nil_r. by split_and!.
  - cbn [fmap list_fmap fst snd rnn_cells_fit] in Hfit, Hstates.
    destruct Hfit as (Hcell & Hhid & Hfit).
    apply Forall_cons in Hstates as [Hh Hstates]. rewrite <-Hhid in Hh.
    destruct (split_0_shaped X_prev _ _ HX) as (Xs & HXs & HlenXs & HallXs & _).
    destruct (RNN_over_time_ok cell Xs bs input_size Hcell HallXs h_prev [] Hh)
      as (hs & Hhs & Hlenhs & Hallhs).
    rewrite Hhid in Hallhs. cbn [app] in Hhs.
    assert (hs ≠ []) as Hne.
    { intros ->. simpl in Hlenhs. lia. }
    destruct (stack_0_shaped hs _ Hne Hallhs) as (X' & HX' & HshX' & HgetX').
    assert (∃ h_n, last hs = Some h_n ∧ hs !! (seq_len - 1) = Some h_n) as
      (h_n & Hlast & Hh_n).
    { rewrite last_lookup.
      replace (Init.Nat.pred (length hs)) with (seq_len - 1) by lia.
      destruct (hs !! (seq_len - 1)) as [h_n|] eqn:Hl; [by eauto|].
      apply lookup_ge_None in Hl. lia. }
    assert (shaped [bs; hidden_size] h_n) as Hshh_n.
    { rewrite Forall_lookup in Hallhs. by eapply Hallhs. }
    rewrite Hlenhs, HlenXs in HshX'.
    destruct (IH hidden_size X' (hn_output ++ [h_n]) Hfit Hstates HshX')
      as (out & new & Hout & Hlennew & Hallnew & Hshout & Hgetout).
    exists out, (h_n :: new). cbn [RNN.over_layers].
    opt_with HXs. opt_with Hhs. opt_with HX'. opt_with Hlast.
    rewrite Hout, <-app_assoc.
    split_and!; [done|simpl; lia|by constructor| |].
    + by destruct layers.
    + intros h_last idx Hl Hidx. destruct new as [|h' new'].
      * cbn in Hl. injection Hl as <-.
        destruct layers; [|done]. cbn in Hout. injection Hout as <-.
        by apply HgetX'.
      * apply Hgetout; [|done]. by rewrite <-Hl.
Qed.

Lemma RNN_forward_ok (self : RNN.t F) X (h0 : option (Tensor F))
    (seq_len bs input_size : nat) :
  0 < seq_len → RNN.rnn_cells self ≠ [] →
  rnn_cells_fit input_size (RNN.hidden_size self) (RNN.rnn_cells self) →
  shaped [seq_len; bs; input_size] X →
  (∀ h, h0 = Some h →
        shaped [length (RNN.rnn_cells self); bs; RNN.hidden_size self] h) →
  ∃ out h_n,
    RNN.forward self X h0 = Some (out, h_n) ∧
    shaped [seq_len; bs; RNN.hidden_size self] out ∧
    shaped [length (RNN.rnn_cells self); bs; RNN.hidden_size self] h_n ∧
    ∀ idx, in_range [bs; RNN.hidden_size self] idx →
      get h_n ((length (RNN.rnn_cells self) - 1) :: idx)
      = get out ((seq_len - 1) :: idx).
Proof.
  intros Hlen Hcells Hfit HX Hh0.
  set (L := length (RNN.rnn_cells self)) in *.
  set (hid := RNN.hidden_size self) in *.
  assert (shaped [L; bs; hid] (default (init.zeros [L; bs; hid]) h0)) as Hstate.
  { destruct h0 as [h|]; [by apply Hh0|]. split; [done|apply wf_tabulate]. }
  unfold RNN.forward. rewrite (proj1 HX). fold L hid.
  destruct (split_0_shaped _ _ _ Hstate) as (h0s & Hh0s & Hlenh0s & Hallh0s & _).
  opt_with Hh0s.
  destruct (RNN_over_layers_ok (zip (RNN.rnn_cells self) h0s) seq_len bs hid Hlen
              input_size X []) as (out & new & Hout & Hlennew & Hallnew & Hshout & Hget).
  { by rewrite fst_zip by lia. }
  { by rewrite snd_zip by lia. }
  { done. }
  cbn [app] in Hout. opt_with Hout.
  rewrite length_zip, Hlenh0s, Nat.min_id in Hlennew. fold L in Hlennew.
  assert (new ≠ []) as Hne.
  { intros ->. destruct (RNN.rnn_cells self); [done|]. simpl in *. lia. }
  destruct (stack_0_shaped new _ Hne Hallnew) as (h_n & Hh_n & Hshh_n & Hgeth_n).
  opt_with Hh_n. exists out, h_n. split; [done|].
  rewrite Hlennew in Hshh_n. split_and!; [|done|].
  - destruct (zip (RNN.rnn_cells self) h0s) eqn:Hz; [|done].
    apply (f_equal length) in Hz. rewrite length_zip in Hz. simpl in Hz.
    destruct new; [done|]. simpl in *. lia.
  - intros idx Hidx.
    assert (∃ h_last, last new = Some h_last ∧ new !! (L - 1) = Some h_last) as
      (h_last & Hlast & Hl).
    { rewrite last_lookup.
      replace (Init.Nat.pred (length new)) with (L - 1) by lia.
      destruct (new !! (L - 1)) as [h_last|] eqn:Hl; [by eauto|].
      apply lookup_ge_None in Hl. destruct new; [done|]. simpl in *. lia. }
    rewrite (Hgeth_n _ _ _ Hl Hidx). symmetry. by apply Hget.
Qed.
End rnn_stack.

(** X25.  For a stack of RNN cells that fit each other (the first for
    input_size features, the others for hidden_size) and a sequence X of
    shape (seq_len, bs, input_size) with seq_len > 0, `RNN.forward` returns,
    with or without an initial state of shape (num_layers, bs,
    hidden_size): the output has shape (seq_len, bs, hidden_size), the final
    state (num_layers, bs, hidden_size), and the last slice of the final
    state is the last time step of the output. *)
Theorem RNN_forward_shapes {F} `{Scalar F}
    (self : RNN.t F) (X : Tensor F) (h0 : option (Tensor F))
    (seq_len bs input_size : nat) :
  0 < seq_len → RNN.rnn_cells self ≠ [] →
  rnn_cells_fit input_size (RNN.hidden_size self) (RNN.rnn_cells self) →
  shaped [seq_len; bs; input_size] X →
  (∀ h, h0 = Some h →
        shaped [length (RNN.rnn_cells self); bs; RNN.hidden_size self] h) →
  ∃ out h_n,
    RNN.forward self X h0 = Some (out, h_n) ∧
    shaped [seq_len; bs; RNN.hidden_size self] out ∧
    shaped [length (RNN.rnn_cells self); bs; RNN.hidden_size self] h_n ∧
    ∀ b j, b < bs → j < RNN.hidden_size self →
      get h_n [length (RNN.rnn_cells self) - 1; b; j] = get out [seq_len - 1; b; j].
Proof.
  intros Hlen Hcells Hfit HX Hh0.
  destruct (RNN_forward_ok self X h0 seq_len bs input_size Hlen Hcells Hfit HX Hh0)
    as (out & h_n & Hfw & Hout & Hh_n & Hget).
  exists out, h_n. split_and!; [done..|].
  intros b j Hb Hj. apply Hget. apply in_range_2. eauto.
Qed.

Section lstm_stack.
Context {F : Type} `{Scalar F}.
Implicit Types (cell : LSTMCell.t F) (X : Tensor F).

Lemma LSTMCell_forward_shaped cell X (h c : Tensor F) bs input_size :
  LSTMCell.well_formed cell input_size →
  shaped [bs; input_size] X →
  shaped [bs; LSTMCell.hidden_size cell] h →
  shaped [bs; LSTMCell.hidden_size cell] c →
  ∃ h' c', LSTMCell.forward cell X (Some (h, c)) = Some (h', c') ∧
           shaped [bs; LSTMCell.hidden_size cell] h' ∧
           shaped [bs; LSTMCell.hidden_size cell] c'.
Proof.
  intros Hcell [HshX HX] [Hshh Hh] [Hshc Hc].
  destruct (forward_gates cell X h c bs input_size Hcell HshX HX Hshh Hh Hshc Hc)
    as (h' & c' & rgh & rgc & Hfw & (? & ? & _) & (? & ? & _)).
  exists h', c'. by split_and!.
Qed.

Lemma LSTM_over_time_ok cell (Xs : list (Tensor F)) bs input_size :
  LSTMCell.well_formed cell input_size →
  Forall (shaped [bs; input_size]) Xs →
  ∀ h_prev c_prev hs cs,
    shaped [bs; LSTMCell.hidden_size cell] h_prev →
    shaped [bs; LSTMCell.hidden_size cell] c_prev →
    ∃ new_h new_c,
      LSTM.over_time cell Xs h_prev c_prev hs cs = Some (hs ++ new_h, cs ++ new_c) ∧
      length new_h = length Xs ∧ length new_c = length Xs ∧
      Forall (shaped [bs; LSTMCell.hidden_size cell]) new_h ∧
      Forall (shaped [bs; LSTMCell.hidden_size cell]) new_c.
Proof.
  intros Hcell. induction 1 as [|X Xs HX _ IH]; intros h_prev c_prev hs cs Hh Hc.
  - exists [], []. by rewrite !app_nil_r.
  - destruct (LSTMCell_forward_shaped cell X h_prev c_prev bs input_size Hcell HX Hh Hc)
      as (h & c & Hfw & Hshh & Hshc).
    destruct (IH h c (hs ++ [h]) (cs ++ [c]) Hshh Hshc)
      as (new_h & new_c & Hnew & Hlenh & Hlenc & Hallh & Hallc).
    exists (h :: new_h), (c :: new_c). cbn [LSTM.over_time]. opt_with Hfw.
    cbv beta iota.
    rewrite Hnew, <-!app_assoc.
    split_and!; [done|simpl; lia|simpl; lia|by constructor|by constructor].
Qed.

Lemma last_of_length (ts : list (Tensor F)) n :
  length ts = n → 0 < n → ∃ t, last ts = Some t ∧ ts !! (n - 1) = Some t.
Proof.
  intros Hlen Hn. rewrite last_lookup.
  replace (Init.Nat.pred (length ts)) with (n - 1) by lia.
  destruct (ts !! (n - 1)) as [t|] eqn:Hl; [by eauto|].
  apply lookup_ge_None in Hl. lia.
Qed.

Lemma LSTM_over_layers_ok (layers : list (LSTMCell.t F * Tensor F * Tensor F))
    seq_len bs hidden_size :
  0 < seq_len →
  ∀ input_size X_prev hn_output cn_output,
    lstm_cells_fit input_size hidden_size layers.*1.*1 →
    Forall (shaped [bs; hidden_size]) layers.*1.*2 →
    Forall (shaped [bs; hidden_size]) layers.*2 →
    shaped [seq_len; bs; input_size] X_prev →
    ∃ out new_h new_c,
      LSTM.over_layers layers X_prev hn_output cn_output
      = Some (out, hn_output ++ new_h, cn_output ++ new_c) ∧
      length new_h = length layers ∧ length new_c = length layers ∧
      Forall (shaped [bs; hidden_size]) new_h ∧
      Forall (shaped [bs; hidden_size]) new_c ∧
      shaped [seq_len; bs; match layers with [] => input_size | _ => hidden_size end]
             out ∧
      (∀ h_last idx, last new_h = Some h_last → in_range [bs; hidden_size] idx →
         get out ((seq_len - 1) :: idx) = get h_last idx).
Proof.
  intros Hlen. induction layers as [|[[cell h_prev] c_prev] layers IH];
    intros input_size X_prev hn_output cn_output Hfit Hhs Hcs HX.
  - exists X_prev, [], []. rewrite !app_nil_r. by split_and!.
  - cbn [fmap list_fmap fst snd lstm_cells_fit] in Hfit, Hhs, Hcs.
    destruct Hfit as (Hcell & Hhid & Hfit).
    apply Forall_cons in Hhs as [Hh Hhs]. rewrite <-Hhid in Hh.
    apply Forall_cons in Hcs as [Hc Hcs]. rewrite <-Hhid in Hc.
    destruct (split_0_shaped X_prev _ _ HX) as (Xs & HXs & HlenXs & HallXs & _).
    destruct (LSTM_over_time_ok cell Xs bs input_size Hcell HallXs h_prev c_prev [] []
                Hh Hc)
      as (hs & cs & Hover & Hlenhs & Hlencs & Hallhs & Hallcs).
    rewrite Hhid in Hallhs, Hallcs. cbn [app] in Hover.
    assert (hs ≠ []) as Hne.
    { intros ->. simpl in Hlenhs. lia. }
    destruct (stack_0_shaped hs _ Hne Hallhs) as (X' & HX' & HshX' & HgetX').
    destruct (last_of_length hs seq_len) as (h_n & Hlasth & Hh_n); [lia..|].
    destruct (last_of_length cs seq_len) as (c_n & Hlastc & Hc_n); [lia..|].
    assert (shaped [bs; hidden_size] h_n) as Hshh_n.
    { rewrite Forall_lookup in Hallhs. by eapply Hallhs. }
    assert (shaped [bs; hidden_size] c_n) as Hshc_n.
    { rewrite Forall_lookup in Hallcs. by eapply Hallcs. }
    rewrite Hlenhs, HlenXs in HshX'.
    destruct (IH hidden_size X' (hn_output ++ [h_n]) (cn_output ++ [c_n])
                Hfit Hhs Hcs HshX')
      as (out & new_h & new_c & Hout & Hlennh & Hlennc & Hallnh & Hallnc & Hshout & Hgetout).
    exists out, (h_n :: new_h), (c_n :: new_c). cbn [LSTM.over_layers].
    opt_with HXs. opt_with Hover. cbv beta iota.
    opt_with HX'. opt_with Hlasth. opt_with Hlastc.
    rewrite Hout, <-!app_assoc.
    split_and!; [done|simpl; lia|simpl; lia|by constructor|by constructor| |].
    + by destruct layers.
    + intros h_last idx Hl Hidx. destruct new_h as [|h' new_h'].
      * cbn in Hl. injection Hl as <-.
        destruct layers; [|done]. cbn in Hout. injection Hout as <- _ _.
        by apply HgetX'.
      * apply Hgetout; [|done]. by rewrite <-Hl.
Qed.

Lemma LSTM_forward_ok (self : LSTM.t F) X (h : option (Tensor F * Tensor F))
    (seq_len bs input_size : nat) :
  0 < seq_len → LSTM.lstm_cells self ≠ [] →
  lstm_cells_fit input_size (LSTM.hidden_size self) (LSTM.lstm_cells self) →
  shaped [seq_len; bs; input_size] X →
  (∀ h0 c0, h = Some (h0, c0) →
     shaped [length (LSTM.lstm_cells self); bs; LSTM.hidden_size self] h0 ∧
     shaped [length (LSTM.lstm_cells self); bs; LSTM.hidden_size self] c0) →
  ∃ out h_n c_n,
    LSTM.forward self X h = Some (out, (h_n, c_n)) ∧
    shaped [seq_len; bs; LSTM.hidden_size self] out ∧
    shaped [length (LSTM.lstm_cells self); bs; LSTM.hidden_size self] h_n ∧
    shaped [length (LSTM.lstm_cells self); bs; LSTM.hidden_size self] c_n ∧
    ∀ idx, in_range [bs; LSTM.hidden_size self] idx →
      get h_n ((length (LSTM.lstm_cells self) - 1) :: idx)
      = get out ((seq_len - 1) :: idx).
Proof.
  intros Hlen Hcells Hfit HX Hh.
  set (L := length (LSTM.lstm_cells self)) in *.
  set (hid := LSTM.hidden_size self) in *.
  assert (∃ h0 c0,
            default (init.zeros [L; bs; hid], init.zeros [L; bs; hid]) h = (h0, c0) ∧
            shaped [L; bs; hid] h0 ∧ shaped [L; bs; hid] c0) as
    (h0 & c0 & Hdefault & Hh0 & Hc0).
  { destruct h as [[h0 c0]|].
    - exists h0, c0. split; [done|]. by apply Hh.
    - eexists _, _. split; [done|]. split; (split; [done|apply wf_tabulate]). }
  unfold LSTM.forward. rewrite (proj1 HX). fold L hid. rewrite Hdefault.
  destruct (split_0_shaped _ _ _ Hh0) as (h0s & Hh0s & Hlenh0s & Hallh0s & _).
  destruct (split_0_shaped _ _ _ Hc0) as (c0s & Hc0s & Hlenc0s & Hallc0s & _).
  opt_with Hh0s. opt_with Hc0s.
  destruct (LSTM_over_layers_ok (zip (zip (LSTM.lstm_cells self) h0s) c0s)
              seq_len bs hid Hlen input_size X [] [])
    as (out & new_h & new_c & Hout & Hlennh & Hlennc & Hallnh & Hallnc & Hshout & Hget).
  { rewrite fst_zip by (rewrite length_zip; lia). by rewrite fst_zip by lia. }
  { rewrite fst_zip by (rewrite length_zip; lia). by rewrite snd_zip by lia. }
  { by rewrite snd_zip by (rewrite length_zip; lia). }
  { done. }
  cbn [app] in Hout. opt_with Hout. cbv beta iota.
  rewrite !length_zip, Hlenh0s, Hlenc0s, !Nat.min_id in Hlennh, Hlennc.
  fold L in Hlennh, Hlennc.
  assert (0 < L) as HL.
  { subst L. destruct (LSTM.lstm_cells self); [done|]. simpl. lia. }
  assert (new_h ≠ []) as Hneh by (intros ->; simpl in *; lia).
  assert (new_c ≠ []) as Hnec by (intros ->; simpl in *; lia).
  destruct (stack_0_shaped new_h _ Hneh Hallnh) as (h_n & Hh_n & Hshh_n & Hgeth_n).
  destruct (stack_0_shaped new_c _ Hnec Hallnc) as (c_n & Hc_n & Hshc_n & _).
  opt_with Hh_n. opt_with Hc_n. exists out, h_n, c_n. split; [done|].
  rewrite Hlennh in Hshh_n. rewrite Hlennc in Hshc_n. split_and!; [|done..|].
  - destruct (zip (zip (LSTM.lstm_cells self) h0s) c0s) eqn:Hz; [|done].
    apply (f_equal length) in Hz. rewrite !length_zip in Hz. simpl in Hz. lia.
  - intros idx Hidx.
    destruct (last_of_length new_h L Hlennh HL) as (h_last & Hlast & Hl).
    rewrite (Hgeth_n _ _ _ Hl Hidx). symmetry. by apply Hget.
Qed.
End lstm_stack.

(** X26.  For a stack of LSTM cells that fit each other and a sequence X
    of shape (seq_len, bs, input_size) with seq_len > 0, `LSTM.forward`
    returns, with or without an initial state (h0, c0) of shape
    (num_layers, bs, hidden_size) each: the output has shape
    (seq_len, bs, hidden_size), the final hidden and cell states have shape
    (num_layers, bs, hidden_size), and the last slice of the final hidden
    state is the last time step of the output. *)
Theorem LSTM_forward_shapes {F} `{Scalar F}
    (self : LSTM.t F) (X : Tensor F) (h : option (Tensor F * Tensor F))
    (seq_len bs input_size : nat) :
  0 < seq_len → LSTM.lstm_cells self ≠ [] →
  lstm_cells_fit input_size (LSTM.hidden_size self) (LSTM.lstm_cells self) →
  shaped [seq_len; bs; input_size] X →
  (∀ h0 c0, h = Some (h0, c0) →
     shaped [length (LSTM.lstm_cells self); bs; LSTM.hidden_size self] h0 ∧
     shaped [length (LSTM.lstm_cells self); bs; LSTM.hidden_size self] c0) →
  ∃ out h_n c_n,
    LSTM.forward self X h = Some (out, (h_n, c_n)) ∧
    shaped [seq_len; bs; LSTM.hidden_size self] out ∧
    shaped [length (LSTM.lstm_cells self); bs; LSTM.hidden_size self] h_n ∧
    shaped [length (LSTM.lstm_cells self); bs; LSTM.hidden_size self] c_n ∧
    ∀ b j, b < bs → j < LSTM.hidden_size self →
      get h_n [length (LSTM.lstm_cells self) - 1; b; j] = get out [seq_len - 1; b; j].
Proof.
  intros Hlen Hcells Hfit HX Hh.
  destruct (LSTM_forward_ok self X h seq_len bs input_size Hlen Hcells Hfit HX Hh)
    as (out & h_n & c_n & Hfw & Hout & Hh_n & Hc_n & Hget).
  exists out, h_n, c_n. split_and!; [done..|].
  intros b j Hb Hj. apply Hget. apply in_range_2. eauto.
Qed.

Section recurrent_constructors.
Context {F G : Type} `{Scalar F} `{Rand F G}.

(** [rand] returns a tensor of the requested shape. *)
Hypothesis rand_shaped :
  ∀ sh low high g, shaped sh (rand sh low high g).1.

Lemma shaped_as_Parameter (sh : list nat) (t : Tensor F) :
  shaped sh t → shape (as_Parameter t) = sh ∧ wf (as_Parameter t).
Proof. by intros [? ?]. Qed.

Lemma init_rand_shaped (sh : list nat) (low high : F) (g : G) :
  ∃ t g', init_rand.rand sh low high g = (Some t, g') ∧ shaped sh t.
Proof.
  unfold init_rand.rand. pose proof (rand_shaped sh low high g) as Ht.
  destruct (rand sh low high g) as [t g']. by eauto.
Qed.

Lemma RNNCell_init_cases (input_size hidden_size : nat) (bias : bool)
    (nonlinearity : string) (g : G) :
  (hidden_size = 0 →
   RNNCell.__init__ input_size hidden_size bias nonlinearity g = (None, g)) ∧
  (hidden_size ≠ 0 →
   nonlinearity ≠ "relu"%string → nonlinearity ≠ "tanh"%string →
   (RNNCell.__init__ input_size hidden_size bias nonlinearity g).1 = None) ∧
  (hidden_size ≠ 0 →
   nonlinearity = "relu"%string ∨ nonlinearity = "tanh"%string →
   ∃ cell g',
     RNNCell.__init__ input_size hidden_size bias nonlinearity g = (Some cell, g') ∧
     RNNCell.well_formed cell input_size ∧
     RNNCell.hidden_size cell = hidden_size ∧
     (is_Some (RNNCell.bias_ih cell) ↔ bias = true) ∧
     (is_Some (RNNCell.bias_hh cell) ↔ bias = true) ∧
     RNNCell.activation cell
     = (if decide (nonlinearity = "relu"%string) then RNNCell.ReLU_
        else RNNCell.Tanh_)).
Proof.
  set (k := (sone / sof_nat hidden_size)%scalar).
  split_and!.
  - intros ->. unfold RNNCell.__init__. by rewrite run_bind_assert_False by (by intros ?).
  - intros Hh Hrelu Htanh. unfold RNNCell.__init__.
    rewrite run_bind_assert_True by done. fold k.
    destruct (init_rand_shaped [input_size; hidden_size] (- ssqrt k)%scalar (ssqrt k) g)
      as (w1 & g1 & Hw1 & _).
    erewrite run_bind_returns by exact Hw1.
    destruct (init_rand_shaped [hidden_size; hidden_size] (- ssqrt k)%scalar (ssqrt k) g1)
      as (w2 & g2 & Hw2 & _).
    erewrite run_bind_returns by exact Hw2.
    destruct bias.
    + destruct (init_rand_shaped [hidden_size] (- ssqrt k)%scalar (ssqrt k) g2)
        as (b1 & g3 & Hb1 & _).
      destruct (init_rand_shaped [hidden_size] (- ssqrt k)%scalar (ssqrt k) g3)
        as (b2 & g4 & Hb2 & _).
      rewrite ?run_bind_assoc. erewrite run_bind_returns by exact Hb1.
      rewrite ?run_bind_assoc. erewrite run_bind_returns by exact Hb2.
      rewrite !run_bind_ret. rewrite !decide_False by done.
      by rewrite run_bind_lift_None.
    + rewrite !run_bind_ret. rewrite !decide_False by done.
      by rewrite run_bind_lift_None.
  - intros Hh Hnl. unfold RNNCell.__init__.
    rewrite run_bind_assert_True by done. fold k.
    destruct (init_rand_shaped [input_size; hidden_size] (- ssqrt k)%scalar (ssqrt k) g)
      as (w1 & g1 & Hw1 & Hshw1).
    erewrite run_bind_returns by exact Hw1.
    destruct (init_rand_shaped [hidden_size; hidden_size] (- ssqrt k)%scalar (ssqrt k) g1)
      as (w2 & g2 & Hw2 & Hshw2).
    erewrite run_bind_returns by exact Hw2.
    assert (∀ g0 (bi bh : option (Tensor F)),
      ∃ cell,
        (activation ←
           (if decide (nonlinearity = "relu"%string) then mret RNNCell.ReLU_
            else if decide (nonlinearity = "tanh"%string) then mret RNNCell.Tanh_
                 else @lift G _ None);
         mret (RNNCell.mk true hidden_size (as_Parameter w1) (as_Parameter w2)
                 bi bh activation)) g0 = (Some cell, g0) ∧
        cell = RNNCell.mk true hidden_size (as_Parameter w1) (as_Parameter w2) bi bh
                 (if decide (nonlinearity = "relu"%string) then RNNCell.ReLU_
                  else RNNCell.Tanh_)) as Hact.
    { intros g0 bi bh. destruct (decide (nonlinearity = "relu"%string)) as [->|Hne].
      - by eexists.
      - destruct Hnl as [->| ->]; [done|]. by eexists. }
    destruct bias.
    + destruct (init_rand_shaped [hidden_size] (- ssqrt k)%scalar (ssqrt k) g2)
        as (b1 & g3 & Hb1 & Hshb1).
      destruct (init_rand_shaped [hidden_size] (- ssqrt k)%scalar (ssqrt k) g3)
        as (b2 & g4 & Hb2 & Hshb2).
      rewrite ?run_bind_assoc. erewrite run_bind_returns by exact Hb1.
      rewrite ?run_bind_assoc. erewrite run_bind_returns by exact Hb2.
      rewrite !run_bind_ret.
      destruct (Hact g4 (Some (as_Parameter b1)) (Some (as_Parameter b2)))
        as (cell & Hcell & ->).
      eexists _, g4. split; [exact Hcell|].
      split_and!; [|done|by split|by split|done].
      unfold RNNCell.well_formed.
      cbn [RNNCell.W_ih RNNCell.W_hh RNNCell.bias_ih RNNCell.bias_hh RNNCell.hidden_size].
      repeat (split; [by apply shaped_as_Parameter|]).
      split; intros ? [= <-]; by apply shaped_as_Parameter.
    + rewrite !run_bind_ret.
      destruct (Hact g2 None None) as (cell & Hcell & ->).
      eexists _, g2. split; [exact Hcell|].
      split_and!; [|done| | |done].
      * unfold RNNCell.well_formed.
        cbn [RNNCell.W_ih RNNCell.W_hh RNNCell.bias_ih RNNCell.bias_hh
             RNNCell.hidden_size].
        repeat (split; [by apply shaped_as_Parameter|]).
        split; by intros ? [=].
      * cbn. split; [by intros [? ?]|done].
      * cbn. split; [by intros [? ?]|done].
Qed.

Lemma LSTMCell_init_cases (input_size hidden_size : nat) (bias : bool) (g : G) :
  (hidden_size = 0 → LSTMCell.__init__ input_size hidden_size bias g = (None, g)) ∧
  (hidden_size ≠ 0 →
   ∃ cell g',
     LSTMCell.__init__ input_size hidden_size bias g = (Some cell, g') ∧
     LSTMCell.well_formed cell input_size ∧
     LSTMCell.hidden_size cell = hidden_size ∧
     (is_Some (LSTMCell.bias_ih cell) ↔ bias = true) ∧
     (is_Some (LSTMCell.bias_hh cell) ↔ bias = true)).
Proof.
  set (k := (sone / sof_nat hidden_size)%scalar).
  split.
  - intros ->. unfold LSTMCell.__init__.
    by rewrite run_bind_assert_False by (by intros ?).
  - intros Hh. unfold LSTMCell.__init__.
    rewrite run_bind_assert_True by done. fold k.
    destruct (init_rand_shaped [input_size; 4 * hidden_size] (- ssqrt k)%scalar
                (ssqrt k) g) as (w1 & g1 & Hw1 & Hshw1).
    erewrite run_bind_returns by exact Hw1.
    destruct (init_rand_shaped [hidden_size; 4 * hidden_size] (- ssqrt k)%scalar
                (ssqrt k) g1) as (w2 & g2 & Hw2 & Hshw2).
    erewrite run_bind_returns by exact Hw2.
    destruct bias.
    + destruct (init_rand_shaped [4 * hidden_size] (- ssqrt k)%scalar (ssqrt k) g2)
        as (b1 & g3 & Hb1 & Hshb1).
      destruct (init_rand_shaped [4 * hidden_size] (- ssqrt k)%scalar (ssqrt k) g3)
        as (b2 & g4 & Hb2 & Hshb2).
      rewrite ?run_bind_assoc. erewrite run_bind_returns by exact Hb1.
      rewrite ?run_bind_assoc. erewrite run_bind_returns by exact Hb2.
      rewrite !run_bind_ret. eexists _, g4. split; [done|].
      split_and!; [|done|by split|by split].
      unfold LSTMCell.well_formed.
      cbn [LSTMCell.W_ih LSTMCell.W_hh LSTMCell.bias_ih LSTMCell.bias_hh
           LSTMCell.hidden_size].
      repeat (split; [by apply shaped_as_Parameter|]).
      split; intros ? [= <-]; by apply shaped_as_Parameter.
    + rewrite !run_bind_ret. eexists _, g2. split; [done|].
      split_and!; [|done| |].
      * unfold LSTMCell.well_formed.
        cbn [LSTMCell.W_ih LSTMCell.W_hh LSTMCell.bias_ih LSTMCell.bias_hh
             LSTMCell.hidden_size].
        repeat (split; [by apply shaped_as_Parameter|]).
        split; by intros ? [=].
      * cbn. split; [by intros [? ?]|done].
      * cbn. split; [by intros [? ?]|done].
Qed.

Lemma append_cells_returns {C} (P : C → Prop) (n : nat) (make : Run G C) :
  (∀ g, ∃ cell g', make g = (Some cell, g') ∧ P cell) →
  ∀ cells g,
    ∃ new g', RNN.append_cells n make cells g = (Some (cells ++ new), g') ∧
              length new = n ∧ Forall P new.
Proof.
  intros Hmake. induction n as [|n IH]; intros cells g.
  - exists [], g. by rewrite app_nil_r.
  - destruct (Hmake g) as (cell & g1 & Hcell & HP).
    destruct (IH (cells ++ [cell]) g1) as (new & g' & Hnew & Hlen & Hall).
    exists (cell :: new), g'. split_and!; [|simpl; lia|by constructor].
    cbn [RNN.append_cells]. erewrite run_bind_returns by exact Hcell.
    by rewrite Hnew, <-app_assoc.
Qed.

Lemma rnn_cells_fit_Forall (hidden_size : nat) (cells : list (RNNCell.t F)) :
  Forall (λ cell, RNNCell.well_formed cell hidden_size
                  ∧ RNNCell.hidden_size cell = hidden_size) cells →
  rnn_cells_fit hidden_size hidden_size cells.
Proof. induction 1 as [|cell cells [? ?] _ IH]; simpl; [done|by split_and!]. Qed.

Lemma lstm_cells_fit_Forall (hidden_size : nat) (cells : list (LSTMCell.t F)) :
  Forall (λ cell, LSTMCell.well_formed cell hidden_size
                  ∧ LSTMCell.hidden_size cell = hidden_size) cells →
  lstm_cells_fit hidden_size hidden_size cells.
Proof. induction 1 as [|cell cells [? ?] _ IH]; simpl; [done|by split_and!]. Qed.

Lemma RNN_init_fits (input_size hidden_size : nat) (num_layers : Z) (bias : bool)
    (nonlinearity : string) (g : G) :
  hidden_size ≠ 0 →
  nonlinearity = "relu"%string ∨ nonlinearity = "tanh"%string →
  ∃ rnn g',
    RNN.__init__ input_size hidden_size num_layers bias nonlinearity g = (Some rnn, g') ∧
    RNN.hidden_size rnn = hidden_size ∧
    length (RNN.rnn_cells rnn) = Z.to_nat (Z.max num_layers 1) ∧
    rnn_cells_fit input_size hidden_size (RNN.rnn_cells rnn).
Proof.
  intros Hh Hnl. unfold RNN.__init__.
  destruct (RNNCell_init_cases input_size hidden_size bias nonlinearity g)
    as (_ & _ & Hfirst).
  destruct (Hfirst Hh Hnl) as (first & g1 & Hcell & Hwf & Hhid & _).
  erewrite run_bind_returns by exact Hcell.
  destruct (append_cells_returns
              (λ cell, RNNCell.well_formed cell hidden_size
                       ∧ RNNCell.hidden_size cell = hidden_size)
              (Z.to_nat (num_layers - 1))
              (RNNCell.__init__ hidden_size hidden_size bias nonlinearity))
    with (cells := [first]) (g := g1) as (new & g' & Hnew & Hlen & Hall).
  { intros g0.
    destruct (RNNCell_init_cases hidden_size hidden_size bias nonlinearity g0)
      as (_ & _ & Hnext).
    destruct (Hnext Hh Hnl) as (cell & g2 & Hc & Hwfc & Hhidc & _). by eauto 10. }
  erewrite run_bind_returns by exact Hnew.
  eexists _, g'. split; [done|]. cbn [RNN.hidden_size RNN.rnn_cells].
  split_and!; [done|rewrite length_app, Hlen; simpl; lia|].
  cbn [app rnn_cells_fit]. split_and!; [done..|]. by apply rnn_cells_fit_Forall.
Qed.

Lemma LSTM_init_fits (input_size hidden_size : nat) (num_layers : Z) (bias : bool)
    (g : G) :
  hidden_size ≠ 0 →
  ∃ lstm g',
    LSTM.__init__ input_size hidden_size num_layers bias g = (Some lstm, g') ∧
    LSTM.hidden_size lstm = hidden_size ∧
    length (LSTM.lstm_cells lstm) = Z.to_nat (Z.max num_layers 1) ∧
    lstm_cells_fit input_size hidden_size (LSTM.lstm_cells lstm).
Proof.
  intros Hh. unfold LSTM.__init__.
  destruct (LSTMCell_init_cases input_size hidden_size bias g) as (_ & Hfirst).
  destruct (Hfirst Hh) as (first & g1 & Hcell & Hwf & Hhid & _).
  erewrite run_bind_returns by exact Hcell.
  destruct (append_cells_returns
              (λ cell, LSTMCell.well_formed cell hidden_size
                       ∧ LSTMCell.hidden_size cell = hidden_size)
              (Z.to_nat (num_layers - 1))
              (LSTMCell.__init__ hidden_size hidden_size bias))
    with (cells := [first]) (g := g1) as (new & g' & Hnew & Hlen & Hall).
  { intros g0.
    destruct (LSTMCell_init_cases hidden_size hidden_size bias g0) as (_ & Hnext).
    destruct (Hnext Hh) as (cell & g2 & Hc & Hwfc & Hhidc & _). by eauto 10. }
  erewrite run_bind_returns by exact Hnew.
  eexists _, g'. split; [done|]. cbn [LSTM.hidden_size LSTM.lstm_cells].
  split_and!; [done|rewrite length_app, Hlen; simpl; lia|].
  cbn [app lstm_cells_fit]. split_and!; [done..|]. by apply lstm_cells_fit_Forall.
Qed.
End recurrent_constructors.

(** X27.  The constructors of the recurrent cells raise exactly on a
    configuration error: `RNNCell` and `LSTMCell` with hidden_size = 0 raise
    (division by zero) before anything is drawn from the generator;
    `RNNCell` with a nonlinearity other than 'relu' and 'tanh' raises, after
    the weights were drawn.  Otherwise, with a uniform initializer that
    returns tensors of the requested shape, `RNNCell` returns a cell with
    weights of shape (input_size, hidden_size) and (hidden_size,
    hidden_size), both biases of shape (hidden_size,) or none, and the
    activation asked for; `RNN` and `LSTM` return a stack of
    max(num_layers, 1) cells that fit each other. *)
Theorem recurrent_constructors_cases {F G : Type} `{Scalar F} `{Rand F G}
    (input_size hidden_size : nat) (num_layers : Z) (bias : bool)
    (nonlinearity : string) (g : G) :
  (∀ sh low high g, shaped sh (rand sh low high g).1) →
  (hidden_size = 0 →
   RNNCell.__init__ input_size hidden_size bias nonlinearity g = (None, g) ∧
   LSTMCell.__init__ input_size hidden_size bias g = (None, g)) ∧
  (hidden_size ≠ 0 →
   nonlinearity ≠ "relu"%string → nonlinearity ≠ "tanh"%string →
   (RNNCell.__init__ input_size hidden_size bias nonlinearity g).1 = None) ∧
  (hidden_size ≠ 0 →
   nonlinearity = "relu"%string ∨ nonlinearity = "tanh"%string →
   (∃ cell g',
      RNNCell.__init__ input_size hidden_size bias nonlinearity g = (Some cell, g') ∧
      RNNCell.well_formed cell input_size ∧
      RNNCell.hidden_size cell = hidden_size ∧
      (is_Some (RNNCell.bias_ih cell) ↔ bias = true) ∧
      (is_Some (RNNCell.bias_hh cell) ↔ bias = true) ∧
      RNNCell.activation cell
      = (if decide (nonlinearity = "relu"%string) then RNNCell.ReLU_
         else RNNCell.Tanh_)) ∧
   (∃ rnn g',
      RNN.__init__ input_size hidden_size num_layers bias nonlinearity g = (Some rnn, g') ∧
      RNN.hidden_size rnn = hidden_size ∧
      length (RNN.rnn_cells rnn) = Z.to_nat (Z.max num_layers 1) ∧
      rnn_cells_fit input_size hidden_size (RNN.rnn_cells rnn)) ∧
   (∃ lstm g',
      LSTM.__init__ input_size hidden_size num_layers bias g = (Some lstm, g') ∧
      LSTM.hidden_size lstm = hidden_size ∧
      length (LSTM.lstm_cells lstm) = Z.to_nat (Z.max num_layers 1) ∧
      lstm_cells_fit input_size hidden_size (LSTM.lstm_cells lstm))).
Proof.
  intros Hrand.
  destruct (RNNCell_init_cases Hrand input_size hidden_size bias nonlinearity g)
    as (Hzero & Hunknown & Hcell).
  destruct (LSTMCell_init_cases Hrand input_size hidden_size bias g) as (Hzero' & _).
  split_and!.
  - intros Hh. split; [by apply Hzero|by apply Hzero'].
  - done.
  - intros Hh Hnl. split_and!.
    + by apply Hcell.
    + by apply RNN_init_fits.
    + by apply LSTM_init_fits.
Qed.

(** ** A module constructed with num_layers = 0 *)

Section one_layer.
Context {F : Type} `{Scalar F}.
Implicit Types (X : Tensor F).

(** The first slice of [a] along its first axis, as [ops.split] returns
    it. *)
Let slice (a : Tensor F) (sh : list nat) : Tensor F :=
  tabulate sh (λ idx, get a (0 :: idx)) (requires_grad a).

Lemma RNN_over_time_prefix (cell : RNNCell.t F) (Xs : list (Tensor F)) :
  ∀ h hs r, RNN.over_time cell Xs h hs = Some r → ∃ new, r = hs ++ new.
Proof.
  induction Xs as [|X Xs IH]; intros h hs r; cbn [RNN.over_time].
  - intros [= <-]. exists []. by rewrite app_nil_r.
  - destruct (RNNCell.forward cell X (Some h)) as [h'|]; [|done].
    cbn [mbind option_bind]. intros Hr. destruct (IH _ _ _ Hr) as [new ->].
    exists (h' :: new). by rewrite <-app_assoc.
Qed.

Lemma RNN_over_time_first (cell : RNNCell.t F) X0 (Xs : list (Tensor F)) h_prev r :
  RNN.over_time cell (X0 :: Xs) h_prev [] = Some r →
  ∃ h1, RNNCell.forward cell X0 (Some h_prev) = Some h1 ∧ r !! 0 = Some h1.
Proof.
  cbn [RNN.over_time].
  destruct (RNNCell.forward cell X0 (Some h_prev)) as [h1|]; [|done].
  cbn [mbind option_bind app]. intros Hr.
  destruct (RNN_over_time_prefix _ _ _ _ _ Hr) as [new ->]. by exists h1.
Qed.

Lemma LSTM_over_time_prefix (cell : LSTMCell.t F) (Xs : list (Tensor F)) :
  ∀ h c hs cs rh rc,
    LSTM.over_time cell Xs h c hs cs = Some (rh, rc) →
    ∃ new_h new_c, rh = hs ++ new_h ∧ rc = cs ++ new_c.
Proof.
  induction Xs as [|X Xs IH]; intros h c hs cs rh rc; cbn [LSTM.over_time].
  - intros [= <- <-]. exists [], []. by rewrite !app_nil_r.
  - destruct (LSTMCell.forward cell X (Some (h, c))) as [[h' c']|]; [|done].
    cbn [mbind option_bind]. intros Hr.
    destruct (IH _ _ _ _ _ _ Hr) as (new_h & new_c & -> & ->).
    exists (h' :: new_h), (c' :: new_c). by rewrite <-!app_assoc.
Qed.

Lemma LSTM_over_time_first (cell : LSTMCell.t F) X0 (Xs : list (Tensor F))
    h_prev c_prev rh rc :
  LSTM.over_time cell (X0 :: Xs) h_prev c_prev [] [] = Some (rh, rc) →
  ∃ h1 c1, LSTMCell.forward cell X0 (Some (h_prev, c_prev)) = Some (h1, c1) ∧
           rh !! 0 = Some h1.
Proof.
  cbn [LSTM.over_time].
  destruct (LSTMCell.forward cell X0 (Some (h_prev, c_prev))) as [[h1 c1]|]; [|done].
  cbn [mbind option_bind app]. intros Hr.
  destruct (LSTM_over_time_prefix _ _ _ _ _ _ _ _ Hr) as (new_h & new_c & -> & ->).
  by exists h1, c1.
Qed.

Lemma slice_shaped (a : Tensor F) (sh : list nat) : shaped sh (slice a sh).
Proof. split; [done|apply wf_tabulate]. Qed.

(** The forward pass of an RNN with one cell. *)
Lemma RNN_one_layer_forward (cell : RNNCell.t F) X (h0 : option (Tensor F))
    (training : bool) (hidden_size seq_len bs input_size : nat) :
  RNNCell.well_formed cell input_size → RNNCell.hidden_size cell = hidden_size →
  0 < seq_len → shaped [seq_len; bs; input_size] X →
  (∀ h, h0 = Some h → shaped [1; bs; hidden_size] h) →
  ∃ out h_n h1,
    RNN.forward (RNN.mk training hidden_size [cell]) X h0 = Some (out, h_n) ∧
    shaped [seq_len; bs; hidden_size] out ∧
    shaped [1; bs; hidden_size] h_n ∧
    (∀ b j, b < bs → j < hidden_size →
       get h_n [0; b; j] = get out [seq_len - 1; b; j]) ∧
    RNNCell.forward cell (slice X [bs; input_size])
      (Some (slice (default (init.zeros [1; bs; hidden_size]) h0) [bs; hidden_size]))
    = Some h1 ∧
    (∀ b j, b < bs → j < hidden_size → get out [0; b; j] = get h1 [b; j]).
Proof.
  intros Hcell Hhid Hlen HX Hh0.
  set (self := RNN.mk training hidden_size [cell]).
  destruct (RNN_forward_ok self X h0 seq_len bs input_size Hlen)
    as (out & h_n & Hfw & Hout & Hh_n & Hlast); [done|by split_and!|done|done|].
  cbn [self RNN.rnn_cells RNN.hidden_size length] in Hh_n, Hlast.
  set (h0' := default (init.zeros [1; bs; hidden_size]) h0).
  assert (shaped [1; bs; hidden_size] h0') as Hstate.
  { subst h0'. destruct h0 as [h|]; [by apply Hh0|]. split; [done|apply wf_tabulate]. }
  destruct seq_len as [|m]; [lia|].
  pose proof (split_0_Some X (S m) _ (proj1 HX)) as HXs.
  pose proof (split_0_Some h0' 1 _ (proj1 Hstate)) as Hh0s.
  cbn [seq fmap list_fmap] in HXs, Hh0s.
  fold (slice X [bs; input_size]) in HXs. fold (slice h0' [bs; hidden_size]) in Hh0s.
  set (Xs := _ <$> seq 1 m) in HXs.
  assert (Forall (shaped [bs; input_size]) (slice X [bs; input_size] :: Xs)) as HallXs.
  { constructor; [apply slice_shaped|]. subst Xs. apply Forall_fmap, Forall_forall.
    intros k _. split; [done|apply wf_tabulate]. }
  destruct (RNN_over_time_ok cell _ bs input_size Hcell HallXs
              (slice h0' [bs; hidden_size]) [])
    as (hs & Hhs & Hlenhs & Hallhs); [rewrite Hhid; apply slice_shaped|].
  cbn [app] in Hhs. rewrite Hhid in Hallhs.
  destruct (RNN_over_time_first _ _ _ _ _ Hhs) as (h1 & Hh1 & Hhs0).
  assert (hs ≠ []) as Hne by (intros ->; done).
  destruct (stack_0_shaped hs _ Hne Hallhs) as (out' & Hout' & _ & Hgetout').
  assert (out' = out) as ->.
  { unfold RNN.forward in Hfw. rewrite (proj1 HX) in Hfw.
    cbn [self RNN.rnn_cells RNN.hidden_size length] in Hfw. fold h0' in Hfw.
    rewrite Hh0s in Hfw. cbn [mbind option_bind zip zip_with RNN.over_layers] in Hfw.
    rewrite HXs in Hfw. cbn [mbind option_bind] in Hfw. rewrite Hhs in Hfw.
    cbn [mbind option_bind] in Hfw. rewrite Hout' in Hfw.
    cbn [mbind option_bind] in Hfw.
    destruct (last hs) as [h_last|]; [|done].
    cbn [mbind option_bind RNN.over_layers app] in Hfw.
    destruct (ops.stack [h_last] 0); [|done].
    cbn [mbind option_bind] in Hfw. by injection Hfw as -> _. }
  exists out, h_n, h1. split_and!; [done..| | |].
  - intros b j Hb Hj. apply (Hlast [b; j]). apply in_range_2. eauto.
  - done.
  - intros b j Hb Hj. apply (Hgetout' 0 h1 [b; j] Hhs0). apply in_range_2. eauto.
Qed.

(** The forward pass of an LSTM with one cell. *)
Lemma LSTM_one_layer_forward (cell : LSTMCell.t F) X
    (h : option (Tensor F * Tensor F))
    (training : bool) (hidden_size seq_len bs input_size : nat) :
  LSTMCell.well_formed cell input_size → LSTMCell.hidden_size cell = hidden_size →
  0 < seq_len → shaped [seq_len; bs; input_size] X →
  (∀ h0 c0, h = Some (h0, c0) →
     shaped [1; bs; hidden_size] h0 ∧ shaped [1; bs; hidden_size] c0) →
  ∃ out h_n c_n h1 c1,
    LSTM.forward (LSTM.mk training hidden_size [cell]) X h = Some (out, (h_n, c_n)) ∧
    shaped [seq_len; bs; hidden_size] out ∧
    shaped [1; bs; hidden_size] h_n ∧
    shaped [1; bs; hidden_size] c_n ∧
    (∀ b j, b < bs → j < hidden_size →
       get h_n [0; b; j] = get out [seq_len - 1; b; j]) ∧
    LSTMCell.forward cell (slice X [bs; input_size])
      (Some (slice (default (init.zeros [1; bs; hidden_size],
                             init.zeros [1; bs; hidden_size]) h).1
               [bs; hidden_size],
             slice (default (init.zeros [1; bs; hidden_size],
                             init.zeros [1; bs; hidden_size]) h).2
               [bs; hidden_size]))
    = Some (h1, c1) ∧
    (∀ b j, b < bs → j < hidden_size → get out [0; b; j] = get h1 [b; j]).
Proof.
  intros Hcell Hhid Hlen HX Hh.
  set (self := LSTM.mk training hidden_size [cell]).
  destruct (LSTM_forward_ok self X h seq_len bs input_size Hlen)
    as (out & h_n & c_n & Hfw & Hout & Hh_n & Hc_n & Hlast);
    [done|by split_and!|done|done|].
  cbn [self LSTM.lstm_cells LSTM.hidden_size length] in Hh_n, Hc_n, Hlast.
  destruct (default (init.zeros [1; bs; hidden_size], init.zeros [1; bs; hidden_size]) h)
    as [h0' c0'] eqn:Hdefault.
  assert (shaped [1; bs; hidden_size] h0' ∧ shaped [1; bs; hidden_size] c0')
    as [Hstateh Hstatec].
  { destruct h as [[h0 c0]|]; simplify_eq/=; [by apply Hh|].
    split; (split; [done|apply wf_tabulate]). }
  cbn [fst snd].
  destruct seq_len as [|m]; [lia|].
  pose proof (split_0_Some X (S m) _ (proj1 HX)) as HXs.
  pose proof (split_0_Some h0' 1 _ (proj1 Hstateh)) as Hh0s.
  pose proof (split_0_Some c0' 1 _ (proj1 Hstatec)) as Hc0s.
  cbn [seq fmap list_fmap] in HXs, Hh0s, Hc0s.
  fold (slice X [bs; input_size]) in HXs. fold (slice h0' [bs; hidden_size]) in Hh0s.
  fold (slice c0' [bs; hidden_size]) in Hc0s.
  set (Xs := _ <$> seq 1 m) in HXs.
  assert (Forall (shaped [bs; input_size]) (slice X [bs; input_size] :: Xs)) as HallXs.
  { constructor; [apply slice_shaped|]. subst Xs. apply Forall_fmap, Forall_forall.
    intros k _. split; [done|apply wf_tabulate]. }
  destruct (LSTM_over_time_ok cell _ bs input_size Hcell HallXs
              (slice h0' [bs; hidden_size]) (slice c0' [bs; hidden_size]) [] [])
    as (hs & cs & Hover & Hlenhs & Hlencs & Hallhs & Hallcs);
    [rewrite Hhid; apply slice_shaped..|].
  cbn [app] in Hover. rewrite Hhid in Hallhs.
  destruct (LSTM_over_time_first _ _ _ _ _ _ _ Hover) as (h1 & c1 & Hh1 & Hhs0).
  assert (hs ≠ []) as Hne by (intros ->; done).
  destruct (stack_0_shaped hs _ Hne Hallhs) as (out' & Hout' & _ & Hgetout').
  assert (out' = out) as ->.
  { unfold LSTM.forward in Hfw. rewrite (proj1 HX) in Hfw.
    cbn [self LSTM.lstm_cells LSTM.hidden_size length] in Hfw.
    rewrite Hdefault in Hfw.
    rewrite Hh0s, Hc0s in Hfw.
    cbn [mbind option_bind zip zip_with LSTM.over_layers] in Hfw.
    rewrite HXs in Hfw. cbn [mbind option_bind] in Hfw. rewrite Hover in Hfw.
    cbn [mbind option_bind] in Hfw. rewrite Hout' in Hfw.
    cbn [mbind option_bind] in Hfw.
    destruct (last hs) as [h_last|]; [|done]. cbn [mbind option_bind] in Hfw.
    destruct (last cs) as [c_last|]; [|done].
    cbn [mbind option_bind LSTM.over_layers app] in Hfw.
    destruct (ops.stack [h_last] 0); [|done]. cbn [mbind option_bind] in Hfw.
    destruct (ops.stack [c_last] 0); [|done]. cbn [mbind option_bind] in Hfw.
    by injection Hfw as -> _ _. }
  exists out, h_n, c_n, h1, c1. split_and!; [done..| | |].
  - intros b j Hb Hj. apply (Hlast [b; j]). apply in_range_2. eauto.
  - done.
  - intros b j Hb Hj. apply (Hgetout' 0 h1 [b; j] Hhs0). apply in_range_2. eauto.
Qed.
End one_layer.

(** C10.  The constructors of `RNN` and `LSTM` always create the first
    cell and then `num_layers - 1` more when that is positive: the module
    holds max(num_layers, 1) cells.  With `num_layers = 0` the constructor
    does what it does with `num_layers = 1`, from the same generator state
    to the same module and the same next state, and the module holds exactly
    one cell.  A forward pass without an initial state is the pass from the
    all-zero state of shape (1, batch, hidden_size), a leading axis of
    size 1.  With a uniform initializer that returns tensors of the
    requested shape, the forward pass is that of a one-layer module: on a
    sequence of shape (seq_len, batch, input_size), seq_len > 0, with no
    state or a state of shape (1, batch, hidden_size), it returns an output
    of shape (seq_len, batch, hidden_size) and a final state of shape
    (1, batch, hidden_size) whose only slice is the last time step of the
    output, and the first time step of the output is the cell applied to
    the first slice of the input and the only slice of the state. *)
Theorem zero_layers_is_one_layer {F G} `{Scalar F} `{Rand F G}
    (input_size hidden_size : nat) (bias : bool) (nonlinearity : string) (g : G) :
  hidden_size ≠ 0 →
  nonlinearity = "relu"%string ∨ nonlinearity = "tanh"%string →
  let slice (a : Tensor F) (sh : list nat) :=
    tabulate sh (λ idx, get a (0 :: idx)) (requires_grad a) in
  (RNN.__init__ input_size hidden_size 0 bias nonlinearity g
   = RNN.__init__ input_size hidden_size 1 bias nonlinearity g ∧
   ∃ rnn g' cell,
     RNN.__init__ input_size hidden_size 0 bias nonlinearity g = (Some rnn, g') ∧
     RNN.rnn_cells rnn = [cell] ∧
     (∀ X seq_len batch features, shape X = [seq_len; batch; features] →
        RNN.forward rnn X None
        = RNN.forward rnn X (Some (init.zeros [1; batch; hidden_size]))) ∧
     ((∀ sh low high g, shaped sh (rand sh low high g).1) →
      ∀ (X : Tensor F) (seq_len batch : nat) (h0 : option (Tensor F)),
        0 < seq_len → shaped [seq_len; batch; input_size] X →
        (∀ h, h0 = Some h → shaped [1; batch; hidden_size] h) →
        ∃ out h_n h1,
          RNN.forward rnn X h0 = Some (out, h_n) ∧
          shaped [seq_len; batch; hidden_size] out ∧
          shaped [1; batch; hidden_size] h_n ∧
          (∀ b j, b < batch → j < hidden_size →
             get h_n [0; b; j] = get out [seq_len - 1; b; j]) ∧
          RNNCell.forward cell (slice X [batch; input_size])
            (Some (slice (default (init.zeros [1; batch; hidden_size]) h0)
                     [batch; hidden_size]))
          = Some h1 ∧
          (∀ b j, b < batch → j < hidden_size → get out [0; b; j] = get h1 [b; j]))) ∧
  (LSTM.__init__ input_size hidden_size 0 bias g
   = LSTM.__init__ input_size hidden_size 1 bias g ∧
   ∃ lstm g' cell,
     LSTM.__init__ input_size hidden_size 0 bias g = (Some lstm, g') ∧
     LSTM.lstm_cells lstm = [cell] ∧
     (∀ X seq_len batch features, shape X = [seq_len; batch; features] →
        LSTM.forward lstm X None
        = LSTM.forward lstm X (Some (init.zeros [1; batch; hidden_size],
                                     init.zeros [1; batch; hidden_size]))) ∧
     ((∀ sh low high g, shaped sh (rand sh low high g).1) →
      ∀ (X : Tensor F) (seq_len batch : nat) (h : option (Tensor F * Tensor F)),
        0 < seq_len → shaped [seq_len; batch; input_size] X →
        (∀ h0 c0, h = Some (h0, c0) →
           shaped [1; batch; hidden_size] h0 ∧ shaped [1; batch; hidden_size] c0) →
        ∃ out h_n c_n h1 c1,
          LSTM.forward lstm X h = Some (out, (h_n, c_n)) ∧
          shaped [seq_len; batch; hidden_size] out ∧
          shaped [1; batch; hidden_size] h_n ∧
          shaped [1; batch; hidden_size] c_n ∧
          (∀ b j, b < batch → j < hidden_size →
             get h_n [0; b; j] = get out [seq_len - 1; b; j]) ∧
          LSTMCell.forward cell (slice X [batch; input_size])
            (Some (slice (default (init.zeros [1; batch; hidden_size],
                                   init.zeros [1; batch; hidden_size]) h).1
                     [batch; hidden_size],
                   slice (default (init.zeros [1; batch; hidden_size],
                                   init.zeros [1; batch; hidden_size]) h).2
                     [batch; hidden_size]))
          = Some (h1, c1) ∧
          (∀ b j, b < batch → j < hidden_size → get out [0; b; j] = get h1 [b; j]))) ∧
  (∀ num_layers : Z,
     ∃ rnn g' lstm g'',
       RNN.__init__ input_size hidden_size num_layers bias nonlinearity g
       = (Some rnn, g') ∧
       length (RNN.rnn_cells rnn) = Z.to_nat (Z.max num_layers 1) ∧
       LSTM.__init__ input_size hidden_size num_layers bias g = (Some lstm, g'') ∧
       length (LSTM.lstm_cells lstm) = Z.to_nat (Z.max num_layers 1)).
Proof.
  intros Hh Hnl slice. split; [|split].
  - split; [done|].
    destruct (RNN_init_total input_size hidden_size 0 bias nonlinearity g Hh Hnl)
      as ([training hid cells] & g' & Hrnn & Hhid & Hcells).
    cbn [RNN.hidden_size RNN.rnn_cells] in Hhid, Hcells. subst hid.
    destruct cells as [|cell [|]]; [done| |done].
    exists (RNN.mk training hidden_size [cell]), g', cell. split_and!; [done..| |].
    + intros X seq_len batch features HshX. unfold RNN.forward. by rewrite HshX.
    + intros Hrand X seq_len batch h0 Hlen HX Hh0.
      destruct (RNN_init_fits Hrand input_size hidden_size 0 bias nonlinearity g Hh Hnl)
        as (rnn' & g'' & Hrnn' & _ & _ & Hfit).
      rewrite Hrnn in Hrnn'. injection Hrnn' as <- _.
      destruct Hfit as (Hcell & Hhidc & _).
      apply (RNN_one_layer_forward cell X h0 training hidden_size seq_len batch
               input_size Hcell Hhidc Hlen HX Hh0).
  - split; [done|].
    destruct (LSTM_init_total input_size hidden_size 0 bias g Hh)
      as ([training hid cells] & g' & Hlstm & Hhid & Hcells).
    cbn [LSTM.hidden_size LSTM.lstm_cells] in Hhid, Hcells. subst hid.
    destruct cells as [|cell [|]]; [done| |done].
    exists (LSTM.mk training hidden_size [cell]), g', cell. split_and!; [done..| |].
    + intros X seq_len batch features HshX. unfold LSTM.forward. by rewrite HshX.
    + intros Hrand X seq_len batch h Hlen HX Hh0.
      destruct (LSTM_init_fits Hrand input_size hidden_size 0 bias g Hh)
        as (lstm' & g'' & Hlstm' & _ & _ & Hfit).
      rewrite Hlstm in Hlstm'. injection Hlstm' as <- _.
      destruct Hfit as (Hcell & Hhidc & _).
      apply (LSTM_one_layer_forward cell X h training hidden_size seq_len batch
               input_size Hcell Hhidc Hlen HX Hh0).
  - intros num_layers.
    destruct (RNN_init_total input_size hidden_size num_layers bias nonlinearity g Hh Hnl)
      as (rnn & g' & Hrnn & _ & Hcells).
    destruct (LSTM_init_total input_size hidden_size num_layers bias g Hh)
      as (lstm & g'' & Hlstm & _ & Hcells').
    by exists rnn, g', lstm, g''.
Qed.

Section zero_layers_example.
#[local] Existing Instance example_rand.

Lemma example_rand_returns_shape (sh : list nat) (low high : R) (g : nat) :
  shaped sh (rand sh low high g).1.
Proof. split; [done|apply wf_tabulate]. Qed.

Lemma zero_layers_is_one_layer_witness :
  let slice (a : Tensor R) (sh : list nat) :=
    tabulate sh (λ idx, get a (0 :: idx)) (requires_grad a) in
  (RNN.__init__ 1 3 0 true "tanh" 0 = RNN.__init__ 1 3 1 true "tanh" 0 ∧
   ∃ rnn g' cell out h_n h1,
     RNN.__init__ 1 3 0 true "tanh" 0 = (Some rnn, g') ∧
     RNN.rnn_cells rnn = [cell] ∧
     RNN.forward rnn example_sequence None
     = RNN.forward rnn example_sequence (Some (init.zeros [1; 1; 3])) ∧
     RNN.forward rnn example_sequence None = Some (out, h_n) ∧
     shaped [2; 1; 3] out ∧
     shaped [1; 1; 3] h_n ∧
     (∀ b j, b < 1 → j < 3 → get h_n [0; b; j] = get out [2 - 1; b; j]) ∧
     RNNCell.forward cell (slice example_sequence [1; 1])
       (Some (slice (init.zeros [1; 1; 3]) [1; 3]))
     = Some h1 ∧
     (∀ b j, b < 1 → j < 3 → get out [0; b; j] = get h1 [b; j])) ∧
  (LSTM.__init__ 1 3 0 true 0 = LSTM.__init__ 1 3 1 true 0 ∧
   ∃ lstm g' cell out h_n c_n h1 c1,
     LSTM.__init__ 1 3 0 true 0 = (Some lstm, g') ∧
     LSTM.lstm_cells lstm = [cell] ∧
     LSTM.forward lstm example_sequence None
     = LSTM.forward lstm example_sequence
         (Some (init.zeros [1; 1; 3], init.zeros [1; 1; 3])) ∧
     LSTM.forward lstm example_sequence None = Some (out, (h_n, c_n)) ∧
     shaped [2; 1; 3] out ∧
     shaped [1; 1; 3] h_n ∧
     shaped [1; 1; 3] c_n ∧
     (∀ b j, b < 1 → j < 3 → get h_n [0; b; j] = get out [2 - 1; b; j]) ∧
     LSTMCell.forward cell (slice example_sequence [1; 1])
       (Some (slice (init.zeros [1; 1; 3]) [1; 3],
              slice (init.zeros [1; 1; 3]) [1; 3]))
     = Some (h1, c1) ∧
     (∀ b j, b < 1 → j < 3 → get out [0; b; j] = get h1 [b; j])) ∧
  (∀ num_layers : Z,
     ∃ rnn g' lstm g'',
       RNN.__init__ 1 3 num_layers true "tanh" 0 = (Some rnn, g') ∧
       length (RNN.rnn_cells rnn) = Z.to_nat (Z.max num_layers 1) ∧
       LSTM.__init__ 1 3 num_layers true 0 = (Some lstm, g'') ∧
       length (LSTM.lstm_cells lstm) = Z.to_nat (Z.max num_layers 1)).
Proof.
  intros slice.
  destruct (zero_layers_is_one_layer 1 3 true "tanh" 0)
    as ((Hrnn01 & rnn & g' & cell & Hrnn & Hcells & Hnone & Hpass)
        & (Hlstm01 & lstm & g'' & lcell & Hlstm & Hlcells & Hlnone & Hlpass)
        & Hlayers).
  - lia.
  - right. reflexivity.
  - assert (shaped [2; 1; 1] example_sequence) as HX by (split; reflexivity).
    destruct (Hpass example_rand_returns_shape example_sequence 2 1 None)
      as (out & h_n & h1 & Hfw & Hout & Hh_n & Hlast & Hh1 & Hfirst);
      [lia|exact HX|discriminate|].
    destruct (Hlpass example_rand_returns_shape example_sequence 2 1 None)
      as (lout & lh_n & lc_n & lh1 & lc1 & Hlfw & Hlout & Hlh_n & Hlc_n & Hllast
          & Hlh1 & Hlfirst);
      [lia|exact HX|discriminate|].
    split; [|split].
    + split; [exact Hrnn01|]. exists rnn, g', cell, out, h_n, h1.
      split; [exact Hrnn|]. split; [exact Hcells|].
      split; [exact (Hnone example_sequence 2 1 1 eq_refl)|].
      split; [exact Hfw|]. split; [exact Hout|]. split; [exact Hh_n|].
      split; [exact Hlast|]. split; [exact Hh1|]. exact Hfirst.
    + split; [exact Hlstm01|]. exists lstm, g'', lcell, lout, lh_n, lc_n, lh1, lc1.
      split; [exact Hlstm|]. split; [exact Hlcells|].
      split; [exact (Hlnone example_sequence 2 1 1 eq_refl)|].
      split; [exact Hlfw|]. split; [exact Hlout|]. split; [exact Hlh_n|].
      split; [exact Hlc_n|]. split; [exact Hllast|]. split; [exact Hlh1|].
      exact Hlfirst.
    + exact Hlayers.
Defined.
End zero_layers_example.

(** * Part XIII: the language model *)

Section language_model.
Context {F G : Type} `{Scalar F} `{Rand F G} `{Initializers F G}.
Implicit Types (self : LanguageModel.t F) (X : Tensor nat).

Lemma run_bind_never {St A B} (m : Run St A) (k : A → Run St B) s :
  (∀ x s', (k x s').1 = None) → ((m ≫= k) s).1 = None.
Proof.
  intros Hk. unfold mbind, Run_bind. destruct (m s) as [[x|] s']; [apply Hk|done].
Qed.

Lemma Embedding_forward_shaped (emb : Embedding.t F) X (seq_len bs : nat) :
  Embedding.well_formed emb →
  shape X = [seq_len; bs] →
  Forall (λ i, i < Embedding.num_embeddings emb) (data X) →
  ∃ Y, Embedding.forward emb X = Some Y ∧
       shaped [seq_len; bs; Embedding.embedding_dim emb] Y.
Proof.
  intros (Hw & Hwwf) HshX Hlabels.
  pose proof (denotes_get _ Hwwf) as DW. rewrite Hw in DW.
  unfold Embedding.forward. rewrite HshX.
  assert (reshape_indices X [seq_len * bs]
          = Some (mkTensor [seq_len * bs] (data X) (requires_grad X))) as Hi.
  { unfold reshape_indices. rewrite decide_True; [done|]. rewrite HshX. simpl. lia. }
  opt_with Hi. set (i := mkTensor [seq_len * bs] (data X) (requires_grad X)) in *.
  assert (∃ one_hot, init.one_hot (Embedding.num_embeddings emb) i = Some one_hot ∧
            denotes one_hot [seq_len * bs; Embedding.num_embeddings emb]
              (λ idx, if decide (last idx = Some (label i (removelast idx)))
                      then sone else szero) false) as (one_hot & Hone & Done).
  { unfold init.one_hot. rewrite decide_True by done. eexists. split; [done|].
    apply denotes_tabulate. }
  opt_with Hone.
  destruct (denotes_matmul _ _ _ _ _ _ _ _ _ Done DW) as (res & Hres & Dres).
  opt_with Hres. destruct Dres as (Hshres & Hwfres & _).
  assert (prod [seq_len; bs; Embedding.embedding_dim emb] = prod (shape res)) as Hp.
  { rewrite Hshres. simpl. lia. }
  rewrite (reshape_Some res _ Hp). eexists. split; [done|]. split; [done|].
  unfold wf in *. cbn [shape data]. by rewrite Hwfres, Hp.
Qed.

Lemma LanguageModel_head_ok self (hidden : Tensor F) (seq_len bs hidden_size : nat)
    (output_size : nat) :
  Linear.well_formed (LanguageModel.linear_layer self) →
  Linear.in_features (LanguageModel.linear_layer self) = hidden_size →
  Linear.out_features (LanguageModel.linear_layer self) = output_size →
  shaped [seq_len; bs; hidden_size] hidden →
  ∃ flat out,
    ops.reshape hidden [seq_len * bs; hidden_size] = Some flat ∧
    Linear.forward (LanguageModel.linear_layer self) flat = Some out ∧
    shaped [seq_len * bs; output_size] out.
Proof.
  intros Hlin Hin Hout [Hsh Hwf].
  assert (prod [seq_len * bs; hidden_size] = prod (shape hidden)) as Hp.
  { rewrite Hsh. simpl. lia. }
  pose proof (reshape_Some hidden _ Hp) as Hflat.
  set (flat := mkTensor [seq_len * bs; hidden_size] (data hidden)
                 (requires_grad hidden)) in *.
  assert (wf flat) as Hwfflat by (by eapply reshape_wf).
  destruct (Linear_forward_denotes (LanguageModel.linear_layer self) flat
              (seq_len * bs) Hlin) as (out & rg & Hfw & Hshout & Hwfout & _);
    [by rewrite Hin|done|].
  exists flat, out. rewrite Hout in Hshout. by split_and!.
Qed.

Lemma LanguageModel_forward_ok self X
    (h : option (LanguageModel.state (LanguageModel.seq2seq self)))
    (seq_len bs embedding_size output_size hidden_size : nat) :
  LanguageModel.well_formed self embedding_size output_size hidden_size →
  0 < seq_len → shape X = [seq_len; bs] →
  Forall (λ i, i < output_size) (data X) →
  (∀ h0, h = Some h0 →
     LanguageModel.state_shaped (LanguageModel.seq2seq self)
       [LanguageModel.num_layers (LanguageModel.seq2seq self); bs; hidden_size] h0) →
  ∃ out last,
    LanguageModel.forward self X h = Some (out, last) ∧
    shaped [seq_len * bs; output_size] out ∧
    LanguageModel.state_shaped (LanguageModel.seq2seq self)
      [LanguageModel.num_layers (LanguageModel.seq2seq self); bs; hidden_size] last.
Proof.
  intros (Hemb & Hn & Hd & Hseq & Hlin & Hin & Hout) Hlen HshX Hidx Hh.
  rewrite <-Hn in Hidx.
  destruct (Embedding_forward_shaped _ X seq_len bs Hemb HshX Hidx)
    as (embeddings & Hembeddings & Hshe).
  rewrite Hd in Hshe.
  pose proof (λ hidden, LanguageModel_head_ok self hidden seq_len bs hidden_size
                          output_size Hlin Hin Hout) as Hhead.
  unfold LanguageModel.forward. opt_with Hembeddings.
  destruct self as [training emb m lin]. cbn [LanguageModel.seq2seq] in *.
  destruct m as [rnn|lstm];
    cbn [LanguageModel.call_seq2seq LanguageModel.state LanguageModel.state_shaped
         LanguageModel.num_layers] in *.
  - destruct Hseq as (Hhid & Hcells & Hfit). rewrite <-Hhid in *.
    destruct (RNN_forward_ok rnn embeddings h seq_len bs embedding_size
                Hlen Hcells Hfit Hshe Hh) as (hidden & h_n & Hfw & Hshhid & Hshh_n & _).
    opt_with Hfw. cbv beta iota. rewrite (proj1 Hshhid).
    destruct (Hhead hidden Hshhid) as (flat & out & Hflat & Hlinear & Hshout).
    opt_with Hflat. opt_with Hlinear. by exists out, h_n.
  - destruct Hseq as (Hhid & Hcells & Hfit). rewrite <-Hhid in *.
    destruct (LSTM_forward_ok lstm embeddings h seq_len bs embedding_size
                Hlen Hcells Hfit Hshe)
      as (hidden & h_n & c_n & Hfw & Hshhid & Hshh_n & Hshc_n & _).
    { intros h0 c0 ->. apply (Hh (h0, c0) eq_refl). }
    opt_with Hfw. cbv beta iota. rewrite (proj1 Hshhid).
    destruct (Hhead hidden Hshhid) as (flat & out & Hflat & Hlinear & Hshout).
    opt_with Hflat. opt_with Hlinear. by exists out, (h_n, c_n).
Qed.

Lemma LanguageModel_init_raises (embedding_size output_size hidden_size : nat)
    (num_layers : Z) (seq_model : string) (g : G) :
  (seq_model ≠ "rnn"%string ∧ seq_model ≠ "lstm"%string) ∨ hidden_size = 0 →
  (LanguageModel.__init__ embedding_size output_size hidden_size num_layers
     seq_model g).1 = None.
Proof.
  intros Hcase. unfold LanguageModel.__init__. apply run_bind_never.
  intros embedding_layer g1.
  destruct (decide (seq_model = "rnn"%string)) as [->|Hrnn];
    [|destruct (decide (seq_model = "lstm"%string)) as [->|Hlstm]].
  - destruct Hcase as [[? _]| ->]; [done|].
    unfold RNN.__init__, RNNCell.__init__.
    rewrite !run_bind_assoc. by rewrite run_bind_assert_False by (by intros ?).
  - destruct Hcase as [[_ ?]| ->]; [done|].
    unfold LSTM.__init__, LSTMCell.__init__.
    rewrite !run_bind_assoc. by rewrite run_bind_assert_False by (by intros ?).
  - by rewrite run_bind_lift_None.
Qed.

Lemma LanguageModel_init_returns (embedding_size output_size hidden_size : nat)
    (num_layers : Z) (seq_model : string) (g : G) :
  lawful_initializers →
  draws (randn [output_size; embedding_size]) [output_size; embedding_size] →
  hidden_size ≠ 0 → output_size ≠ 0 →
  seq_model = "rnn"%string ∨ seq_model = "lstm"%string →
  ∃ model g',
    LanguageModel.__init__ embedding_size output_size hidden_size num_layers
      seq_model g = (Some model, g') ∧
    LanguageModel.well_formed model embedding_size output_size hidden_size ∧
    LanguageModel.num_layers (LanguageModel.seq2seq model)
    = Z.to_nat (Z.max num_layers 1) ∧
    (seq_model = "rnn"%string ↔ ∃ m, LanguageModel.seq2seq model = LanguageModel.RNN_ m).
Proof.
  intros (Hrand & Hkaiming & _) Hrandn Hh Ho Hseq. unfold LanguageModel.__init__.
  assert (∀ sh low high g0, shaped sh (rand sh low high g0).1) as Hrand'
    by (intros; apply Hrand).
  unfold Embedding.__init__. rewrite run_bind_assoc.
  destruct (Hrandn g) as (w & g1 & Hw & Hshw & Hwfw).
  erewrite run_bind_returns by exact Hw. rewrite run_bind_ret.
  set (emb := Embedding.mk true output_size embedding_size (as_Parameter w)).
  assert (Embedding.well_formed emb) as Hemb by done.
  destruct (decide (seq_model = "rnn"%string)) as [->|Hrnn].
  - destruct (RNN_init_fits Hrand' embedding_size hidden_size num_layers true "tanh" g1
                Hh) as (rnn & g2 & Hrnn & Hhid & Hlen & Hfit); [by right|].
    rewrite !run_bind_assoc. erewrite run_bind_returns by exact Hrnn.
    rewrite !run_bind_ret.
    destruct (Linear_init_returns hidden_size output_size true g2)
      as (lin & g3 & Hlin & Hwflin & Hin & Hout & _);
      [by apply Hkaiming|by intros _; apply Hkaiming|].
    erewrite run_bind_returns by exact Hlin.
    eexists _, g3. split; [done|]. split; [|split].
    + unfold LanguageModel.well_formed.
      cbn [LanguageModel.embedding_layer LanguageModel.seq2seq
           LanguageModel.linear_layer].
      do 3 (split; [done|]). split; [|by split_and!].
      split; [done|]. split; [|done].
      intros Hnil. rewrite Hnil in Hlen. simpl in Hlen. lia.
    + done.
    + split; [by eauto|done].
  - destruct Hseq as [->| ->]; [done|]. rewrite decide_True by done.
    destruct (LSTM_init_fits Hrand' embedding_size hidden_size num_layers true g1 Hh)
      as (lstm & g2 & Hlstm & Hhid & Hlen & Hfit).
    rewrite !run_bind_assoc. erewrite run_bind_returns by exact Hlstm.
    rewrite !run_bind_ret.
    destruct (Linear_init_returns hidden_size output_size true g2)
      as (lin & g3 & Hlin & Hwflin & Hin & Hout & _);
      [by apply Hkaiming|by intros _; apply Hkaiming|].
    erewrite run_bind_returns by exact Hlin.
    eexists _, g3. split; [done|]. split; [|split].
    + unfold LanguageModel.well_formed.
      cbn [LanguageModel.embedding_layer LanguageModel.seq2seq
           LanguageModel.linear_layer].
      do 3 (split; [done|]). split; [|by split_and!].
      split; [done|]. split; [|done].
      intros Hnil. rewrite Hnil in Hlen. simpl in Hlen. lia.
    + done.
    + split; [done|]. by intros [? ?].
Qed.
End language_model.

(** X28.  For a language model whose layers fit each other, word indices X
    of shape (seq_len, bs) with seq_len > 0, all below output_size, and no
    state or a state of shape (num_layers, bs, hidden_size) (a pair of such
    for an LSTM), `LanguageModel.forward` returns (out, h): out has shape
    (seq_len * bs, output_size), and h is a state of shape (num_layers, bs,
    hidden_size) of the same kind. *)
Theorem LanguageModel_forward_shapes {F G : Type} `{Scalar F} `{Initializers F G}
    (self : LanguageModel.t F) (X : Tensor nat)
    (h : option (LanguageModel.state (LanguageModel.seq2seq self)))
    (seq_len bs embedding_size output_size hidden_size : nat) :
  LanguageModel.well_formed self embedding_size output_size hidden_size →
  0 < seq_len → shape X = [seq_len; bs] →
  Forall (λ i, i < output_size) (data X) →
  (∀ h0, h = Some h0 →
     LanguageModel.state_shaped (LanguageModel.seq2seq self)
       [LanguageModel.num_layers (LanguageModel.seq2seq self); bs; hidden_size] h0) →
  ∃ out last,
    LanguageModel.forward self X h = Some (out, last) ∧
    shape out = [seq_len * bs; output_size] ∧ wf out ∧
    LanguageModel.state_shaped (LanguageModel.seq2seq self)
      [LanguageModel.num_layers (LanguageModel.seq2seq self); bs; hidden_size] last.
Proof.
  intros Hself Hlen HshX Hidx Hh.
  destruct (LanguageModel_forward_ok self X h seq_len bs embedding_size output_size
              hidden_size Hself Hlen HshX Hidx Hh) as (out & last & Hfw & [? ?] & Hlast).
  by exists out, last.
Qed.

(** X29.  `LanguageModel(embedding_size, output_size, hidden_size,
    num_layers, seq_model)` raises when seq_model is neither 'rnn' nor
    'lstm' and when hidden_size is 0.  Otherwise, with initializers that
    return tensors of the requested shape and output_size > 0, it returns a
    model whose layers fit each other, with an RNN exactly when seq_model
    is 'rnn' and with max(num_layers, 1) layers; the model maps word
    indices of shape (seq_len, bs) to an output of shape (seq_len * bs,
    output_size). *)
Theorem LanguageModel_init_then_forward {F G : Type} `{Scalar F} `{Rand F G}
    `{Initializers F G}
    (embedding_size output_size hidden_size : nat) (num_layers : Z)
    (seq_model : string) (g : G) (X : Tensor nat) (seq_len bs : nat) :
  lawful_initializers →
  draws (randn [output_size; embedding_size]) [output_size; embedding_size] →
  output_size ≠ 0 → 0 < seq_len → shape X = [seq_len; bs] →
  Forall (λ i, i < output_size) (data X) →
  ((seq_model ≠ "rnn"%string ∧ seq_model ≠ "lstm"%string) ∨ hidden_size = 0 →
   (LanguageModel.__init__ embedding_size output_size hidden_size num_layers
      seq_model g).1 = None) ∧
  (hidden_size ≠ 0 → seq_model = "rnn"%string ∨ seq_model = "lstm"%string →
   ∃ model g' out last,
     LanguageModel.__init__ embedding_size output_size hidden_size num_layers
       seq_model g = (Some model, g') ∧
     LanguageModel.well_formed model embedding_size output_size hidden_size ∧
     LanguageModel.num_layers (LanguageModel.seq2seq model)
     = Z.to_nat (Z.max num_layers 1) ∧
     (seq_model = "rnn"%string
      ↔ ∃ m, LanguageModel.seq2seq model = LanguageModel.RNN_ m) ∧
     LanguageModel.forward model X None = Some (out, last) ∧
     shape out = [seq_len * bs; output_size] ∧ wf out ∧
     LanguageModel.state_shaped (LanguageModel.seq2seq model)
       [LanguageModel.num_layers (LanguageModel.seq2seq model); bs; hidden_size] last).
Proof.
  intros Hlaw Hrandn Ho Hlen HshX Hidx. split.
  - apply LanguageModel_init_raises.
  - intros Hh Hseq.
    destruct (LanguageModel_init_returns embedding_size output_size hidden_size
                num_layers seq_model g Hlaw Hrandn Hh Ho Hseq)
      as (model & g' & Hinit & Hwf & Hlayers & Hkind).
    destruct (LanguageModel_forward_ok model X None seq_len bs embedding_size
                output_size hidden_size Hwf Hlen HshX Hidx)
      as (out & last & Hfw & [? ?] & Hlast); [done|].
    by exists model, g', out, last.
Qed.

(** * Part XIV: the further theorems at concrete inputs *)

Section further_examples.
#[local] Existing Instance example_rand.
#[local] Existing Instance example_initializers.

Lemma wf_as_Parameter {A} (t : Tensor A) : wf t → wf (as_Parameter t).
Proof. done. Qed.

Lemma example_linear_well_formed : Linear.well_formed example_linear.
Proof.
  split; [split; [done|apply wf_as_Parameter, wf_tabulate]|].
  intros b [= <-]. split; [done|apply wf_as_Parameter, wf_tabulate].
Qed.

Lemma example_layer_norm_well_formed : LayerNorm1d.well_formed example_layer_norm.
Proof. repeat split. Qed.

Lemma example_embedding_well_formed : Embedding.well_formed example_embedding.
Proof. by split. Qed.

Lemma example_rnn_cell_well_formed : RNNCell.well_formed example_rnn_cell 1.
Proof.
  split; [by split|]. split; [by split|].
  split; [by intros b [= <-]|by intros b [=]].
Qed.

Lemma example_rnn_fits : rnn_cells_fit 1 1 (RNN.rnn_cells example_rnn).
Proof.
  pose proof example_rnn_cell_well_formed. simpl. by split_and!.
Qed.

Lemma example_lstm_fits : lstm_cells_fit 1 1 (LSTM.lstm_cells example_lstm).
Proof.
  pose proof example_lstm_cell_well_formed. simpl. by split_and!.
Qed.

Lemma example_initializers_draw (fan_in fan_out : nat) (sh : option (list nat)) :
  draws (kaiming_uniform fan_in fan_out sh) (default [fan_in; fan_out] sh).
Proof. intros g. eexists _, _. split; [done|]. split; [done|apply wf_tabulate]. Qed.

Lemma example_randn_draws (sh : list nat) : draws (randn sh) sh.
Proof. intros g. eexists _, _. split; [done|]. split; [done|apply wf_tabulate]. Qed.

Lemma example_initializers_lawful : lawful_initializers.
Proof.
  split; [apply example_rand_returns_shape|].
  split; intros; apply example_initializers_draw.
Qed.

Lemma example_conv_bn_fits (in_channels out_channels kernel_size stride : nat) :
  ConvBN.fits (in_channels, out_channels, kernel_size, stride)
    (example_conv_bn in_channels out_channels kernel_size stride).
Proof.
  unfold ConvBN.fits, example_conv_bn. cbn [ConvBN.conv ConvBN.batch_norm].
  split.
  { split; [done|]. split; [apply wf_as_Parameter, wf_tabulate|].
    split; [done|apply wf_as_Parameter, wf_tabulate]. }
  do 4 (split; [done|]). split; [|done].
  repeat split; apply wf_as_Parameter, wf_tabulate.
Qed.

Lemma example_resnet_well_formed : ResNet9.well_formed example_resnet.
Proof.
  split.
  - unfold example_resnet. cbn [ResNet9.conv_bns]. unfold ResNet9.conv_bn_args.
    cbn [fmap list_fmap].
    repeat (constructor; [apply example_conv_bn_fits|]). constructor.
  - unfold example_resnet. cbn [ResNet9.linears]. unfold ResNet9.linear_args.
    cbn [fmap list_fmap].
    repeat (constructor;
            [split; [|split; [done|split; [done|by eexists]]]|]); [..|constructor].
    all: split; [split; [done|apply wf_as_Parameter, wf_tabulate]|].
    all: intros b [= <-]; split; [done|apply wf_as_Parameter, wf_tabulate].
Qed.

Lemma example_language_model_well_formed :
  LanguageModel.well_formed example_language_model 2 3 1.
Proof.
  unfold LanguageModel.well_formed, example_language_model.
  cbn [LanguageModel.embedding_layer LanguageModel.seq2seq LanguageModel.linear_layer].
  split; [apply example_embedding_well_formed|]. do 2 (split; [done|]).
  split; [|split; [|by split]].
  2: { split; [split; [done|apply wf_as_Parameter, wf_tabulate]|].
       intros b [= <-]. split; [done|apply wf_as_Parameter, wf_tabulate]. }
  split; [done|]. split; [done|]. cbn [RNN.rnn_cells rnn_cells_fit].
  split; [|done].
  split; [split; [done|apply wf_as_Parameter, wf_tabulate]|].
  split; [split; [done|apply wf_as_Parameter, wf_tabulate]|].
  split; by intros b [=].
Qed.
Lemma Linear_forward_affine_witness :
  (2 ≠ Linear.in_features example_linear →
   Linear.forward example_linear example_batch = None) ∧
  (2 = Linear.in_features example_linear →
   ∃ Y, Linear.forward example_linear example_batch = Some Y ∧
        shape Y = [2; Linear.out_features example_linear] ∧ wf Y ∧
        ∀ i j, i < 2 → j < Linear.out_features example_linear →
          get Y [i; j]
          = let xw := ssum ((λ k, get example_batch [i; k]
                                  * get (Linear.weight example_linear) [k; j])%scalar
                              <$> seq 0 (Linear.in_features example_linear)) in
            match Linear.bias example_linear with
            | Some b => (xw + get b [0; j])%scalar
            | None => xw
            end).
Proof.
  apply (Linear_forward_affine example_linear example_batch 2 2).
  - exact example_linear_well_formed.
  - reflexivity.
  - reflexivity.
Defined.

Lemma LayerNorm1d_forward_rows_witness :
  ∃ Y, LayerNorm1d.forward example_layer_norm example_batch = Some Y ∧
       shape Y = [2; LayerNorm1d.dim example_layer_norm] ∧ wf Y ∧
       ∀ i j, i < 2 → j < LayerNorm1d.dim example_layer_norm →
         get Y [i; j]
         = (get (LayerNorm1d.weight example_layer_norm) [j]
            * ((get example_batch [i; j]
                - LayerNorm1d.row_mean example_batch
                    (LayerNorm1d.dim example_layer_norm) i)
               / (LayerNorm1d.row_var example_batch
                    (LayerNorm1d.dim example_layer_norm) i
                  + LayerNorm1d.eps example_layer_norm) ** (1 # 2))
            + get (LayerNorm1d.bias example_layer_norm) [j])%scalar.
Proof.
  apply (LayerNorm1d_forward_rows example_layer_norm example_batch 2).
  - exact example_layer_norm_well_formed.
  - reflexivity.
  - reflexivity.
Defined.

Lemma LayerNorm1d_fresh_rows_are_centred_witness :
  ∃ Y, LayerNorm1d.forward (LayerNorm1d.__init__ 2 (1 / 100000)%R) example_batch
       = Some Y ∧
       ∀ i, i < 2 →
         (0 < LayerNorm1d.row_var example_batch 2 i + 1 / 100000)%R ∧
         (0 < sqrt (LayerNorm1d.row_var example_batch 2 i + 1 / 100000))%R ∧
         ssum ((λ j, get Y [i; j]) <$> seq 0 2) = 0%R.
Proof.
  apply (LayerNorm1d_fresh_rows_are_centred 2 2 (1 / 100000)%R example_batch).
  - lia.
  - lra.
  - reflexivity.
  - reflexivity.
Defined.

Lemma Dropout_forward_modes_witness :
  ∃ Y, Dropout.forward example_dropout example_batch 0 = (Some Y, 1) ∧
       shape Y = shape example_batch ∧ wf Y ∧
       (∀ idx, in_range (shape example_batch) idx →
          get Y idx
          = (get example_batch idx * get (init.ones (shape example_batch)) idx
             / (1 - Dropout.p example_dropout))%R) ∧
       (Dropout.p example_dropout = 0%R →
        (∀ idx, in_range (shape example_batch) idx →
           get (init.ones (shape example_batch) : Tensor R) idx = 1%R) →
        ∀ idx, in_range (shape example_batch) idx → get Y idx = get example_batch idx).
Proof.
  apply (proj2 (Dropout_forward_modes example_dropout example_batch 0 eq_refl)).
  - reflexivity.
  - reflexivity.
  - reflexivity.
  - reflexivity.
Defined.

Lemma Embedding_forward_lookup_witness :
  ∃ Y, Embedding.forward example_embedding example_words = Some Y ∧
       shape Y = [1; 2; Embedding.embedding_dim example_embedding] ∧ wf Y ∧
       ∀ s b j, s < 1 → b < 2 → j < Embedding.embedding_dim example_embedding →
         get Y [s; b; j]
         = get (Embedding.weight example_embedding) [label example_words [s; b]; j].
Proof.
  apply (Embedding_forward_lookup example_embedding example_words 1 2).
  - exact example_embedding_well_formed.
  - reflexivity.
  - reflexivity.
  - repeat constructor.
Defined.

Lemma RNNCell_forward_formula_witness :
  (∃ h', RNNCell.forward example_rnn_cell example_step (Some example_step) = Some h' ∧
         shape h' = [1; RNNCell.hidden_size example_rnn_cell] ∧ wf h' ∧
         ∀ b j, b < 1 → j < RNNCell.hidden_size example_rnn_cell →
           get h' [b; j]
           = RNNCell.activate example_rnn_cell
               (RNNCell.preactivation example_rnn_cell example_step example_step
                  1 b j)) ∧
  (∃ h', RNNCell.forward example_rnn_cell example_step None = Some h' ∧
         shape h' = [1; RNNCell.hidden_size example_rnn_cell] ∧ wf h' ∧
         ∀ b j, b < 1 → j < RNNCell.hidden_size example_rnn_cell →
           get h' [b; j]
           = RNNCell.activate example_rnn_cell
               (RNNCell.preactivation example_rnn_cell example_step
                  (init.zeros [1; RNNCell.hidden_size example_rnn_cell]) 1 b j)).
Proof.
  apply (RNNCell_forward_formula example_rnn_cell example_step example_step 1 1).
  - exact example_rnn_cell_well_formed.
  - reflexivity.
  - reflexivity.
  - reflexivity.
  - reflexivity.
Defined.

Lemma BatchNorm1d_forward_keeps_invariant_witness :
  BatchNorm1d.well_formed
    (BatchNorm1d.forward_passes example_bn [example_batch; example_batch]) ∧
  same_configuration example_bn
    (BatchNorm1d.forward_passes example_bn [example_batch; example_batch]) ∧
  ∃ Y l',
    BatchNorm1d.forward example_batch
      (BatchNorm1d.forward_passes example_bn [example_batch; example_batch])
    = (Some Y, l') ∧
    shape Y = [2; BatchNorm1d.dim example_bn] ∧ wf Y.
Proof.
  apply (BatchNorm1d_forward_keeps_invariant example_bn
           [example_batch; example_batch] example_batch 2).
  - exact example_bn_well_formed.
  - repeat (constructor; [split; [reflexivity|exists 2; reflexivity]|]). constructor.
  - reflexivity.
  - reflexivity.
Defined.

Lemma Conv_forward_returns_only_on_square_witness :
  ∃ Y n size,
    Conv.forward example_conv example_conv_input = Some Y ∧
    shape example_conv_input = [n; Conv.in_channels example_conv; size; size] ∧
    0 < Conv.stride example_conv ∧
    shape Y = [n; Conv.out_channels example_conv;
               (size + 2 * (Conv.kernel_size example_conv / 2)
                - Conv.kernel_size example_conv) / Conv.stride example_conv + 1;
               (size + 2 * (Conv.kernel_size example_conv / 2)
                - Conv.kernel_size example_conv) / Conv.stride example_conv + 1] ∧
    wf Y.
Proof.
  destruct (Conv_forward_shape example_conv example_conv_input 1 5)
    as (_ & _ & Y & _ & _ & _ & HY & _).
  - exact example_conv_well_formed.
  - reflexivity.
  - exists 1. reflexivity.
  - simpl. lia.
  - lia.
  - destruct (Conv_forward_returns_only_on_square example_conv example_conv_input Y
                example_conv_well_formed HY) as (n & size & Hsh & Hs & HshY & HwfY).
    exists Y, n, size. repeat split; assumption.
Defined.

Lemma ConvBN_forward_shape_witness :
  ∃ Y self',
    ConvBN.forward example_conv_input (example_conv_bn 1 2 3 2) = (Some Y, self') ∧
    shape Y = [1; 2; ceil_div 5 2; ceil_div 5 2] ∧ wf Y ∧
    ConvBN.fits (1, 2, 3, 2) self' ∧
    ConvBN.conv self' = ConvBN.conv (example_conv_bn 1 2 3 2) ∧
    ConvBN.training self' = ConvBN.training (example_conv_bn 1 2 3 2) ∧
    same_configuration (ConvBN.batch_norm (example_conv_bn 1 2 3 2))
      (ConvBN.batch_norm self').
Proof.
  apply (ConvBN_forward_shape (example_conv_bn 1 2 3 2) example_conv_input
           1 2 3 2 1 5).
  - exact (example_conv_bn_fits 1 2 3 2).
  - exists 1. reflexivity.
  - lia.
  - lia.
  - reflexivity.
Defined.

Lemma ResNet9_forward_logits_witness :
  (∃ Y self',
     ResNet9.forward example_cifar_image example_resnet = (Some Y, self') ∧
     shape Y = [1; 10] ∧ wf Y ∧
     ResNet9.well_formed self' ∧
     ResNet9.linears self' = ResNet9.linears example_resnet) ∧
  (∃ res self' flat fc,
     Sequential.forward ResNet9.convs example_large_image example_resnet
     = (Some res, self') ∧
     (let m := ceil_div (ceil_div (ceil_div (ceil_div 64 4) 2) 2) 2 in
      1 < m ∧ shape res = [1; 128; m; m] ∧ shape flat = [1; 128 * (m * m)]) ∧
     Flatten.forward res = Some flat ∧
     ResNet9.linears self' !! 0 = Some fc ∧ Linear.in_features fc = 128 ∧
     Linear.forward fc flat = None ∧
     ResNet9.forward example_large_image example_resnet = (None, self') ∧
     ResNet9.well_formed self' ∧
     ResNet9.linears self' = ResNet9.linears example_resnet).
Proof.
  split.
  - apply (ResNet9_forward_logits example_resnet example_cifar_image 1 32).
    + exact example_resnet_well_formed.
    + lia.
    + reflexivity.
    + lia.
  - apply (ResNet9_forward_logits example_resnet example_large_image 1 64).
    + exact example_resnet_well_formed.
    + lia.
    + reflexivity.
    + lia.
Defined.

Lemma Linear_init_then_forward_witness :
  ∃ l g' Y,
    Linear.__init__ 2 3 true 0 = (Some l, g') ∧
    (shape (Linear.weight l) = [2; 3] ∧ wf (Linear.weight l)) ∧
    (∀ b, Linear.bias l = Some b → shape b = [1; 3] ∧ wf b) ∧
    (is_Some (Linear.bias l) ↔ true = true) ∧
    Linear.forward l example_batch = Some Y ∧
    shape Y = [2; 3] ∧ wf Y.
Proof.
  apply (Linear_init_then_forward 2 3 2 true example_batch 0).
  - exact (example_initializers_draw 2 3 None).
  - intros _. exact (example_initializers_draw 3 1 None).
  - reflexivity.
  - reflexivity.
Defined.

Lemma ResNet9_init_then_forward_witness :
  ∃ model g' Y model',
    ResNet9.__init__ (1 / 100000)%R (1 / 10)%R 0 = (Some model, g') ∧
    ResNet9.well_formed model ∧
    ResNet9.forward example_cifar_image model = (Some Y, model') ∧
    shape Y = [1; 10] ∧ wf Y ∧
    ResNet9.well_formed model'.
Proof.
  apply (ResNet9_init_then_forward (1 / 100000)%R (1 / 10)%R 0 example_cifar_image
           1 32).
  - exact example_initializers_lawful.
  - lia.
  - lia.
  - reflexivity.
Defined.

Lemma recurrent_forward_runs_zipped_layers_witness :
  RNN.forward example_rnn example_sequence (Some example_state)
  = RNN.forward (RNN.mk (RNN.training example_rnn) (RNN.hidden_size example_rnn)
                   (take 1 (RNN.rnn_cells example_rnn)))
      example_sequence (Some example_state) ∧
  LSTM.forward example_lstm example_sequence (Some (example_state, example_state))
  = LSTM.forward (LSTM.mk (LSTM.training example_lstm) (LSTM.hidden_size example_lstm)
                    (take 1 (LSTM.lstm_cells example_lstm)))
      example_sequence (Some (example_state, example_state)).
Proof.
  apply (recurrent_forward_runs_zipped_layers example_rnn example_lstm
           example_sequence example_state example_state 1 [1; 1]).
  reflexivity.
Defined.

Lemma recurrent_forward_rejects_empty_sequence_witness :
  (RNN.rnn_cells example_rnn ≠ [] →
   RNN.forward example_rnn example_empty_sequence None = None) ∧
  (LSTM.lstm_cells example_lstm ≠ [] →
   LSTM.forward example_lstm example_empty_sequence None = None).
Proof.
  apply (recurrent_forward_rejects_empty_sequence example_rnn example_lstm
           example_empty_sequence 1 1).
  reflexivity.
Defined.

Lemma recurrent_forward_single_step_witness :
  let slice (a : Tensor R) (sh : list nat) :=
    tabulate sh (λ idx, get a (0 :: idx)) (requires_grad a) in
  RNN.forward (RNN.mk true 1 [example_rnn_cell]) example_state (Some example_state)
  = (h ← RNNCell.forward example_rnn_cell (slice example_state [1; 1])
           (Some (slice example_state [1; 1]));
     out ← ops.stack [h] 0;
     Some (out, out)) ∧
  LSTM.forward (LSTM.mk true 1 [example_lstm_cell]) example_state
    (Some (example_state, example_state))
  = ('(h, c) ← LSTMCell.forward example_lstm_cell (slice example_state [1; 1])
                  (Some (slice example_state [1; 1], slice example_state [1; 1]));
     out ← ops.stack [h] 0;
     c_n ← ops.stack [c] 0;
     Some (out, (out, c_n))).
Proof.
  apply (recurrent_forward_single_step example_rnn_cell example_lstm_cell
           example_state example_state example_state true 1 1 1 [1; 1] [1; 1]).
  - reflexivity.
  - reflexivity.
  - reflexivity.
Defined.

Lemma RNN_forward_shapes_witness :
  ∃ out h_n,
    RNN.forward example_rnn example_sequence None = Some (out, h_n) ∧
    shaped [2; 1; RNN.hidden_size example_rnn] out ∧
    shaped [length (RNN.rnn_cells example_rnn); 1; RNN.hidden_size example_rnn] h_n ∧
    ∀ b j, b < 1 → j < RNN.hidden_size example_rnn →
      get h_n [length (RNN.rnn_cells example_rnn) - 1; b; j] = get out [2 - 1; b; j].
Proof.
  apply (RNN_forward_shapes example_rnn example_sequence None 2 1 1).
  - lia.
  - discriminate.
  - exact example_rnn_fits.
  - split; reflexivity.
  - discriminate.
Defined.

Lemma LSTM_forward_shapes_witness :
  ∃ out h_n c_n,
    LSTM.forward example_lstm example_sequence None = Some (out, (h_n, c_n)) ∧
    shaped [2; 1; LSTM.hidden_size example_lstm] out ∧
    shaped [length (LSTM.lstm_cells example_lstm); 1; LSTM.hidden_size example_lstm]
      h_n ∧
    shaped [length (LSTM.lstm_cells example_lstm); 1; LSTM.hidden_size example_lstm]
      c_n ∧
    ∀ b j, b < 1 → j < LSTM.hidden_size example_lstm →
      get h_n [length (LSTM.lstm_cells example_lstm) - 1; b; j]
      = get out [2 - 1; b; j].
Proof.
  apply (LSTM_forward_shapes example_lstm example_sequence None 2 1 1).
  - lia.
  - discriminate.
  - exact example_lstm_fits.
  - split; reflexivity.
  - discriminate.
Defined.

Lemma recurrent_constructors_cases_witness :
  ∃ rnn g',
    RNN.__init__ 1 1 2 true "tanh" 0 = (Some rnn, g') ∧
    RNN.hidden_size rnn = 1 ∧
    length (RNN.rnn_cells rnn) = Z.to_nat (Z.max 2 1) ∧
    rnn_cells_fit 1 1 (RNN.rnn_cells rnn).
Proof.
  apply (recurrent_constructors_cases 1 1 2 true "tanh" 0 example_rand_returns_shape).
  - discriminate.
  - right. reflexivity.
Defined.

Lemma LanguageModel_forward_shapes_witness :
  ∃ out last,
    LanguageModel.forward example_language_model example_words None
    = Some (out, last) ∧
    shape out = [1 * 2; 3] ∧ wf out ∧
    LanguageModel.state_shaped (LanguageModel.seq2seq example_language_model)
      [LanguageModel.num_layers (LanguageModel.seq2seq example_language_model); 2; 1]
      last.
Proof.
  apply (LanguageModel_forward_shapes example_language_model example_words None
           1 2 2 3 1).
  - exact example_language_model_well_formed.
  - lia.
  - reflexivity.
  - repeat constructor.
  - discriminate.
Defined.

Lemma LanguageModel_init_then_forward_witness :
  ∃ model g' out last,
    LanguageModel.__init__ 2 3 1 1 "rnn" 0 = (Some model, g') ∧
    LanguageModel.well_formed model 2 3 1 ∧
    LanguageModel.num_layers (LanguageModel.seq2seq model) = Z.to_nat (Z.max 1 1) ∧
    ("rnn"%string = "rnn"%string
     ↔ ∃ m, LanguageModel.seq2seq model = LanguageModel.RNN_ m) ∧
    LanguageModel.forward model example_words None = Some (out, last) ∧
    shape out = [1 * 2; 3] ∧ wf out ∧
    LanguageModel.state_shaped (LanguageModel.seq2seq model)
      [LanguageModel.num_layers (LanguageModel.seq2seq model); 2; 1] last.
Proof.
  apply (proj2 (LanguageModel_init_then_forward 2 3 1 1 "rnn" 0 example_words 1 2
                  example_initializers_lawful (example_randn_draws [3; 2])
                  ltac:(discriminate) ltac:(lia) eq_refl
                  ltac:(repeat constructor))).
  - discriminate.
  - left. reflexivity.
Defined.
End further_examples.
